(** * PythonBattleGame: turn queue, minimax playstyles and skill decision tree

    A shallow embedding of [a2_battle_queue.py], [a2_playstyle.py],
    [a2_skill_decision_tree.py] and the skills of [a2_skills.py] that hold no
    decision tree.  Python objects live in an explicit store
    (characters, queues and search nodes are addressed by reference), methods
    are computations in a state-and-exception monad, and unbounded recursion
    and loops carry a fuel argument. *)

From Stdlib Require Import ZArith Lia List Bool.
From stdpp Require Import base list.

Set Warnings "-register-all".

Local Open Scope Z_scope.

(** Python truthiness of an optional list: [None] and [[]] are falsy. *)
Definition truthy {A : Type} (l : option (list A)) : bool :=
  match l with
  | Some (_ :: _) => true
  | _ => false
  end.

(** The test [x is None]. *)
Definition is_None {A : Type} (o : option A) : bool :=
  match o with None => true | Some _ => false end.

(** The skill classes of [a2_skills.py] that hold a cost and a damage and
    nothing else; a skill object is identified with its class. *)
Inductive SkillClass : Type :=
| MageAttack | MageSpecial | RogueAttack | RogueSpecial
| VampireAttack | VampireSpecial | SorcererSpecial.

(** ** Part I: the skill decision tree ([a2_skill_decision_tree.py]) *)

Module SkillTree.
Section Tree.

(** The skill carried by a node and the characters the conditions look at
    are collaborators of the tree; it never inspects them itself. *)
Context {Skill Character : Type}.

(** [SkillDecisionTree]: the four attributes set by [__init__].  The
    attribute [children] is kept as an optional list because
    [get_possible_skills] tests it against [None]. *)
Inductive SkillDecisionTree : Type :=
| Tree (value : Skill) (condition : Character -> Character -> bool)
       (priority : Z) (children : option (list SkillDecisionTree)).

Definition value (t : SkillDecisionTree) : Skill :=
  match t with Tree v _ _ _ => v end.

Definition condition (t : SkillDecisionTree) : Character -> Character -> bool :=
  match t with Tree _ c _ _ => c end.

Definition priority (t : SkillDecisionTree) : Z :=
  match t with Tree _ _ p _ => p end.

Definition children (t : SkillDecisionTree) : option (list SkillDecisionTree) :=
  match t with Tree _ _ _ ch => ch end.

(** [SkillDecisionTree.__init__]:
    [self.children = children[:] if children else []]. *)
Definition __init__ (value : Skill) (condition : Character -> Character -> bool)
    (priority : Z) (children : option (list SkillDecisionTree)) : SkillDecisionTree :=
  Tree value condition priority
       (if truthy children then children else Some []).

(** A node is a leaf when it has no subtree. *)
Definition is_leaf (t : SkillDecisionTree) : bool := negb (truthy (children t)).

(** [SkillDecisionTree.get_possible_skills].  The test [self is None] of the
    source cannot succeed inside a method call and is omitted; the last
    branch (summing over a [None] child list) is excluded by the test before
    it. *)
Fixpoint get_possible_skills (self : SkillDecisionTree)
    (caster target : Character) : list SkillDecisionTree :=
  match self with
  | Tree _ cond _ ch =>
      if negb (cond caster target) || is_None ch then [self]
      else
        match ch with
        | Some l =>
            concat (map (fun child => get_possible_skills child caster target) l)
        | None => []
        end
  end.

(** The loop of [pick_skill]: keep the node seen so far unless a later one has
    a strictly smaller priority number. *)
Definition lower_priority (best x : SkillDecisionTree) : SkillDecisionTree :=
  if priority x <? priority best then x else best.

(** [SkillDecisionTree.pick_skill]. *)
Definition pick_skill (self : SkillDecisionTree)
    (caster target : Character) : option Skill :=
  match get_possible_skills self caster target with
  | [] => None
  | first :: rest =>
      Some (value (fold_left lower_priority (first :: rest) first))
  end.

(** Number of nodes, used to show a node is never among the candidates found
    below it. *)
Fixpoint size (t : SkillDecisionTree) : nat :=
  match t with
  | Tree _ _ _ None => 1
  | Tree _ _ _ (Some l) =>
      S ((fix total (l : list SkillDecisionTree) : nat :=
            match l with
            | [] => O
            | x :: l' => (size x + total l')%nat
            end) l)
  end.

(** *** Properties of the tree *)

Lemma fold_lower_priority (l : list SkillDecisionTree) (best : SkillDecisionTree) :
  (fold_left lower_priority l best = best \/
   In (fold_left lower_priority l best) l) /\
  priority (fold_left lower_priority l best) <= priority best /\
  (forall m, In m l -> priority (fold_left lower_priority l best) <= priority m).
Proof.
  revert best. induction l as [|x l IH]; intros best; simpl.
  - repeat split; [now left | lia | tauto].
  - destruct (IH (lower_priority best x)) as (Hmem & Hle & Hall).
    assert (Hstep : priority (lower_priority best x) <= priority best /\
                    priority (lower_priority best x) <= priority x /\
                    (lower_priority best x = best \/ lower_priority best x = x)).
    { unfold lower_priority. destruct (Z.ltb_spec (priority x) (priority best)).
      - repeat split; [lia | lia | now right].
      - repeat split; [lia | lia | now left]. }
    destruct Hstep as (Hb & Hx & Hwhich).
    repeat split.
    + destruct Hmem as [Heq | Hin]; [| now right; right].
      rewrite Heq. destruct Hwhich as [-> | ->]; [now left | now right; left].
    + lia.
    + intros m [<- | Hm]; [lia | now apply Hall].
Qed.

Lemma size_positive (t : SkillDecisionTree) : (0 < size t)%nat.
Proof. destruct t as [v c p [l|]]; simpl; lia. Qed.

(** Induction over a tree with the hypothesis available for every subtree. *)
Fixpoint tree_induction (P : SkillDecisionTree -> Prop)
    (step : forall v c p ch,
        match ch with
        | Some l => Forall P l
        | None => True
        end -> P (Tree v c p ch))
    (t : SkillDecisionTree) {struct t} : P t :=
  match t with
  | Tree v c p ch =>
      step v c p ch
        (match ch as o return (match o with
                               | Some l => Forall P l
                               | None => True
                               end) with
         | Some l =>
             (fix all (l : list SkillDecisionTree) : Forall P l :=
                match l with
                | [] => @ListDef.Forall_nil _ P
                | x :: l' =>
                    @ListDef.Forall_cons _ P x l' (tree_induction P step x) (all l')
                end) l
         | None => I
         end)
  end.

(** A candidate found in a tree is no larger than the tree. *)
Lemma candidate_size (t : SkillDecisionTree) (caster target : Character) :
  forall n, In n (get_possible_skills t caster target) -> (size n <= size t)%nat.
Proof.
  induction t as [v c p ch IH] using tree_induction.
  intros n Hn. cbn [get_possible_skills] in Hn.
  destruct (negb (c caster target) || is_None ch) eqn:Htest.
  - destruct Hn as [<- | []]. lia.
  - destruct ch as [l|]; [| destruct Hn].
    clear Htest. revert IH Hn. induction l as [|x l IHl]; intros IH Hn; [destruct Hn |].
    cbn [map concat] in Hn. apply in_app_or in Hn.
    apply Forall_cons in IH. destruct IH as [Hx Hl].
    destruct Hn as [Hn | Hn].
    + specialize (Hx n Hn). simpl. lia.
    + specialize (IHl Hl Hn). simpl in IHl |- *. lia.
Qed.

(** A node whose condition fails is its own and only candidate. *)
Lemma get_possible_skills_condition_false (t : SkillDecisionTree)
    (caster target : Character) :
  condition t caster target = false ->
  get_possible_skills t caster target = [t].
Proof. destruct t as [v c p ch]; simpl. intros ->. reflexivity. Qed.

(** A node whose condition holds and that has subtrees hands over to them and
    is not a candidate itself. *)
Lemma get_possible_skills_descend (t : SkillDecisionTree)
    (caster target : Character) (l : list SkillDecisionTree) :
  condition t caster target = true ->
  children t = Some l ->
  get_possible_skills t caster target =
    concat (map (fun child => get_possible_skills child caster target) l) /\
  ~ In t (get_possible_skills t caster target).
Proof.
  destruct t as [v c p ch]; cbn [condition children]. intros Hc ->.
  assert (E : get_possible_skills (Tree v c p (Some l)) caster target =
              concat (map (fun child => get_possible_skills child caster target) l)).
  { cbn [get_possible_skills]. rewrite Hc. reflexivity. }
  split; [exact E |].
  intros Hin. rewrite E in Hin.
  apply in_concat in Hin. destruct Hin as (cands & Hc1 & Hc2).
  apply in_map_iff in Hc1. destruct Hc1 as (child & <- & Hchild).
  pose proof (candidate_size child caster target _ Hc2) as Hsz.
  assert (Hlt : (size child < size (Tree v c p (Some l)))%nat).
  { cbn [size]. clear -Hchild. induction l as [|x l IH]; [destruct Hchild |].
    destruct Hchild as [-> | Hin]; [lia | specialize (IH Hin); lia]. }
  lia.
Qed.

(** C4, at the failing input: a leaf built by [__init__] whose condition
    holds yields no candidate at all, not the leaf itself, because its child
    list is [[]] and never [None]. *)
Theorem get_possible_skills_leaf_condition_true (v : Skill)
    (c : Character -> Character -> bool) (p : Z) (caster target : Character) :
  c caster target = true ->
  is_leaf (__init__ v c p None) = true /\
  get_possible_skills (__init__ v c p None) caster target = [] /\
  pick_skill (__init__ v c p None) caster target = None.
Proof.
  intros Hc. unfold __init__, pick_skill, is_leaf. simpl. rewrite Hc. simpl.
  repeat split.
Qed.

(** C5: [pick_skill] answers [None] exactly when there is no candidate, and
    otherwise the skill of a candidate whose priority number is the smallest;
    with two candidates of priorities 3 and 7 it is the skill of the one of
    priority 3. *)
Theorem pick_skill_smallest_priority (t : SkillDecisionTree)
    (caster target : Character) :
  (get_possible_skills t caster target = [] -> pick_skill t caster target = None) /\
  (get_possible_skills t caster target <> [] ->
   exists n, In n (get_possible_skills t caster target) /\
             pick_skill t caster target = Some (value n) /\
             forall m, In m (get_possible_skills t caster target) ->
                       priority n <= priority m) /\
  (forall n3 n7,
     priority n3 = 3 -> priority n7 = 7 ->
     get_possible_skills t caster target = [n3; n7] \/
     get_possible_skills t caster target = [n7; n3] ->
     pick_skill t caster target = Some (value n3)).
Proof.
  unfold pick_skill.
  destruct (get_possible_skills t caster target) as [|first rest] eqn:E.
  - repeat split; [congruence |].
    intros n3 n7 _ _ [H | H]; discriminate H.
  - split; [discriminate |]. split.
    + intros _.
      destruct (fold_lower_priority (first :: rest) first) as (Hmem & _ & Hall).
      exists (fold_left lower_priority (first :: rest) first).
      repeat split; [| exact Hall].
      destruct Hmem as [-> | Hin]; [now left | exact Hin].
    + intros n3 n7 H3 H7 [H | H]; injection H as -> ->; simpl;
        unfold lower_priority; rewrite ?H3, ?H7; simpl; rewrite ?H3, ?H7; reflexivity.
Qed.

End Tree.

(** A tree with two leaves of priorities 3 and 7 under a root whose condition
    holds; skills are named by numbers. *)
Definition two_leaves : @SkillDecisionTree nat unit :=
  __init__ 0%nat (fun _ _ => true) 5
    (Some [__init__ 7%nat (fun _ _ => false) 7 None;
           __init__ 3%nat (fun _ _ => false) 3 None]).

Lemma pick_skill_smallest_priority_witness :
  pick_skill two_leaves tt tt = Some 3%nat.
Proof.
  destruct (pick_skill_smallest_priority two_leaves tt tt) as (_ & _ & H).
  apply (H (__init__ 3%nat (fun _ _ => false) 3 None)
           (__init__ 7%nat (fun _ _ => false) 7 None));
    [reflexivity | reflexivity | right; reflexivity].
Defined.

Lemma get_possible_skills_leaf_condition_true_witness :
  get_possible_skills (__init__ 1%nat (fun _ _ : unit => true) 1 None) tt tt = [].
Proof.
  apply (get_possible_skills_leaf_condition_true 1%nat (fun _ _ : unit => true) 1 tt tt).
  reflexivity.
Defined.

(** *** Trees built by the constructor, and the default tree *)

Section Built.
Context {Skill Character : Type}.

(** The trees [__init__] can build: the child list is a list, never [None],
    at every node. *)
Fixpoint built (t : @SkillDecisionTree Skill Character) : Prop :=
  match t with
  | Tree _ _ _ None => False
  | Tree _ _ _ (Some l) =>
      (fix all (l : list SkillDecisionTree) : Prop :=
         match l with
         | [] => True
         | x :: l' => built x /\ all l'
         end) l
  end.

Lemma built_children (v : Skill) (c : Character -> Character -> bool) (p : Z)
    (l : list SkillDecisionTree) :
  built (Tree v c p (Some l)) -> Forall built l.
Proof.
  cbn [built]. induction l as [|x l IH]; intros H; [constructor |].
  destruct H as [Hx Hl]. constructor; [exact Hx | exact (IH Hl)].
Qed.

(** X1: in a tree built by [__init__], every candidate that
    [get_possible_skills] answers fails its own condition, leaves included: a
    node whose condition holds is never a candidate. *)
Theorem candidates_fail_own_condition (t : @SkillDecisionTree Skill Character)
    (caster target : Character) (n : SkillDecisionTree) :
  built t ->
  In n (get_possible_skills t caster target) ->
  condition n caster target = false.
Proof.
  revert n. induction t as [v c p ch IH] using tree_induction.
  intros n Hb Hn. destruct ch as [l|]; [| destruct Hb].
  cbn [get_possible_skills is_None] in Hn. rewrite orb_false_r in Hn.
  destruct (c caster target) eqn:Hc; cbn [negb] in Hn.
  - apply built_children in Hb.
    apply in_concat in Hn. destruct Hn as (cands & H1 & H2).
    apply in_map_iff in H1. destruct H1 as (child & <- & Hchild).
    rewrite List.Forall_forall in IH, Hb.
    exact (IH child Hchild n (Hb child Hchild) H2).
  - destruct Hn as [<- | []]. exact Hc.
Qed.

End Built.

Lemma candidates_fail_own_condition_witness :
  built two_leaves /\
  In (__init__ 3%nat (fun _ _ : unit => false) 3 None)
     (get_possible_skills two_leaves tt tt) /\
  condition (__init__ 3%nat (fun _ _ : unit => false) 3 None) tt tt = false.
Proof.
  assert (Hb : built two_leaves) by (simpl; tauto).
  assert (Hin : In (__init__ 3%nat (fun _ _ : unit => false) 3 None)
                   (get_possible_skills two_leaves tt tt))
    by (simpl; tauto).
  split; [exact Hb |]. split; [exact Hin |].
  exact (candidates_fail_own_condition two_leaves tt tt _ Hb Hin).
Defined.

Section DefaultTree.

(** The conditions read the hit points and the skill points of a character
    through its methods [get_hp] and [get_sp]. *)
Context {Character : Type} (get_hp get_sp : Character -> Z).

Definition f_false (_ __ : Character) : bool := false.

Definition f_target_hp_lt_30 (_ target : Character) : bool :=
  get_hp target <? 30.

Definition f_caster_sp_gt_20 (caster _ : Character) : bool :=
  get_sp caster >? 20.

Definition f_target_sp_gt_40 (_ target : Character) : bool :=
  get_sp target >? 40.

Definition f_caster_hp_gt_90 (caster _ : Character) : bool :=
  get_hp caster >? 90.

Definition f_caster_hp_gt_50 (caster _ : Character) : bool :=
  get_hp caster >? 50.

(** [create_default_tree]. *)
Definition create_default_tree : @SkillDecisionTree SkillClass Character :=
  let sdt6 := __init__ RogueAttack f_false 6 None in
  let sdt4 := __init__ RogueSpecial f_target_hp_lt_30 4 (Some [sdt6]) in
  let sdt3 := __init__ MageAttack f_caster_sp_gt_20 3 (Some [sdt4]) in
  let sdt8 := __init__ RogueAttack f_false 8 None in
  let sdt2 := __init__ MageSpecial f_target_sp_gt_40 2 (Some [sdt8]) in
  let sdt7 := __init__ RogueSpecial f_false 7 None in
  let sdt1 := __init__ RogueAttack f_caster_hp_gt_90 1 (Some [sdt7]) in
  __init__ MageAttack f_caster_hp_gt_50 5 (Some [sdt3; sdt2; sdt1]).

(** X2: the default tree always picks a skill, and which one is decided by
    four numbers: [MageAttack] when the caster has at most 50 hit points,
    [RogueAttack] when it has 51 to 90; above 90, [MageSpecial] when the target
    has at most 40 skill points, else [MageAttack] when the caster has at most
    20 skill points, else [RogueSpecial] when the target has at least 30 hit
    points, else [RogueAttack]. *)
Theorem default_tree_decision_table (caster target : Character) :
  pick_skill create_default_tree caster target =
    Some (if get_hp caster <=? 50 then MageAttack
          else if get_hp caster <=? 90 then RogueAttack
          else if get_sp target <=? 40 then MageSpecial
          else if get_sp caster <=? 20 then MageAttack
          else if 30 <=? get_hp target then RogueSpecial
          else RogueAttack).
Proof.
  unfold pick_skill, create_default_tree, __init__.
  cbn [truthy get_possible_skills is_None orb map concat app].
  unfold f_false, f_target_hp_lt_30, f_caster_sp_gt_20, f_target_sp_gt_40,
    f_caster_hp_gt_90, f_caster_hp_gt_50.
  rewrite !Z.gtb_ltb.
  destruct (Z.ltb_spec 50 (get_hp caster)) as [H50|H50];
    destruct (Z.leb_spec (get_hp caster) 50) as [L50|L50]; try lia;
    [| reflexivity].
  destruct (Z.ltb_spec 90 (get_hp caster)) as [H90|H90];
    destruct (Z.leb_spec (get_hp caster) 90) as [L90|L90]; try lia;
  destruct (Z.ltb_spec 40 (get_sp target)) as [H40|H40];
    destruct (Z.leb_spec (get_sp target) 40) as [L40|L40]; try lia;
  destruct (Z.ltb_spec 20 (get_sp caster)) as [H20|H20];
    destruct (Z.leb_spec (get_sp caster) 20) as [L20|L20]; try lia;
  destruct (Z.ltb_spec (get_hp target) 30) as [H30|H30];
    destruct (Z.leb_spec 30 (get_hp target)) as [L30|L30]; try lia;
  reflexivity.
Qed.

End DefaultTree.

End SkillTree.

(** ** Part II: the object store and the monad of method calls *)

(** References to the three kinds of objects the program allocates. *)
Definition cref := nat.
Definition qref := nat.
Definition nref := nat.

(** The strings that name moves: ['A'], ['S'] and ['X'].  Any string a
    character offers that is not ['A'] is played as a special attack by the
    playstyles, as in their [if action == 'A': ... else: ...]. *)
Inductive Key : Type := Key_A | Key_S | Key_X.

Definition Key_eqb (x y : Key) : bool :=
  match x, y with
  | Key_A, Key_A | Key_S, Key_S | Key_X, Key_X => true
  | _, _ => false
  end.

(** The exceptions the modelled code can raise.  [BadReference] stands for a
    reference to an object that was never allocated; Python has none. *)
Inductive Exn : Type :=
| AttributeError | IndexError | TypeError | ValueError | BadReference.

(** [sys.maxsize] on a 64-bit platform. *)
Definition sys_maxsize : Z := 9223372036854775807.

(** A queue object, for any kind of ticket.  [_add_status] is [None] for a
    plain [BattleQueue], which has no such attribute, and the list of
    permission bits for a [RestrictedBattleQueue]. *)
Record Queue (A : Type) : Type := mkQueue {
  _content : list A;
  _p1 : option A;
  _p2 : option A;
  _add_status : option (list bool)
}.

Arguments mkQueue {A} _ _ _ _.
Arguments _content {A} _.
Arguments _p1 {A} _.
Arguments _p2 {A} _.
Arguments _add_status {A} _.

Section Game.

(** The character class is not part of the sources at hand.  What the queue
    and the playstyles need from it is taken as parameters: the attributes a
    character carries ([Stats], with its hit points and skill points), the
    moves it offers given its own attributes and those of its enemy (if it has
    one), and the effect of a move. *)
Context {Stats : Type}.
Variable get_hp_of : Stats -> Z.
Variable get_sp_of : Stats -> Z.
Variable available_actions : Stats -> option Stats -> list Key.

(** [perform is_attack caster target] gives the attributes of the caster and
    of the target after [attack()] ([is_attack = true]) or [special_attack()],
    and the tickets the skill hands to [caster.battle_queue.add], in order
    ([true] for the caster, [false] for the target), as every skill of
    [a2_skills.py] does that enqueues at all ([NormalAttack.use],
    [MageSpecial.use], [RogueSpecial.use], [VampireAttack.use],
    [VampireSpecial.use]). *)
Variable perform : bool -> Stats -> Stats -> Stats * Stats * list bool.

(** A [Character] object: its attributes, its [enemy] and its
    [battle_queue]. *)
Record Character : Type := mkCharacter {
  stats : Stats;
  enemy : option cref;
  battle_queue : qref
}.

(** A [BattleQueue] object of the store: its tickets are references to
    characters. *)
Definition BattleQueue : Type := Queue cref.

(** A [GameStateNode] object of the iterative search. *)
Record GameStateNode : Type := mkNode {
  node_battle_queue : qref;
  current_player : option cref;
  action_taken : Key;
  highest_score : option Z;
  children : option (list nref)
}.

(** The store. *)
Record Heap : Type := mkHeap {
  characters : list Character;
  queues : list BattleQueue;
  nodes : list GameStateNode
}.

Definition empty_heap : Heap := mkHeap [] [] [].

(** The outcome of a call: a value, an exception, or no answer within the
    fuel given. *)
Inductive outcome (A : Type) : Type :=
| Ret (a : A) (h : Heap)
| Raise (e : Exn) (h : Heap)
| OutOfFuel.

Arguments Ret {A} a h.
Arguments Raise {A} e h.
Arguments OutOfFuel {A}.

Definition M (A : Type) : Type := Heap -> outcome A.

Definition ret {A : Type} (a : A) : M A := fun h => Ret a h.

Definition raise {A : Type} (e : Exn) : M A := fun h => Raise e h.

Definition out_of_fuel {A : Type} : M A := fun _ => OutOfFuel.

Definition bind {A B : Type} (m : M A) (k : A -> M B) : M B :=
  fun h =>
    match m h with
    | Ret a h' => k a h'
    | Raise e h' => Raise e h'
    | OutOfFuel => OutOfFuel
    end.

Notation "'let!' x ':=' m 'in' k" := (bind m (fun x => k))
  (at level 10, x name, m at level 100, k at level 200, only parsing).

(** The store after a call, when it answered at all. *)
Definition heap_of {A : Type} (o : outcome A) : option Heap :=
  match o with
  | Ret _ h | Raise _ h => Some h
  | OutOfFuel => None
  end.

(** A [for] loop that collects one value per element. *)
Fixpoint for_each {A B : Type} (l : list A) (body : A -> M B) : M (list B) :=
  match l with
  | [] => ret []
  | x :: l' => let! y := body x in let! ys := for_each l' body in ret (y :: ys)
  end.

(** A [for] loop run for its effect. *)
Fixpoint for_do {A : Type} (l : list A) (body : A -> M unit) : M unit :=
  match l with
  | [] => ret tt
  | x :: l' => let! _ := body x in for_do l' body
  end.

(** Reading, writing and allocating objects. *)
Definition get_character (c : cref) : M Character :=
  fun h =>
    match characters h !! c with
    | Some x => Ret x h
    | None => Raise BadReference h
    end.

Definition set_character (c : cref) (x : Character) : M unit :=
  fun h => Ret tt (mkHeap (<[c := x]> (characters h)) (queues h) (nodes h)).

Definition new_character (x : Character) : M cref :=
  fun h => Ret (length (characters h))
               (mkHeap (characters h ++ [x]) (queues h) (nodes h)).

Definition get_queue (q : qref) : M BattleQueue :=
  fun h =>
    match queues h !! q with
    | Some x => Ret x h
    | None => Raise BadReference h
    end.

Definition set_queue (q : qref) (x : BattleQueue) : M unit :=
  fun h => Ret tt (mkHeap (characters h) (<[q := x]> (queues h)) (nodes h)).

Definition new_queue (x : BattleQueue) : M qref :=
  fun h => Ret (length (queues h))
               (mkHeap (characters h) (queues h ++ [x]) (nodes h)).

Definition get_node (n : nref) : M GameStateNode :=
  fun h =>
    match nodes h !! n with
    | Some x => Ret x h
    | None => Raise BadReference h
    end.

Definition set_node (n : nref) (x : GameStateNode) : M unit :=
  fun h => Ret tt (mkHeap (characters h) (queues h) (<[n := x]> (nodes h))).

Definition new_node (x : GameStateNode) : M nref :=
  fun h => Ret (length (nodes h))
               (mkHeap (characters h) (queues h) (nodes h ++ [x])).

(** Calling a method on a value that may be [None]. *)
Definition deref {A : Type} (o : option A) : M A :=
  match o with
  | Some x => ret x
  | None => raise AttributeError
  end.

(** Identity comparison of two references, and of two optional ones. *)
Definition same (x y : cref) : bool := Nat.eqb x y.

Definition same_opt (x y : option cref) : bool :=
  match x, y with
  | Some a, Some b => Nat.eqb a b
  | None, None => true
  | _, _ => false
  end.

(** ** Part III: what the queue asks of a character *)

(** Modelled from the spec: [Character.get_hp] and [Character.get_sp], the
    current hit points and skill points of an actor. *)
Definition get_hp (c : cref) : M Z :=
  let! x := get_character c in ret (get_hp_of (stats x)).

Definition get_sp (c : cref) : M Z :=
  let! x := get_character c in ret (get_sp_of (stats x)).

(** Modelled from the spec: [Character.get_available_actions], a list drawn
    from the two moves, decided by the actor's attributes and its enemy's. *)
Definition get_available_actions (c : cref) : M (list Key) :=
  let! x := get_character c in
  match enemy x with
  | None => ret (available_actions (stats x) None)
  | Some e =>
      let! y := get_character e in
      ret (available_actions (stats x) (Some (stats y)))
  end.

(** Modelled from the spec: [Character.copy(queue)], an independent clone
    bound to the given queue; its [enemy] is linked by the caller. *)
Definition Character_copy (c : cref) (new_battle_queue : qref) : M cref :=
  let! x := get_character c in
  new_character (mkCharacter (stats x) None new_battle_queue).

Definition set_enemy (c : cref) (e : option cref) : M unit :=
  let! x := get_character c in
  set_character c (mkCharacter (stats x) e (battle_queue x)).

Definition set_stats (c : cref) (s : Stats) : M unit :=
  let! x := get_character c in
  set_character c (mkCharacter s (enemy x) (battle_queue x)).

(** ** Part IV: [BattleQueue] and [RestrictedBattleQueue] *)

(** [BattleQueue.__init__] and [RestrictedBattleQueue.__init__]. *)
Definition BattleQueue_init : BattleQueue := mkQueue [] None None None.

Definition RestrictedBattleQueue_init : BattleQueue :=
  mkQueue [] None None (Some []).

Definition set_content (self : qref) (content : list cref) : M unit :=
  let! q := get_queue self in
  set_queue self (mkQueue content (_p1 q) (_p2 q) (_add_status q)).

(** The loop of [BattleQueue._clean_queue]: pop the front ticket while its
    holder has no move left.  [content] is the list still to inspect. *)
Fixpoint clean_loop (self : qref) (content : list cref) : M unit :=
  match content with
  | [] => ret tt
  | c :: rest =>
      let! actions := get_available_actions c in
      match actions with
      | [] => let! _ := set_content self rest in clean_loop self rest
      | _ :: _ => ret tt
      end
  end.

(** [BattleQueue._clean_queue]. *)
Definition BattleQueue__clean_queue (self : qref) : M unit :=
  let! q := get_queue self in
  clean_loop self (_content q).

(** The slice [status[-n:]] for [n >= 1]. *)
Definition last_n {A : Type} (n : nat) (l : list A) : list A :=
  drop (length l - n)%nat l.

(** [RestrictedBattleQueue._clean_queue]. *)
Definition RestrictedBattleQueue__clean_queue (self : qref) : M unit :=
  let! _ := BattleQueue__clean_queue self in
  let! q := get_queue self in
  let! status := deref (_add_status q) in
  match _content q with
  | [] => set_queue self (mkQueue (_content q) (_p1 q) (_p2 q) (Some []))
  | _ :: _ =>
      set_queue self (mkQueue (_content q) (_p1 q) (_p2 q)
                              (Some (last_n (length (_content q)) status)))
  end.

(** Method lookup: a queue with permission bits is a
    [RestrictedBattleQueue]. *)
Definition _clean_queue (self : qref) : M unit :=
  let! q := get_queue self in
  match _add_status q with
  | None => BattleQueue__clean_queue self
  | Some _ => RestrictedBattleQueue__clean_queue self
  end.

(** [BattleQueue.add]. *)
Definition BattleQueue_add (self : qref) (character : cref) : M unit :=
  let! q := get_queue self in
  let! _ := set_content self (_content q ++ [character]) in
  match _p1 q with
  | Some _ => ret tt
  | None =>
      let! x := get_character character in
      let! q' := get_queue self in
      set_queue self (mkQueue (_content q') (Some character) (enemy x)
                              (_add_status q'))
  end.

(** The two counting loops of [RestrictedBattleQueue], over any kind of
    ticket with an equality test. *)
Section Counting.
Context {A : Type} (eqb : A -> A -> bool).

(** [exist_count]: the number of tickets of [character] in [content]. *)
Fixpoint exist_count_by (content : list A) (character : A) : nat :=
  match content with
  | [] => O
  | c :: rest =>
      if eqb c character then S (exist_count_by rest character)
      else exist_count_by rest character
  end.

(** The loop of [get_add_ability_count]; [None] when [self._add_status[i]] is
    out of range. *)
Fixpoint add_ability_count_by (content : list A) (status : list bool)
    (character : A) : option nat :=
  match content with
  | [] => Some O
  | c :: rest =>
      if eqb c character then
        match status with
        | [] => None
        | b :: status' =>
            match add_ability_count_by rest status' character with
            | Some n => Some (if b then S n else n)
            | None => None
            end
        end
      else add_ability_count_by rest (tail status) character
  end.

End Counting.

Definition exist_count : list cref -> cref -> nat := exist_count_by same.

Definition add_ability_count : list cref -> list bool -> cref -> option nat :=
  add_ability_count_by same.

(** [RestrictedBattleQueue.get_add_ability_count]. *)
Definition get_add_ability_count (self : qref) (character : cref) : M nat :=
  let! q := get_queue self in
  let! status := deref (_add_status q) in
  match add_ability_count (_content q) status character with
  | Some n => ret n
  | None => raise IndexError
  end.

Definition append_ticket (self : qref) (character : cref) (b : bool) : M unit :=
  let! q := get_queue self in
  let! status := deref (_add_status q) in
  set_queue self (mkQueue (_content q ++ [character]) (_p1 q) (_p2 q)
                          (Some (status ++ [b]))).

(** [RestrictedBattleQueue.add]. *)
Definition RestrictedBattleQueue_add (self : qref) (character : cref) : M unit :=
  let! q0 := get_queue self in
  let! _ :=
    match _p1 q0 with
    | Some _ => ret tt
    | None =>
        let! x := get_character character in
        set_queue self (mkQueue (_content q0) (Some character) (enemy x)
                                (_add_status q0))
    end in
  let! q := get_queue self in
  if Nat.eqb (exist_count (_content q) character) 0 then
    append_ticket self character true
  else
    match _content q with
    | [] => raise IndexError
    | front_c :: _ =>
        let! status := deref (_add_status q) in
        match status with
        | [] => raise IndexError
        | front_c_add_status :: _ =>
            if front_c_add_status then
              if same front_c character then
                let! add_ability_count := get_add_ability_count self front_c in
                if (2 <=? add_ability_count)%nat then
                  append_ticket self character false
                else append_ticket self character true
              else append_ticket self character false
            else ret tt
        end
    end.

Definition add (self : qref) (character : cref) : M unit :=
  let! q := get_queue self in
  match _add_status q with
  | None => BattleQueue_add self character
  | Some _ => RestrictedBattleQueue_add self character
  end.

(** [list.pop(0)] on the tickets. *)
Definition pop_content (self : qref) : M cref :=
  let! q := get_queue self in
  match _content q with
  | [] => raise IndexError
  | c :: rest =>
      let! _ := set_queue self (mkQueue rest (_p1 q) (_p2 q) (_add_status q)) in
      ret c
  end.

(** [list.pop(0)] on the permission bits. *)
Definition pop_status (self : qref) : M bool :=
  let! q := get_queue self in
  let! status := deref (_add_status q) in
  match status with
  | [] => raise IndexError
  | b :: rest =>
      let! _ := set_queue self (mkQueue (_content q) (_p1 q) (_p2 q) (Some rest)) in
      ret b
  end.

(** [BattleQueue.remove]. *)
Definition BattleQueue_remove (self : qref) : M cref :=
  let! _ := _clean_queue self in
  pop_content self.

(** [RestrictedBattleQueue.remove]. *)
Definition RestrictedBattleQueue_remove (self : qref) : M cref :=
  let! _ := _clean_queue self in
  let! _ := pop_status self in
  pop_content self.

Definition remove (self : qref) : M cref :=
  let! q := get_queue self in
  match _add_status q with
  | None => BattleQueue_remove self
  | Some _ => RestrictedBattleQueue_remove self
  end.

(** [BattleQueue.is_empty]. *)
Definition is_empty (self : qref) : M bool :=
  let! _ := _clean_queue self in
  let! q := get_queue self in
  ret (match _content q with [] => true | _ :: _ => false end).

(** [BattleQueue.peek]; the answer is [None] when it is [self._p1] and no
    player was ever recorded. *)
Definition peek (self : qref) : M (option cref) :=
  let! _ := _clean_queue self in
  let! q := get_queue self in
  match _content q with
  | c :: _ => ret (Some c)
  | [] => ret (_p1 q)
  end.

(** [BattleQueue.is_over]. *)
Definition is_over (self : qref) : M bool :=
  let! e := is_empty self in
  if e : bool then ret true
  else
    let! q := get_queue self in
    let! p1 := deref (_p1 q) in
    let! hp1 := get_hp p1 in
    if hp1 =? 0 then ret true
    else
      let! p2 := deref (_p2 q) in
      let! hp2 := get_hp p2 in
      if hp2 =? 0 then ret true else ret false.

(** [BattleQueue.get_winner]. *)
Definition get_winner (self : qref) : M (option cref) :=
  let! over := is_over self in
  if negb over then ret None
  else
    let! q := get_queue self in
    let! p1 := deref (_p1 q) in
    let! hp1 := get_hp p1 in
    if hp1 =? 0 then ret (_p2 q)
    else
      let! p2 := deref (_p2 q) in
      let! hp2 := get_hp p2 in
      if hp2 =? 0 then ret (_p1 q) else ret None.

(** The common body of [BattleQueue.copy] and [RestrictedBattleQueue.copy],
    which differ in the class of the queue they create. *)
Definition copy_into (fresh : BattleQueue) (self : qref) : M qref :=
  let! new_battle_queue := new_queue fresh in
  let! q := get_queue self in
  let! p1 := deref (_p1 q) in
  let! p1_copy := Character_copy p1 new_battle_queue in
  let! p2 := deref (_p2 q) in
  let! p2_copy := Character_copy p2 new_battle_queue in
  let! _ := set_enemy p1_copy (Some p2_copy) in
  let! _ := set_enemy p2_copy (Some p1_copy) in
  let! _ := add new_battle_queue p1_copy in
  let! e := is_empty new_battle_queue in
  let! _ := (if e : bool then ret tt
             else let! _ := remove new_battle_queue in ret tt) in
  let! _ := for_do (_content q)
              (fun character =>
                 if same_opt (Some character) (_p1 q)
                 then add new_battle_queue p1_copy
                 else add new_battle_queue p2_copy) in
  ret new_battle_queue.

(** [BattleQueue.copy]. *)
Definition BattleQueue_copy (self : qref) : M qref :=
  copy_into BattleQueue_init self.

(** [RestrictedBattleQueue.copy]. *)
Definition RestrictedBattleQueue_copy (self : qref) : M qref :=
  copy_into RestrictedBattleQueue_init self.

Definition copy (self : qref) : M qref :=
  let! q := get_queue self in
  match _add_status q with
  | None => BattleQueue_copy self
  | Some _ => RestrictedBattleQueue_copy self
  end.

(** Modelled from the spec: [Character.attack] and
    [Character.special_attack], a deterministic transition of the actor and
    its enemy that may enqueue tickets through the actor's own queue. *)
Definition use_skill (is_attack : bool) (caster : cref) : M unit :=
  let! x := get_character caster in
  let! target := deref (enemy x) in
  let! y := get_character target in
  let! _ := set_stats caster (fst (fst (perform is_attack (stats x) (stats y)))) in
  let! _ := set_stats target (snd (fst (perform is_attack (stats x) (stats y)))) in
  for_do (snd (perform is_attack (stats x) (stats y)))
         (fun w => add (battle_queue x) (if w : bool then caster else target)).

Definition attack (self : cref) : M unit := use_skill true self.

Definition special_attack (self : cref) : M unit := use_skill false self.

(** ** Part V: the scorer and the two minimax playstyles ([a2_playstyle.py]) *)

(** [max(scores)] on a list of integers. *)
Fixpoint max_list (x : Z) (l : list Z) : Z :=
  match l with
  | [] => x
  | y :: l' => max_list (Z.max x y) l'
  end.

Definition py_max (scores : list Z) : M Z :=
  match scores with
  | [] => raise ValueError
  | x :: l => ret (max_list x l)
  end.

(** The step both searches take after choosing [action] for the actor
    [current_player] of the copy [temp_bq]: play it, then consume the stale
    front ticket if the actor can still act. *)
Definition play (action : Key) (current_player : cref) (temp_bq : qref) : M unit :=
  let! _ := (match action with
             | Key_A => attack current_player
             | _ => special_attack current_player
             end) in
  let! actions := get_available_actions current_player in
  match actions with
  | [] => ret tt
  | _ :: _ => let! _ := remove temp_bq in ret tt
  end.

(** The body of the loop [for action in actions] of
    [get_state_score_player]; [recur] is the recursive call. *)
Definition score_after (recur : option cref -> qref -> M Z)
    (orignal_player : option cref) (battle_queue : qref) (action : Key) : M Z :=
  let! temp_bq := copy battle_queue in
  let! current_player := peek temp_bq in
  let! front' := peek battle_queue in
  let! player :=
    (if same_opt orignal_player front' then ret current_player
     else let! cp := deref current_player in
          let! x := get_character cp in
          ret (enemy x)) in
  let! cp := deref current_player in
  let! _ := play action cp temp_bq in
  recur player temp_bq.

(** [get_state_score_player]. *)
Fixpoint get_state_score_player (fuel : nat) (orignal_player : option cref)
    (battle_queue : qref) {struct fuel} : M Z :=
  match fuel with
  | O => out_of_fuel
  | S fuel' =>
      let! over := is_over battle_queue in
      if over : bool then
        let! winner := get_winner battle_queue in
        match winner with
        | Some w =>
            if same_opt orignal_player (Some w) then get_hp w
            else let! hp := get_hp w in ret (- hp)
        | None => ret 0
        end
      else
        let! front := peek battle_queue in
        let! front_c := deref front in
        let! actions := get_available_actions front_c in
        let! scores :=
          for_each actions
            (score_after (get_state_score_player fuel') orignal_player
                         battle_queue) in
        py_max scores
  end.

(** [get_state_score]. *)
Definition get_state_score (fuel : nat) (battle_queue : qref) : M Z :=
  let! new_bq := copy battle_queue in
  let! player := peek new_bq in
  get_state_score_player fuel player new_bq.

(** A [for] loop that threads the variables it assigns. *)
Fixpoint for_fold {A S : Type} (l : list A) (s : S) (body : S -> A -> M S) : M S :=
  match l with
  | [] => ret s
  | x :: l' => let! s' := body s x in for_fold l' s' body
  end.

(** The body of the loop of [MinimaxRecursivePlaystyle.select_attack]; the
    loop state [s] is [(highest_score, score_attack, score_special_attack)]. *)
Definition try_action (fuel : nat) (battle_queue : qref)
    (s : Z * Z * Z) (action : Key) : M (Z * Z * Z) :=
  let! temp_bq := copy battle_queue in
  let! highest_score := get_state_score fuel temp_bq in
  let! current_player := peek temp_bq in
  let! cp := deref current_player in
  let! _ := play action cp temp_bq in
  let! score := get_state_score_player fuel current_player temp_bq in
  match action with
  | Key_A => ret (highest_score, score, snd s)
  | _ => ret (highest_score, snd (fst s), score)
  end.

(** [MinimaxRecursivePlaystyle.select_attack]. *)
Definition MinimaxRecursivePlaystyle_select_attack (fuel : nat)
    (battle_queue : qref) : M Key :=
  let! front := peek battle_queue in
  let! front_c := deref front in
  let! actions := get_available_actions front_c in
  match actions with
  | [] => ret Key_X
  | _ :: _ =>
      let! r :=
        for_fold actions (- sys_maxsize, - sys_maxsize, - sys_maxsize)
                 (try_action fuel battle_queue) in
      if fst (fst r) =? snd (fst r) then ret Key_A
      else if fst (fst r) =? snd r then ret Key_S
      else ret Key_X
  end.

(** [GameStateNode.__init__]:
    [self.children = children[:] if children else None]. *)
Definition GameStateNode_init (bq : qref) (player : option cref) (action : Key)
    (children : option (list nref)) : GameStateNode :=
  mkNode bq player action None (if truthy children then children else None).

(** The body of the loop of [get_children_nodes]; [actor] is the local
    variable [current_player] of the source. *)
Definition child_node (parent_node : nref) (bq_copy : qref) (action : Key) : M nref :=
  let! temp_bq := copy bq_copy in
  let! actor := peek temp_bq in
  let! parent' := get_node parent_node in
  let! parent_front := peek (node_battle_queue parent') in
  let! original_player :=
    (if same_opt (current_player parent') parent_front
     then ret actor
     else let! cp := deref actor in
          let! x := get_character cp in
          ret (enemy x)) in
  let! cp := deref actor in
  let! _ := play action cp temp_bq in
  new_node (GameStateNode_init temp_bq original_player
              (match action with Key_A => Key_A | _ => Key_S end) None).

(** [MinimaxIterativePlaystyle.get_children_nodes]. *)
Definition get_children_nodes (parent_node : nref) : M (list nref) :=
  let! parent := get_node parent_node in
  let! bq_copy := copy (node_battle_queue parent) in
  let! front := peek bq_copy in
  let! front_c := deref front in
  let! actions := get_available_actions front_c in
  for_each actions (child_node parent_node bq_copy).

(** [max] over the scores of the children, which are [None] until
    computed: a lone [None] is its own maximum, and comparing [None] with
    anything raises. *)
Fixpoint all_scores (l : list (option Z)) : option (list Z) :=
  match l with
  | [] => Some []
  | Some x :: l' =>
      match all_scores l' with
      | Some xs => Some (x :: xs)
      | None => None
      end
  | None :: _ => None
  end.

Definition py_max_scores (scores : list (option Z)) : M (option Z) :=
  match scores with
  | [] => raise ValueError
  | [x] => ret x
  | _ =>
      match all_scores scores with
      | Some (x :: l) => ret (Some (max_list x l))
      | _ => raise TypeError
      end
  end.

Definition set_highest_score (node : nref) (score : option Z) : M unit :=
  let! nd := get_node node in
  set_node node (mkNode (node_battle_queue nd) (current_player nd)
                        (action_taken nd) score (children nd)).

Definition set_children (node : nref) (l : option (list nref)) : M unit :=
  let! nd := get_node node in
  set_node node (mkNode (node_battle_queue nd) (current_player nd)
                        (action_taken nd) (highest_score nd) l).

(** The body of the [while count > 0] loop of the iterative search: the
    node popped and the rest of the stack give the next stack.  The Python
    stack grows at its end; here its top is the head of the list. *)
Definition visit (node : nref) (stack' : list nref) : M (list nref) :=
  let! nd := get_node node in
  let! over := is_over (node_battle_queue nd) in
  if negb over && is_None (children nd) then
    let! children_nodes := get_children_nodes node in
    let! _ := set_children node (Some children_nodes) in
    ret (rev children_nodes ++ node :: stack')
  else
    let! over' := is_over (node_battle_queue nd) in
    if negb over' && truthy (children nd) then
      let! l := deref (children nd) in
      let! scores :=
        for_each l (fun child =>
                      let! cn := get_node child in
                      ret (highest_score cn)) in
      let! m := py_max_scores scores in
      let! _ := set_highest_score node m in
      ret stack'
    else
      let! winner := get_winner (node_battle_queue nd) in
      let! _ :=
        match winner with
        | Some w =>
            if same_opt (current_player nd) (Some w) then
              let! hp := get_hp w in
              set_highest_score node (Some hp)
            else
              let! hp := get_hp w in
              set_highest_score node (Some (- hp))
        | None => set_highest_score node (Some 0)
        end in
      ret stack'.

(** The loop itself. *)
Fixpoint search_loop (fuel : nat) (stack : list nref) {struct fuel} : M unit :=
  match stack with
  | [] => ret tt
  | node :: stack' =>
      match fuel with
      | O => out_of_fuel
      | S fuel' =>
          let! stack'' := visit node stack' in
          search_loop fuel' stack''
      end
  end.

(** [==] on two scores, either of which may be [None]. *)
Definition same_score (x y : option Z) : bool :=
  match x, y with
  | Some a, Some b => a =? b
  | None, None => true
  | _, _ => false
  end.

(** The [for child in root_node.children] loop that ends
    [MinimaxIterativePlaystyle.select_attack]. *)
Fixpoint first_best (l : list nref) (highest_score_root : option Z)
    (otherwise : Key) : M Key :=
  match l with
  | [] => ret otherwise
  | child :: l' =>
      let! cn := get_node child in
      if same_score (highest_score cn) highest_score_root
      then ret (action_taken cn)
      else first_best l' highest_score_root otherwise
  end.

(** [MinimaxIterativePlaystyle.select_attack]. *)
Definition MinimaxIterativePlaystyle_select_attack (fuel : nat)
    (battle_queue : qref) : M Key :=
  let! front := peek battle_queue in
  let! front_c := deref front in
  let! actions := get_available_actions front_c in
  match actions with
  | [] => ret Key_X
  | _ :: _ =>
      let! bq_copy := copy battle_queue in
      let! player := peek bq_copy in
      let! root_node := new_node (GameStateNode_init bq_copy player Key_X None) in
      let! _ := search_loop fuel [root_node] in
      let! root := get_node root_node in
      match children root with
      | None => raise TypeError
      | Some l => first_best l (highest_score root) (action_taken root)
      end
  end.

(** ** Part VI: the queue methods as functions of the store *)

(** The store with one queue replaced. *)
Definition with_queue (h : Heap) (q : qref) (x : BattleQueue) : Heap :=
  mkHeap (characters h) (<[q := x]> (queues h)) (nodes h).

(** What [get_available_actions] reads. *)
Definition char_actions (cs : list Character) (c : cref) : option (list Key) :=
  match cs !! c with
  | None => None
  | Some x =>
      match enemy x with
      | None => Some (available_actions (stats x) None)
      | Some e =>
          match cs !! e with
          | Some y => Some (available_actions (stats x) (Some (stats y)))
          | None => None
          end
      end
  end.

(** The purge over any kind of ticket, given the moves each holder has. *)
Section Purge.
Context {A : Type} (actions_of : A -> option (list Key)).

(** The tickets left by the purge, and whether it ran to its end. *)
Fixpoint drop_dead (content : list A) : list A * bool :=
  match content with
  | [] => ([], true)
  | c :: rest =>
      match actions_of c with
      | None => (content, false)
      | Some [] => drop_dead rest
      | Some (_ :: _) => (content, true)
      end
  end.

(** The permission bits after the purge left [content]. *)
Definition realign (content : list A) (status : option (list bool)) :
    option (list bool) :=
  match status with
  | None => None
  | Some st =>
      match content with
      | [] => Some []
      | _ :: _ => Some (last_n (length content) st)
      end
  end.

(** The queue object after [_clean_queue]. *)
Definition cleaned (q : Queue A) : Queue A :=
  mkQueue (fst (drop_dead (_content q))) (_p1 q) (_p2 q)
          (realign (fst (drop_dead (_content q))) (_add_status q)).

End Purge.

Arguments realign {A} content status.

Local Abbreviation acts h := (char_actions (characters h)).

(** The decision of [RestrictedBattleQueue.add] once the players are
    recorded: [Some (Some b)] to append a ticket with permission bit [b],
    [Some None] to drop the request, [None] when an index is out of range. *)
Definition permission_by {A : Type} (eqb : A -> A -> bool)
    (content : list A) (st : list bool) (character : A) : option (option bool) :=
  if Nat.eqb (exist_count_by eqb content character) 0 then Some (Some true)
  else
    match content with
    | [] => None
    | front_c :: _ =>
        match st with
        | [] => None
        | front_c_add_status :: _ =>
            if front_c_add_status then
              if eqb front_c character then
                match add_ability_count_by eqb content st front_c with
                | Some n => Some (Some (negb (2 <=? n)%nat))
                | None => None
                end
              else Some (Some false)
            else Some None
        end
    end.

(** The queue object after [add], once the players are recorded. *)
Definition ticket_by {A : Type} (eqb : A -> A -> bool) (q : Queue A)
    (character : A) : Exn + Queue A :=
  match _add_status q with
  | None => inr (mkQueue (_content q ++ [character]) (_p1 q) (_p2 q) None)
  | Some st =>
      match permission_by eqb (_content q) st character with
      | None => inl IndexError
      | Some None => inr q
      | Some (Some b) =>
          inr (mkQueue (_content q ++ [character]) (_p1 q) (_p2 q)
                       (Some (st ++ [b])))
      end
  end.

(** The two [pop(0)] of [remove] on a purged queue: the answer and the queue
    object left behind. *)
Definition pop_front {A : Type} (q : Queue A) : (Exn + A) * Queue A :=
  match _add_status q with
  | None =>
      match _content q with
      | [] => (inl IndexError, q)
      | c :: rest => (inr c, mkQueue rest (_p1 q) (_p2 q) None)
      end
  | Some st =>
      match st with
      | [] => (inl IndexError, q)
      | _ :: st' =>
          match _content q with
          | [] => (inl IndexError, mkQueue [] (_p1 q) (_p2 q) (Some st'))
          | c :: rest => (inr c, mkQueue rest (_p1 q) (_p2 q) (Some st'))
          end
      end
  end.

(** The [if not self._p1] part of [add]; [None] when the character does not
    exist. *)
Definition enrol (cs : list Character) (q : BattleQueue) (character : cref) :
    option BattleQueue :=
  match _p1 q with
  | Some _ => Some q
  | None =>
      match cs !! character with
      | Some x => Some (mkQueue (_content q) (Some character) (enemy x)
                                (_add_status q))
      | None => None
      end
  end.

Lemma heap_eta (h : Heap) : mkHeap (characters h) (queues h) (nodes h) = h.
Proof. destruct h; reflexivity. Qed.

Lemma with_queue_same (h : Heap) (q : qref) (x : BattleQueue) :
  queues h !! q = Some x -> with_queue h q x = h.
Proof.
  intros H. unfold with_queue. rewrite list_insert_id by exact H. apply heap_eta.
Qed.

Lemma with_queue_twice (h : Heap) (q : qref) (x y : BattleQueue) :
  with_queue (with_queue h q x) q y = with_queue h q y.
Proof. unfold with_queue; simpl. now rewrite list_insert_insert_eq. Qed.

Lemma with_queue_lookup (h : Heap) (q : qref) (x y : BattleQueue) :
  queues h !! q = Some x -> queues (with_queue h q y) !! q = Some y.
Proof.
  intros H. simpl. apply list_lookup_insert_eq. eapply lookup_lt_Some; eauto.
Qed.

Lemma bind_Ret {A B : Type} (m : M A) (k : A -> M B) (h h' : Heap) (a : A) :
  m h = Ret a h' -> bind m k h = k a h'.
Proof. unfold bind. now intros ->. Qed.

Lemma bind_Raise {A B : Type} (m : M A) (k : A -> M B) (h h' : Heap) (e : Exn) :
  m h = Raise e h' -> bind m k h = Raise e h'.
Proof. unfold bind. now intros ->. Qed.

Lemma bind_OutOfFuel {A B : Type} (m : M A) (k : A -> M B) (h : Heap) :
  m h = OutOfFuel -> bind m k h = OutOfFuel.
Proof. unfold bind. now intros ->. Qed.

Lemma get_queue_eq (h : Heap) (q : qref) (x : BattleQueue) :
  queues h !! q = Some x -> get_queue q h = Ret x h.
Proof. unfold get_queue. now intros ->. Qed.

Lemma get_character_eq (h : Heap) (c : cref) (x : Character) :
  characters h !! c = Some x -> get_character c h = Ret x h.
Proof. unfold get_character. now intros ->. Qed.

Lemma get_node_eq (h : Heap) (n : nref) (x : GameStateNode) :
  nodes h !! n = Some x -> get_node n h = Ret x h.
Proof. unfold get_node. now intros ->. Qed.

Lemma get_available_actions_eq (h : Heap) (c : cref) :
  get_available_actions c h =
    match char_actions (characters h) c with
    | Some l => Ret l h
    | None => Raise BadReference h
    end.
Proof.
  unfold get_available_actions, char_actions, bind, get_character, ret.
  destruct (characters h !! c) as [x|]; [| reflexivity].
  destruct (enemy x) as [e|]; [| reflexivity].
  destruct (characters h !! e); reflexivity.
Qed.

Lemma get_hp_eq (h : Heap) (c : cref) :
  get_hp c h =
    match characters h !! c with
    | Some x => Ret (get_hp_of (stats x)) h
    | None => Raise BadReference h
    end.
Proof.
  unfold get_hp, bind, get_character, ret.
  destruct (characters h !! c); reflexivity.
Qed.

(** The purge loop, run on the tickets of the queue itself. *)
Lemma clean_loop_eq (self : qref) (content : list cref) :
  forall (h : Heap) (q : BattleQueue),
    queues h !! self = Some q -> _content q = content ->
    clean_loop self content h =
      (if snd (drop_dead (acts h) content)
       then Ret tt (with_queue h self
                      (mkQueue (fst (drop_dead (acts h) content))
                               (_p1 q) (_p2 q) (_add_status q)))
       else Raise BadReference
              (with_queue h self
                 (mkQueue (fst (drop_dead (acts h) content))
                          (_p1 q) (_p2 q) (_add_status q)))).
Proof.
  induction content as [|c rest IH]; intros h q Hq Hc.
  - simpl. unfold ret. rewrite with_queue_same; [reflexivity |].
    rewrite Hq. destruct q; simpl in *; congruence.
  - cbn [clean_loop drop_dead]. unfold bind at 1.
    rewrite get_available_actions_eq.
    destruct (char_actions (characters h) c) as [[|a l]|] eqn:E.
    + set (q1 := mkQueue rest (_p1 q) (_p2 q) (_add_status q)).
      assert (E1 : set_content self rest h = Ret tt (with_queue h self q1)).
      { unfold set_content. erewrite bind_Ret by (apply get_queue_eq; eauto).
        reflexivity. }
      erewrite bind_Ret by exact E1.
      rewrite (IH (with_queue h self q1) q1);
        [| eapply with_queue_lookup; eauto | reflexivity].
      simpl characters. rewrite !with_queue_twice. reflexivity.
    + simpl. unfold ret. rewrite with_queue_same; [reflexivity |].
      rewrite Hq. destruct q; simpl in *; congruence.
    + simpl. rewrite with_queue_same; [reflexivity |].
      rewrite Hq. destruct q; simpl in *; congruence.
Qed.

(** [_clean_queue] on any store in which the queue exists. *)
Lemma _clean_queue_eq (self : qref) (h : Heap) (q : BattleQueue) :
  queues h !! self = Some q ->
  _clean_queue self h =
    (if snd (drop_dead (acts h) (_content q))
     then Ret tt (with_queue h self (cleaned (acts h) q))
     else Raise BadReference
            (with_queue h self
               (mkQueue (fst (drop_dead (acts h) (_content q)))
                        (_p1 q) (_p2 q) (_add_status q)))).
Proof.
  intros Hq. unfold _clean_queue.
  erewrite bind_Ret by (apply get_queue_eq; eauto).
  assert (Hbase : BattleQueue__clean_queue self h =
                  (if snd (drop_dead (acts h) (_content q))
                   then Ret tt (with_queue h self
                      (mkQueue (fst (drop_dead (acts h) (_content q)))
                               (_p1 q) (_p2 q) (_add_status q)))
                   else Raise BadReference (with_queue h self
                      (mkQueue (fst (drop_dead (acts h) (_content q)))
                               (_p1 q) (_p2 q) (_add_status q))))).
  { unfold BattleQueue__clean_queue.
    erewrite bind_Ret by (apply get_queue_eq; eauto).
    now apply clean_loop_eq. }
  destruct (_add_status q) as [st|] eqn:Est.
  - unfold RestrictedBattleQueue__clean_queue. unfold bind at 1. rewrite Hbase.
    destruct (snd (drop_dead (acts h) (_content q))); [| reflexivity].
    erewrite bind_Ret by (apply get_queue_eq; eapply with_queue_lookup; eauto).
    simpl. unfold cleaned, realign, bind, ret. rewrite Est.
    destruct (fst (drop_dead (acts h) (_content q))) eqn:Ed;
      unfold set_queue, with_queue; simpl; rewrite list_insert_insert_eq;
      reflexivity.
  - rewrite Hbase. unfold cleaned, realign. rewrite Est. reflexivity.
Qed.

Lemma _clean_queue_missing (self : qref) (h : Heap) :
  queues h !! self = None -> _clean_queue self h = Raise BadReference h.
Proof.
  intros Hq. unfold _clean_queue, bind, get_queue. now rewrite Hq.
Qed.

(** The purge is idempotent. *)
Lemma drop_dead_idem {A : Type} (cs : A -> option (list Key)) (content : list A) :
  snd (drop_dead cs content) = true ->
  drop_dead cs (fst (drop_dead cs content)) = (fst (drop_dead cs content), true).
Proof.
  induction content as [|c rest IH]; simpl; [reflexivity |].
  destruct (cs c) as [[|a l]|] eqn:E; simpl; intros H.
  - now apply IH.
  - now rewrite E.
  - discriminate H.
Qed.

Lemma last_n_idem {A : Type} (n : nat) (l : list A) :
  last_n n (last_n n l) = last_n n l.
Proof.
  unfold last_n. rewrite length_drop.
  replace (length l - (length l - n) - n)%nat with O by lia. reflexivity.
Qed.

Lemma realign_idem {A : Type} (content : list A) (status : option (list bool)) :
  realign content (realign content status) = realign content status.
Proof.
  destruct status as [st|]; [| reflexivity].
  destruct content; simpl; [reflexivity |]. now rewrite last_n_idem.
Qed.

Lemma cleaned_idem {A : Type} (cs : A -> option (list Key)) (q : Queue A) :
  snd (drop_dead cs (_content q)) = true ->
  cleaned cs (cleaned cs q) = cleaned cs q /\
  snd (drop_dead cs (_content (cleaned cs q))) = true.
Proof.
  intros H. unfold cleaned; simpl. rewrite (drop_dead_idem _ _ H); simpl.
  now rewrite realign_idem.
Qed.

(** A second purge right after a first changes nothing. *)
Lemma _clean_queue_again (self : qref) (h h1 : Heap) :
  _clean_queue self h = Ret tt h1 -> _clean_queue self h1 = Ret tt h1.
Proof.
  intros H. destruct (queues h !! self) as [q|] eqn:Hq.
  - rewrite (_clean_queue_eq _ _ _ Hq) in H.
    destruct (snd (drop_dead (acts h) (_content q))) eqn:Hok;
      [| discriminate H].
    injection H as <-.
    destruct (cleaned_idem _ _ Hok) as [Hid Hok'].
    rewrite (_clean_queue_eq _ _ (cleaned (acts h) q))
      by (eapply with_queue_lookup; eauto).
    simpl characters. rewrite Hok', Hid, with_queue_twice. reflexivity.
  - rewrite (_clean_queue_missing _ _ Hq) in H. discriminate H.
Qed.

(** The answer of [is_empty] and of [peek], read off the purged queue. *)
Definition no_ticket {A : Type} (q : Queue A) : bool :=
  match _content q with [] => true | _ :: _ => false end.

Definition front_or_p1 {A : Type} (q : Queue A) : option A :=
  match _content q with c :: _ => Some c | [] => _p1 q end.

Lemma is_empty_eq (self : qref) (h : Heap) (q : BattleQueue) :
  queues h !! self = Some q ->
  snd (drop_dead (acts h) (_content q)) = true ->
  is_empty self h =
    Ret (no_ticket (cleaned (acts h) q))
        (with_queue h self (cleaned (acts h) q)).
Proof.
  intros Hq Hok. unfold is_empty.
  erewrite bind_Ret by (rewrite (_clean_queue_eq _ _ _ Hq), Hok; reflexivity).
  erewrite bind_Ret by (apply get_queue_eq; eapply with_queue_lookup; eauto).
  reflexivity.
Qed.

Lemma peek_eq (self : qref) (h : Heap) (q : BattleQueue) :
  queues h !! self = Some q ->
  snd (drop_dead (acts h) (_content q)) = true ->
  peek self h =
    Ret (front_or_p1 (cleaned (acts h) q))
        (with_queue h self (cleaned (acts h) q)).
Proof.
  intros Hq Hok. unfold peek.
  erewrite bind_Ret by (rewrite (_clean_queue_eq _ _ _ Hq), Hok; reflexivity).
  erewrite bind_Ret by (apply get_queue_eq; eapply with_queue_lookup; eauto).
  unfold front_or_p1.
  destruct (_content (cleaned (acts h) q)); reflexivity.
Qed.

(** Reading the hit points of a player that may be [None]. *)
Definition read_hp (cs : list Character) (o : option cref) : Exn + Z :=
  match o with
  | None => inl AttributeError
  | Some c =>
      match cs !! c with
      | Some x => inr (get_hp_of (stats x))
      | None => inl BadReference
      end
  end.

(** The answer of [is_over] on a purged queue. *)
Definition over_of (cs : list Character) (q : BattleQueue) : Exn + bool :=
  if no_ticket q then inr true
  else
    match read_hp cs (_p1 q) with
    | inl e => inl e
    | inr hp1 =>
        if hp1 =? 0 then inr true
        else
          match read_hp cs (_p2 q) with
          | inl e => inl e
          | inr hp2 => inr (hp2 =? 0)
          end
    end.

(** The answer of [get_winner] on a purged queue. *)
Definition winner_of (cs : list Character) (q : BattleQueue) : Exn + option cref :=
  match over_of cs q with
  | inl e => inl e
  | inr false => inr None
  | inr true =>
      match read_hp cs (_p1 q) with
      | inl e => inl e
      | inr hp1 =>
          if hp1 =? 0 then inr (_p2 q)
          else
            match read_hp cs (_p2 q) with
            | inl e => inl e
            | inr hp2 => if hp2 =? 0 then inr (_p1 q) else inr None
            end
      end
  end.

Definition answer {A : Type} (r : Exn + A) (h : Heap) : outcome A :=
  match r with
  | inl e => Raise e h
  | inr a => Ret a h
  end.

Lemma deref_get_hp (h : Heap) (o : option cref) {B : Type} (k : Z -> M B) :
  bind (deref o) (fun p => bind (get_hp p) k) h =
    match read_hp (characters h) o with
    | inl e => Raise e h
    | inr hp => k hp h
    end.
Proof.
  destruct o as [c|]; simpl; [| reflexivity].
  unfold bind at 1. unfold ret. unfold bind. rewrite get_hp_eq.
  destruct (characters h !! c); reflexivity.
Qed.

Lemma is_over_eq (self : qref) (h : Heap) (q : BattleQueue) :
  queues h !! self = Some q ->
  snd (drop_dead (acts h) (_content q)) = true ->
  is_over self h =
    answer (over_of (characters h) (cleaned (acts h) q))
           (with_queue h self (cleaned (acts h) q)).
Proof.
  intros Hq Hok. unfold is_over.
  erewrite bind_Ret by (apply is_empty_eq; eauto).
  unfold over_of.
  destruct (no_ticket (cleaned (acts h) q)); [reflexivity |].
  erewrite bind_Ret by (apply get_queue_eq; eapply with_queue_lookup; eauto).
  rewrite deref_get_hp. simpl characters.
  destruct (read_hp (characters h) (_p1 (cleaned (acts h) q))) as [e|hp1];
    [reflexivity |].
  destruct (hp1 =? 0); [reflexivity |].
  rewrite deref_get_hp. simpl characters.
  destruct (read_hp (characters h) (_p2 (cleaned (acts h) q))) as [e|hp2];
    [reflexivity |].
  destruct (hp2 =? 0); reflexivity.
Qed.

(** What a successful [is_over] tells about the store. *)
Lemma is_over_inv (self : qref) (h h1 : Heap) (b : bool) :
  is_over self h = Ret b h1 ->
  exists q,
    queues h !! self = Some q /\
    snd (drop_dead (acts h) (_content q)) = true /\
    h1 = with_queue h self (cleaned (acts h) q) /\
    over_of (characters h) (cleaned (acts h) q) = inr b.
Proof.
  intros H. destruct (queues h !! self) as [q|] eqn:Hq.
  - destruct (snd (drop_dead (acts h) (_content q))) eqn:Hok.
    + rewrite (is_over_eq _ _ _ Hq Hok) in H. exists q.
      destruct (over_of (characters h) (cleaned (acts h) q)); simpl in H;
        [discriminate H |].
      injection H as -> <-. auto.
    + unfold is_over, is_empty in H.
      erewrite bind_Raise in H; [discriminate H |].
      erewrite bind_Raise; [reflexivity |].
      rewrite (_clean_queue_eq _ _ _ Hq), Hok. reflexivity.
  - unfold is_over, is_empty in H.
    erewrite bind_Raise in H; [discriminate H |].
    erewrite bind_Raise; [reflexivity |].
    now apply _clean_queue_missing.
Qed.

Lemma is_over_again (self : qref) (h h1 : Heap) (b : bool) :
  is_over self h = Ret b h1 -> is_over self h1 = Ret b h1.
Proof.
  intros H. destruct (is_over_inv _ _ _ _ H) as (q & Hq & Hok & -> & Hb).
  destruct (cleaned_idem _ _ Hok) as [Hid Hok'].
  rewrite (is_over_eq _ _ (cleaned (acts h) q));
    [| eapply with_queue_lookup; eauto | exact Hok'].
  simpl characters. rewrite Hid, Hb, with_queue_twice. reflexivity.
Qed.

Lemma get_winner_eq (self : qref) (h : Heap) (q : BattleQueue) :
  queues h !! self = Some q ->
  snd (drop_dead (acts h) (_content q)) = true ->
  get_winner self h =
    answer (winner_of (characters h) (cleaned (acts h) q))
           (with_queue h self (cleaned (acts h) q)).
Proof.
  intros Hq Hok. unfold get_winner, winner_of. unfold bind at 1.
  rewrite (is_over_eq _ _ _ Hq Hok).
  destruct (over_of (characters h) (cleaned (acts h) q)) as [e|[|]];
    cbn [answer negb]; [reflexivity | | reflexivity].
  erewrite bind_Ret by (apply get_queue_eq; eapply with_queue_lookup; eauto).
  rewrite deref_get_hp. cbn [characters with_queue].
  destruct (read_hp (characters h) (_p1 (cleaned (acts h) q))) as [e|hp1];
    [reflexivity |].
  destruct (hp1 =? 0); [reflexivity |].
  rewrite deref_get_hp. cbn [characters with_queue].
  destruct (read_hp (characters h) (_p2 (cleaned (acts h) q))) as [e|hp2];
    [reflexivity |].
  destruct (hp2 =? 0); reflexivity.
Qed.


(** ** Part VII: inspecting a queue: [peek], [get_winner] and terminal scores *)

(** With no ticket, [peek] answers whatever [_p1] holds. *)
Lemma peek_no_ticket (h : Heap) (self : qref) (q : BattleQueue) :
  queues h !! self = Some q ->
  _content q = [] ->
  exists h', peek self h = Ret (_p1 q) h'.
Proof.
  intros Hq Hc.
  assert (Hok : snd (drop_dead (acts h) (_content q)) = true)
    by (rewrite Hc; reflexivity).
  rewrite (peek_eq _ _ _ Hq Hok). eexists.
  unfold front_or_p1, cleaned. simpl. rewrite Hc. simpl. reflexivity.
Qed.

(** C10: on a queue that never received a ticket, [peek] answers [None]. *)
Theorem peek_never_populated (h : Heap) (self : qref) (q : BattleQueue) :
  queues h !! self = Some q ->
  _content q = [] ->
  _p1 q = None ->
  exists h', peek self h = Ret None h'.
Proof.
  intros Hq Hc Hp.
  assert (Hok : snd (drop_dead (acts h) (_content q)) = true)
    by (rewrite Hc; reflexivity).
  rewrite (peek_eq _ _ _ Hq Hok). eexists.
  unfold front_or_p1, cleaned. simpl. rewrite Hc. simpl. rewrite Hp. reflexivity.
Qed.

(** A queue just created is such a queue, whatever its class. *)
Lemma peek_new_queue (h : Heap) (fresh : BattleQueue) :
  fresh = BattleQueue_init \/ fresh = RestrictedBattleQueue_init ->
  exists h', bind (new_queue fresh) peek h = Ret None h'.
Proof.
  intros Hf. unfold bind, new_queue.
  replace (@None cref) with (_p1 fresh)
    by (destruct Hf as [-> | ->]; reflexivity).
  apply (peek_no_ticket _ _ fresh).
  - simpl. rewrite lookup_app_r by lia. now rewrite Nat.sub_diag.
  - destruct Hf as [-> | ->]; reflexivity.
Qed.

(** What [get_winner] answers, from what [is_over] answers. *)
Lemma get_winner_after_is_over (h h1 : Heap) (self : qref) (b : bool) :
  is_over self h = Ret b h1 ->
  (b = false -> get_winner self h = Ret None h1) /\
  (b = true ->
   forall q a c xa xc,
     queues h1 !! self = Some q ->
     _p1 q = Some a -> _p2 q = Some c ->
     characters h1 !! a = Some xa -> characters h1 !! c = Some xc ->
     get_winner self h =
       Ret (if get_hp_of (stats xa) =? 0 then Some c
            else if get_hp_of (stats xc) =? 0 then Some a
            else None) h1).
Proof.
  intros H. destruct (is_over_inv _ _ _ _ H) as (q0 & Hq0 & Hok & -> & Hb).
  rewrite (get_winner_eq _ _ _ Hq0 Hok). unfold winner_of. rewrite Hb.
  split; intros ->; [reflexivity |].
  intros q a c xa xc Hq Hp1 Hp2 Ha Hc.
  rewrite (with_queue_lookup _ _ _ _ Hq0) in Hq. injection Hq as <-.
  simpl in Ha, Hc. unfold read_hp. rewrite Hp1, Hp2, Ha, Hc.
  destruct (get_hp_of (stats xa) =? 0); [reflexivity |].
  destruct (get_hp_of (stats xc) =? 0); reflexivity.
Qed.

(** C3, as the code has it: [get_winner] answers [None] unless the game is
    over; when it is over it answers player 2 as soon as player 1 has no hit
    points left (also when player 2 has none either), else player 1 if
    player 2 has none left, else [None]. *)
Theorem get_winner_cases (h h1 : Heap) (self : qref) (b : bool) :
  is_over self h = Ret b h1 ->
  (b = false -> get_winner self h = Ret None h1) /\
  (b = true ->
   forall q a c xa xc,
     queues h1 !! self = Some q ->
     _p1 q = Some a -> _p2 q = Some c ->
     characters h1 !! a = Some xa -> characters h1 !! c = Some xc ->
     get_winner self h =
       Ret (if get_hp_of (stats xa) =? 0 then Some c
            else if get_hp_of (stats xc) =? 0 then Some a
            else None) h1).
Proof.
  intros H. destruct (is_over_inv _ _ _ _ H) as (q0 & Hq0 & Hok & -> & Hb).
  rewrite (get_winner_eq _ _ _ Hq0 Hok). unfold winner_of. rewrite Hb.
  split; intros ->; [reflexivity |].
  intros q a c xa xc Hq Hp1 Hp2 Ha Hc.
  rewrite (with_queue_lookup _ _ _ _ Hq0) in Hq. injection Hq as <-.
  simpl in Ha, Hc. unfold read_hp. rewrite Hp1, Hp2, Ha, Hc.
  destruct (get_hp_of (stats xa) =? 0); [reflexivity |].
  destruct (get_hp_of (stats xc) =? 0); reflexivity.
Qed.

(** C2: on a queue whose game is over, the score of a player is the hit
    points of the only player left standing if that is the player itself, their
    negation if it is the opponent, and 0 when both or neither are left. *)
Theorem terminal_score (fuel : nat) (h h1 : Heap) (self : qref)
    (q : BattleQueue) (a c p : cref) (xa xc : Character) :
  is_over self h = Ret true h1 ->
  queues h1 !! self = Some q ->
  _p1 q = Some a -> _p2 q = Some c ->
  characters h1 !! a = Some xa -> characters h1 !! c = Some xc ->
  p = a \/ p = c ->
  exists s,
    get_state_score_player (S fuel) (Some p) self h = Ret s h1 /\
    (get_hp_of (stats xa) <> 0 -> get_hp_of (stats xc) = 0 ->
     s = if same p a then get_hp_of (stats xa) else - get_hp_of (stats xa)) /\
    (get_hp_of (stats xa) = 0 -> get_hp_of (stats xc) <> 0 ->
     s = if same p c then get_hp_of (stats xc) else - get_hp_of (stats xc)) /\
    (get_hp_of (stats xa) = 0 -> get_hp_of (stats xc) = 0 -> s = 0) /\
    (get_hp_of (stats xa) <> 0 -> get_hp_of (stats xc) <> 0 -> s = 0).
Proof.
  intros H Hq Hp1 Hp2 Ha Hc Hp.
  pose proof (is_over_again _ _ _ _ H) as H'.
  destruct (get_winner_after_is_over _ _ _ _ H') as [_ Hw].
  specialize (Hw eq_refl _ _ _ _ _ Hq Hp1 Hp2 Ha Hc).
  exists (if get_hp_of (stats xa) =? 0
          then (if same p c then get_hp_of (stats xc) else - get_hp_of (stats xc))
          else if get_hp_of (stats xc) =? 0
               then (if same p a then get_hp_of (stats xa)
                     else - get_hp_of (stats xa))
               else 0).
  split.
  - cbn [get_state_score_player].
    erewrite bind_Ret by exact H. cbn beta iota.
    erewrite bind_Ret by exact Hw. cbn beta iota.
    assert (Hhpa : get_hp a h1 = Ret (get_hp_of (stats xa)) h1)
      by (rewrite get_hp_eq, Ha; reflexivity).
    assert (Hhpc : get_hp c h1 = Ret (get_hp_of (stats xc)) h1)
      by (rewrite get_hp_eq, Hc; reflexivity).
    unfold same_opt, same.
    destruct (get_hp_of (stats xa) =? 0).
    + destruct (Nat.eqb p c); [exact Hhpc |].
      erewrite bind_Ret by exact Hhpc. reflexivity.
    + destruct (get_hp_of (stats xc) =? 0); [| reflexivity].
      destruct (Nat.eqb p a); [exact Hhpa |].
      erewrite bind_Ret by exact Hhpa. reflexivity.
  - destruct (Z.eqb_spec (get_hp_of (stats xa)) 0) as [Ea | Ea];
      destruct (Z.eqb_spec (get_hp_of (stats xc)) 0) as [Ec | Ec];
      repeat split; intros; try lia; try reflexivity.
    rewrite Ec. destruct (same p c); reflexivity.
Qed.


(** ** Part VIII: what a call leaves alone *)

(** [frame C Q N h h']: every object of [h] outside the footprint [C], [Q],
    [N] (characters, queues, nodes) is found unchanged in [h'], and no object
    was lost. *)
Definition frame (C : cref -> Prop) (Q : qref -> Prop) (N : nref -> Prop)
    (h h' : Heap) : Prop :=
  (forall c x, ~ C c -> characters h !! c = Some x -> characters h' !! c = Some x) /\
  (forall q x, ~ Q q -> queues h !! q = Some x -> queues h' !! q = Some x) /\
  (forall n x, ~ N n -> nodes h !! n = Some x -> nodes h' !! n = Some x) /\
  (length (characters h) <= length (characters h'))%nat /\
  (length (queues h) <= length (queues h'))%nat /\
  (length (nodes h) <= length (nodes h'))%nat.

Definition nothing : nat -> Prop := fun _ => False.

Definition only (x : nat) : nat -> Prop := fun y => y = x.

Definition either (x y : nat) : nat -> Prop := fun z => z = x \/ z = y.

Lemma frame_refl (C : cref -> Prop) (Q : qref -> Prop) (N : nref -> Prop) (h : Heap) :
  frame C Q N h h.
Proof. unfold frame. repeat split; auto. Qed.

(** Two calls in a row: what the second touches must be new, or already in the
    footprint of the first. *)
Lemma frame_trans (C C' : cref -> Prop) (Q Q' : qref -> Prop)
    (N N' : nref -> Prop) (h h1 h2 : Heap) :
  frame C Q N h h1 ->
  frame C' Q' N' h1 h2 ->
  (forall c, (c < length (characters h))%nat -> C' c -> C c) ->
  (forall q, (q < length (queues h))%nat -> Q' q -> Q q) ->
  (forall n, (n < length (nodes h))%nat -> N' n -> N n) ->
  frame C Q N h h2.
Proof.
  intros (Hc & Hq & Hn & Lc & Lq & Ln) (Hc' & Hq' & Hn' & Lc' & Lq' & Ln') IC IQ IN.
  unfold frame. repeat split; try lia.
  - intros c x Hx Hl. apply Hc'; [| now apply Hc].
    intros HC'. apply Hx, IC; [| exact HC']. eapply lookup_lt_Some; eauto.
  - intros q x Hx Hl. apply Hq'; [| now apply Hq].
    intros HQ'. apply Hx, IQ; [| exact HQ']. eapply lookup_lt_Some; eauto.
  - intros n x Hx Hl. apply Hn'; [| now apply Hn].
    intros HN'. apply Hx, IN; [| exact HN']. eapply lookup_lt_Some; eauto.
Qed.

Lemma frame_weaken (C C' : cref -> Prop) (Q Q' : qref -> Prop)
    (N N' : nref -> Prop) (h h' : Heap) :
  frame C Q N h h' ->
  (forall c, C c -> C' c) -> (forall q, Q q -> Q' q) -> (forall n, N n -> N' n) ->
  frame C' Q' N' h h'.
Proof.
  intros (Hc & Hq & Hn & Lc & Lq & Ln) IC IQ IN.
  unfold frame. repeat split; try lia; intros; eauto.
Qed.

Lemma frame_with_queue (C : cref -> Prop) (Q : qref -> Prop) (N : nref -> Prop)
    (h : Heap) (q : qref) (x : BattleQueue) :
  Q q -> frame C Q N h (with_queue h q x).
Proof.
  intros HQ. unfold frame, with_queue; simpl. rewrite length_insert.
  repeat split; auto.
  intros q' y Hq' Hl. rewrite list_lookup_insert_ne; [exact Hl |].
  intros ->. contradiction.
Qed.

Lemma frame_new_queue (C : cref -> Prop) (Q : qref -> Prop) (N : nref -> Prop)
    (h : Heap) (x : BattleQueue) :
  frame C Q N h (mkHeap (characters h) (queues h ++ [x]) (nodes h)).
Proof.
  unfold frame; simpl. rewrite length_app. repeat split; auto; try lia.
  intros q y _ Hl. now apply lookup_app_l_Some.
Qed.

Lemma frame_new_character (C : cref -> Prop) (Q : qref -> Prop)
    (N : nref -> Prop) (h : Heap) (x : Character) :
  frame C Q N h (mkHeap (characters h ++ [x]) (queues h) (nodes h)).
Proof.
  unfold frame; simpl. rewrite length_app. repeat split; auto; try lia.
  intros c y _ Hl. now apply lookup_app_l_Some.
Qed.

Lemma frame_new_node (C : cref -> Prop) (Q : qref -> Prop) (N : nref -> Prop)
    (h : Heap) (x : GameStateNode) :
  frame C Q N h (mkHeap (characters h) (queues h) (nodes h ++ [x])).
Proof.
  unfold frame; simpl. rewrite length_app. repeat split; auto; try lia.
  intros n y _ Hl. now apply lookup_app_l_Some.
Qed.

Lemma frame_set_character (C : cref -> Prop) (Q : qref -> Prop)
    (N : nref -> Prop) (h : Heap) (c : cref) (x : Character) :
  C c -> frame C Q N h (mkHeap (<[c := x]> (characters h)) (queues h) (nodes h)).
Proof.
  intros HC. unfold frame; simpl. rewrite length_insert.
  repeat split; auto.
  intros c' y Hc' Hl. rewrite list_lookup_insert_ne; [exact Hl |].
  intros ->. contradiction.
Qed.

Lemma frame_set_node (C : cref -> Prop) (Q : qref -> Prop)
    (N : nref -> Prop) (h : Heap) (n : nref) (x : GameStateNode) :
  N n -> frame C Q N h (mkHeap (characters h) (queues h) (<[n := x]> (nodes h))).
Proof.
  intros HN. unfold frame; simpl. rewrite length_insert.
  repeat split; auto.
  intros n' y Hn' Hl. rewrite list_lookup_insert_ne; [exact Hl |].
  intros ->. contradiction.
Qed.


(** *** [add] and [remove] as functions of the store *)

Lemma with_queue_with_queue_lookup (h : Heap) (q : qref) (x y : BattleQueue) :
  queues h !! q = Some x ->
  queues (with_queue h q y) !! q = Some y /\
  characters (with_queue h q y) = characters h.
Proof. intros H. split; [eapply with_queue_lookup; eauto | reflexivity]. Qed.

Lemma add_eq (self : qref) (character : cref) (h : Heap) (q q1 : BattleQueue) :
  queues h !! self = Some q ->
  enrol (characters h) q character = Some q1 ->
  add self character h =
    match ticket_by same q1 character with
    | inr q2 => Ret tt (with_queue h self q2)
    | inl e => Raise e (with_queue h self q1)
    end.
Proof.
  intros Hq He. unfold add.
  erewrite bind_Ret by (apply get_queue_eq; eauto). cbn beta iota.
  unfold enrol in He. unfold ticket_by.
  destruct (_add_status q) as [st|] eqn:Est.
  - (* RestrictedBattleQueue.add *)
    unfold RestrictedBattleQueue_add.
    erewrite bind_Ret by (apply get_queue_eq; eauto). cbn beta iota.
    assert (Hstep :
      (match _p1 q with
       | Some _ => ret tt
       | None =>
           bind (get_character character)
             (fun x => set_queue self (mkQueue (_content q) (Some character)
                                         (enemy x) (_add_status q)))
       end) h = Ret tt (with_queue h self q1)).
    { destruct (_p1 q) as [p|] eqn:Ep.
      - injection He as <-. unfold ret. now rewrite with_queue_same.
      - destruct (characters h !! character) as [x|] eqn:Ex; [| discriminate He].
        injection He as <-.
        erewrite bind_Ret by (apply get_character_eq; eauto). cbn beta iota.
        rewrite Est. reflexivity. }
    erewrite bind_Ret by exact Hstep. cbn beta iota.
    erewrite bind_Ret by (apply get_queue_eq; eapply with_queue_lookup; eauto).
    cbn beta iota.
    assert (Est1 : _add_status q1 = Some st).
    { destruct (_p1 q); [injection He as <-; exact Est |].
      destruct (characters h !! character); [| discriminate He].
      injection He as <-. reflexivity. }
    rewrite Est1.
    assert (Happ : forall b,
      append_ticket self character b (with_queue h self q1) =
      Ret tt (with_queue h self
                (mkQueue (_content q1 ++ [character]) (_p1 q1) (_p2 q1)
                         (Some (st ++ [b]))))).
    { intros b. unfold append_ticket.
      erewrite bind_Ret by (apply get_queue_eq; eapply with_queue_lookup; eauto).
      cbn beta iota. rewrite Est1. unfold deref. unfold bind, ret, set_queue.
      unfold with_queue; simpl. now rewrite list_insert_insert_eq. }
    unfold permission_by. fold (exist_count (_content q1) character).
    destruct (Nat.eqb (exist_count (_content q1) character) 0); [apply Happ |].
    destruct (_content q1) as [|front_c rest] eqn:Ec; [reflexivity |].
    unfold deref. unfold bind at 1. unfold ret at 1.
    destruct st as [|fs st']; [reflexivity |].
    destruct fs; [| reflexivity].
    destruct (same front_c character); [| apply Happ].
    unfold get_add_ability_count.
    unfold bind at 1.
    erewrite bind_Ret by (apply get_queue_eq; eapply with_queue_lookup; eauto).
    cbn beta iota. rewrite Est1. unfold deref. unfold bind at 1. unfold ret at 1.
    rewrite Ec. fold (add_ability_count (front_c :: rest) (true :: st') front_c).
    destruct (add_ability_count (front_c :: rest) (true :: st') front_c) as [n|];
      [| reflexivity].
    unfold ret at 1. destruct (2 <=? n)%nat; apply Happ.
  - (* BattleQueue.add *)
    unfold BattleQueue_add.
    erewrite bind_Ret by (apply get_queue_eq; eauto). cbn beta iota.
    unfold set_content.
    erewrite bind_Ret;
      [| erewrite bind_Ret by (apply get_queue_eq; eauto); reflexivity].
    cbn beta iota.
    destruct (_p1 q) as [p|] eqn:Ep.
    + injection He as <-. rewrite Est, Ep. reflexivity.
    + destruct (characters h !! character) as [x|] eqn:Ex; [| discriminate He].
      injection He as <-. simpl.
      erewrite bind_Ret by (apply get_character_eq; eauto). cbn beta iota.
      erewrite bind_Ret by (apply get_queue_eq; eapply with_queue_lookup; eauto).
      cbn beta iota. unfold set_queue. simpl. rewrite Est.
      unfold with_queue; simpl. now rewrite list_insert_insert_eq.
Qed.

Lemma pop_content_eq (self : qref) (h : Heap) (q : BattleQueue) :
  queues h !! self = Some q ->
  pop_content self h =
    match _content q with
    | [] => Raise IndexError h
    | c :: rest =>
        Ret c (with_queue h self (mkQueue rest (_p1 q) (_p2 q) (_add_status q)))
    end.
Proof.
  intros Hq. unfold pop_content.
  erewrite bind_Ret by (apply get_queue_eq; eauto). cbn beta iota.
  destruct (_content q); reflexivity.
Qed.

Lemma pop_status_eq (self : qref) (h : Heap) (q : BattleQueue) (st : list bool) :
  queues h !! self = Some q ->
  _add_status q = Some st ->
  pop_status self h =
    match st with
    | [] => Raise IndexError h
    | b :: rest =>
        Ret b (with_queue h self (mkQueue (_content q) (_p1 q) (_p2 q) (Some rest)))
    end.
Proof.
  intros Hq Hst. unfold pop_status.
  erewrite bind_Ret by (apply get_queue_eq; eauto). cbn beta iota.
  rewrite Hst. unfold deref. unfold bind at 1. unfold ret at 1.
  destruct st; reflexivity.
Qed.

Lemma remove_eq (self : qref) (h : Heap) (q : BattleQueue) :
  queues h !! self = Some q ->
  snd (drop_dead (acts h) (_content q)) = true ->
  remove self h =
    answer (fst (pop_front (cleaned (acts h) q)))
           (with_queue h self (snd (pop_front (cleaned (acts h) q)))).
Proof.
  intros Hq Hok. unfold remove.
  erewrite bind_Ret by (apply get_queue_eq; eauto). cbn beta iota.
  assert (Hclean : _clean_queue self h =
                   Ret tt (with_queue h self (cleaned (acts h) q)))
    by (rewrite (_clean_queue_eq _ _ _ Hq), Hok; reflexivity).
  pose proof (with_queue_lookup _ _ _ (cleaned (acts h) q) Hq) as Hq'.
  remember (cleaned (acts h) q) as q' eqn:Eq'.
  assert (Hcls : is_None (_add_status q') = is_None (_add_status q)).
  { rewrite Eq'. unfold cleaned, realign; simpl.
    destruct (_add_status q); [| reflexivity].
    destruct (fst (drop_dead (acts h) (_content q))); reflexivity. }
  unfold pop_front.
  destruct (_add_status q) as [st0|] eqn:Est;
    destruct (_add_status q') as [st|] eqn:Est'; try discriminate Hcls.
  - unfold RestrictedBattleQueue_remove.
    erewrite bind_Ret by exact Hclean. cbn beta iota.
    unfold bind at 1. rewrite (pop_status_eq _ _ _ _ Hq' Est').
    destruct st as [|b st']; [reflexivity |].
    erewrite pop_content_eq by (eapply with_queue_lookup; eauto).
    cbn [_content _p1 _p2 _add_status].
    destruct (_content q') as [|c rest]; simpl; now rewrite !with_queue_twice.
  - unfold BattleQueue_remove.
    erewrite bind_Ret by exact Hclean. cbn beta iota.
    rewrite (pop_content_eq _ _ _ Hq'). rewrite Est'.
    destruct (_content q') as [|c rest]; simpl;
      [reflexivity | now rewrite !with_queue_twice].
Qed.


(** ** Part IX: renaming tickets *)

(** The pure functions above do not depend on what tickets are, as long as
    equality and the moves on offer are preserved. *)
Definition map_queue {A B : Type} (f : A -> B) (q : Queue A) : Queue B :=
  mkQueue (map f (_content q)) (option_map f (_p1 q)) (option_map f (_p2 q))
          (_add_status q).

Section Renaming.
Context {A B : Type} (f : A -> B).
Context (eqa : A -> A -> bool) (eqb : B -> B -> bool).
Context (acta : A -> option (list Key)) (actb : B -> option (list Key)).
Hypothesis eq_f : forall x y, eqb (f x) (f y) = eqa x y.
Hypothesis act_f : forall x, actb (f x) = acta x.

Lemma drop_dead_map (l : list A) :
  drop_dead actb (map f l) = (map f (fst (drop_dead acta l)), snd (drop_dead acta l)).
Proof.
  induction l as [|x l IH]; [reflexivity |].
  simpl. rewrite act_f. destruct (acta x) as [[|k ks]|]; auto.
Qed.

Lemma realign_map (l : list A) (st : option (list bool)) :
  realign (map f l) st = realign l st.
Proof.
  destruct st as [st|]; [| reflexivity].
  destruct l; simpl; [reflexivity |]. now rewrite length_map.
Qed.

Lemma cleaned_map (q : Queue A) :
  cleaned actb (map_queue f q) = map_queue f (cleaned acta q).
Proof.
  unfold cleaned, map_queue; simpl. rewrite drop_dead_map; simpl.
  now rewrite realign_map.
Qed.

Lemma exist_count_map (l : list A) (x : A) :
  exist_count_by eqb (map f l) (f x) = exist_count_by eqa l x.
Proof.
  induction l as [|y l IH]; [reflexivity |].
  simpl. rewrite eq_f, IH. reflexivity.
Qed.

Lemma add_ability_count_map (l : list A) (st : list bool) (x : A) :
  add_ability_count_by eqb (map f l) st (f x) = add_ability_count_by eqa l st x.
Proof.
  revert st. induction l as [|y l IH]; intros st; [reflexivity |].
  simpl. rewrite eq_f. destruct (eqa y x).
  - destruct st as [|b st]; [reflexivity |]. now rewrite IH.
  - apply IH.
Qed.

Lemma permission_map (l : list A) (st : list bool) (x : A) :
  permission_by eqb (map f l) st (f x) = permission_by eqa l st x.
Proof.
  unfold permission_by. rewrite exist_count_map.
  destruct (Nat.eqb (exist_count_by eqa l x) 0); [reflexivity |].
  destruct l as [|y l]; [reflexivity |].
  change (map f (y :: l)) with (f y :: map f l).
  destruct st as [|[|] st]; try reflexivity.
  rewrite eq_f. destruct (eqa y x); [| reflexivity].
  change (f y :: map f l) with (map f (y :: l)).
  now rewrite add_ability_count_map.
Qed.

Lemma ticket_map (q : Queue A) (x : A) :
  ticket_by eqb (map_queue f q) (f x) =
    match ticket_by eqa q x with
    | inl e => inl e
    | inr q' => inr (map_queue f q')
    end.
Proof.
  unfold ticket_by, map_queue; simpl.
  destruct (_add_status q) as [st|] eqn:Est.
  - rewrite permission_map.
    destruct (permission_by eqa (_content q) st x) as [[b|]|];
      simpl; rewrite ?Est, ?map_app; reflexivity.
  - simpl. now rewrite map_app.
Qed.

Lemma pop_front_map (q : Queue A) :
  pop_front (map_queue f q) =
    (match fst (pop_front q) with
     | inl e => inl e
     | inr x => inr (f x)
     end, map_queue f (snd (pop_front q))).
Proof.
  unfold pop_front, map_queue; simpl.
  destruct (_add_status q) as [[|b st]|] eqn:Est;
    destruct (_content q) eqn:Ec; simpl; rewrite ?Est, ?Ec; reflexivity.
Qed.

End Renaming.

(** *** Alignment of the permission bits with the tickets *)

Section Alignment.
Context {A : Type} (eqa : A -> A -> bool) (acta : A -> option (list Key)).

(** A restricted queue has one permission bit per ticket. *)
Definition aligned (q : Queue A) : Prop :=
  match _add_status q with
  | Some st => length st = length (_content q)
  | None => True
  end.

Lemma drop_dead_suffix (l : list A) :
  exists k, fst (drop_dead acta l) = drop k l /\ (k <= length l)%nat.
Proof.
  induction l as [|x l (k & Hk & Hle)].
  - exists O. split; [reflexivity | simpl; lia].
  - simpl. destruct (acta x) as [[|a' l']|].
    + exists (S k). split; [exact Hk | simpl; lia].
    + exists O. split; [reflexivity | simpl; lia].
    + exists O. split; [reflexivity | simpl; lia].
Qed.

(** On an aligned queue the purge drops as many bits as tickets. *)
Lemma cleaned_aligned (q : Queue A) :
  aligned q ->
  aligned (cleaned acta q) /\
  exists k, _content (cleaned acta q) = drop k (_content q) /\
            forall st, _add_status q = Some st ->
                       _add_status (cleaned acta q) = Some (drop k st).
Proof.
  unfold aligned, cleaned; simpl.
  destruct (drop_dead_suffix (_content q)) as (k & Hk & Hle).
  destruct (_add_status q) as [st|]; simpl.
  - intros Hal. rewrite Hk.
    destruct (drop k (_content q)) as [|x l'] eqn:Ed.
    + split; [reflexivity |].
      exists (length (_content q)). rewrite drop_all. split; [reflexivity |].
      intros st0 [= <-]. rewrite <- Hal, drop_all. reflexivity.
    + assert (Hlen : length (x :: l') = (length (_content q) - k)%nat)
        by (rewrite <- Ed; apply length_drop).
      assert (Hlast : last_n (length (x :: l')) st = drop k st).
      { unfold last_n. f_equal. lia. }
      split.
      * rewrite Hlast, length_drop. lia.
      * exists k. split; [now rewrite Ed |].
        intros st0 [= <-]. now rewrite Hlast.
  - intros _. split; [exact I |].
    exists k. split; [exact Hk | discriminate].
Qed.

Lemma count_some (l : list A) (st : list bool) (c : A) :
  length st = length l ->
  exists n, add_ability_count_by eqa l st c = Some n /\
            (n <= exist_count_by eqa l c)%nat.
Proof.
  revert st. induction l as [|x l IH]; intros st Hlen.
  - exists O. split; [reflexivity | simpl; lia].
  - destruct st as [|b st]; [discriminate Hlen |].
    injection Hlen as Hlen. destruct (IH st Hlen) as (n & Hn & Hle).
    simpl. destruct (eqa x c).
    + rewrite Hn. destruct b; eexists; (split; [reflexivity | lia]).
    + exists n. split; [exact Hn | lia].
Qed.

(** On an aligned queue [add] never fails, and leaves the queue aligned. *)
Lemma ticket_aligned (q : Queue A) (x : A) :
  aligned q ->
  exists q', ticket_by eqa q x = inr q' /\ aligned q' /\
             _p1 q' = _p1 q /\ _p2 q' = _p2 q.
Proof.
  unfold aligned, ticket_by.
  destruct (_add_status q) as [st|] eqn:Est.
  - intros Hal. unfold permission_by.
    destruct (_content q) as [|front rest] eqn:Ec.
    + simpl. eexists; split; [reflexivity |]. simpl.
      rewrite length_app, Hal. auto.
    + destruct (Nat.eqb (exist_count_by eqa (front :: rest) x) 0).
      { eexists; split; [reflexivity |]. simpl.
        rewrite !length_app, Hal. auto. }
      destruct st as [|fs st']; [discriminate Hal |].
      destruct fs.
      * destruct (eqa front x).
        -- destruct (count_some (front :: rest) (true :: st') front Hal)
             as (n & Hn & _).
           rewrite Hn. eexists; split; [reflexivity |]. simpl.
           rewrite !length_app. simpl in *. auto with lia.
        -- eexists; split; [reflexivity |]. simpl.
           rewrite !length_app. simpl in *. auto with lia.
      * eexists; split; [reflexivity |]. rewrite Est, Ec. auto.
  - intros _. eexists; split; [reflexivity |]. simpl. auto.
Qed.

Lemma pop_front_aligned (q : Queue A) :
  aligned q ->
  aligned (snd (pop_front q)) /\
  (_content q <> [] ->
   exists c rest, _content q = c :: rest /\
                  fst (pop_front q) = inr c /\
                  _content (snd (pop_front q)) = rest).
Proof.
  unfold aligned, pop_front.
  destruct (_add_status q) as [st|] eqn:Est.
  - intros Hal. destruct st as [|b st']; destruct (_content q) as [|c rest] eqn:Ec;
      try discriminate Hal; simpl.
    + rewrite Est, Ec. split; [reflexivity | congruence].
    + injection Hal as Hal. split; [exact Hal |]. intros _. eauto.
  - intros _. destruct (_content q) as [|c rest] eqn:Ec; simpl.
    + rewrite Est. split; [exact I | congruence].
    + split; [exact I |]. intros _. eauto.
Qed.

End Alignment.


(** ** Part X: a two-player game as a value *)

(** The part of the store one game occupies, up to the names of its objects:
    the attributes of the two players and the queue, whose tickets are [true]
    for player 1 and [false] for player 2. *)
Record VState : Type := mkV {
  v_s1 : Stats;
  v_s2 : Stats;
  v_tags : list bool;
  v_status : option (list bool)
}.

Definition vq (v : VState) : Queue bool :=
  mkQueue (v_tags v) (Some true) (Some false) (v_status v).

Definition v_with (v : VState) (q : Queue bool) : VState :=
  mkV (v_s1 v) (v_s2 v) (_content q) (_add_status q).

Definition v_stats (v : VState) (t : bool) : Stats :=
  if t then v_s1 v else v_s2 v.

Definition v_acts (v : VState) (t : bool) : option (list Key) :=
  Some (available_actions (v_stats v t) (Some (v_stats v (negb t)))).

Definition ref_of (a b : cref) (t : bool) : cref := if t then a else b.

Definition chr (s : Stats) (e : cref) (q : qref) : Character :=
  mkCharacter s (Some e) q.

Definition qrec (a b : cref) (v : VState) : BattleQueue :=
  map_queue (ref_of a b) (vq v).

(** [rep h q a b v]: in the store [h], the queue [q] and its two players
    [a] and [b], each the enemy of the other and bound to [q], hold the game
    [v]. *)
Definition rep (h : Heap) (q : qref) (a b : cref) (v : VState) : Prop :=
  a <> b /\
  characters h !! a = Some (chr (v_s1 v) b q) /\
  characters h !! b = Some (chr (v_s2 v) a q) /\
  queues h !! q = Some (qrec a b v).

(** The store with the game at [q], [a], [b] replaced by [v]. *)
Definition put (h : Heap) (q : qref) (a b : cref) (v : VState) : Heap :=
  mkHeap (<[a := chr (v_s1 v) b q]> (<[b := chr (v_s2 v) a q]> (characters h)))
         (<[q := qrec a b v]> (queues h))
         (nodes h).

(** The queue methods on a game. *)
Definition vclean (v : VState) : VState :=
  v_with v (cleaned (v_acts v) (vq v)).

Definition vadd (v : VState) (t : bool) : VState :=
  match ticket_by Bool.eqb (vq v) t with
  | inr q' => v_with v q'
  | inl _ => v
  end.

Definition vpop (v : VState) : VState :=
  v_with v (snd (pop_front (vq v))).

Definition v_front (v : VState) : bool :=
  match v_tags v with
  | t :: _ => t
  | [] => true
  end.

Definition v_valid (v : VState) : Prop := aligned (vq v).

Definition v_over (v : VState) : bool :=
  match v_tags (vclean v) with
  | [] => true
  | _ :: _ => (get_hp_of (v_s1 v) =? 0) || (get_hp_of (v_s2 v) =? 0)
  end.

Definition v_winner (v : VState) : option bool :=
  if v_over v then
    if get_hp_of (v_s1 v) =? 0 then Some false
    else if get_hp_of (v_s2 v) =? 0 then Some true
    else None
  else None.

(** The effect of a move by the holder of ticket [t]. *)
Definition v_set_stats (v : VState) (t : bool) (sc st : Stats) : VState :=
  if t then mkV sc st (v_tags v) (v_status v)
  else mkV st sc (v_tags v) (v_status v).

Definition v_act (is_attack : bool) (t : bool) (v : VState) : VState :=
  fold_left vadd
    (map (fun w : bool => if w then t else negb t)
         (snd (perform is_attack (v_stats v t) (v_stats v (negb t)))))
    (v_set_stats v t
       (fst (fst (perform is_attack (v_stats v t) (v_stats v (negb t)))))
       (snd (fst (perform is_attack (v_stats v t) (v_stats v (negb t)))))).

Definition is_A (action : Key) : bool :=
  match action with Key_A => true | _ => false end.

(** [play] on a game: the game after it, and whether the [remove] it may
    call found a ticket. *)
Definition v_play (action : Key) (t : bool) (v : VState) : VState * bool :=
  match v_acts (v_act (is_A action) t v) t with
  | Some (_ :: _) =>
      (vpop (vclean (v_act (is_A action) t v)),
       match fst (pop_front (vq (vclean (v_act (is_A action) t v)))) with
       | inr _ => true
       | inl _ => false
       end)
  | _ => (v_act (is_A action) t v, true)
  end.

(** The game a copy starts from: same players, same tickets, permission bits
    recomputed by replaying the additions. *)
Definition v_blank (s1 s2 : Stats) (status : option (list bool)) : VState :=
  mkV s1 s2 [] (match status with Some _ => Some [] | None => None end).

Definition vcopy (v : VState) : VState :=
  fold_left vadd (v_tags v) (v_blank (v_s1 v) (v_s2 v) (v_status v)).

(** *** Basic facts *)

Lemma ref_of_same (a b : cref) (x y : bool) :
  a <> b -> same (ref_of a b x) (ref_of a b y) = Bool.eqb x y.
Proof.
  intros Hne. unfold same. destruct x, y; simpl;
    try apply Nat.eqb_refl; apply Nat.eqb_neq; congruence.
Qed.

Lemma rep_acts (h : Heap) (q : qref) (a b : cref) (v : VState) (t : bool) :
  rep h q a b v -> char_actions (characters h) (ref_of a b t) = v_acts v t.
Proof.
  intros (Hne & Ha & Hb & Hq). unfold char_actions, v_acts.
  destruct t; simpl.
  - rewrite Ha. simpl. rewrite Hb. reflexivity.
  - rewrite Hb. simpl. rewrite Ha. reflexivity.
Qed.

Lemma drop_dead_total {A : Type} (acta : A -> option (list Key)) (l : list A) :
  (forall x, acta x <> None) -> snd (drop_dead acta l) = true.
Proof.
  intros Hall. induction l as [|x l IH]; [reflexivity |].
  simpl. specialize (Hall x). destruct (acta x) as [[|k ks]|]; auto; congruence.
Qed.

Lemma v_purge_ok (v : VState) (l : list bool) : snd (drop_dead (v_acts v) l) = true.
Proof. apply drop_dead_total. intros x. discriminate. Qed.

Lemma rep_lengths (h : Heap) (q : qref) (a b : cref) (v : VState) :
  rep h q a b v ->
  (a < length (characters h))%nat /\ (b < length (characters h))%nat /\
  (q < length (queues h))%nat.
Proof.
  intros (Hne & Ha & Hb & Hq).
  repeat split; eapply lookup_lt_Some; eauto.
Qed.

Lemma rep_put (h : Heap) (q : qref) (a b : cref) (v : VState) :
  a <> b ->
  (a < length (characters h))%nat -> (b < length (characters h))%nat ->
  (q < length (queues h))%nat ->
  rep (put h q a b v) q a b v.
Proof.
  intros Hne La Lb Lq. unfold rep, put; simpl. repeat split; [exact Hne | | |].
  - apply list_lookup_insert_eq. now rewrite length_insert.
  - rewrite list_lookup_insert_ne by exact Hne. now apply list_lookup_insert_eq.
  - now apply list_lookup_insert_eq.
Qed.

Lemma insert_pair_twice {X : Type} (l : list X) (a b : nat) (x y x' y' : X) :
  a <> b ->
  <[a := x']> (<[b := y']> (<[a := x]> (<[b := y]> l))) =
  <[a := x']> (<[b := y']> l).
Proof.
  intros Hne.
  rewrite (list_insert_insert_ne l a b x y) by exact Hne.
  rewrite list_insert_insert_eq.
  rewrite (list_insert_insert_ne l b a y' x) by congruence.
  now rewrite list_insert_insert_eq.
Qed.

Lemma put_put (h : Heap) (q : qref) (a b : cref) (v v' : VState) :
  a <> b -> put (put h q a b v) q a b v' = put h q a b v'.
Proof.
  intros Hne. unfold put; simpl. f_equal.
  - now apply insert_pair_twice.
  - now rewrite list_insert_insert_eq.
Qed.

Lemma put_same (h : Heap) (q : qref) (a b : cref) (v : VState) :
  rep h q a b v -> put h q a b v = h.
Proof.
  intros (Hne & Ha & Hb & Hq). unfold put.
  rewrite (list_insert_id (queues h)) by exact Hq.
  rewrite (list_insert_id (characters h) b) by exact Hb.
  rewrite (list_insert_id (characters h) a) by exact Ha.
  apply heap_eta.
Qed.

Lemma rep_put_rep (h : Heap) (q : qref) (a b : cref) (v v' : VState) :
  rep h q a b v -> rep (put h q a b v') q a b v'.
Proof.
  intros H. pose proof H as (Hne & _). destruct (rep_lengths _ _ _ _ _ H) as (La & Lb & Lq).
  now apply rep_put.
Qed.

(** Replacing only the queue of a game. *)
Lemma with_queue_put (h : Heap) (q : qref) (a b : cref) (v v' : VState) :
  rep h q a b v ->
  v_s1 v' = v_s1 v -> v_s2 v' = v_s2 v ->
  with_queue h q (qrec a b v') = put h q a b v'.
Proof.
  intros (Hne & Ha & Hb & Hq) E1 E2. unfold put, with_queue. rewrite E1, E2.
  rewrite (list_insert_id (characters h) b) by exact Hb.
  rewrite (list_insert_id (characters h) a) by exact Ha.
  try reflexivity.
Qed.

Lemma frame_put (h : Heap) (q : qref) (a b : cref) (v : VState) :
  frame (either a b) (only q) nothing h (put h q a b v).
Proof.
  unfold frame, put, either, only; simpl. rewrite !length_insert.
  repeat split; auto.
  - intros c x Hc Hl. rewrite !list_lookup_insert_ne; [exact Hl | |];
      intros ->; apply Hc; auto.
  - intros q' x Hq' Hl. rewrite list_lookup_insert_ne; [exact Hl |].
    intros ->. now apply Hq'.
Qed.

(** A game is still there after a call that left its objects alone. *)
Lemma rep_frame (C : cref -> Prop) (Q : qref -> Prop) (N : nref -> Prop)
    (h h' : Heap) (q : qref) (a b : cref) (v : VState) :
  rep h q a b v -> frame C Q N h h' ->
  ~ C a -> ~ C b -> ~ Q q ->
  rep h' q a b v.
Proof.
  intros (Hne & Ha & Hb & Hq) (Fc & Fq & _) Na Nb Nq.
  unfold rep. repeat split; auto.
Qed.


(** *** The queue methods on a game held in the store *)

Lemma rep_queue_cleaned (h : Heap) (q : qref) (a b : cref) (v : VState) :
  rep h q a b v ->
  cleaned (acts h) (qrec a b v) = qrec a b (vclean v) /\
  snd (drop_dead (acts h) (_content (qrec a b v))) = true.
Proof.
  intros H. unfold qrec.
  assert (Hact : forall t, acts h (ref_of a b t) = v_acts v t)
    by (intros t; eapply rep_acts; eauto).
  split.
  - rewrite (cleaned_map (ref_of a b) (v_acts v) (acts h) Hact). reflexivity.
  - simpl. rewrite (drop_dead_map (ref_of a b) (v_acts v) (acts h) Hact). simpl.
    apply v_purge_ok.
Qed.

Lemma rep_queue (h : Heap) (q : qref) (a b : cref) (v : VState) :
  rep h q a b v -> queues h !! q = Some (qrec a b v).
Proof. now intros (_ & _ & _ & H). Qed.

Lemma clean_rep (h : Heap) (q : qref) (a b : cref) (v : VState) :
  rep h q a b v -> _clean_queue q h = Ret tt (put h q a b (vclean v)).
Proof.
  intros H. destruct (rep_queue_cleaned _ _ _ _ _ H) as [Hc Hok].
  rewrite (_clean_queue_eq _ _ _ (rep_queue _ _ _ _ _ H)), Hok, Hc.
  now erewrite with_queue_put by eauto.
Qed.

Lemma is_empty_rep (h : Heap) (q : qref) (a b : cref) (v : VState) :
  rep h q a b v ->
  is_empty q h = Ret (no_ticket (vq (vclean v))) (put h q a b (vclean v)).
Proof.
  intros H. destruct (rep_queue_cleaned _ _ _ _ _ H) as [Hc Hok].
  rewrite (is_empty_eq _ _ _ (rep_queue _ _ _ _ _ H) Hok), Hc.
  erewrite with_queue_put by eauto. f_equal.
  unfold no_ticket, qrec, map_queue; simpl.
  destruct (fst (drop_dead (v_acts v) (v_tags v))); reflexivity.
Qed.

Lemma peek_rep (h : Heap) (q : qref) (a b : cref) (v : VState) :
  rep h q a b v ->
  peek q h = Ret (Some (ref_of a b (v_front (vclean v)))) (put h q a b (vclean v)).
Proof.
  intros H. destruct (rep_queue_cleaned _ _ _ _ _ H) as [Hc Hok].
  rewrite (peek_eq _ _ _ (rep_queue _ _ _ _ _ H) Hok), Hc.
  erewrite with_queue_put by eauto. f_equal.
  unfold front_or_p1, v_front, qrec, map_queue; simpl.
  destruct (fst (drop_dead (v_acts v) (v_tags v))); reflexivity.
Qed.

Lemma rep_read_hp (h : Heap) (q : qref) (a b : cref) (v : VState) (t : bool) :
  rep h q a b v ->
  read_hp (characters h) (Some (ref_of a b t)) = inr (get_hp_of (v_stats v t)).
Proof.
  intros (Hne & Ha & Hb & Hq). unfold read_hp.
  destruct t; simpl; [rewrite Ha | rewrite Hb]; reflexivity.
Qed.

Lemma over_of_rep (h : Heap) (q : qref) (a b : cref) (v : VState) :
  rep h q a b v ->
  over_of (characters h) (qrec a b (vclean v)) = inr (v_over v).
Proof.
  intros H. unfold over_of, v_over.
  change (_p1 (qrec a b (vclean v))) with (Some (ref_of a b true)).
  change (_p2 (qrec a b (vclean v))) with (Some (ref_of a b false)).
  rewrite !(rep_read_hp _ _ _ _ _ _ H).
  unfold no_ticket, qrec, map_queue; simpl.
  destruct (fst (drop_dead (v_acts v) (v_tags v))); simpl; [reflexivity |].
  destruct (get_hp_of (v_s1 v) =? 0); reflexivity.
Qed.

Lemma is_over_rep (h : Heap) (q : qref) (a b : cref) (v : VState) :
  rep h q a b v ->
  is_over q h = Ret (v_over v) (put h q a b (vclean v)).
Proof.
  intros H. destruct (rep_queue_cleaned _ _ _ _ _ H) as [Hc Hok].
  rewrite (is_over_eq _ _ _ (rep_queue _ _ _ _ _ H) Hok), Hc.
  erewrite with_queue_put by eauto.
  now rewrite (over_of_rep _ _ _ _ _ H).
Qed.

Lemma get_winner_rep (h : Heap) (q : qref) (a b : cref) (v : VState) :
  rep h q a b v ->
  get_winner q h =
    Ret (option_map (ref_of a b) (v_winner v)) (put h q a b (vclean v)).
Proof.
  intros H. destruct (rep_queue_cleaned _ _ _ _ _ H) as [Hc Hok].
  rewrite (get_winner_eq _ _ _ (rep_queue _ _ _ _ _ H) Hok), Hc.
  erewrite with_queue_put by eauto.
  unfold winner_of, v_winner. rewrite (over_of_rep _ _ _ _ _ H).
  destruct (v_over v); [| reflexivity].
  change (_p1 (qrec a b (vclean v))) with (Some (ref_of a b true)).
  change (_p2 (qrec a b (vclean v))) with (Some (ref_of a b false)).
  rewrite !(rep_read_hp _ _ _ _ _ _ H). simpl.
  destruct (get_hp_of (v_s1 v) =? 0); [reflexivity |].
  destruct (get_hp_of (v_s2 v) =? 0); reflexivity.
Qed.

Lemma get_available_actions_rep (h : Heap) (q : qref) (a b : cref)
    (v : VState) (t : bool) :
  rep h q a b v ->
  get_available_actions (ref_of a b t) h =
    Ret (available_actions (v_stats v t) (Some (v_stats v (negb t)))) h.
Proof.
  intros H. rewrite get_available_actions_eq, (rep_acts _ _ _ _ _ t H).
  reflexivity.
Qed.

Lemma get_hp_rep (h : Heap) (q : qref) (a b : cref) (v : VState) (t : bool) :
  rep h q a b v ->
  get_hp (ref_of a b t) h = Ret (get_hp_of (v_stats v t)) h.
Proof.
  intros (Hne & Ha & Hb & Hq). rewrite get_hp_eq.
  destruct t; simpl; [rewrite Ha | rewrite Hb]; reflexivity.
Qed.

Lemma enrol_rep (cs : list Character) (a b : cref) (v : VState) (c : cref) :
  enrol cs (qrec a b v) c = Some (qrec a b v).
Proof. reflexivity. Qed.

Lemma add_rep (h : Heap) (q : qref) (a b : cref) (v : VState) (t : bool) :
  rep h q a b v -> v_valid v ->
  add q (ref_of a b t) h = Ret tt (put h q a b (vadd v t)) /\
  v_valid (vadd v t).
Proof.
  intros H Hv. pose proof H as (Hne & _).
  rewrite (add_eq _ _ _ _ _ (rep_queue _ _ _ _ _ H) (enrol_rep _ _ _ _ _)).
  unfold qrec at 1.
  rewrite (ticket_map (ref_of a b) Bool.eqb same (fun x y => ref_of_same a b x y Hne)).
  unfold vadd.
  destruct (ticket_aligned Bool.eqb (vq v) t Hv) as (q' & -> & Hal & Hp1 & Hp2).
  assert (Eq : map_queue (ref_of a b) q' = qrec a b (v_with v q')).
  { unfold qrec, vq, v_with, map_queue; simpl. rewrite Hp1, Hp2. reflexivity. }
  rewrite Eq. split.
  - now erewrite with_queue_put by eauto.
  - exact Hal.
Qed.

Lemma remove_rep (h : Heap) (q : qref) (a b : cref) (v : VState) :
  rep h q a b v ->
  remove q h =
    answer (match fst (pop_front (vq (vclean v))) with
            | inl e => inl e
            | inr t => inr (ref_of a b t)
            end)
           (put h q a b (vpop (vclean v))).
Proof.
  intros H. destruct (rep_queue_cleaned _ _ _ _ _ H) as [Hc Hok].
  rewrite (remove_eq _ _ _ (rep_queue _ _ _ _ _ H) Hok), Hc.
  unfold qrec at 1 2. rewrite pop_front_map. cbn [fst snd].
  assert (Eq : map_queue (ref_of a b) (snd (pop_front (vq (vclean v)))) =
               qrec a b (vpop (vclean v))).
  { unfold qrec, vpop, v_with, map_queue, pop_front, vq; simpl.
    destruct (realign _ _) as [[|? ?]|];
      destruct (fst (drop_dead (v_acts v) (v_tags v))); reflexivity. }
  rewrite Eq. now erewrite with_queue_put by eauto.
Qed.


(** *** Moves on a game held in the store *)

Lemma v_valid_with (v : VState) (q' : Queue bool) :
  aligned q' -> v_valid (v_with v q').
Proof. unfold v_valid, aligned, vq, v_with; simpl. auto. Qed.

Lemma vclean_valid (v : VState) : v_valid v -> v_valid (vclean v).
Proof.
  intros Hv. apply v_valid_with. now apply cleaned_aligned.
Qed.

Lemma vpop_valid (v : VState) : v_valid v -> v_valid (vpop v).
Proof.
  intros Hv. apply v_valid_with. now apply pop_front_aligned.
Qed.

Lemma vadd_valid (v : VState) (t : bool) : v_valid v -> v_valid (vadd v t).
Proof.
  intros Hv. unfold vadd.
  destruct (ticket_aligned Bool.eqb (vq v) t Hv) as (q' & -> & Hal & _).
  now apply v_valid_with.
Qed.

Lemma fold_vadd_valid (l : list bool) (v : VState) :
  v_valid v -> v_valid (fold_left vadd l v).
Proof.
  revert v. induction l as [|t l IH]; intros v Hv; [exact Hv |].
  simpl. apply IH. now apply vadd_valid.
Qed.

Lemma vcopy_valid (v : VState) : v_valid (vcopy v).
Proof.
  apply fold_vadd_valid. unfold v_valid, aligned, vq, v_blank; simpl.
  destruct (v_status v); reflexivity.
Qed.

Lemma adds_rep {X : Type} (l : list X) (to_ref : X -> cref) (to_tag : X -> bool) :
  forall (h : Heap) (q : qref) (a b : cref) (v : VState),
    rep h q a b v -> v_valid v ->
    (forall w, to_ref w = ref_of a b (to_tag w)) ->
    for_do l (fun w => add q (to_ref w)) h =
      Ret tt (put h q a b (fold_left vadd (map to_tag l) v)).
Proof.
  induction l as [|w l IH]; intros h q a b v H Hv Href.
  - simpl. unfold ret. now rewrite (put_same _ _ _ _ _ H).
  - cbn [for_do map fold_left].
    destruct (add_rep _ _ _ _ _ (to_tag w) H Hv) as [Hadd Hv'].
    rewrite <- Href in Hadd.
    erewrite bind_Ret by exact Hadd. cbn beta.
    rewrite (IH _ q a b (vadd v (to_tag w))); [| eapply rep_put_rep; eauto | exact Hv' | exact Href].
    pose proof H as (Hne & _). now rewrite put_put.
Qed.

Lemma set_stats_eq (h : Heap) (c : cref) (x : Character) (s : Stats) :
  characters h !! c = Some x ->
  set_stats c s h =
    Ret tt (mkHeap (<[c := mkCharacter s (enemy x) (battle_queue x)]> (characters h))
                   (queues h) (nodes h)).
Proof.
  intros Hc. unfold set_stats.
  erewrite bind_Ret by (apply get_character_eq; eauto). reflexivity.
Qed.

Lemma v_set_stats_put (h : Heap) (q : qref) (a b : cref) (v : VState)
    (t : bool) (sc st : Stats) :
  rep h q a b v ->
  mkHeap (<[ref_of a b (negb t) := chr st (ref_of a b t) q]>
            (<[ref_of a b t := chr sc (ref_of a b (negb t)) q]> (characters h)))
         (queues h) (nodes h) =
  put h q a b (v_set_stats v t sc st).
Proof.
  intros (Hne & Ha & Hb & Hq). unfold put.
  assert (Eq : qrec a b (v_set_stats v t sc st) = qrec a b v)
    by (destruct t; reflexivity).
  rewrite Eq, (list_insert_id (queues h)) by exact Hq.
  destruct t; simpl; [| reflexivity].
  now rewrite list_insert_insert_ne by congruence.
Qed.

Lemma use_skill_rep (is_attack : bool) (h : Heap) (q : qref) (a b : cref)
    (v : VState) (t : bool) :
  rep h q a b v -> v_valid v ->
  use_skill is_attack (ref_of a b t) h =
    Ret tt (put h q a b (v_act is_attack t v)) /\
  v_valid (v_act is_attack t v).
Proof.
  intros H Hv. pose proof H as (Hne & Ha & Hb & Hq).
  assert (Hc : characters h !! ref_of a b t =
               Some (chr (v_stats v t) (ref_of a b (negb t)) q))
    by (destruct t; assumption).
  assert (Ht : characters h !! ref_of a b (negb t) =
               Some (chr (v_stats v (negb t)) (ref_of a b t) q))
    by (destruct t; assumption).
  assert (Hv1 : forall sc st, v_valid (v_set_stats v t sc st))
    by (intros; destruct t; exact Hv).
  split; [| unfold v_act; apply fold_vadd_valid, Hv1].
  unfold use_skill.
  erewrite bind_Ret by (apply get_character_eq; exact Hc). cbn beta.
  simpl deref. unfold bind at 1. unfold ret at 1.
  erewrite bind_Ret by (apply get_character_eq; exact Ht). cbn beta.
  cbn [stats chr battle_queue].
  set (r := perform is_attack (v_stats v t) (v_stats v (negb t))).
  erewrite bind_Ret by (apply set_stats_eq; exact Hc). cbn beta.
  assert (Hne' : ref_of a b t <> ref_of a b (negb t))
    by (destruct t; simpl; congruence).
  erewrite bind_Ret
    by (apply set_stats_eq; simpl;
        rewrite list_lookup_insert_ne by exact Hne'; exact Ht).
  cbn beta. cbn [characters queues nodes enemy battle_queue chr].
  change (mkCharacter (snd (fst r)) (Some (ref_of a b t)) q)
    with (chr (snd (fst r)) (ref_of a b t) q).
  change (mkCharacter (fst (fst r)) (Some (ref_of a b (negb t))) q)
    with (chr (fst (fst r)) (ref_of a b (negb t)) q).
  rewrite (v_set_stats_put _ _ _ _ _ _ (fst (fst r)) (snd (fst r)) H).
  rewrite (adds_rep (snd r)
             (fun w : bool => if w then ref_of a b t else ref_of a b (negb t))
             (fun w : bool => if w then t else negb t)
             _ q a b (v_set_stats v t (fst (fst r)) (snd (fst r))));
    [| eapply rep_put_rep; eauto | apply Hv1 | intros [|]; reflexivity].
  rewrite put_put by exact Hne. reflexivity.
Qed.

Lemma pop_front_error {A : Type} (q : Queue A) (e : Exn) :
  fst (pop_front q) = inl e -> e = IndexError.
Proof.
  unfold pop_front.
  destruct (_add_status q) as [[|? ?]|]; destruct (_content q); simpl; congruence.
Qed.

Lemma play_rep (action : Key) (h : Heap) (q : qref) (a b : cref)
    (v : VState) (t : bool) :
  rep h q a b v -> v_valid v ->
  play action (ref_of a b t) q h =
    (if snd (v_play action t v)
     then Ret tt (put h q a b (fst (v_play action t v)))
     else Raise IndexError (put h q a b (fst (v_play action t v)))) /\
  v_valid (fst (v_play action t v)).
Proof.
  intros H Hv. pose proof H as (Hne & _).
  destruct (use_skill_rep (is_A action) _ _ _ _ _ t H Hv) as [Hact Hv1].
  set (v1 := v_act (is_A action) t v) in *.
  assert (H1 : rep (put h q a b v1) q a b v1) by (eapply rep_put_rep; eauto).
  assert (Hmove : (match action with
                   | Key_A => attack (ref_of a b t)
                   | _ => special_attack (ref_of a b t)
                   end) h = Ret tt (put h q a b v1))
    by (destruct action; exact Hact).
  unfold play. erewrite bind_Ret by exact Hmove. cbn beta.
  erewrite bind_Ret by (eapply get_available_actions_rep; exact H1). cbn beta.
  unfold v_play. fold v1. unfold v_acts.
  destruct (available_actions (v_stats v1 t) (Some (v_stats v1 (negb t))))
    as [|k ks].
  - simpl. split; [reflexivity | exact Hv1].
  - unfold bind. rewrite (remove_rep _ _ _ _ _ H1). rewrite put_put by exact Hne.
    cbn [fst snd].
    split; [| now apply vpop_valid, vclean_valid].
    destruct (fst (pop_front (vq (vclean v1)))) as [e|c] eqn:Ep; [| reflexivity].
    apply pop_front_error in Ep. now subst e.
Qed.


(** *** Copying a queue *)

(** The store after a copy was added to it: two new characters and one new
    queue, holding the game [v]. *)
Definition grown (h : Heap) (v : VState) : Heap :=
  mkHeap (characters h ++
            [chr (v_s1 v) (S (length (characters h))) (length (queues h));
             chr (v_s2 v) (length (characters h)) (length (queues h))])
         (queues h ++ [qrec (length (characters h)) (S (length (characters h))) v])
         (nodes h).

Lemma lookup_snoc2_0 {X : Type} (l : list X) (x y : X) :
  (l ++ [x; y]) !! length l = Some x.
Proof. now rewrite list_lookup_middle. Qed.

Lemma lookup_snoc2_1 {X : Type} (l : list X) (x y : X) :
  (l ++ [x; y]) !! S (length l) = Some y.
Proof.
  change (l ++ [x; y]) with (l ++ [x] ++ [y]). rewrite app_assoc.
  rewrite list_lookup_middle; [reflexivity |]. rewrite length_app. simpl. lia.
Qed.

Lemma lookup_snoc {X : Type} (l : list X) (x : X) :
  (l ++ [x]) !! length l = Some x.
Proof. now rewrite list_lookup_middle. Qed.

Lemma insert_snoc {X : Type} (l : list X) (x y : X) :
  <[length l := y]> (l ++ [x]) = l ++ [y].
Proof.
  rewrite insert_app_r_alt by lia. now rewrite Nat.sub_diag.
Qed.

Lemma insert_snoc2_0 {X : Type} (l : list X) (x y z : X) :
  <[length l := z]> (l ++ [x; y]) = l ++ [z; y].
Proof.
  rewrite insert_app_r_alt by lia. now rewrite Nat.sub_diag.
Qed.

Lemma insert_snoc2_1 {X : Type} (l : list X) (x y z : X) :
  <[S (length l) := z]> (l ++ [x; y]) = l ++ [x; z].
Proof.
  rewrite insert_app_r_alt by lia.
  replace (S (length l) - length l)%nat with 1%nat by lia. reflexivity.
Qed.

Lemma rep_grown (h : Heap) (v : VState) :
  rep (grown h v) (length (queues h)) (length (characters h))
      (S (length (characters h))) v.
Proof.
  unfold rep, grown; simpl. repeat split.
  - lia.
  - apply lookup_snoc2_0.
  - apply lookup_snoc2_1.
  - apply lookup_snoc.
Qed.

Lemma put_grown (h : Heap) (v v' : VState) :
  put (grown h v) (length (queues h)) (length (characters h))
      (S (length (characters h))) v' = grown h v'.
Proof.
  unfold put, grown; simpl.
  rewrite insert_snoc2_1, insert_snoc2_0, insert_snoc. reflexivity.
Qed.

Lemma frame_grown (h : Heap) (v : VState) :
  frame nothing nothing nothing h (grown h v).
Proof.
  unfold frame, grown; simpl. rewrite !length_app; simpl.
  repeat split; auto; try lia; intros; now apply lookup_app_l_Some.
Qed.

Lemma fold_vadd_stats (l : list bool) (v : VState) :
  v_s1 (fold_left vadd l v) = v_s1 v /\ v_s2 (fold_left vadd l v) = v_s2 v.
Proof.
  revert v. induction l as [|t l IH]; intros v; [split; reflexivity |].
  simpl. destruct (IH (vadd v t)) as [-> ->].
  unfold vadd. destruct (ticket_by Bool.eqb (vq v) t); split; reflexivity.
Qed.

(** The class of the copy is the class of the source. *)
Definition blank_queue (status : option (list bool)) : BattleQueue :=
  mkQueue [] None None (match status with Some _ => Some [] | None => None end).

Lemma copy_dispatch (self : qref) (h : Heap) (q0 : BattleQueue) :
  queues h !! self = Some q0 ->
  copy self h = copy_into (blank_queue (_add_status q0)) self h.
Proof.
  intros Hq. unfold copy.
  erewrite bind_Ret by (apply get_queue_eq; eauto). cbn beta.
  destruct (_add_status q0); reflexivity.
Qed.

(** The tag of a ticket of the source: player 1 or anyone else. *)
Definition tag_of (p1 : option cref) (character : cref) : bool :=
  same_opt (Some character) p1.

(** The game a copy holds. *)
Definition copied (q0 : BattleQueue) (sa sb : Stats) : VState :=
  fold_left vadd (map (tag_of (_p1 q0)) (_content q0))
            (v_blank sa sb (_add_status q0)).

Lemma vclean_idem (v : VState) : vclean (vclean v) = vclean v.
Proof.
  destruct (cleaned_idem (v_acts v) (vq v) (v_purge_ok v _)) as [Hid _].
  unfold vclean.
  change (v_acts (v_with v (cleaned (v_acts v) (vq v)))) with (v_acts v).
  change (vq (v_with v (cleaned (v_acts v) (vq v))))
    with (cleaned (v_acts v) (vq v)).
  rewrite Hid. reflexivity.
Qed.


(** The first steps of a copy: the new queue, the two clones linked to each
    other, the first clone enqueued and taken out again. *)
Lemma copy_bootstrap (h : Heap) (sa sb : Stats) (st : option (list bool)) :
  exists h6,
    (let h5 := mkHeap (characters h ++
                         [chr sa (S (length (characters h))) (length (queues h));
                          chr sb (length (characters h)) (length (queues h))])
                      (queues h ++ [blank_queue st]) (nodes h) in
     bind (add (length (queues h)) (length (characters h)))
          (fun _ =>
             bind (is_empty (length (queues h)))
                  (fun e : bool =>
                     if e then ret tt
                     else bind (remove (length (queues h))) (fun _ => ret tt)))
          h5) = Ret tt h6 /\
    h6 = grown h (v_blank sa sb st).
Proof.
  eexists. split; [| reflexivity]. cbv zeta.
  set (v1 := vadd (v_blank sa sb st) true).
  assert (Hadd : add (length (queues h)) (length (characters h))
                   (mkHeap (characters h ++
                         [chr sa (S (length (characters h))) (length (queues h));
                          chr sb (length (characters h)) (length (queues h))])
                      (queues h ++ [blank_queue st]) (nodes h)) =
                 Ret tt (grown h v1)).
  { erewrite (add_eq _ _ _ (blank_queue st)
                (mkQueue [] (Some (length (characters h)))
                         (Some (S (length (characters h))))
                         (match st with Some _ => Some [] | None => None end))).
    - subst v1.
      unfold grown, with_queue, vadd, v_blank, blank_queue.
      destruct st; simpl; rewrite insert_snoc; reflexivity.
    - simpl. apply lookup_snoc.
    - unfold enrol, blank_queue; simpl.
      rewrite lookup_snoc2_0. reflexivity. }
  erewrite bind_Ret by exact Hadd. cbn beta.
  pose proof (rep_grown h v1) as H1.
  erewrite bind_Ret by (apply is_empty_rep; exact H1). cbn beta.
  rewrite put_grown.
  assert (Ev1 : v1 = mkV sa sb [true]
                         (match st with Some _ => Some [true] | None => None end))
    by (unfold v1, vadd, v_blank; destruct st; reflexivity).
  clearbody v1. subst v1. clear Hadd H1.
  unfold no_ticket, vclean, v_with, cleaned, vq, v_acts; simpl.
  destruct (available_actions sa (Some sb)) as [|k ks] eqn:Eact; simpl.
  - unfold ret, v_blank. destruct st; reflexivity.
  - match goal with
    | |- bind _ _ (grown h ?w) = _ => pose proof (rep_grown h w) as H2
    end.
    unfold bind at 1. rewrite (remove_rep _ _ _ _ _ H2).
    rewrite put_grown.
    unfold vpop, vclean, v_with, cleaned, vq, v_acts, pop_front; simpl.
    rewrite Eact. simpl. unfold v_blank. destruct st; reflexivity.
Qed.


Lemma for_do_ext {X : Type} (l : list X) (f g : X -> M unit) :
  (forall x, f x = g x) -> for_do l f = for_do l g.
Proof.
  intros E. induction l as [|x l IH]; [reflexivity |].
  simpl. now rewrite E, IH.
Qed.

(** [copy] on any queue whose two players are recorded: the store grows by the
    copy, and nothing else changes. *)
Lemma copy_eq (self : qref) (h : Heap) (q0 : BattleQueue) (a0 b0 : cref)
    (xa xb : Character) :
  queues h !! self = Some q0 ->
  _p1 q0 = Some a0 -> _p2 q0 = Some b0 ->
  characters h !! a0 = Some xa -> characters h !! b0 = Some xb ->
  copy self h =
    Ret (length (queues h)) (grown h (copied q0 (stats xa) (stats xb))).
Proof.
  intros Hq Hp1 Hp2 Ha Hb.
  rewrite (copy_dispatch _ _ _ Hq). unfold copy_into.
  erewrite bind_Ret by reflexivity. cbn beta.
  erewrite bind_Ret
    by (apply get_queue_eq; simpl; apply lookup_app_l_Some; exact Hq).
  cbn beta. rewrite Hp1, Hp2. simpl deref.
  unfold bind at 1. unfold ret at 1.
  unfold Character_copy.
  erewrite bind_Ret;
    [| erewrite bind_Ret by (apply get_character_eq; simpl; exact Ha);
       reflexivity].
  cbn beta. unfold bind at 1. unfold ret at 1.
  erewrite bind_Ret;
    [| erewrite bind_Ret
         by (apply get_character_eq; simpl; apply lookup_app_l_Some; exact Hb);
       reflexivity].
  cbn beta. cbn [characters queues nodes].
  unfold set_enemy.
  erewrite bind_Ret;
    [| erewrite bind_Ret
         by (apply get_character_eq; simpl;
             rewrite <- app_assoc; apply lookup_snoc2_0);
       reflexivity].
  cbn beta. cbn [characters queues nodes stats battle_queue].
  erewrite bind_Ret;
    [| erewrite bind_Ret
         by (apply get_character_eq; simpl;
             rewrite length_app, Nat.add_1_r, <- app_assoc;
             rewrite list_lookup_insert_ne by lia;
             apply lookup_snoc2_1);
       reflexivity].
  cbn beta. cbn [characters queues nodes stats battle_queue].
  rewrite length_app, Nat.add_1_r, <- app_assoc. simpl app.
  rewrite insert_snoc2_0, insert_snoc2_1.
  destruct (copy_bootstrap h (stats xa) (stats xb) (_add_status q0))
    as (h6 & Hboot & ->).
  cbv zeta in Hboot. unfold chr in Hboot.
  unfold bind at 1.
  unfold bind at 1 in Hboot.
  destruct (add (length (queues h)) (length (characters h)) _) as [[] h'| |] eqn:Eadd;
    try discriminate Hboot.
  unfold bind at 1. unfold bind at 1 in Hboot.
  destruct (is_empty (length (queues h)) h') as [e h''| |] eqn:Eemp;
    try discriminate Hboot.
  unfold bind at 1.
  rewrite Hboot.
  set (v0 := v_blank (stats xa) (stats xb) (_add_status q0)).
  rewrite (for_do_ext (_content q0) _
             (fun character : cref =>
                add (length (queues h))
                    (if same_opt (Some character) (Some a0)
                     then length (characters h) else S (length (characters h)))))
    by (intros w; destruct (same_opt (Some w) (Some a0)); reflexivity).
  erewrite bind_Ret.
  2:{ apply (adds_rep (_content q0)
               (fun character : cref =>
                  if same_opt (Some character) (Some a0)
                  then length (characters h) else S (length (characters h)))
               (tag_of (Some a0)) _ _ _ _ v0 (rep_grown h v0)).
      - unfold v_valid, aligned, v0, v_blank, vq; simpl.
        destruct (_add_status q0); reflexivity.
      - intros w. unfold tag_of. destruct (same_opt (Some w) (Some a0)); reflexivity. }
  cbn beta. unfold ret. rewrite put_grown. unfold copied. rewrite Hp1.
  reflexivity.
Qed.



(** ** Part XI: a copy is independent of its source *)








(** ** Part XII: the cap on eligible tickets of a restricted queue *)

Section Cap.
Context {A : Type} (eqa : A -> A -> bool) (acta : A -> option (list Key)).
Hypothesis eqa_eq : forall x y, eqa x y = true <-> x = y.

(** No character holds more than two tickets that may add. *)
Definition capped (q : Queue A) : Prop :=
  forall st c n,
    _add_status q = Some st ->
    add_ability_count_by eqa (_content q) st c = Some n -> (n <= 2)%nat.

Lemma count_tail (x : A) (l : list A) (b : bool) (st : list bool) (c : A) (n : nat) :
  add_ability_count_by eqa (x :: l) (b :: st) c = Some n ->
  exists n', add_ability_count_by eqa l st c = Some n' /\ (n' <= n)%nat.
Proof.
  simpl. destruct (eqa x c).
  - destruct (add_ability_count_by eqa l st c) as [n'|]; [| discriminate].
    intros [= <-]. exists n'. split; [reflexivity |]. destruct b; lia.
  - intros H. exists n. split; [exact H | lia].
Qed.

Lemma count_drop (k : nat) :
  forall (l : list A) (st : list bool) (c : A) (n : nat),
    length st = length l ->
    add_ability_count_by eqa l st c = Some n ->
    exists n', add_ability_count_by eqa (drop k l) (drop k st) c = Some n' /\
               (n' <= n)%nat.
Proof.
  induction k as [|k IH]; intros l st c n Hlen Hn.
  - exists n. rewrite !drop_0. split; [exact Hn | lia].
  - destruct l as [|x l]; destruct st as [|b st]; try discriminate Hlen.
    + exists O. simpl. split; [reflexivity | lia].
    + injection Hlen as Hlen.
      destruct (count_tail _ _ _ _ _ _ Hn) as (n1 & Hn1 & Hle1).
      destruct (IH l st c n1 Hlen Hn1) as (n' & Hn' & Hle').
      exists n'. simpl. split; [exact Hn' | lia].
Qed.

Lemma count_app (l : list A) (x : A) (b : bool) (c : A) :
  forall st, length st = length l ->
    add_ability_count_by eqa (l ++ [x]) (st ++ [b]) c =
      match add_ability_count_by eqa l st c with
      | Some n => Some (if eqa x c && b then S n else n)
      | None => None
      end.
Proof.
  induction l as [|y l IH]; intros st Hlen.
  - destruct st; [| discriminate Hlen]. simpl.
    destruct (eqa x c); [destruct b |]; reflexivity.
  - destruct st as [|b' st]; [discriminate Hlen |]. injection Hlen as Hlen.
    simpl. rewrite (IH st Hlen).
    destruct (eqa y c); [| reflexivity].
    destruct (add_ability_count_by eqa l st c); [| reflexivity].
    destruct (eqa x c && b), b'; reflexivity.
Qed.

Lemma count_absent (l : list A) (c : A) :
  exist_count_by eqa l c = O ->
  forall st, add_ability_count_by eqa l st c = Some O.
Proof.
  induction l as [|y l IH]; intros H st; [reflexivity |].
  simpl in *. destruct (eqa y c); [discriminate H |]. now apply IH.
Qed.

Lemma cleaned_capped (q : Queue A) :
  aligned q -> capped q -> capped (cleaned acta q).
Proof.
  intros Hal Hcap st' c n' Hst' Hn'.
  destruct (cleaned_aligned acta q Hal) as (_ & k & Hc & Hs).
  unfold aligned in Hal.
  destruct (_add_status q) as [st|] eqn:Est.
  - rewrite (Hs st eq_refl) in Hst'. injection Hst' as <-.
    rewrite Hc in Hn'.
    destruct (count_some eqa (_content q) st c Hal) as (n & Hn & _).
    destruct (count_drop k _ _ _ _ Hal Hn) as (m & Hm & Hle).
    rewrite Hm in Hn'. injection Hn' as <-.
    specialize (Hcap st c n Est Hn). lia.
  - unfold cleaned, realign in Hst'. simpl in Hst'. rewrite Est in Hst'.
    discriminate Hst'.
Qed.

Lemma pop_front_capped (q : Queue A) :
  aligned q -> capped q -> capped (snd (pop_front q)).
Proof.
  intros Hal Hcap st' c n' Hst' Hn'. unfold aligned in Hal.
  unfold pop_front in *.
  destruct (_add_status q) as [st|] eqn:Est.
  - destruct st as [|b st]; destruct (_content q) as [|x l] eqn:Ec;
      try discriminate Hal; simpl in *.
    + rewrite Ec in Hn'. simpl in Hn'. injection Hn' as <-. lia.
    + injection Hst' as <-. injection Hal as Hal.
      destruct (count_some eqa (x :: l) (b :: st) c) as (n & Hn & _);
        [simpl; lia |].
      destruct (count_tail _ _ _ _ _ _ Hn) as (m & Hm & Hle).
      rewrite Hm in Hn'. injection Hn' as <-.
      specialize (Hcap (b :: st) c n Est). rewrite Ec in Hcap.
      specialize (Hcap Hn). lia.
  - destruct (_content q); simpl in Hst'; try rewrite Est in Hst';
      discriminate Hst'.
Qed.

Lemma ticket_capped (q q' : Queue A) (x : A) :
  aligned q -> capped q -> ticket_by eqa q x = inr q' -> capped q'.
Proof.
  intros Hal Hcap Ht st' c n' Hst' Hn'. unfold aligned in Hal.
  unfold ticket_by in Ht.
  destruct (_add_status q) as [st|] eqn:Est.
  2:{ injection Ht as <-. discriminate Hst'. }
  unfold permission_by in Ht.
  assert (Hadd : forall b,
            (b = true -> eqa x c = true ->
             exists n, add_ability_count_by eqa (_content q) st c = Some n /\
                       (n < 2)%nat) ->
            q' = mkQueue (_content q ++ [x]) (_p1 q) (_p2 q) (Some (st ++ [b])) ->
            (n' <= 2)%nat).
  { intros b Hb ->. simpl in Hst', Hn'. injection Hst' as <-.
    rewrite (count_app _ _ _ _ _ Hal) in Hn'.
    destruct (add_ability_count_by eqa (_content q) st c) as [n|] eqn:En;
      [| discriminate Hn'].
    injection Hn' as <-.
    specialize (Hcap st c n Est En).
    destruct (eqa x c) eqn:Exc; [| simpl; lia].
    destruct b; [| simpl; lia]. simpl.
    destruct (Hb eq_refl eq_refl) as (m & Hm & Hlt).
    injection Hm as <-. lia. }
  destruct (Nat.eqb (exist_count_by eqa (_content q) x) 0) eqn:E0.
  - injection Ht as Eq. apply (Hadd true); [| now symmetry].
    intros _ Exc. apply eqa_eq in Exc. subst c.
    apply Nat.eqb_eq in E0. rewrite (count_absent _ _ E0).
    exists O. split; [reflexivity | lia].
  - destruct (_content q) as [|front rest] eqn:Ec; [discriminate Ht |].
    destruct st as [|fs st0]; [discriminate Ht |].
    destruct fs.
    + destruct (eqa front x) eqn:Efx.
      * destruct (add_ability_count_by eqa (front :: rest) (true :: st0) front)
          as [n|] eqn:En; [| discriminate Ht].
        injection Ht as Eq. apply (Hadd (negb (2 <=? n)%nat)); [| now symmetry].
        intros Hb Exc. apply eqa_eq in Exc, Efx. subst c front.
        exists n. split; [exact En |].
        destruct (Nat.leb_spec 2 n); [discriminate Hb | lia].
      * injection Ht as Eq. apply (Hadd false); [| now symmetry].
        intros Hb; discriminate Hb.
    + injection Ht as <-. rewrite Est in Hst'. injection Hst' as <-.
      rewrite Ec in Hn'. specialize (Hcap _ c n' Est). rewrite Ec in Hcap.
      exact (Hcap Hn').
Qed.

End Cap.


(** Python has no dangling reference: a player recorded by a queue exists. *)
Definition allocated (h : Heap) (o : option cref) : Prop :=
  match o with
  | Some c => is_Some (characters h !! c)
  | None => True
  end.

Lemma copy_missing (self : qref) (h : Heap) :
  queues h !! self = None -> copy self h = Raise BadReference h.
Proof.
  intros Hq. unfold copy. erewrite bind_Raise; [reflexivity |].
  unfold get_queue. now rewrite Hq.
Qed.

(** [copy] either finds both players of its source, or raises having only
    allocated. *)
Lemma copy_cases (self : qref) (h : Heap) (q0 : BattleQueue) :
  queues h !! self = Some q0 ->
  allocated h (_p1 q0) -> allocated h (_p2 q0) ->
  (exists a0 b0 xa xb,
     _p1 q0 = Some a0 /\ _p2 q0 = Some b0 /\
     characters h !! a0 = Some xa /\ characters h !! b0 = Some xb) \/
  (exists h', copy self h = Raise AttributeError h' /\
              frame nothing nothing nothing h h').
Proof.
  intros Hq A1 A2.
  rewrite (copy_dispatch _ _ _ Hq). unfold copy_into.
  erewrite bind_Ret by reflexivity. cbn beta.
  erewrite bind_Ret
    by (apply get_queue_eq; simpl; apply lookup_app_l_Some; exact Hq).
  cbn beta.
  destruct (_p1 q0) as [a0|] eqn:Hp1.
  2:{ right. eexists. split; [reflexivity | apply frame_new_queue]. }
  destruct A1 as [xa Ha].
  simpl deref. unfold bind at 1. unfold ret at 1. unfold Character_copy.
  erewrite bind_Ret;
    [| erewrite bind_Ret by (apply get_character_eq; simpl; exact Ha);
       reflexivity].
  cbn beta.
  destruct (_p2 q0) as [b0|] eqn:Hp2.
  2:{ right. eexists. split; [reflexivity |].
      eapply frame_trans; [apply (frame_new_queue _ _ _ h) | | | |].
      - apply (frame_new_character nothing nothing nothing
                 (mkHeap (characters h) (queues h ++ [_]) (nodes h))).
      - auto.
      - auto.
      - auto. }
  destruct A2 as [xb Hb].
  left. exists a0, b0, xa, xb. auto.
Qed.


Lemma same_eq (x y : cref) : same x y = true <-> x = y.
Proof. unfold same. apply Nat.eqb_eq. Qed.

Lemma bool_eqb_eq (x y : bool) : Bool.eqb x y = true <-> x = y.
Proof. apply Bool.eqb_true_iff. Qed.

(** The invariant of a queue object: one permission bit per ticket, and at
    most two eligible tickets per character. *)
Definition within_cap (q : BattleQueue) : Prop :=
  aligned q /\ capped same q.

Lemma within_cap_players (q : BattleQueue) (p1 p2 : option cref) :
  within_cap q ->
  within_cap (mkQueue (_content q) p1 p2 (_add_status q)).
Proof. intros [Hal Hcap]. split; [exact Hal | exact Hcap]. Qed.

Lemma within_cap_init : within_cap RestrictedBattleQueue_init.
Proof.
  split; [reflexivity |].
  intros st c n [= <-]. simpl. intros [= <-]. lia.
Qed.

Lemma enrol_within_cap (cs : list Character) (q q1 : BattleQueue) (c : cref) :
  enrol cs q c = Some q1 -> within_cap q -> within_cap q1.
Proof.
  unfold enrol. intros He Hq.
  destruct (_p1 q); [injection He as <-; exact Hq |].
  destruct (cs !! c); [| discriminate He].
  injection He as <-. now apply within_cap_players.
Qed.

Lemma add_not_enrolled (self : qref) (character : cref) (h : Heap) (q : BattleQueue) :
  queues h !! self = Some q ->
  enrol (characters h) q character = None ->
  exists h', add self character h = Raise BadReference h'.
Proof.
  intros Hq He. unfold enrol in He.
  destruct (_p1 q) eqn:Ep; [discriminate He |].
  destruct (characters h !! character) eqn:Ec; [discriminate He |].
  unfold add. erewrite bind_Ret by (apply get_queue_eq; eauto). cbn beta.
  destruct (_add_status q).
  - unfold RestrictedBattleQueue_add.
    erewrite bind_Ret by (apply get_queue_eq; eauto). cbn beta.
    rewrite Ep. eexists.
    erewrite bind_Raise; [reflexivity |].
    erewrite bind_Raise; [reflexivity |].
    unfold get_character. rewrite Ec. reflexivity.
  - unfold BattleQueue_add.
    erewrite bind_Ret by (apply get_queue_eq; eauto). cbn beta.
    unfold set_content.
    erewrite bind_Ret;
      [| erewrite bind_Ret by (apply get_queue_eq; eauto); reflexivity].
    cbn beta. rewrite Ep. eexists.
    erewrite bind_Raise; [reflexivity |].
    unfold get_character. simpl. rewrite Ec. reflexivity.
Qed.

Lemma purge_failed (self : qref) (h : Heap) (q : BattleQueue) :
  queues h !! self = Some q ->
  snd (drop_dead (acts h) (_content q)) = false ->
  exists h', _clean_queue self h = Raise BadReference h'.
Proof.
  intros Hq Hok. rewrite (_clean_queue_eq _ _ _ Hq), Hok. eauto.
Qed.

(** The calls a client makes on a restricted queue. *)
Inductive rbq_call : Type :=
| Call_add (character : cref)
| Call_remove
| Call_peek
| Call_is_empty.

Definition run_call (self : qref) (call : rbq_call) : M unit :=
  match call with
  | Call_add character => add self character
  | Call_remove => bind (remove self) (fun _ => ret tt)
  | Call_peek => bind (peek self) (fun _ => ret tt)
  | Call_is_empty => bind (is_empty self) (fun _ => ret tt)
  end.

Lemma cleaned_within_cap (h : Heap) (q : BattleQueue) :
  within_cap q -> within_cap (cleaned (acts h) q).
Proof.
  intros [Hal Hcap]. split.
  - now apply cleaned_aligned.
  - now apply cleaned_capped.
Qed.

Lemma call_within_cap (self : qref) (call : rbq_call) (h h' : Heap)
    (q : BattleQueue) :
  queues h !! self = Some q -> within_cap q ->
  heap_of (run_call self call h) = Some h' ->
  (forall h'', run_call self call h <> Raise BadReference h'') ->
  exists q', queues h' !! self = Some q' /\ within_cap q'.
Proof.
  intros Hq Hin Hrun Hgood.
  assert (Hpurge : (forall c0, call <> Call_add c0) ->
                   snd (drop_dead (acts h) (_content q)) = true).
  { intros Hc. destruct (snd (drop_dead (acts h) (_content q))) eqn:Hok;
      [reflexivity | exfalso].
    destruct (purge_failed _ _ _ Hq Hok) as (h'' & E).
    destruct call as [c| | |]; simpl in Hgood.
    - now apply (Hc c).
    - apply (Hgood h''). erewrite bind_Raise; [reflexivity |].
      unfold remove.
      erewrite bind_Ret by (apply get_queue_eq; eauto). cbn beta.
      destruct (_add_status q);
        [unfold RestrictedBattleQueue_remove | unfold BattleQueue_remove];
        erewrite bind_Raise; eauto.
    - apply (Hgood h''). erewrite bind_Raise; [reflexivity |].
      unfold peek. erewrite bind_Raise; eauto.
    - apply (Hgood h''). erewrite bind_Raise; [reflexivity |].
      unfold is_empty. erewrite bind_Raise; eauto. }
  destruct call as [c| | |]; simpl in Hrun, Hgood.
  - destruct (enrol (characters h) q c) as [q1|] eqn:He.
    + rewrite (add_eq _ _ _ _ _ Hq He) in Hrun.
      pose proof (enrol_within_cap _ _ _ _ He Hin) as [Hal1 Hcap1].
      destruct (ticket_aligned same q1 c Hal1) as (q2 & Ht & Hal2 & _).
      rewrite Ht in Hrun. injection Hrun as <-.
      exists q2. split; [eapply with_queue_lookup; eauto |].
      split; [exact Hal2 |].
      exact (ticket_capped same same_eq q1 q2 c Hal1 Hcap1 Ht).
    + destruct (add_not_enrolled _ _ _ _ Hq He) as (h'' & E).
      exfalso. now apply (Hgood h'').
  - assert (Hok : snd (drop_dead (acts h) (_content q)) = true)
      by (apply Hpurge; intros; discriminate).
    unfold bind in Hrun. rewrite (remove_eq _ _ _ Hq Hok) in Hrun.
    pose proof (cleaned_within_cap h q Hin) as [Hal1 Hcap1].
    exists (snd (pop_front (cleaned (acts h) q))). split.
    + destruct (fst (pop_front (cleaned (acts h) q))); simpl in Hrun;
        injection Hrun as <-; eapply with_queue_lookup; eauto.
    + split; [now apply pop_front_aligned |].
      now apply (pop_front_capped same).
  - assert (Hok : snd (drop_dead (acts h) (_content q)) = true)
      by (apply Hpurge; intros; discriminate).
    unfold bind in Hrun. rewrite (peek_eq _ _ _ Hq Hok) in Hrun.
    injection Hrun as <-. exists (cleaned (acts h) q).
    split; [eapply with_queue_lookup; eauto | now apply cleaned_within_cap].
  - assert (Hok : snd (drop_dead (acts h) (_content q)) = true)
      by (apply Hpurge; intros; discriminate).
    unfold bind in Hrun. rewrite (is_empty_eq _ _ _ Hq Hok) in Hrun.
    injection Hrun as <-. exists (cleaned (acts h) q).
    split; [eapply with_queue_lookup; eauto | now apply cleaned_within_cap].
Qed.


Lemma capped_same_shape {A : Type} (eqa : A -> A -> bool) (q q' : Queue A) :
  _content q' = _content q -> _add_status q' = _add_status q ->
  capped eqa q -> capped eqa q'.
Proof.
  intros Ec Es Hcap st c n Hst Hn. rewrite Ec in Hn. rewrite Es in Hst.
  exact (Hcap st c n Hst Hn).
Qed.

Lemma vadd_capped (v : VState) (t : bool) :
  v_valid v -> capped Bool.eqb (vq v) -> capped Bool.eqb (vq (vadd v t)).
Proof.
  intros Hv Hcap. unfold vadd.
  destruct (ticket_aligned Bool.eqb (vq v) t Hv) as (q' & Ht & Hal & _).
  rewrite Ht.
  apply (capped_same_shape Bool.eqb q'); [reflexivity | reflexivity |].
  exact (ticket_capped Bool.eqb bool_eqb_eq (vq v) q' t Hv Hcap Ht).
Qed.

Lemma fold_vadd_capped (l : list bool) :
  forall v, v_valid v -> capped Bool.eqb (vq v) ->
            capped Bool.eqb (vq (fold_left vadd l v)).
Proof.
  induction l as [|t l IH]; intros v Hv Hcap; [exact Hcap |].
  simpl. apply IH; [now apply vadd_valid | now apply vadd_capped].
Qed.

Lemma exist_count_stranger (a b c : cref) (l : list bool) :
  c <> a -> c <> b -> exist_count_by same (map (ref_of a b) l) c = O.
Proof.
  intros Ha Hb. induction l as [|t l IH]; [reflexivity |].
  simpl. destruct (same (ref_of a b t) c) eqn:E; [| exact IH].
  apply same_eq in E. destruct t; simpl in E; congruence.
Qed.

Lemma qrec_within_cap (a b : cref) (v : VState) :
  a <> b -> v_valid v -> capped Bool.eqb (vq v) -> within_cap (qrec a b v).
Proof.
  intros Hne Hv Hcap. split.
  - unfold aligned, qrec, map_queue; simpl. unfold v_valid, aligned in Hv.
    simpl in Hv. destruct (v_status v); [now rewrite length_map | exact I].
  - intros st c n Hst Hn. unfold qrec, map_queue in Hst, Hn; simpl in Hst, Hn.
    destruct (decide (c = a)) as [-> | Ha]; [| destruct (decide (c = b)) as [-> | Hb]].
    + change a with (ref_of a b true) in Hn at 2.
      rewrite (add_ability_count_map (ref_of a b) Bool.eqb same
                 (fun x y => ref_of_same a b x y Hne)) in Hn.
      exact (Hcap st true n Hst Hn).
    + change b with (ref_of a b false) in Hn at 2.
      rewrite (add_ability_count_map (ref_of a b) Bool.eqb same
                 (fun x y => ref_of_same a b x y Hne)) in Hn.
      exact (Hcap st false n Hst Hn).
    + rewrite (count_absent same _ _ (exist_count_stranger a b c _ Ha Hb)) in Hn.
      injection Hn as <-. lia.
Qed.

Lemma copied_within_cap (a b : cref) (q0 : BattleQueue) (sa sb : Stats) :
  a <> b -> within_cap (qrec a b (copied q0 sa sb)).
Proof.
  intros Hne.
  assert (Hv0 : v_valid (v_blank sa sb (_add_status q0)))
    by (unfold v_valid, aligned, v_blank, vq; simpl;
        destruct (_add_status q0); reflexivity).
  apply qrec_within_cap; [exact Hne | now apply fold_vadd_valid |].
  apply fold_vadd_capped; [exact Hv0 |].
  intros st c n Hst Hn. simpl in Hn. injection Hn as <-. lia.
Qed.

(** The restricted queues a program can build: a new one, one on which a
    method was called, a copy of one, and one left alone while the rest of
    the store changed (characters fought, other queues were used). *)
Inductive reachable : Heap -> qref -> Prop :=
| reach_new (h : Heap) :
    reachable (mkHeap (characters h) (queues h ++ [RestrictedBattleQueue_init])
                      (nodes h))
              (length (queues h))
| reach_call (h h' : Heap) (self : qref) (call : rbq_call) :
    reachable h self ->
    heap_of (run_call self call h) = Some h' ->
    (forall h'', run_call self call h <> Raise BadReference h'') ->
    reachable h' self
| reach_copy (h h' : Heap) (self new_bq : qref) (q0 : BattleQueue) :
    reachable h self ->
    queues h !! self = Some q0 ->
    allocated h (_p1 q0) -> allocated h (_p2 q0) ->
    copy self h = Ret new_bq h' ->
    reachable h' new_bq
| reach_other (h h' : Heap) (self : qref) :
    reachable h self ->
    queues h' !! self = queues h !! self ->
    reachable h' self.

Lemma reachable_within_cap (h : Heap) (self : qref) :
  reachable h self ->
  exists q, queues h !! self = Some q /\ within_cap q /\ _add_status q <> None.
Proof.
  induction 1 as [h | h h' self call _ (q & Hq & Hin & Hr) Hrun Hgood
                  | h h' self new_bq q0 _ IH Hq0 A1 A2 Hcopy
                  | h h' self _ (q & Hq & Hin & Hr) Hsame].
  - exists RestrictedBattleQueue_init. split; [apply lookup_snoc |].
    split; [apply within_cap_init | discriminate].
  - destruct (call_within_cap _ _ _ _ _ Hq Hin Hrun Hgood) as (q' & Hq' & Hin').
    exists q'. split; [exact Hq' |]. split; [exact Hin' |].
    (* the class of a queue never changes *)
    destruct Hin' as [Hal' _]. clear Hin.
    destruct call as [c| | |]; simpl in Hrun, Hgood.
    + destruct (enrol (characters h) q c) as [q1|] eqn:He.
      * rewrite (add_eq _ _ _ _ _ Hq He) in Hrun.
        assert (Hr1 : _add_status q1 <> None).
        { unfold enrol in He. destruct (_p1 q); [now injection He as <- |].
          destruct (characters h !! c); [| discriminate He].
          now injection He as <-. }
        unfold ticket_by in Hrun.
        destruct (_add_status q1) as [st|] eqn:Est; [| congruence].
        destruct (permission_by same (_content q1) st c) as [[b|]|];
          simpl in Hrun; injection Hrun as <-;
          rewrite (with_queue_lookup _ _ _ _ Hq) in Hq';
          injection Hq' as <-; simpl; congruence.
      * destruct (add_not_enrolled _ _ _ _ Hq He) as (h'' & E).
        exfalso. now apply (Hgood h'').
    + destruct (snd (drop_dead (acts h) (_content q))) eqn:Hok.
      * unfold bind in Hrun. rewrite (remove_eq _ _ _ Hq Hok) in Hrun.
        assert (Hh : h' = with_queue h self (snd (pop_front (cleaned (acts h) q))))
          by (destruct (fst (pop_front (cleaned (acts h) q))); simpl in Hrun;
              now injection Hrun as <-).
        subst h'. rewrite (with_queue_lookup _ _ _ _ Hq) in Hq'.
        injection Hq' as <-.
        unfold pop_front, cleaned, realign; simpl.
        destruct (_add_status q) as [st|]; [| congruence].
        destruct (fst (drop_dead (acts h) (_content q))) as [|x l];
          [discriminate |].
        destruct (last_n (length (x :: l)) st); simpl; discriminate.
      * destruct (purge_failed _ _ _ Hq Hok) as (h'' & E). exfalso.
        apply (Hgood h''). erewrite bind_Raise; [reflexivity |].
        unfold remove.
        erewrite bind_Ret by (apply get_queue_eq; eauto). cbn beta.
        destruct (_add_status q);
          [unfold RestrictedBattleQueue_remove | unfold BattleQueue_remove];
          erewrite bind_Raise; eauto.
    + destruct (snd (drop_dead (acts h) (_content q))) eqn:Hok.
      * unfold bind in Hrun. rewrite (peek_eq _ _ _ Hq Hok) in Hrun.
        injection Hrun as <-. rewrite (with_queue_lookup _ _ _ _ Hq) in Hq'.
        injection Hq' as <-. unfold cleaned, realign; simpl.
        destruct (_add_status q); [| congruence].
        destruct (fst (drop_dead (acts h) (_content q))); discriminate.
      * destruct (purge_failed _ _ _ Hq Hok) as (h'' & E). exfalso.
        apply (Hgood h''). erewrite bind_Raise; [reflexivity |].
        unfold peek. erewrite bind_Raise; eauto.
    + destruct (snd (drop_dead (acts h) (_content q))) eqn:Hok.
      * unfold bind in Hrun. rewrite (is_empty_eq _ _ _ Hq Hok) in Hrun.
        injection Hrun as <-. rewrite (with_queue_lookup _ _ _ _ Hq) in Hq'.
        injection Hq' as <-. unfold cleaned, realign; simpl.
        destruct (_add_status q); [| congruence].
        destruct (fst (drop_dead (acts h) (_content q))); discriminate.
      * destruct (purge_failed _ _ _ Hq Hok) as (h'' & E). exfalso.
        apply (Hgood h''). erewrite bind_Raise; [reflexivity |].
        unfold is_empty. erewrite bind_Raise; eauto.
  - destruct IH as (q & Hq & Hin & Hr).
    assert (q0 = q) by congruence. subst q0.
    destruct (copy_cases _ _ _ Hq A1 A2)
      as [(a0 & b0 & xa & xb & Hp1 & Hp2 & Ha & Hb) | (h'' & E & _)];
      [| rewrite E in Hcopy; discriminate Hcopy].
    rewrite (copy_eq _ _ _ _ _ _ _ Hq Hp1 Hp2 Ha Hb) in Hcopy.
    injection Hcopy as <- <-.
    eexists. split; [apply lookup_snoc |].
    split; [apply copied_within_cap; lia |].
    unfold qrec, map_queue, copied; simpl.
    assert (Hcls : forall l v, v_status v <> None ->
                               v_status (fold_left vadd l v) <> None).
    { induction l as [|t l IH]; intros v Hs; [exact Hs |].
      simpl. apply IH. unfold vadd, ticket_by.
      simpl. destruct (v_status v) as [st|] eqn:Es; [| congruence].
      destruct (permission_by Bool.eqb (v_tags v) st t) as [[b|]|];
        simpl; rewrite ?Es; congruence. }
    apply Hcls. unfold v_blank; simpl. destruct (_add_status q); congruence.
  - exists q. rewrite Hsame. auto.
Qed.

(** C6: on every restricted queue a program can build, and for every
    character, [get_add_ability_count] answers at most 2. *)
Theorem add_ability_count_at_most_two (h h' : Heap) (self : qref)
    (character : cref) (n : nat) :
  reachable h self ->
  get_add_ability_count self character h = Ret n h' ->
  (n <= 2)%nat.
Proof.
  intros Hreach Hn.
  destruct (reachable_within_cap _ _ Hreach) as (q & Hq & [Hal Hcap] & Hr).
  unfold get_add_ability_count in Hn.
  erewrite bind_Ret in Hn by (apply get_queue_eq; eauto). cbn beta in Hn.
  destruct (_add_status q) as [st|] eqn:Est; [| congruence].
  simpl in Hn. unfold bind, ret in Hn.
  destruct (add_ability_count (_content q) st character) as [m|] eqn:Em;
    [| discriminate Hn].
  injection Hn as <- _. exact (Hcap st character m Est Em).
Qed.

(** And the count is always defined there: the method never raises. *)
Lemma add_ability_count_defined (h : Heap) (self : qref) (character : cref) :
  reachable h self ->
  exists n, get_add_ability_count self character h = Ret n h.
Proof.
  intros Hreach.
  destruct (reachable_within_cap _ _ Hreach) as (q & Hq & [Hal Hcap] & Hr).
  unfold get_add_ability_count.
  erewrite bind_Ret by (apply get_queue_eq; eauto). cbn beta.
  unfold aligned in Hal.
  destruct (_add_status q) as [st|] eqn:Est; [| congruence].
  destruct (count_some same (_content q) st character Hal) as (n & Hn & _).
  exists n. simpl. unfold bind, ret. unfold add_ability_count. now rewrite Hn.
Qed.


(** ** Part XIII: the minimax value of a game *)

(** Two games are alike when they have the same players, the same tickets and
    the same class of queue; their permission bits may differ. *)
Definition alike (v w : VState) : Prop :=
  v_s1 v = v_s1 w /\ v_s2 v = v_s2 w /\ v_tags v = v_tags w /\
  is_None (v_status v) = is_None (v_status w).

Lemma alike_refl (v : VState) : alike v v.
Proof. repeat split. Qed.

Lemma alike_sym (v w : VState) : alike v w -> alike w v.
Proof. intros (A & B & C & D). repeat split; congruence. Qed.

Lemma alike_trans (u v w : VState) : alike u v -> alike v w -> alike u w.
Proof. intros (A & B & C & D) (A' & B' & C' & D'). repeat split; congruence. Qed.

Lemma v_acts_alike (v w : VState) (t : bool) : alike v w -> v_acts v t = v_acts w t.
Proof.
  intros (A & B & _). unfold v_acts, v_stats. rewrite A, B. reflexivity.
Qed.

Lemma drop_dead_ext {A : Type} (f g : A -> option (list Key)) (l : list A) :
  (forall x, f x = g x) -> drop_dead f l = drop_dead g l.
Proof.
  intros E. induction l as [|x l IH]; [reflexivity |].
  simpl. rewrite E, IH. reflexivity.
Qed.

Lemma vclean_alike (v w : VState) : alike v w -> alike (vclean v) (vclean w).
Proof.
  intros H. pose proof H as (A & B & C & D).
  unfold alike, vclean, v_with, cleaned; simpl.
  rewrite (drop_dead_ext (v_acts v) (v_acts w)) by (intros; now apply v_acts_alike).
  rewrite C. repeat split; auto.
  destruct (v_status v), (v_status w); try discriminate D;
    destruct (fst (drop_dead (v_acts w) (v_tags w))); reflexivity.
Qed.

(** A copy depends on the source only up to [alike]. *)
Lemma vcopy_alike (v w : VState) : alike v w -> vcopy v = vcopy w.
Proof.
  intros (A & B & C & D). unfold vcopy, v_blank. rewrite A, B, C.
  destruct (v_status v), (v_status w); try discriminate D; reflexivity.
Qed.

(** During the replay of a copy the front ticket may always add. *)
Definition front_may_add (v : VState) : Prop :=
  match v_status v with
  | Some st => v_tags v = [] \/ exists st', st = true :: st'
  | None => True
  end.

Lemma vadd_appends (v : VState) (t : bool) :
  v_valid v -> front_may_add v ->
  v_tags (vadd v t) = v_tags v ++ [t] /\ front_may_add (vadd v t) /\
  is_None (v_status (vadd v t)) = is_None (v_status v).
Proof.
  unfold v_valid, aligned, front_may_add, vadd, ticket_by, vq; simpl.
  destruct (v_status v) as [st|] eqn:Es; simpl.
  2:{ intros _ _. rewrite ?Es. repeat split. }
  intros Hal Hfront. unfold permission_by.
  destruct (v_tags v) as [|front rest] eqn:Et.
  - destruct st; [| discriminate Hal]. simpl. repeat split. right. eauto.
  - destruct Hfront as [Hnil | (st' & ->)]; [discriminate Hnil |].
    destruct (Nat.eqb (exist_count_by Bool.eqb (front :: rest) t) 0).
    + simpl. repeat split. right. eauto.
    + destruct (Bool.eqb front t).
      * destruct (count_some Bool.eqb (front :: rest) (true :: st') front Hal)
          as (n & Hn & _).
        rewrite Hn. simpl. repeat split. right. eauto.
      * simpl. repeat split. right. eauto.
Qed.

Lemma fold_vadd_appends (l : list bool) :
  forall v, v_valid v -> front_may_add v ->
    v_tags (fold_left vadd l v) = v_tags v ++ l /\
    is_None (v_status (fold_left vadd l v)) = is_None (v_status v).
Proof.
  induction l as [|t l IH]; intros v Hv Hf.
  - simpl. now rewrite app_nil_r.
  - simpl. destruct (vadd_appends v t Hv Hf) as (Ht & Hf' & Hc).
    destruct (IH (vadd v t) (vadd_valid _ _ Hv) Hf') as [-> ->].
    rewrite Ht, <- app_assoc, Hc. split; reflexivity.
Qed.

Lemma vcopy_like (v : VState) : alike (vcopy v) v.
Proof.
  unfold vcopy.
  assert (Hv0 : v_valid (v_blank (v_s1 v) (v_s2 v) (v_status v)))
    by (unfold v_valid, aligned, v_blank, vq; simpl;
        destruct (v_status v); reflexivity).
  assert (Hf0 : front_may_add (v_blank (v_s1 v) (v_s2 v) (v_status v)))
    by (unfold front_may_add, v_blank; simpl; destruct (v_status v); auto).
  destruct (fold_vadd_appends (v_tags v) _ Hv0 Hf0) as [Ht Hc].
  destruct (fold_vadd_stats (v_tags v) (v_blank (v_s1 v) (v_s2 v) (v_status v)))
    as [E1 E2].
  unfold alike. rewrite E1, E2, Ht, Hc. simpl.
  repeat split. destruct (v_status v); reflexivity.
Qed.

Lemma vclean_like_clean (v : VState) : alike (vclean (vclean v)) (vclean v).
Proof. rewrite vclean_idem. apply alike_refl. Qed.

(** The state in which a move is played: a purged copy of the purged game. *)
Definition v_stage (v : VState) : VState := vclean (vcopy (vclean v)).

Lemma v_stage_like (v : VState) : alike (v_stage v) (vclean v).
Proof.
  unfold v_stage.
  eapply alike_trans; [apply vclean_alike, vcopy_like |].
  apply vclean_like_clean.
Qed.

Lemma v_stage_alike (v w : VState) : alike v w -> v_stage v = v_stage w.
Proof.
  intros H. unfold v_stage.
  now rewrite (vcopy_alike (vclean v) (vclean w)) by (now apply vclean_alike).
Qed.

Lemma v_stage_valid (v : VState) : v_valid (v_stage v).
Proof. apply vclean_valid, vcopy_valid. Qed.

(** The game after the actor at the front plays [action]. *)
Definition v_child (action : Key) (v : VState) : VState :=
  fst (v_play action (v_front (v_stage v)) (v_stage v)).

Definition v_actions (v : VState) : list Key :=
  available_actions (v_stats v (v_front (vclean v)))
                    (Some (v_stats v (negb (v_front (vclean v))))).

(** The score a terminal game gives to player [p]. *)
Definition v_terminal (p : bool) (v : VState) : Z :=
  match v_winner v with
  | Some w =>
      if Bool.eqb p w then get_hp_of (v_stats v w) else - get_hp_of (v_stats v w)
  | None => 0
  end.

(** All the values of a list of computations, if each has one. *)
Fixpoint all_some {X : Type} (l : list (option X)) : option (list X) :=
  match l with
  | [] => Some []
  | Some x :: l' =>
      match all_some l' with
      | Some xs => Some (x :: xs)
      | None => None
      end
  | None :: _ => None
  end.

(** The value of [get_state_score_player] as a function of the game;
    [None] when the fuel runs out. *)
Fixpoint v_score (fuel : nat) (p : bool) (v : VState) : option Z :=
  match fuel with
  | O => None
  | S fuel' =>
      if v_over v then Some (v_terminal p v)
      else
        match all_some (map (fun action => v_score fuel' p (v_child action v))
                            (v_actions v)) with
        | Some (x :: l) => Some (max_list x l)
        | Some [] => Some 0
        | None => None
        end
  end.

Lemma v_over_alike (v w : VState) : alike v w -> v_over v = v_over w.
Proof.
  intros H. pose proof (vclean_alike _ _ H) as (_ & _ & Ct & _).
  destruct H as (A & B & _). unfold v_over. rewrite Ct, A, B. reflexivity.
Qed.

Lemma v_winner_alike (v w : VState) : alike v w -> v_winner v = v_winner w.
Proof.
  intros H. unfold v_winner. rewrite (v_over_alike _ _ H).
  destruct H as (A & B & _). rewrite A, B. reflexivity.
Qed.

Lemma v_actions_alike (v w : VState) : alike v w -> v_actions v = v_actions w.
Proof.
  intros H. pose proof (vclean_alike _ _ H) as (_ & _ & Ct & _).
  destruct H as (A & B & _). unfold v_actions, v_front, v_stats.
  rewrite Ct, A, B. reflexivity.
Qed.

Lemma v_child_alike (action : Key) (v w : VState) :
  alike v w -> v_child action v = v_child action w.
Proof. intros H. unfold v_child. now rewrite (v_stage_alike _ _ H). Qed.

Lemma v_score_alike (fuel : nat) (p : bool) (v w : VState) :
  alike v w -> v_score fuel p v = v_score fuel p w.
Proof.
  intros H. destruct fuel as [|fuel]; [reflexivity |]. simpl.
  rewrite (v_over_alike _ _ H), (v_actions_alike _ _ H).
  unfold v_terminal. rewrite (v_winner_alike _ _ H).
  destruct H as (A & B & C & D).
  assert (Es : forall t, v_stats v t = v_stats w t)
    by (intros t; unfold v_stats; now rewrite A, B).
  destruct (v_over w).
  - destruct (v_winner w); [now rewrite Es | reflexivity].
  - assert (Em : map (fun action => v_score fuel p (v_child action v))
                    (v_actions w) =
                map (fun action => v_score fuel p (v_child action w))
                    (v_actions w)).
    { apply map_ext. intros a.
      now rewrite (v_child_alike a v w) by (repeat split; assumption). }
    now rewrite Em.
Qed.

Lemma vclean_like (v : VState) : v_over (vclean v) = v_over v /\
  v_actions (vclean v) = v_actions v /\ v_winner (vclean v) = v_winner v /\
  v_stage (vclean v) = v_stage v.
Proof.
  unfold v_over, v_actions, v_winner, v_over, v_stage.
  rewrite !vclean_idem. repeat split.
Qed.

Lemma v_score_clean (fuel : nat) (p : bool) (v : VState) :
  v_score fuel p (vclean v) = v_score fuel p v.
Proof.
  destruct fuel as [|fuel]; [reflexivity |]. simpl.
  destruct (vclean_like v) as (Eo & Ea & Ew & Es).
  rewrite Eo, Ea. unfold v_terminal, v_child. rewrite Ew, Es. reflexivity.
Qed.

Lemma all_some_mono {X : Type} (f g : Key -> option X) (l : list Key) (xs : list X) :
  (forall a x, f a = Some x -> g a = Some x) ->
  all_some (map f l) = Some xs -> all_some (map g l) = Some xs.
Proof.
  intros Hfg. revert xs. induction l as [|a l IH]; intros xs; [auto |].
  simpl. destruct (f a) as [x|] eqn:Ef; [| discriminate].
  rewrite (Hfg a x Ef).
  destruct (all_some (map f l)) as [ys|]; [| discriminate].
  intros [= <-]. now rewrite (IH ys eq_refl).
Qed.

Lemma v_score_S (fuel : nat) (p : bool) (v : VState) :
  v_score (S fuel) p v =
    if v_over v then Some (v_terminal p v)
    else
      match all_some (map (fun action => v_score fuel p (v_child action v))
                          (v_actions v)) with
      | Some (x :: l) => Some (max_list x l)
      | Some [] => Some 0
      | None => None
      end.
Proof. reflexivity. Qed.

(** More fuel does not change a score. *)
Lemma v_score_mono (fuel : nat) :
  forall p v s, v_score fuel p v = Some s -> v_score (S fuel) p v = Some s.
Proof.
  induction fuel as [|fuel IH]; intros p v s H; [discriminate H |].
  rewrite v_score_S in H. rewrite (v_score_S (S fuel)).
  destruct (v_over v); [exact H |].
  destruct (all_some (map (fun action => v_score fuel p (v_child action v))
                          (v_actions v))) as [xs|] eqn:E; [| discriminate H].
  rewrite (all_some_mono _ (fun action => v_score (S fuel) p (v_child action v))
             _ _ (fun a x Ha => IH p (v_child a v) x Ha) E).
  exact H.
Qed.

Lemma v_score_more (k fuel : nat) (p : bool) (v : VState) (s : Z) :
  v_score fuel p v = Some s -> v_score (k + fuel) p v = Some s.
Proof.
  intros H. induction k as [|k IH]; [exact H |]. now apply v_score_mono.
Qed.


(** *** A game that is not over *)

Lemma drop_dead_front {A : Type} (acta : A -> option (list Key)) (l : list A)
    (x : A) (r : list A) :
  fst (drop_dead acta l) = x :: r ->
  acta x = None \/ exists k ks, acta x = Some (k :: ks).
Proof.
  induction l as [|y l IH]; simpl; [discriminate |].
  destruct (acta y) as [[|k ks]|] eqn:E; simpl.
  - exact IH.
  - intros [= <- <-]. right. eauto.
  - intros [= <- <-]. now left.
Qed.

(** When the game is not over, the queue has a front ticket and its holder has
    a move. *)
Lemma not_over_front (v : VState) :
  v_over v = false ->
  exists rest k ks,
    v_tags (vclean v) = v_front (vclean v) :: rest /\
    v_actions v = k :: ks.
Proof.
  unfold v_over, v_actions, v_front.
  destruct (v_tags (vclean v)) as [|f rest] eqn:Et; [discriminate |].
  intros _. unfold vclean in Et; simpl in Et.
  destruct (drop_dead_front _ _ _ _ Et) as [Hn | (k & ks & Hk)];
    [discriminate Hn |].
  injection Hk as Hk. exists rest, k, ks. split; [reflexivity | exact Hk].
Qed.

Lemma v_stage_front (v : VState) : v_front (v_stage v) = v_front (vclean v).
Proof.
  destruct (v_stage_like v) as (_ & _ & Ht & _). unfold v_front. now rewrite Ht.
Qed.

Lemma vadd_prefix (v : VState) (t : bool) :
  exists l, v_tags (vadd v t) = v_tags v ++ l.
Proof.
  unfold vadd, ticket_by. simpl.
  destruct (v_status v) as [st|].
  - destruct (permission_by Bool.eqb (v_tags v) st t) as [[b|]|]; simpl.
    + now exists [t].
    + exists []. now rewrite app_nil_r.
    + exists []. now rewrite app_nil_r.
  - simpl. now exists [t].
Qed.

Lemma fold_vadd_prefix (l : list bool) :
  forall v, exists l', v_tags (fold_left vadd l v) = v_tags v ++ l'.
Proof.
  induction l as [|t l IH]; intros v.
  - exists []. simpl. now rewrite app_nil_r.
  - simpl. destruct (IH (vadd v t)) as (l1 & ->).
    destruct (vadd_prefix v t) as (l2 & ->).
    exists (l2 ++ l1). now rewrite app_assoc.
Qed.

Lemma v_act_prefix (is_attack t : bool) (v : VState) :
  exists l', v_tags (v_act is_attack t v) = v_tags v ++ l'.
Proof.
  unfold v_act.
  destruct (fold_vadd_prefix
              (map (fun w : bool => if w then t else negb t)
                   (snd (perform is_attack (v_stats v t) (v_stats v (negb t)))))
              (v_set_stats v t
                 (fst (fst (perform is_attack (v_stats v t) (v_stats v (negb t)))))
                 (snd (fst (perform is_attack (v_stats v t) (v_stats v (negb t)))))))
    as (l' & ->).
  exists l'. destruct t; reflexivity.
Qed.

Lemma v_act_valid (is_attack t : bool) (v : VState) :
  v_valid v -> v_valid (v_act is_attack t v).
Proof.
  intros Hv. unfold v_act. apply fold_vadd_valid. destruct t; exact Hv.
Qed.

(** Played by the holder of the front ticket, a move never finds the queue
    empty when it takes its ticket back. *)
Lemma v_play_front_ok (action : Key) (v : VState) (rest : list bool) :
  v_valid v -> v_tags v = v_front v :: rest ->
  snd (v_play action (v_front v) v) = true.
Proof.
  intros Hv Ht. unfold v_play.
  set (v1 := v_act (is_A action) (v_front v) v).
  destruct (v_acts v1 (v_front v)) as [[|k ks]|] eqn:Ea; try reflexivity.
  cbn [snd].
  assert (Hv1 : v_valid v1) by (apply v_act_valid; exact Hv).
  destruct (v_act_prefix (is_A action) (v_front v) v) as (l' & Hp).
  fold v1 in Hp. rewrite Ht in Hp. simpl in Hp.
  assert (Hc : v_tags (vclean v1) = v_front v :: rest ++ l').
  { unfold vclean, v_with, cleaned. cbn [v_tags _content vq fst].
    rewrite Hp. cbn [drop_dead]. rewrite Ea. reflexivity. }
  pose proof (vclean_valid v1 Hv1) as Hvc.
  destruct (pop_front_aligned (vq (vclean v1)) Hvc) as [_ Hpop].
  destruct Hpop as (c & r & _ & -> & _); [| reflexivity].
  change (_content (vq (vclean v1))) with (v_tags (vclean v1)).
  rewrite Hc. discriminate.
Qed.

Lemma v_child_ok (action : Key) (v : VState) :
  v_over v = false ->
  snd (v_play action (v_front (v_stage v)) (v_stage v)) = true.
Proof.
  intros Hover. destruct (not_over_front v Hover) as (rest & _ & _ & Ht & _).
  destruct (v_stage_like v) as (_ & _ & Hs & _).
  apply (v_play_front_ok action (v_stage v) rest); [apply v_stage_valid |].
  rewrite v_stage_front, Hs. exact Ht.
Qed.

Lemma copied_qrec (a b : cref) (v : VState) :
  a <> b -> copied (qrec a b v) (v_s1 v) (v_s2 v) = vcopy v.
Proof.
  intros Hne. unfold copied, vcopy, qrec, map_queue; simpl.
  rewrite map_map. f_equal.
  rewrite <- (map_id (v_tags v)) at 2. apply map_ext.
  intros t. unfold tag_of, same_opt; simpl.
  destruct t; simpl; [apply Nat.eqb_refl | apply Nat.eqb_neq; congruence].
Qed.

(** [copy] on a game held in the store. *)
Lemma copy_of_rep (h : Heap) (q : qref) (a b : cref) (v : VState) :
  rep h q a b v ->
  copy q h = Ret (length (queues h)) (grown h (vcopy v)).
Proof.
  intros (Hne & Ha & Hb & Hq).
  rewrite (copy_eq q h (qrec a b v) a b _ _ Hq eq_refl eq_refl Ha Hb).
  simpl stats. now rewrite copied_qrec.
Qed.

Lemma rep_grown_old (h : Heap) (q : qref) (a b : cref) (v w : VState) :
  rep h q a b v -> rep (grown h w) q a b v.
Proof.
  intros H. eapply rep_frame; [exact H | apply frame_grown | | |]; auto.
Qed.


(** ** Part XIV: the scorer computes the minimax value *)

Lemma rep_char (h : Heap) (q : qref) (a b : cref) (v : VState) (t : bool) :
  rep h q a b v ->
  characters h !! ref_of a b t =
    Some (chr (v_stats v t) (ref_of a b (negb t)) q).
Proof. intros (Hne & Ha & Hb & Hq). destruct t; assumption. Qed.

(** What is expected of the recursive call: on a game held in the store it
    answers the value of the game, purges its queue and touches nothing else
    that existed. *)
Definition scorer_spec (recur : option cref -> qref -> M Z) (fuel : nat) : Prop :=
  forall (p : bool) (h : Heap) (q : qref) (a b : cref) (v : VState),
    rep h q a b v ->
    match v_score fuel p v with
    | Some s =>
        exists h', recur (Some (ref_of a b p)) q h = Ret s h' /\
                   rep h' q a b (vclean v) /\
                   frame nothing (only q) nothing h h'
    | None => recur (Some (ref_of a b p)) q h = OutOfFuel
    end.

Lemma same_opt_ref (a b : cref) (x y : bool) :
  a <> b -> same_opt (Some (ref_of a b x)) (Some (ref_of a b y)) = Bool.eqb x y.
Proof. intros Hne. simpl. now apply (ref_of_same a b x y). Qed.

(** The store after the queue [q] was copied and the move played on the
    copy. *)
Lemma stage_and_play (action : Key) (h : Heap) (q : qref) (a b : cref)
    (v : VState) :
  rep h q a b v -> vclean v = v -> v_over v = false ->
  copy q h = Ret (length (queues h)) (grown h (vcopy v)) /\
  peek (length (queues h)) (grown h (vcopy v)) =
    Ret (Some (ref_of (length (characters h)) (S (length (characters h)))
                      (v_front (vclean v))))
        (grown h (v_stage v)) /\
  peek q (grown h (v_stage v)) =
    Ret (Some (ref_of a b (v_front (vclean v)))) (grown h (v_stage v)) /\
  play action (ref_of (length (characters h)) (S (length (characters h)))
                      (v_front (vclean v)))
       (length (queues h)) (grown h (v_stage v)) =
    Ret tt (grown h (v_child action v)).
Proof.
  intros H Hclean Hover.
  assert (Est : v_stage v = vclean (vcopy v))
    by (unfold v_stage; now rewrite Hclean).
  split; [exact (copy_of_rep h q a b v H) |]. split.
  { rewrite (peek_rep _ _ _ _ _ (rep_grown h (vcopy v))), put_grown.
    rewrite <- Est, v_stage_front. reflexivity. }
  split.
  { pose proof (rep_grown_old h q a b v (v_stage v) H) as H'.
    rewrite (peek_rep _ _ _ _ _ H'). rewrite Hclean.
    now rewrite (put_same _ _ _ _ _ H'). }
  destruct (play_rep action _ _ _ _ _ (v_front (vclean v))
              (rep_grown h (v_stage v)) (v_stage_valid v)) as [Hplay _].
  rewrite Hplay, put_grown. unfold v_child. rewrite v_stage_front.
  rewrite <- (v_stage_front v) at 1 2.
  rewrite (v_child_ok action v Hover). rewrite v_stage_front. reflexivity.
Qed.

Lemma score_after_rep (recur : option cref -> qref -> M Z) (fuel : nat) :
  scorer_spec recur fuel ->
  forall (action : Key) (p : bool) (h : Heap) (q : qref) (a b : cref) (v : VState),
    rep h q a b v -> vclean v = v -> v_over v = false ->
    match v_score fuel p (v_child action v) with
    | Some s =>
        exists h', score_after recur (Some (ref_of a b p)) q action h = Ret s h' /\
                   rep h' q a b v /\
                   frame nothing nothing nothing h h'
    | None => score_after recur (Some (ref_of a b p)) q action h = OutOfFuel
    end.
Proof.
  intros Hrec action p h q a b v H Hclean Hover.
  pose proof H as (Hne & _).
  destruct (stage_and_play action h q a b v H Hclean Hover)
    as (Hcopy & Hpeek1 & Hpeek2 & Hplay).
  set (nc := length (characters h)) in *. set (nq := length (queues h)) in *.
  set (f := v_front (vclean v)) in *.
  assert (Hplayer :
    (if same_opt (Some (ref_of a b p)) (Some (ref_of a b f))
     then ret (Some (ref_of nc (S nc) f))
     else bind (deref (Some (ref_of nc (S nc) f)))
            (fun cp => bind (get_character cp) (fun x => ret (enemy x))))
      (grown h (v_stage v)) =
    Ret (Some (ref_of nc (S nc) p)) (grown h (v_stage v))).
  { rewrite (same_opt_ref a b p f Hne).
    destruct (Bool.eqb p f) eqn:Epf.
    - apply Bool.eqb_prop in Epf. now subst p.
    - simpl deref. unfold bind at 1. unfold ret at 1.
      erewrite bind_Ret
        by (apply get_character_eq;
            apply (rep_char _ _ _ _ _ f (rep_grown h (v_stage v)))).
      cbn beta. unfold ret, chr; simpl. f_equal. f_equal. f_equal.
      destruct p, f; simpl in *; congruence. }
  assert (Hprefix : forall k : option cref -> qref -> M Z,
    score_after k (Some (ref_of a b p)) q action h =
    k (Some (ref_of nc (S nc) p)) nq (grown h (v_child action v))).
  { intros k. unfold score_after.
    erewrite bind_Ret by exact Hcopy. cbn beta.
    erewrite bind_Ret by exact Hpeek1. cbn beta.
    erewrite bind_Ret by exact Hpeek2. cbn beta.
    erewrite bind_Ret by exact Hplayer. cbn beta.
    simpl deref. unfold bind at 1. unfold ret at 1.
    erewrite bind_Ret by exact Hplay. reflexivity. }
  rewrite Hprefix.
  pose proof (Hrec p _ _ _ _ _ (rep_grown h (v_child action v))) as Hr.
  fold nc nq in Hr.
  destruct (v_score fuel p (v_child action v)) as [s|]; [| exact Hr].
  destruct Hr as (h' & Hret & _ & Hf).
  exists h'. split; [exact Hret |].
  assert (F : frame nothing nothing nothing h h').
  { eapply frame_trans; [apply (frame_grown h (v_child action v)) | exact Hf | | |].
    - auto.
    - unfold only. intros r Hr ->. subst nq. lia.
    - auto. }
  split; [| exact F].
  eapply rep_frame; [exact H | exact F | | |]; auto.
Qed.

(** The loop over the moves, with the scores of all branches. *)
Lemma score_loop_rep (recur : option cref -> qref -> M Z) (fuel : nat)
    (p : bool) (q : qref) (a b : cref) (v : VState) :
  scorer_spec recur fuel ->
  vclean v = v -> v_over v = false ->
  forall (actions : list Key) (h : Heap),
    rep h q a b v ->
    match all_some (map (fun action => v_score fuel p (v_child action v)) actions) with
    | Some ss =>
        exists h', for_each actions (score_after recur (Some (ref_of a b p)) q) h
                   = Ret ss h' /\
                   rep h' q a b v /\
                   frame nothing nothing nothing h h'
    | None =>
        for_each actions (score_after recur (Some (ref_of a b p)) q) h = OutOfFuel
    end.
Proof.
  intros Hrec Hclean Hover. induction actions as [|action actions IH]; intros h H.
  - simpl. exists h. split; [reflexivity |]. split; [exact H | apply frame_refl].
  - cbn [map all_some for_each].
    pose proof (score_after_rep recur fuel Hrec action p h q a b v H Hclean Hover)
      as Hb.
    destruct (v_score fuel p (v_child action v)) as [s|].
    + destruct Hb as (h1 & Hret & H1 & F1).
      erewrite bind_Ret by exact Hret. cbn beta.
      specialize (IH h1 H1).
      destruct (all_some (map (fun action0 => v_score fuel p (v_child action0 v))
                              actions)) as [ss|].
      * destruct IH as (h2 & Hret2 & H2 & F2).
        exists h2. erewrite bind_Ret by exact Hret2.
        split; [reflexivity |]. split; [exact H2 |].
        eapply frame_trans; eauto.
      * now erewrite bind_OutOfFuel by exact IH.
    + now erewrite bind_OutOfFuel by exact Hb.
Qed.


(** Writing a game back with the stats it already has changes its queue
    only. *)
Lemma put_queue_only (h : Heap) (q : qref) (a b : cref) (v v' : VState) :
  rep h q a b v -> v_s1 v' = v_s1 v -> v_s2 v' = v_s2 v ->
  put h q a b v' = with_queue h q (qrec a b v').
Proof.
  intros (Hne & Ha & Hb & Hq) E1 E2. unfold put, with_queue. rewrite E1, E2.
  rewrite (list_insert_id (characters h) b) by exact Hb.
  rewrite (list_insert_id (characters h) a) by exact Ha.
  reflexivity.
Qed.

Lemma frame_put_clean (h : Heap) (q : qref) (a b : cref) (v : VState) :
  rep h q a b v -> frame nothing (only q) nothing h (put h q a b (vclean v)).
Proof.
  intros H. rewrite (put_queue_only h q a b v (vclean v) H eq_refl eq_refl).
  now apply frame_with_queue.
Qed.

Lemma put_clean_clean (h : Heap) (q : qref) (a b : cref) (v : VState) :
  rep h q a b v ->
  put (put h q a b (vclean v)) q a b (vclean (vclean v)) = put h q a b (vclean v).
Proof.
  intros H. rewrite vclean_idem.
  apply put_same. exact (rep_put_rep h q a b v (vclean v) H).
Qed.

Lemma bind_ret {A B : Type} (x : A) (k : A -> M B) (h : Heap) :
  bind (ret x) k h = k x h.
Proof. reflexivity. Qed.

Lemma all_some_cons {X : Type} (f : Key -> option X) (k : Key) (ks : list Key)
    (ss : list X) :
  all_some (map f (k :: ks)) = Some ss -> exists x l, ss = x :: l.
Proof.
  cbn [map all_some]. destruct (f k) as [x|]; [| discriminate].
  destruct (all_some (map f ks)) as [l|]; [| discriminate].
  intros [= <-]. now exists x, l.
Qed.

(** [get_state_score_player] on a game held in the store: it returns the
    value [v_score] of the game (or runs out of fuel exactly when [v_score]
    does), leaves the queue purged and every other old object as it was. *)
Lemma gssp_rep (fuel : nat) : scorer_spec (get_state_score_player fuel) fuel.
Proof.
  induction fuel as [|fuel IH]; intros p h q a b v H.
  - reflexivity.
  - rewrite v_score_S. cbn [get_state_score_player].
    pose proof H as (Hne & _).
    pose proof (rep_put_rep h q a b v (vclean v) H) as H1.
    pose proof (frame_put_clean h q a b v H) as F1.
    destruct (vclean_like v) as (Lover & Lacts & Lwin & Lstage).
    erewrite bind_Ret by exact (is_over_rep h q a b v H). cbn beta.
    destruct (v_over v) eqn:Hover.
    + erewrite bind_Ret by exact (get_winner_rep _ q a b _ H1). cbn beta.
      rewrite (put_clean_clean h q a b v H), Lwin.
      unfold v_terminal. destruct (v_winner v) as [w|]; cbn [option_map].
      * rewrite (same_opt_ref a b p w Hne).
        destruct (Bool.eqb p w).
        -- exists (put h q a b (vclean v)).
           rewrite (get_hp_rep _ q a b _ w H1). auto.
        -- exists (put h q a b (vclean v)).
           erewrite bind_Ret by exact (get_hp_rep _ q a b _ w H1). auto.
      * exists (put h q a b (vclean v)). auto.
    + erewrite bind_Ret by exact (peek_rep _ q a b _ H1). cbn beta.
      rewrite (put_clean_clean h q a b v H), vclean_idem.
      simpl deref. rewrite bind_ret.
      erewrite bind_Ret
        by exact (get_available_actions_rep _ q a b _ (v_front (vclean v)) H1).
      cbn beta.
      change (available_actions (v_stats (vclean v) (v_front (vclean v)))
                (Some (v_stats (vclean v) (negb (v_front (vclean v))))))
        with (v_actions v).
      assert (Hover' : v_over (vclean v) = false) by congruence.
      pose proof (score_loop_rep (get_state_score_player fuel) fuel p q a b
                    (vclean v) IH (vclean_idem v) Hover' (v_actions v)
                    (put h q a b (vclean v)) H1) as Hloop.
      assert (Echild : forall action, v_child action (vclean v) = v_child action v).
      { intros action. unfold v_child. now rewrite Lstage. }
      rewrite (map_ext _ (fun action => v_score fuel p (v_child action v))) in Hloop
        by (intros action; now rewrite Echild).
      destruct (all_some (map (fun action => v_score fuel p (v_child action v))
                              (v_actions v))) as [ss|] eqn:Ess.
      * destruct Hloop as (h2 & Hret & H2 & F2).
        destruct (not_over_front v Hover) as (rest & k & ks & _ & Eacts).
        rewrite Eacts in Ess.
        destruct (all_some_cons _ _ _ _ Ess) as (x & l & ->).
        exists h2. erewrite bind_Ret by exact Hret. cbn beta.
        split; [reflexivity |]. split; [exact H2 |].
        eapply frame_trans; [exact F1 | exact F2 | | |]; intros ? _ [].
      * now erewrite bind_OutOfFuel by exact Hloop.
Qed.


(** *** Objects allocated after a store was taken do not count *)

Lemma frame_put_fresh (h0 h : Heap) (q : qref) (a b : cref) (w : VState) :
  frame nothing nothing nothing h0 h ->
  (length (characters h0) <= a)%nat -> (length (characters h0) <= b)%nat ->
  (length (queues h0) <= q)%nat ->
  frame nothing nothing nothing h0 (put h q a b w).
Proof.
  intros F La Lb Lq.
  eapply frame_trans; [exact F | apply (frame_put h q a b w) | | |].
  - intros c Hc [-> | ->]; lia.
  - intros r Hr ->. lia.
  - auto.
Qed.

Lemma frame_only_fresh (h0 h h' : Heap) (q : qref) :
  frame nothing nothing nothing h0 h ->
  frame nothing (only q) nothing h h' ->
  (length (queues h0) <= q)%nat ->
  frame nothing nothing nothing h0 h'.
Proof.
  intros F F' Lq.
  eapply frame_trans; [exact F | exact F' | | |]; auto.
  intros r Hr ->. lia.
Qed.

Lemma frame_lengths (C : cref -> Prop) (Q : qref -> Prop) (N : nref -> Prop)
    (h h' : Heap) :
  frame C Q N h h' ->
  (length (characters h) <= length (characters h'))%nat /\
  (length (queues h) <= length (queues h'))%nat /\
  (length (nodes h) <= length (nodes h'))%nat.
Proof. intros (_ & _ & _ & L). exact L. Qed.

Lemma v_front_alike (v w : VState) : alike v w -> v_front v = v_front w.
Proof. intros (_ & _ & E & _). unfold v_front. now rewrite E. Qed.

Lemma vclean_vcopy_like (v : VState) : alike (vclean (vcopy v)) (vclean v).
Proof. apply vclean_alike, vcopy_like. Qed.

(** [get_state_score] on a game held in the store: the value of the game for
    the player at its front, and no object that existed is changed. *)
Lemma get_state_score_rep (fuel : nat) (h : Heap) (q : qref) (a b : cref)
    (v : VState) :
  rep h q a b v ->
  match v_score fuel (v_front (vclean v)) v with
  | Some s =>
      exists h', get_state_score fuel q h = Ret s h' /\
                 frame nothing nothing nothing h h'
  | None => get_state_score fuel q h = OutOfFuel
  end.
Proof.
  intros H. unfold get_state_score.
  erewrite bind_Ret by exact (copy_of_rep h q a b v H). cbn beta.
  erewrite bind_Ret by exact (peek_rep _ _ _ _ _ (rep_grown h (vcopy v))).
  cbn beta. rewrite put_grown.
  pose proof (gssp_rep fuel (v_front (vclean (vcopy v))) _ _ _ _ _
                (rep_grown h (vclean (vcopy v)))) as Hs.
  rewrite (v_score_alike fuel _ _ _ (vclean_vcopy_like v)), v_score_clean in Hs.
  rewrite (v_front_alike _ _ (vclean_vcopy_like v)) in Hs.
  destruct (v_score fuel (v_front (vclean v)) v) as [s|].
  - destruct Hs as (h' & Hret & _ & F).
    exists h'. rewrite (v_front_alike _ _ (vclean_vcopy_like v)).
    split; [exact Hret |].
    eapply frame_only_fresh; [apply (frame_grown h (vclean (vcopy v))) | exact F |].
    lia.
  - rewrite (v_front_alike _ _ (vclean_vcopy_like v)). exact Hs.
Qed.


(** ** Part XV: the recursive playstyle *)

(** What one round of the loop of the recursive [select_attack] assigns. *)
Definition assigned (s : Z * Z * Z) (action : Key) (highest score : Z) : Z * Z * Z :=
  match action with
  | Key_A => (highest, score, snd s)
  | _ => (highest, snd (fst s), score)
  end.

Lemma v_stage_clean (v : VState) : vclean v = v -> v_stage v = vclean (vcopy v).
Proof. intros E. unfold v_stage. now rewrite E. Qed.

(** One round of the loop, on a purged game: whatever the outcome no object
    that existed is changed, and while the game is on the round assigns the
    value of the game and the value of the move. *)
Lemma try_action_rep (fuel : nat) (hk : Heap) (q : qref) (a b : cref)
    (v : VState) (s : Z * Z * Z) (action : Key) :
  rep hk q a b v -> vclean v = v ->
  (forall h', heap_of (try_action fuel q s action hk) = Some h' ->
              frame nothing nothing nothing hk h') /\
  (v_over v = false ->
   match v_score fuel (v_front v) v with
   | Some hs =>
       match v_score fuel (v_front v) (v_child action v) with
       | Some sc =>
           exists h', try_action fuel q s action hk =
                        Ret (assigned s action hs sc) h'
       | None => try_action fuel q s action hk = OutOfFuel
       end
   | None => try_action fuel q s action hk = OutOfFuel
   end).
Proof.
  intros H Hclean.
  remember (try_action fuel q s action hk) as o eqn:Eo.
  unfold try_action in Eo.
  erewrite bind_Ret in Eo by exact (copy_of_rep hk q a b v H). cbn beta in Eo.
  set (nc := length (characters hk)) in *. set (nq := length (queues hk)) in *.
  pose proof (frame_grown hk (vcopy v)) as Fg.
  pose proof (get_state_score_rep fuel _ _ _ _ _ (rep_grown hk (vcopy v))) as Hs.
  fold nc nq in Hs.
  rewrite (v_front_alike _ _ (vclean_vcopy_like v)) in Hs.
  rewrite (v_score_alike fuel _ _ _ (vcopy_like v)) in Hs.
  rewrite Hclean in Hs.
  destruct (v_score fuel (v_front v) v) as [hs|].
  2:{ erewrite bind_OutOfFuel in Eo by exact Hs. subst o.
      split; [discriminate | reflexivity]. }
  destruct Hs as (h2 & Hret2 & F2).
  erewrite bind_Ret in Eo by exact Hret2. cbn beta in Eo.
  assert (F02 : frame nothing nothing nothing hk h2)
    by (eapply frame_trans; [exact Fg | exact F2 | | |]; auto).
  assert (H2 : rep h2 nq nc (S nc) (vcopy v))
    by (eapply rep_frame; [apply (rep_grown hk (vcopy v)) | exact F2 | | |]; auto).
  erewrite bind_Ret in Eo by exact (peek_rep _ _ _ _ _ H2). cbn beta in Eo.
  rewrite <- (v_stage_clean v Hclean) in Eo.
  pose proof (rep_put_rep _ _ _ _ _ (v_stage v) H2) as H3.
  assert (F03 : frame nothing nothing nothing hk
                      (put h2 nq nc (S nc) (v_stage v)))
    by (apply frame_put_fresh; [exact F02 | subst nc; lia .. | subst nq; lia]).
  simpl deref in Eo. rewrite bind_ret in Eo.
  destruct (play_rep action _ _ _ _ _ (v_front (v_stage v)) H3 (v_stage_valid v))
    as [Hplay _].
  rewrite (put_put _ _ _ _ _ _ (proj1 H2)) in Hplay.
  fold (v_child action v) in Hplay.
  assert (F04 : frame nothing nothing nothing hk
                      (put h2 nq nc (S nc) (v_child action v)))
    by (apply frame_put_fresh; [exact F02 | subst nc; lia .. | subst nq; lia]).
  pose proof (rep_put_rep _ _ _ _ _ (v_child action v) H2) as H4.
  assert (Ef : v_front (v_stage v) = v_front v)
    by (now rewrite v_stage_front, Hclean).
  assert (Hg : match v_score fuel (v_front v) (v_child action v) with
               | Some sc =>
                   exists h',
                     get_state_score_player fuel
                       (Some (ref_of nc (S nc) (v_front (v_stage v)))) nq
                       (put h2 nq nc (S nc) (v_child action v)) = Ret sc h' /\
                     rep h' nq nc (S nc) (vclean (v_child action v)) /\
                     frame nothing (only nq) nothing
                           (put h2 nq nc (S nc) (v_child action v)) h'
               | None =>
                   get_state_score_player fuel
                     (Some (ref_of nc (S nc) (v_front (v_stage v)))) nq
                     (put h2 nq nc (S nc) (v_child action v)) = OutOfFuel
               end).
  { rewrite <- Ef. exact (gssp_rep fuel (v_front (v_stage v)) _ _ _ _ _ H4). }
  destruct (snd (v_play action (v_front (v_stage v)) (v_stage v))) eqn:Eok.
  - erewrite bind_Ret in Eo by exact Hplay. cbn beta in Eo.
    destruct (v_score fuel (v_front v) (v_child action v)) as [sc|].
    + destruct Hg as (h5 & Hret5 & _ & F5).
      erewrite bind_Ret in Eo by exact Hret5. cbn beta in Eo.
      assert (Eo' : o = Ret (assigned s action hs sc) h5)
        by (rewrite Eo; destruct action; reflexivity).
      split.
      * intros h' Hh. rewrite Eo' in Hh. injection Hh as <-.
        eapply frame_only_fresh; [exact F04 | exact F5 | subst nq; lia].
      * intros _. now exists h5.
    + erewrite bind_OutOfFuel in Eo by exact Hg. subst o.
      split; [discriminate | reflexivity].
  - erewrite bind_Raise in Eo by exact Hplay. subst o. split.
    + intros h' [= <-]. exact F04.
    + intros Hover. rewrite (v_child_ok action v Hover) in Eok. discriminate.
Qed.


(** The loop of the recursive [select_attack] changes no object that
    existed, however it ends. *)
Lemma rec_loop_frame (fuel : nat) (q : qref) (a b : cref) (v : VState) :
  vclean v = v ->
  forall (actions : list Key) (s : Z * Z * Z) (hk h' : Heap),
    rep hk q a b v ->
    heap_of (for_fold actions s (try_action fuel q) hk) = Some h' ->
    frame nothing nothing nothing hk h'.
Proof.
  intros Hclean. induction actions as [|action actions IH]; intros s hk h' H Hh.
  - simpl in Hh. injection Hh as <-. apply frame_refl.
  - cbn [for_fold] in Hh.
    destruct (try_action_rep fuel hk q a b v s action H Hclean) as [Hf _].
    destruct (try_action fuel q s action hk) as [s1 h1| e h1|] eqn:Et.
    + erewrite bind_Ret in Hh by exact Et. cbn beta in Hh.
      pose proof (Hf h1 eq_refl) as F1.
      assert (H1 : rep h1 q a b v)
        by (eapply rep_frame; [exact H | exact F1 | | |]; auto).
      eapply frame_trans; [exact F1 | exact (IH s1 h1 h' H1 Hh) | | |]; auto.
    + erewrite bind_Raise in Hh by exact Et. exact (Hf h' Hh).
    + erewrite bind_OutOfFuel in Hh by exact Et. discriminate.
Qed.

(** The value of a game and of its moves, when the search below it ends. *)
Definition value (p : bool) (v : VState) (s : Z) : Prop :=
  exists fuel, v_score fuel p v = Some s.

Lemma value_unique (p : bool) (v : VState) (s s' : Z) :
  value p v s -> value p v s' -> s = s'.
Proof.
  intros [f E] [f' E'].
  pose proof (v_score_more f' f p v s E) as E1.
  pose proof (v_score_more f f' p v s' E') as E2.
  rewrite Nat.add_comm in E2. congruence.
Qed.

(** What a search answers for a move: ['A'] for an attack, ['S'] for
    anything else. *)
Definition label (action : Key) : Key :=
  match action with Key_A => Key_A | _ => Key_S end.

(** The answer [k] names a move open to the player at the front whose value
    is the value of the game. *)
Definition best (v : VState) (k : Key) : Prop :=
  exists action s,
    In action (v_actions v) /\ label action = k /\
    value (v_front (vclean v)) v s /\
    value (v_front (vclean v)) (v_child action v) s.

Lemma v_child_label (x y : Key) (v : VState) :
  is_A x = is_A y -> v_child x v = v_child y v.
Proof. intros E. unfold v_child, v_play. now rewrite E. Qed.

Lemma max_list_ge (l : list Z) :
  forall x y, In y (x :: l) -> y <= max_list x l.
Proof.
  induction l as [|z l IH]; intros x y Hin.
  - destruct Hin as [E | []]. simpl. lia.
  - simpl. destruct Hin as [E | [E | Hin]].
    + transitivity (Z.max x z); [lia | apply IH; now left].
    + transitivity (Z.max x z); [lia | apply IH; now left].
    + apply IH. now right.
Qed.

Lemma max_list_in (l : list Z) : forall x, In (max_list x l) (x :: l).
Proof.
  induction l as [|z l IH]; intros x.
  - now left.
  - simpl. destruct (IH (Z.max x z)) as [E | Hin].
    + rewrite <- E.
      destruct (Z.max_spec x z) as [[_ Em] | [_ Em]]; rewrite Em; auto.
    + auto.
Qed.

Lemma all_some_in {X : Type} (f : Key -> option X) (l : list Key) (xs : list X) :
  all_some (map f l) = Some xs ->
  (forall k, In k l -> exists x, f k = Some x /\ In x xs) /\
  (forall x, In x xs -> exists k, In k l /\ f k = Some x).
Proof.
  revert xs. induction l as [|k l IH]; intros xs E.
  - simpl in E. injection E as <-. split; intros ? [].
  - cbn [map all_some] in E. destruct (f k) as [x|] eqn:Ek; [| discriminate].
    destruct (all_some (map f l)) as [ys|]; [| discriminate].
    injection E as <-. destruct (IH ys eq_refl) as [I1 I2]. split.
    + intros k' [<- | Hin].
      * exists x. split; [exact Ek | now left].
      * destruct (I1 k' Hin) as (x' & E' & Hx). exists x'. split; [exact E' | now right].
    + intros x' [<- | Hin].
      * exists k. split; [now left | exact Ek].
      * destruct (I2 x' Hin) as (k' & Hk & E'). exists k'. split; [now right | exact E'].
Qed.

(** The value of a game that is on is the greatest value of its moves, and a
    move attains it. *)
Lemma v_score_moves (fuel : nat) (p : bool) (v : VState) (s : Z) :
  v_over v = false -> v_score fuel p v = Some s ->
  (forall action, In action (v_actions v) ->
     exists sc, v_score fuel p (v_child action v) = Some sc /\ sc <= s) /\
  (exists action, In action (v_actions v) /\
     v_score fuel p (v_child action v) = Some s).
Proof.
  intros Hover E. destruct fuel as [|fuel]; [discriminate |].
  rewrite v_score_S, Hover in E.
  destruct (all_some (map (fun action => v_score fuel p (v_child action v))
                          (v_actions v))) as [ss|] eqn:Ess; [| discriminate].
  destruct (not_over_front v Hover) as (rest & k & ks & _ & Eacts).
  pose proof Ess as Ess'. rewrite Eacts in Ess'.
  destruct (all_some_cons _ _ _ _ Ess') as (x & l & ->).
  injection E as <-.
  destruct (all_some_in _ _ _ Ess) as [I1 I2]. split.
  - intros action Hin. destruct (I1 action Hin) as (sc & Esc & Hsc).
    exists sc. split; [now apply v_score_mono |]. now apply max_list_ge.
  - destruct (I2 _ (max_list_in l x)) as (action & Hin & Esc).
    exists action. split; [exact Hin |]. now apply v_score_mono.
Qed.


(** The score the search finds for a move. *)
Definition score_of (fuel : nat) (p : bool) (v : VState) (action : Key) : Z :=
  match v_score fuel p (v_child action v) with
  | Some sc => sc
  | None => 0
  end.

Lemma score_of_label (fuel : nat) (p : bool) (v : VState) (x y : Key) :
  is_A x = is_A y -> score_of fuel p v x = score_of fuel p v y.
Proof. intros E. unfold score_of. now rewrite (v_child_label x y v E). Qed.

(** The three variables of the loop after it ran over [actions]. *)
Lemma fold_assigned (hs : Z) (sc : Key -> Z) :
  (forall x y, is_A x = is_A y -> sc x = sc y) ->
  forall (actions : list Key) (s : Z * Z * Z),
    fold_left (fun s action => assigned s action hs (sc action)) actions s =
    (match actions with [] => fst (fst s) | _ :: _ => hs end,
     if existsb is_A actions then sc Key_A else snd (fst s),
     if existsb (fun x => negb (is_A x)) actions then sc Key_S else snd s).
Proof.
  intros Hsc. induction actions as [|action actions IH]; intros [[x y] z].
  - reflexivity.
  - cbn [fold_left]. rewrite IH.
    destruct action; rewrite ?(Hsc Key_X Key_S eq_refl);
      cbn [assigned existsb is_A negb orb fst snd];
      destruct actions as [|k actions]; cbn [existsb];
      repeat match goal with
             | |- context [if ?c then _ else _] => destruct c
             end; reflexivity.
Qed.

Lemma rec_loop_value (fuel : nat) (q : qref) (a b : cref) (v : VState) (hs : Z) :
  vclean v = v -> v_over v = false ->
  v_score fuel (v_front v) v = Some hs ->
  forall (actions : list Key) (s : Z * Z * Z) (hk : Heap),
    rep hk q a b v ->
    (forall action, In action actions ->
       exists sc, v_score fuel (v_front v) (v_child action v) = Some sc) ->
    exists h',
      for_fold actions s (try_action fuel q) hk =
        Ret (fold_left (fun s action =>
                          assigned s action hs (score_of fuel (v_front v) v action))
                       actions s) h'.
Proof.
  intros Hclean Hover Ehs.
  induction actions as [|action actions IH]; intros s hk H Hall.
  - exists hk. reflexivity.
  - cbn [for_fold fold_left].
    destruct (try_action_rep fuel hk q a b v s action H Hclean) as [Hf Hv].
    specialize (Hv Hover). rewrite Ehs in Hv.
    destruct (Hall action (or_introl eq_refl)) as (sc & Esc).
    unfold score_of at 2. rewrite Esc in Hv |- *.
    destruct Hv as (h1 & Et).
    erewrite bind_Ret by exact Et. cbn beta.
    assert (H1 : rep h1 q a b v).
    { eapply rep_frame; [exact H | apply Hf; now rewrite Et | | |]; auto. }
    apply (IH _ h1 H1). intros x Hx. apply Hall. now right.
Qed.

Lemma existsb_is_A (actions : list Key) :
  existsb is_A actions = true -> In Key_A actions.
Proof.
  intros E. apply existsb_exists in E. destruct E as (x & Hin & Ex).
  destruct x; try discriminate. exact Hin.
Qed.

(** The recursive playstyle on a game that is on: it answers a move whose
    value is the value of the game. *)
Lemma rec_select_value (fuel : nat) (h : Heap) (q : qref) (a b : cref)
    (v : VState) (hs : Z) :
  rep h q a b v -> v_over v = false ->
  v_score fuel (v_front (vclean v)) v = Some hs ->
  hs <> - sys_maxsize ->
  exists k h',
    MinimaxRecursivePlaystyle_select_attack fuel q h = Ret k h' /\ best v k.
Proof.
  intros H Hover Ehs Hsent.
  destruct (vclean_like v) as (Lover & Lacts & Lwin & Lstage).
  pose proof (rep_put_rep h q a b v (vclean v) H) as H1.
  unfold MinimaxRecursivePlaystyle_select_attack.
  erewrite bind_Ret by exact (peek_rep h q a b v H). cbn beta.
  simpl deref. rewrite bind_ret.
  erewrite bind_Ret
    by exact (get_available_actions_rep _ q a b _ (v_front (vclean v)) H1).
  cbn beta.
  change (available_actions (v_stats (vclean v) (v_front (vclean v)))
            (Some (v_stats (vclean v) (negb (v_front (vclean v))))))
    with (v_actions v).
  destruct (not_over_front v Hover) as (rest & k0 & ks & _ & Eacts).
  destruct (v_score_moves fuel _ v hs Hover Ehs) as [Hall Hattained].
  assert (Echild : forall action, v_child action (vclean v) = v_child action v)
    by (intros action; unfold v_child; now rewrite Lstage).
  assert (Ehs' : v_score fuel (v_front (vclean v)) (vclean v) = Some hs)
    by (now rewrite v_score_clean).
  assert (Hover' : v_over (vclean v) = false) by congruence.
  destruct (rec_loop_value fuel q a b (vclean v) hs (vclean_idem v) Hover' Ehs'
              (v_actions v) (- sys_maxsize, - sys_maxsize, - sys_maxsize)
              _ H1) as (h' & Eloop).
  { intros action Hin. rewrite Echild.
    destruct (Hall action Hin) as (sc & Esc & _). now exists sc. }
  rewrite (fold_assigned hs _
             (score_of_label fuel (v_front (vclean v)) (vclean v)))
    in Eloop.
  assert (Esc : forall action, score_of fuel (v_front (vclean v)) (vclean v) action
                               = score_of fuel (v_front (vclean v)) v action)
    by (intros action; unfold score_of; now rewrite Echild).
  rewrite !Esc in Eloop.
  rewrite Eacts in *. erewrite bind_Ret by exact Eloop. cbn beta iota.
  cbn [fst snd].
  assert (Hval : forall action, In action (k0 :: ks) ->
            score_of fuel (v_front (vclean v)) v action = hs ->
            best v (label action)).
  { intros action Hin E. exists action, hs. rewrite Eacts.
    split; [exact Hin |]. split; [reflexivity |].
    split; [now exists fuel |]. exists fuel.
    destruct (Hall action Hin) as (sc & Ec & _).
    unfold score_of in E. rewrite Ec in E. congruence. }
  destruct (existsb is_A (k0 :: ks)) eqn:EA.
  - destruct (hs =? score_of fuel (v_front (vclean v)) v Key_A) eqn:E1.
    + exists Key_A, h'. split; [reflexivity |].
      apply (Hval Key_A (existsb_is_A _ EA)). apply Z.eqb_eq in E1. congruence.
    + destruct (existsb (fun x => negb (is_A x)) (k0 :: ks)) eqn:ES.
      * destruct (hs =? score_of fuel (v_front (vclean v)) v Key_S) eqn:E2.
        -- exists Key_S, h'. split; [reflexivity |].
           apply existsb_exists in ES. destruct ES as (x & Hin & Ex).
           replace Key_S with (label x) by (destruct x; try discriminate; reflexivity).
           apply (Hval x Hin). apply Z.eqb_eq in E2.
           rewrite (score_of_label fuel _ v x Key_S)
             by (destruct x; try discriminate; reflexivity).
           congruence.
        -- exfalso. destruct Hattained as (x & Hin & Ex).
           assert (Ex' : score_of fuel (v_front (vclean v)) v x = hs)
             by (unfold score_of; now rewrite Ex).
           destruct x.
           ++ apply Z.eqb_neq in E1. congruence.
           ++ apply Z.eqb_neq in E2. congruence.
           ++ apply Z.eqb_neq in E2.
              rewrite (score_of_label fuel _ v Key_X Key_S eq_refl) in Ex'.
              congruence.
      * exfalso. destruct Hattained as (x & Hin & Ex).
        assert (Ex' : score_of fuel (v_front (vclean v)) v x = hs)
          by (unfold score_of; now rewrite Ex).
        assert (Hx : is_A x = true).
        { destruct (is_A x) eqn:Eix; [reflexivity |].
          assert (existsb (fun x => negb (is_A x)) (k0 :: ks) = true)
            by (apply existsb_exists; exists x; split; [exact Hin | now rewrite Eix]).
          congruence. }
        destruct x; try discriminate. apply Z.eqb_neq in E1. congruence.
  - destruct (hs =? - sys_maxsize) eqn:E1;
      [apply Z.eqb_eq in E1; contradiction |].
    destruct (existsb (fun x => negb (is_A x)) (k0 :: ks)) eqn:ES.
    + destruct (hs =? score_of fuel (v_front (vclean v)) v Key_S) eqn:E2.
      * exists Key_S, h'. split; [reflexivity |].
        apply existsb_exists in ES. destruct ES as (x & Hin & Ex).
        replace Key_S with (label x) by (destruct x; try discriminate; reflexivity).
        apply (Hval x Hin). apply Z.eqb_eq in E2.
        rewrite (score_of_label fuel _ v x Key_S)
          by (destruct x; try discriminate; reflexivity).
        congruence.
      * exfalso. destruct Hattained as (x & Hin & Ex).
        assert (Ex' : score_of fuel (v_front (vclean v)) v x = hs)
          by (unfold score_of; now rewrite Ex).
        assert (Hx : is_A x = false).
        { destruct (is_A x) eqn:Eix; [| reflexivity].
          assert (existsb is_A (k0 :: ks) = true)
            by (apply existsb_exists; exists x; split; [exact Hin | exact Eix]).
          congruence. }
        apply Z.eqb_neq in E2.
        rewrite (score_of_label fuel _ v x Key_S) in Ex'
          by (destruct x; try discriminate; reflexivity).
        congruence.
    + exfalso. simpl in EA, ES. destruct (is_A k0); simpl in *; discriminate.
Qed.


Lemma heap_of_bind {A B : Type} (m : M A) (k : A -> M B) (h h' : Heap) :
  heap_of (bind m k h) = Some h' ->
  (exists x h1, m h = Ret x h1 /\ heap_of (k x h1) = Some h') \/
  (exists e, m h = Raise e h').
Proof.
  unfold bind. destruct (m h) as [x h1|e h1|]; intros E.
  - left. now exists x, h1.
  - right. exists e. simpl in E. congruence.
  - discriminate.
Qed.

(** The recursive playstyle, however it ends, purges the queue it is asked
    about and changes nothing else that existed. *)
Lemma rec_select_frame (fuel : nat) (h h' : Heap) (q : qref) (a b : cref)
    (v : VState) :
  rep h q a b v ->
  heap_of (MinimaxRecursivePlaystyle_select_attack fuel q h) = Some h' ->
  frame nothing (only q) nothing h h' /\ rep h' q a b (vclean v).
Proof.
  intros H Hh.
  pose proof (rep_put_rep h q a b v (vclean v) H) as H1.
  pose proof (frame_put_clean h q a b v H) as F1.
  unfold MinimaxRecursivePlaystyle_select_attack in Hh.
  erewrite bind_Ret in Hh by exact (peek_rep h q a b v H). cbn beta in Hh.
  simpl deref in Hh. rewrite bind_ret in Hh.
  erewrite bind_Ret in Hh
    by exact (get_available_actions_rep _ q a b _ (v_front (vclean v)) H1).
  cbn beta in Hh.
  destruct (available_actions _ _) as [|k0 ks].
  - simpl in Hh. injection Hh as <-. now split.
  - assert (F2 : frame nothing nothing nothing (put h q a b (vclean v)) h').
    { apply heap_of_bind in Hh.
      destruct Hh as [(r & h2 & Eloop & Hh) | (e & Eloop)].
      - assert (h2 = h') as <-.
        { destruct (fst (fst r) =? snd (fst r));
            [| destruct (fst (fst r) =? snd r)]; simpl in Hh; congruence. }
        eapply (rec_loop_frame fuel q a b (vclean v) (vclean_idem v) (k0 :: ks));
          [exact H1 | now rewrite Eloop].
      - eapply (rec_loop_frame fuel q a b (vclean v) (vclean_idem v) (k0 :: ks));
          [exact H1 | now rewrite Eloop]. }
    split.
    + eapply frame_trans; [exact F1 | exact F2 | | |]; intros ? _ [].
    + eapply rep_frame; [exact H1 | exact F2 | | |]; auto.
Qed.


(** ** Part XVI: the iterative playstyle *)

(** The store with one more node, and with one node replaced. *)
Definition with_node (h : Heap) (x : GameStateNode) : Heap :=
  mkHeap (characters h) (queues h) (nodes h ++ [x]).

Definition set_node_at (h : Heap) (n : nref) (x : GameStateNode) : Heap :=
  mkHeap (characters h) (queues h) (<[n := x]> (nodes h)).

Lemma rep_nodes (h h' : Heap) (q : qref) (a b : cref) (v : VState) :
  characters h' = characters h -> queues h' = queues h ->
  rep h q a b v -> rep h' q a b v.
Proof. unfold rep. intros -> ->. auto. Qed.

Lemma rep_with_node (h : Heap) (x : GameStateNode) (q : qref) (a b : cref)
    (v : VState) :
  rep h q a b v -> rep (with_node h x) q a b v.
Proof. now apply rep_nodes. Qed.

Lemma rep_set_node_at (h : Heap) (n : nref) (x : GameStateNode) (q : qref)
    (a b : cref) (v : VState) :
  rep h q a b v -> rep (set_node_at h n x) q a b v.
Proof. now apply rep_nodes. Qed.

Lemma put_nodes (h : Heap) (q : qref) (a b : cref) (v : VState) :
  nodes (put h q a b v) = nodes h.
Proof. reflexivity. Qed.

Lemma grown_nodes (h : Heap) (v : VState) : nodes (grown h v) = nodes h.
Proof. reflexivity. Qed.

(** The player a search follows, found again in a copy of the game. *)
Lemma mapped_player (h : Heap) (a b : cref) (p f : bool) (nq : qref)
    (na nb : cref) (w : VState) :
  a <> b -> rep h nq na nb w ->
  (if same_opt (Some (ref_of a b p)) (Some (ref_of a b f))
   then ret (Some (ref_of na nb f))
   else bind (deref (Some (ref_of na nb f)))
          (fun cp => bind (get_character cp) (fun x => ret (enemy x)))) h =
  Ret (Some (ref_of na nb p)) h.
Proof.
  intros Hne Hw. rewrite (same_opt_ref a b p f Hne).
  destruct (Bool.eqb p f) eqn:Epf.
  - apply Bool.eqb_prop in Epf. now subst p.
  - simpl deref. rewrite bind_ret.
    erewrite bind_Ret by (apply get_character_eq; apply (rep_char _ _ _ _ _ f Hw)).
    cbn beta. unfold ret, chr; simpl. f_equal. f_equal.
    destruct p, f; simpl in *; congruence.
Qed.

(** A node that waits on the stack. *)
Definition waiting (q : qref) (player : cref) (action : Key) : GameStateNode :=
  mkNode q (Some player) action None None.

(** One round of the loop of [get_children_nodes]: the move is played on a
    fresh copy and a fresh node records it. *)
Lemma child_node_eq (action : Key) (hk : Heap) (n : nref) (nd : GameStateNode)
    (q bq : qref) (a b ba bb : cref) (v w : VState) (p : bool) :
  nodes hk !! n = Some nd -> node_battle_queue nd = q ->
  current_player nd = Some (ref_of a b p) ->
  rep hk q a b v -> vclean v = v -> v_over v = false ->
  rep hk bq ba bb w -> vclean w = w -> alike w v ->
  child_node n bq action hk =
    Ret (length (nodes hk))
        (with_node (grown hk (v_child action v))
           (waiting (length (queues hk))
              (ref_of (length (characters hk)) (S (length (characters hk))) p)
              (label action))).
Proof.
  intros Hn Eq Ep H Hclean Hover Hw Hwclean Hlike.
  pose proof H as (Hne & _).
  assert (Hwover : v_over w = false) by (now rewrite (v_over_alike _ _ Hlike)).
  destruct (stage_and_play action hk bq ba bb w Hw Hwclean Hwover)
    as (Hcopy & Hpeek1 & _ & Hplay).
  rewrite (v_child_alike action _ _ Hlike) in Hplay.
  rewrite (v_stage_alike _ _ Hlike) in Hpeek1, Hplay.
  rewrite (v_front_alike _ _ (vclean_alike _ _ Hlike)) in Hpeek1, Hplay.
  unfold child_node.
  erewrite bind_Ret by exact Hcopy. cbn beta.
  erewrite bind_Ret by exact Hpeek1. cbn beta.
  erewrite bind_Ret by (apply get_node_eq; rewrite grown_nodes; exact Hn).
  cbn beta. rewrite Eq, Ep.
  pose proof (rep_grown_old hk q a b v (v_stage v) H) as H'.
  erewrite bind_Ret by exact (peek_rep _ _ _ _ _ H'). cbn beta.
  rewrite Hclean, (put_same _ _ _ _ _ H').
  erewrite bind_Ret
    by exact (mapped_player _ a b p (v_front v) _ _ _ _ Hne
                (rep_grown hk (v_stage v))).
  cbn beta. simpl deref. rewrite bind_ret.
  rewrite Hclean in Hplay.
  erewrite bind_Ret by exact Hplay. cbn beta.
  unfold new_node, GameStateNode_init, with_node, waiting, label. simpl.
  destruct action; reflexivity.
Qed.


(** A node of the search tree together with the game its queue holds. *)
Record job : Type := mkJob {
  t_node : nref;
  t_queue : qref;
  t_a : cref;
  t_b : cref;
  t_act : Key;
  t_state : VState
}.

(** The node of [t] waits in the store [h], in a search for player [p]. *)
Definition pending (h : Heap) (p : bool) (t : job) : Prop :=
  nodes h !! t_node t =
    Some (waiting (t_queue t) (ref_of (t_a t) (t_b t) p) (t_act t)) /\
  rep h (t_queue t) (t_a t) (t_b t) (t_state t).

(** The node and the queue of [t] were allocated after [h0] was taken. *)
Definition fresh (h0 : Heap) (t : job) : Prop :=
  (length (nodes h0) <= t_node t)%nat /\ (length (queues h0) <= t_queue t)%nat.

Lemma pending_frame (Q : qref -> Prop) (N : nref -> Prop) (h h' : Heap)
    (p : bool) (t : job) :
  pending h p t -> frame nothing Q N h h' ->
  ~ Q (t_queue t) -> ~ N (t_node t) ->
  pending h' p t.
Proof.
  intros [Hn Hr] F HQ HN. split.
  - destruct F as (_ & _ & Fn & _). now apply Fn.
  - eapply rep_frame; [exact Hr | exact F | | |]; auto.
Qed.

Lemma fresh_weaken (h0 h1 : Heap) (t : job) :
  (length (nodes h0) <= length (nodes h1))%nat ->
  (length (queues h0) <= length (queues h1))%nat ->
  fresh h1 t -> fresh h0 t.
Proof. unfold fresh. lia. Qed.

Lemma frame_with_node (h : Heap) (x : GameStateNode) :
  frame nothing nothing nothing h (with_node h x).
Proof. apply frame_new_node. Qed.

(** The loop of [get_children_nodes]. *)
Lemma children_loop (n : nref) (nd : GameStateNode) (q bq : qref)
    (a b ba bb : cref) (v w : VState) (p : bool) :
  node_battle_queue nd = q -> current_player nd = Some (ref_of a b p) ->
  vclean v = v -> v_over v = false -> vclean w = w -> alike w v ->
  forall (actions : list Key) (hk : Heap),
    nodes hk !! n = Some nd -> rep hk q a b v -> rep hk bq ba bb w ->
    exists ts h',
      for_each actions (child_node n bq) hk = Ret (map t_node ts) h' /\
      map t_act ts = map label actions /\
      map t_state ts = map (fun action => v_child action v) actions /\
      Forall (pending h' p) ts /\
      Forall (fresh hk) ts /\
      List.NoDup (map t_node ts) /\ List.NoDup (map t_queue ts) /\
      frame nothing nothing nothing hk h'.
Proof.
  intros Eq Ep Hclean Hover Hwclean Hlike.
  induction actions as [|action actions IH]; intros hk Hn H Hw.
  - exists [], hk. simpl.
    do 3 (split; [reflexivity |]). do 4 (split; [constructor |]).
    apply frame_refl.
  - cbn [for_each].
    erewrite bind_Ret
      by exact (child_node_eq action hk n nd q bq a b ba bb v w p
                  Hn Eq Ep H Hclean Hover Hw Hwclean Hlike).
    cbn beta.
    set (nc := length (characters hk)). set (nq := length (queues hk)).
    set (nn := length (nodes hk)).
    set (h1 := with_node (grown hk (v_child action v))
                 (waiting nq (ref_of nc (S nc) p) (label action))).
    assert (F1 : frame nothing nothing nothing hk h1).
    { eapply frame_trans;
        [apply (frame_grown hk (v_child action v)) | apply frame_with_node | | |];
        auto. }
    assert (Hn1 : nodes h1 !! n = Some nd)
      by (destruct F1 as (_ & _ & Fn & _); apply Fn; auto).
    assert (H1 : rep h1 q a b v)
      by (eapply rep_frame; [exact H | exact F1 | | |]; auto).
    assert (Hw1 : rep h1 bq ba bb w)
      by (eapply rep_frame; [exact Hw | exact F1 | | |]; auto).
    destruct (IH h1 Hn1 H1 Hw1)
      as (ts & h' & Eloop & Eact & Est & Hpend & Hfresh & Nn & Nq & F).
    set (t0 := mkJob nn nq nc (S nc) (label action) (v_child action v)).
    assert (Ln1 : length (nodes h1) = S nn)
      by (unfold h1, with_node; simpl; rewrite length_app; simpl; subst nn; lia).
    assert (Lq1 : length (queues h1) = S nq)
      by (unfold h1, with_node, grown; simpl; rewrite length_app; simpl;
          subst nq; lia).
    assert (Hp0 : pending h1 p t0).
    { split.
      - unfold h1, with_node, t0; simpl. apply lookup_snoc.
      - unfold h1, t0; simpl. apply rep_with_node, rep_grown. }
    exists (t0 :: ts), h'.
    erewrite bind_Ret by exact Eloop. cbn beta.
    split; [reflexivity |].
    split; [simpl; now rewrite Eact |].
    split; [simpl; now rewrite Est |].
    split.
    { constructor; [| exact Hpend].
      eapply pending_frame; [exact Hp0 | exact F | |]; auto. }
    split.
    { constructor.
      - unfold fresh, t0; simpl. subst nn nq. lia.
      - eapply Forall_impl; [exact Hfresh |]. intros t. unfold fresh.
        rewrite Ln1, Lq1. subst nn nq. lia. }
    split.
    { simpl. constructor; [| exact Nn].
      intros Hin. apply in_map_iff in Hin. destruct Hin as (t & Et & Hin).
      rewrite List.Forall_forall in Hfresh. destruct (Hfresh t Hin) as [L _].
      rewrite Ln1 in L. lia. }
    split.
    { simpl. constructor; [| exact Nq].
      intros Hin. apply in_map_iff in Hin. destruct Hin as (t & Et & Hin).
      rewrite List.Forall_forall in Hfresh. destruct (Hfresh t Hin) as [_ L].
      rewrite Lq1 in L. lia. }
    eapply frame_trans; [exact F1 | exact F | | |]; auto.
Qed.


Lemma v_stats_alike (v w : VState) (t : bool) :
  alike v w -> v_stats v t = v_stats w t.
Proof. intros (E1 & E2 & _). unfold v_stats. now rewrite E1, E2. Qed.

Lemma v_stage_purged (v : VState) : vclean (v_stage v) = v_stage v.
Proof. unfold v_stage. apply vclean_idem. Qed.

Lemma v_stage_actions (v : VState) :
  available_actions (v_stats (v_stage v) (v_front (v_stage v)))
    (Some (v_stats (v_stage v) (negb (v_front (v_stage v))))) = v_actions v.
Proof.
  unfold v_actions. rewrite v_stage_front.
  rewrite !(v_stats_alike _ _ _ (v_stage_like v)). reflexivity.
Qed.

(** [get_children_nodes] on a node whose game is purged and still on: one
    waiting node for each move of the player at the front, each on a game of
    its own, all of them new. *)
Lemma get_children_nodes_rep (h : Heap) (n : nref) (nd : GameStateNode)
    (q : qref) (a b : cref) (v : VState) (p : bool) :
  nodes h !! n = Some nd -> node_battle_queue nd = q ->
  current_player nd = Some (ref_of a b p) ->
  rep h q a b v -> vclean v = v -> v_over v = false ->
  exists ts h',
    get_children_nodes n h = Ret (map t_node ts) h' /\
    map t_act ts = map label (v_actions v) /\
    map t_state ts = map (fun action => v_child action v) (v_actions v) /\
    Forall (pending h' p) ts /\
    Forall (fresh h) ts /\
    List.NoDup (map t_node ts) /\ List.NoDup (map t_queue ts) /\
    frame nothing nothing nothing h h'.
Proof.
  intros Hn Eq Ep H Hclean Hover.
  assert (Hlike : alike (v_stage v) v)
    by (pose proof (v_stage_like v) as L; now rewrite Hclean in L).
  unfold get_children_nodes.
  erewrite bind_Ret by exact (get_node_eq _ _ _ Hn). cbn beta. rewrite Eq.
  erewrite bind_Ret by exact (copy_of_rep h q a b v H). cbn beta.
  erewrite bind_Ret by exact (peek_rep _ _ _ _ _ (rep_grown h (vcopy v))).
  cbn beta. rewrite put_grown, <- (v_stage_clean v Hclean).
  simpl deref. rewrite bind_ret.
  erewrite bind_Ret
    by exact (get_available_actions_rep _ _ _ _ _ (v_front (v_stage v))
                (rep_grown h (v_stage v))).
  cbn beta. rewrite v_stage_actions.
  destruct (children_loop n nd q (length (queues h)) a b
              (length (characters h)) (S (length (characters h)))
              v (v_stage v) p Eq Ep Hclean Hover (v_stage_purged v) Hlike
              (v_actions v) (grown h (v_stage v)))
    as (ts & h' & Eloop & Eact & Est & Hpend & Hfresh & Nn & Nq & F).
  - rewrite grown_nodes. exact Hn.
  - now apply rep_grown_old.
  - apply rep_grown.
  - exists ts, h'. split; [exact Eloop |].
    do 3 (split; [assumption |]).
    pose proof (frame_grown h (v_stage v)) as Fg.
    destruct (frame_lengths _ _ _ _ _ Fg) as (_ & Lq & Ln).
    split.
    { eapply Forall_impl; [exact Hfresh |]. intros t.
      now apply fresh_weaken. }
    do 2 (split; [assumption |]).
    eapply frame_trans; [exact Fg | exact F | | |]; auto.
Qed.

(** *** One visit of a node *)

(** The node with the score it is given. *)
Definition scored_node (q : qref) (player : cref) (action : Key) (s : Z)
    (kids : option (list nref)) : GameStateNode :=
  mkNode q (Some player) action (Some s) kids.

(** A node whose game is over gets the terminal score. *)
Lemma visit_over (h : Heap) (n : nref) (st : list nref) (q : qref) (a b : cref)
    (v : VState) (p : bool) (action : Key) :
  nodes h !! n = Some (waiting q (ref_of a b p) action) ->
  rep h q a b v -> v_over v = true ->
  visit n st h =
    Ret st (set_node_at (put h q a b (vclean v)) n
              (scored_node q (ref_of a b p) action (v_terminal p v) None)).
Proof.
  intros Hn H Hover. pose proof H as (Hne & _).
  pose proof (rep_put_rep h q a b v (vclean v) H) as H1.
  destruct (vclean_like v) as (Lover & Lacts & Lwin & Lstage).
  assert (Hn1 : nodes (put h q a b (vclean v)) !! n =
                Some (waiting q (ref_of a b p) action)) by exact Hn.
  unfold visit.
  erewrite bind_Ret by exact (get_node_eq _ _ _ Hn). cbn beta.
  cbn [waiting node_battle_queue children current_player is_None truthy].
  erewrite bind_Ret by exact (is_over_rep h q a b v H). cbn beta.
  rewrite Hover. cbn [negb andb].
  erewrite bind_Ret by exact (is_over_rep _ q a b _ H1). cbn beta.
  rewrite (put_clean_clean h q a b v H), Lover, Hover. cbn [negb andb].
  erewrite bind_Ret by exact (get_winner_rep _ q a b _ H1). cbn beta.
  rewrite (put_clean_clean h q a b v H), Lwin.
  unfold v_terminal. destruct (v_winner v) as [w|]; cbn [option_map].
  - rewrite (same_opt_ref a b p w Hne). destruct (Bool.eqb p w).
    + erewrite bind_Ret
        by (erewrite bind_Ret by exact (get_hp_rep _ q a b _ w H1);
            unfold set_highest_score;
            erewrite bind_Ret by exact (get_node_eq _ _ _ Hn1);
            reflexivity).
      reflexivity.
    + erewrite bind_Ret
        by (erewrite bind_Ret by exact (get_hp_rep _ q a b _ w H1);
            unfold set_highest_score;
            erewrite bind_Ret by exact (get_node_eq _ _ _ Hn1);
            reflexivity).
      reflexivity.
  - erewrite bind_Ret
      by (unfold set_highest_score;
          erewrite bind_Ret by exact (get_node_eq _ _ _ Hn1);
          reflexivity).
    reflexivity.
Qed.


(** Two changes in a row, each within the footprint of the whole. *)
Lemma frame_seq (C C1 C2 : cref -> Prop) (Q Q1 Q2 : qref -> Prop)
    (N N1 N2 : nref -> Prop) (h h1 h2 : Heap) :
  frame C1 Q1 N1 h h1 -> frame C2 Q2 N2 h1 h2 ->
  (forall c, C1 c -> C c) -> (forall r, Q1 r -> Q r) -> (forall r, N1 r -> N r) ->
  (forall c, (c < length (characters h))%nat -> C2 c -> C c) ->
  (forall r, (r < length (queues h))%nat -> Q2 r -> Q r) ->
  (forall r, (r < length (nodes h))%nat -> N2 r -> N r) ->
  frame C Q N h h2.
Proof.
  intros F1 F2 IC IQ IN JC JQ JN.
  eapply frame_trans; [| exact F2 | exact JC | exact JQ | exact JN].
  eapply frame_weaken; [exact F1 | exact IC | exact IQ | exact IN].
Qed.

(** Side conditions on footprints: nothing is in the empty one. *)
Ltac footprint :=
  first [ now (intros ? [])
        | now (intros ? ? [])
        | now auto ].

Lemma pending_set_node_at (h : Heap) (p : bool) (t : job) (n : nref)
    (x : GameStateNode) :
  pending h p t -> t_node t <> n -> pending (set_node_at h n x) p t.
Proof.
  intros [Hn Hr] Hne. split.
  - unfold set_node_at; simpl. rewrite list_lookup_insert_ne; auto.
  - now apply rep_set_node_at.
Qed.

Lemma frame_set_node_at (h : Heap) (n : nref) (x : GameStateNode) :
  frame nothing nothing (only n) h (set_node_at h n x).
Proof. now apply frame_set_node. Qed.

Lemma lookup_set_node_at (h : Heap) (n : nref) (x y : GameStateNode) :
  nodes h !! n = Some y -> nodes (set_node_at h n x) !! n = Some x.
Proof.
  intros Hn. unfold set_node_at; simpl.
  apply list_lookup_insert_eq. eapply lookup_lt_Some; eauto.
Qed.

(** A waiting node whose game is on gets its children and goes back on the
    stack under them. *)
Lemma visit_expand (h : Heap) (n : nref) (st : list nref) (q : qref) (a b : cref)
    (v : VState) (p : bool) (action : Key) :
  nodes h !! n = Some (waiting q (ref_of a b p) action) ->
  rep h q a b v -> v_over v = false ->
  exists ts h1,
    visit n st h = Ret (rev (map t_node ts) ++ n :: st) h1 /\
    nodes h1 !! n =
      Some (mkNode q (Some (ref_of a b p)) action None (Some (map t_node ts))) /\
    rep h1 q a b (vclean v) /\
    map t_act ts = map label (v_actions v) /\
    map t_state ts = map (fun action => v_child action v) (v_actions v) /\
    Forall (pending h1 p) ts /\
    Forall (fresh h) ts /\
    List.NoDup (map t_node ts) /\ List.NoDup (map t_queue ts) /\
    frame nothing (only q) (only n) h h1.
Proof.
  intros Hn H Hover.
  pose proof (rep_put_rep h q a b v (vclean v) H) as H0.
  pose proof (frame_put_clean h q a b v H) as F0.
  destruct (vclean_like v) as (Lover & Lacts & Lwin & Lstage).
  assert (Hover0 : v_over (vclean v) = false) by congruence.
  assert (Hn0 : nodes (put h q a b (vclean v)) !! n =
                Some (waiting q (ref_of a b p) action)) by exact Hn.
  destruct (get_children_nodes_rep _ n _ q a b (vclean v) p Hn0 eq_refl eq_refl
              H0 (vclean_idem v) Hover0)
    as (ts & hc & Ekids & Eact & Est & Hpend & Hfresh & Nn & Nq & Fc).
  assert (Hnc : nodes hc !! n = Some (waiting q (ref_of a b p) action))
    by (destruct Fc as (_ & _ & Fn & _); apply Fn; auto).
  exists ts,
    (set_node_at hc n
       (mkNode q (Some (ref_of a b p)) action None (Some (map t_node ts)))).
  assert (Ln : (n < length (nodes h))%nat) by (eapply lookup_lt_Some; eauto).
  split.
  { unfold visit.
    erewrite bind_Ret by exact (get_node_eq _ _ _ Hn). cbn beta.
    cbn [waiting node_battle_queue children current_player is_None truthy].
    erewrite bind_Ret by exact (is_over_rep h q a b v H). cbn beta.
    rewrite Hover. cbn [negb andb].
    erewrite bind_Ret by exact Ekids. cbn beta.
    erewrite bind_Ret
      by (unfold set_children;
          erewrite bind_Ret by exact (get_node_eq _ _ _ Hnc); reflexivity).
    reflexivity. }
  split; [exact (lookup_set_node_at _ _ _ _ Hnc) |].
  split.
  { apply rep_set_node_at.
    eapply rep_frame; [exact H0 | exact Fc | | |]; auto. }
  split; [now rewrite Eact, Lacts |].
  split.
  { rewrite Est, Lacts. apply map_ext. intros x. unfold v_child.
    now rewrite Lstage. }
  split.
  { rewrite List.Forall_forall in Hpend, Hfresh |- *. intros t Hin.
    apply pending_set_node_at; [now apply Hpend |].
    destruct (Hfresh t Hin) as [L _]. rewrite put_nodes in L. lia. }
  split.
  { eapply Forall_impl; [exact Hfresh |]. intros t.
    destruct (frame_lengths _ _ _ _ _ F0) as (_ & Lq0 & Ln0).
    now apply fresh_weaken. }
  do 2 (split; [assumption |]).
  apply (frame_seq nothing nothing nothing (only q) (only q) nothing
           (only n) nothing (only n) h _ _ F0); try footprint.
  apply (frame_seq nothing nothing nothing nothing nothing nothing
           (only n) nothing (only n) _ _ _ Fc (frame_set_node_at _ _ _));
    footprint.
Qed.

Lemma all_scores_some (l : list Z) : all_scores (map Some l) = Some l.
Proof. induction l as [|x l IH]; simpl; [| rewrite IH]; reflexivity. Qed.

Lemma py_max_scores_some (x : Z) (l : list Z) (h : Heap) :
  py_max_scores (map Some (x :: l)) h = Ret (Some (max_list x l)) h.
Proof.
  destruct l as [|y l]; [reflexivity |].
  unfold py_max_scores. cbn [map]. 
  change (Some x :: Some y :: map Some l) with (map Some (x :: y :: l)).
  now rewrite all_scores_some.
Qed.

(** Reading the scores of the children. *)
Lemma read_scores (h : Heap) (kids : list nref) (ss : list Z) :
  Forall2 (fun c s => exists cn, nodes h !! c = Some cn /\
                                 highest_score cn = Some s) kids ss ->
  for_each kids (fun child => let! cn := get_node child in
                              ret (highest_score cn)) h =
    Ret (map Some ss) h.
Proof.
  induction 1 as [|c s kids ss (cn & Hc & Hs) _ IH]; [reflexivity |].
  cbn [for_each map].
  erewrite bind_Ret
    by (erewrite bind_Ret by exact (get_node_eq _ _ _ Hc); reflexivity).
  cbn beta. erewrite bind_Ret by exact IH. now rewrite Hs.
Qed.

(** A node whose children all have their scores gets the greatest. *)
Lemma visit_collect (h : Heap) (n : nref) (st : list nref) (q : qref)
    (a b : cref) (v : VState) (p : bool) (action : Key)
    (k : nref) (kids : list nref) (x : Z) (l : list Z) :
  nodes h !! n =
    Some (mkNode q (Some (ref_of a b p)) action None (Some (k :: kids))) ->
  rep h q a b v -> v_over v = false ->
  Forall2 (fun c s => exists cn, nodes h !! c = Some cn /\
                                 highest_score cn = Some s) (k :: kids) (x :: l) ->
  visit n st h =
    Ret st (set_node_at (put h q a b (vclean v)) n
              (scored_node q (ref_of a b p) action (max_list x l)
                           (Some (k :: kids)))).
Proof.
  intros Hn H Hover Hkids.
  pose proof (rep_put_rep h q a b v (vclean v) H) as H1.
  destruct (vclean_like v) as (Lover & Lacts & Lwin & Lstage).
  assert (Hn1 : nodes (put h q a b (vclean v)) !! n =
                Some (mkNode q (Some (ref_of a b p)) action None
                             (Some (k :: kids)))) by exact Hn.
  unfold visit.
  erewrite bind_Ret by exact (get_node_eq _ _ _ Hn). cbn beta.
  cbn [node_battle_queue children current_player is_None truthy].
  erewrite bind_Ret by exact (is_over_rep h q a b v H). cbn beta.
  rewrite Hover. cbn [negb andb].
  erewrite bind_Ret by exact (is_over_rep _ q a b _ H1). cbn beta.
  rewrite (put_clean_clean h q a b v H), Lover, Hover. cbn [negb andb].
  simpl deref. rewrite bind_ret.
  erewrite bind_Ret by (apply read_scores; exact Hkids). cbn beta.
  erewrite bind_Ret by apply py_max_scores_some. cbn beta.
  erewrite bind_Ret
    by (unfold set_highest_score;
        erewrite bind_Ret by exact (get_node_eq _ _ _ Hn1); reflexivity).
  reflexivity.
Qed.


(** *** The search as a whole *)

Lemma search_loop_S (fuel : nat) (n : nref) (st : list nref) (h : Heap) :
  search_loop (S fuel) (n :: st) h = bind (visit n st) (search_loop fuel) h.
Proof. reflexivity. Qed.

Lemma search_loop_nil (fuel : nat) (h : Heap) : search_loop fuel [] h = Ret tt h.
Proof. destruct fuel; reflexivity. Qed.

(** The loop works off [stack] from above [rest] and comes to [h']. *)
Definition runs (stack rest : list nref) (h h' : Heap) : Prop :=
  exists k, forall extra,
    search_loop (k + extra) (stack ++ rest) h = search_loop extra rest h'.

Lemma runs_nil (rest : list nref) (h : Heap) : runs [] rest h h.
Proof. exists 0%nat. reflexivity. Qed.

Lemma runs_app (s1 s2 rest : list nref) (h h1 h2 : Heap) :
  runs s1 (s2 ++ rest) h h1 -> runs s2 rest h1 h2 -> runs (s1 ++ s2) rest h h2.
Proof.
  intros [k1 R1] [k2 R2]. exists (k1 + k2)%nat. intros extra.
  rewrite <- Nat.add_assoc, <- app_assoc, R1. apply R2.
Qed.

Lemma runs_visit (n : nref) (rest st : list nref) (h h1 h2 : Heap) :
  visit n rest h = Ret (st ++ rest) h1 -> runs st rest h1 h2 ->
  runs [n] rest h h2.
Proof.
  intros Ev [k R]. exists (S k). intros extra.
  cbn [app Nat.add]. rewrite search_loop_S.
  erewrite bind_Ret by exact Ev. apply R.
Qed.

(** The value of a game, [0] when the search does not end. *)
Definition val (fuel : nat) (p : bool) (w : VState) : Z :=
  match v_score fuel p w with
  | Some s => s
  | None => 0
  end.

(** The node of [t] has its score. *)
Definition scored (h : Heap) (p : bool) (t : job) (s : Z) : Prop :=
  exists kids,
    nodes h !! t_node t =
      Some (scored_node (t_queue t) (ref_of (t_a t) (t_b t) p) (t_act t) s kids).

(** The child [c] stands for the move [action] and has its value. *)
Definition kid_done (h : Heap) (p : bool) (v : VState) (c : nref)
    (action : Key) : Prop :=
  exists cn sc,
    nodes h !! c = Some cn /\ action_taken cn = label action /\
    highest_score cn = Some sc /\ value p (v_child action v) sc.

(** The node of [t] is worked off: it has the value of its game, and while
    the game is on its children stand for the moves, with their values. *)
Definition finished (h : Heap) (p : bool) (t : job) (s : Z) : Prop :=
  exists kids,
    nodes h !! t_node t =
      Some (scored_node (t_queue t) (ref_of (t_a t) (t_b t) p) (t_act t) s kids) /\
    rep h (t_queue t) (t_a t) (t_b t) (vclean (t_state t)) /\
    (v_over (t_state t) = false ->
     exists l, kids = Some l /\
               Forall2 (kid_done h p (t_state t)) l (v_actions (t_state t))).

Lemma scored_frame (Q : qref -> Prop) (N : nref -> Prop) (h h' : Heap)
    (p : bool) (t : job) (s : Z) :
  scored h p t s -> frame nothing Q N h h' -> ~ N (t_node t) -> scored h' p t s.
Proof.
  intros [kids Hn] (_ & _ & Fn & _) HN. exists kids. now apply Fn.
Qed.

(** Working off a list of waiting nodes, given how one is worked off. *)
Lemma run_jobs (fuel : nat) (p : bool) :
  (forall (t : job) (s : Z) (h : Heap) (rest : list nref),
     v_score fuel p (t_state t) = Some s -> pending h p t ->
     exists h', runs [t_node t] rest h h' /\
                frame nothing (only (t_queue t)) (only (t_node t)) h h' /\
                finished h' p t s) ->
  forall (ts : list job) (h : Heap) (rest : list nref),
    Forall (fun t => v_score fuel p (t_state t) <> None) ts ->
    Forall (pending h p) ts ->
    List.NoDup (map t_node ts) -> List.NoDup (map t_queue ts) ->
    exists h',
      runs (map t_node ts) rest h h' /\
      frame nothing (fun r => In r (map t_queue ts))
            (fun r => In r (map t_node ts)) h h' /\
      Forall (fun t => scored h' p t (val fuel p (t_state t))) ts.
Proof.
  intros One. induction ts as [|t ts IH]; intros h rest Hsc Hpend Nn Nq.
  - exists h. split; [apply runs_nil |]. split; [apply frame_refl | constructor].
  - inversion Hsc as [|? ? Ht Hsc']; subst.
    inversion Hpend as [|? ? Hp Hpend']; subst.
    cbn [map] in Nn, Nq.
    apply List.NoDup_cons_iff in Nn. destruct Nn as [Hnin Nn].
    apply List.NoDup_cons_iff in Nq. destruct Nq as [Hqin Nq].
    destruct (v_score fuel p (t_state t)) as [s|] eqn:Es; [| congruence].
    destruct (One t s h (map t_node ts ++ rest) Es Hp) as (h1 & R1 & F1 & Fin1).
    assert (Hpend1 : Forall (pending h1 p) ts).
    { rewrite List.Forall_forall in Hpend' |- *. intros t' Hin.
      eapply pending_frame; [now apply Hpend' | exact F1 | |].
      - intros E. apply Hqin. rewrite <- E. now apply in_map.
      - intros E. apply Hnin. rewrite <- E. now apply in_map. }
    destruct (IH h1 rest Hsc' Hpend1 Nn Nq) as (h2 & R2 & F2 & Hdone).
    exists h2. split; [exact (runs_app [t_node t] _ rest _ _ _ R1 R2) |].
    split.
    { eapply frame_seq; [exact F1 | exact F2 | | | | | |]; cbn [map In];
        footprint. }
    constructor; [| exact Hdone].
    unfold val. rewrite Es. destruct Fin1 as (kids & Hn1 & _).
    exact (scored_frame _ _ h1 h2 p t s (ex_intro _ kids Hn1) F2 Hnin).
Qed.


Lemma all_some_val (fuel : nat) (p : bool) (v : VState) (actions : list Key)
    (ss : list Z) :
  all_some (map (fun action => v_score fuel p (v_child action v)) actions) = Some ss ->
  ss = map (fun action => val fuel p (v_child action v)) actions /\
  Forall (fun action => v_score fuel p (v_child action v) <> None) actions.
Proof.
  revert ss. induction actions as [|action actions IH]; intros ss E.
  - simpl in E. injection E as <-. split; [reflexivity | constructor].
  - cbn [map all_some] in E.
    destruct (v_score fuel p (v_child action v)) as [x|] eqn:Ex; [| discriminate].
    destruct (all_some _) as [xs|]; [| discriminate].
    injection E as <-. destruct (IH xs eq_refl) as [-> Hall]. split.
    + cbn [map]. f_equal. unfold val. now rewrite Ex.
    + constructor; [congruence | exact Hall].
Qed.

(** The jobs of the children, move by move. *)
Lemma zip_jobs (v : VState) (ts : list job) :
  forall actions : list Key,
    map t_act ts = map label actions ->
    map t_state ts = map (fun action => v_child action v) actions ->
    Forall2 (fun t action => t_act t = label action /\
                             t_state t = v_child action v) ts actions.
Proof.
  induction ts as [|t ts IH]; intros [|action actions] E1 E2;
    try discriminate; [constructor |].
  cbn [map] in E1, E2. injection E1 as E1 E1'. injection E2 as E2 E2'.
  constructor; [now split | now apply IH].
Qed.

Lemma kids_scores (h : Heap) (fuel : nat) (p : bool) (ts : list job) :
  Forall (fun t => scored h p t (val fuel p (t_state t))) ts ->
  Forall2 (fun c s => exists cn, nodes h !! c = Some cn /\
                                 highest_score cn = Some s)
          (map t_node ts) (map (fun t => val fuel p (t_state t)) ts).
Proof.
  induction 1 as [|t ts [kids Hn] _ IH]; cbn [map]; constructor; [| exact IH].
  eexists. split; [exact Hn | reflexivity].
Qed.

Lemma kids_done (h : Heap) (fuel : nat) (p : bool) (v : VState)
    (ts : list job) (actions : list Key) :
  Forall2 (fun t action => t_act t = label action /\
                           t_state t = v_child action v) ts actions ->
  Forall (fun t => scored h p t (val fuel p (t_state t))) ts ->
  Forall (fun t => v_score fuel p (t_state t) <> None) ts ->
  Forall2 (kid_done h p v) (map t_node ts) actions.
Proof.
  induction 1 as [|t action ts actions [Ea Es] _ IH]; intros Hsc Hne;
    cbn [map]; [constructor |].
  inversion Hsc as [|? ? [kids Hn] Hsc']; subst.
  inversion Hne as [|? ? Hv Hne']; subst.
  constructor; [| now apply IH].
  eexists. exists (val fuel p (t_state t)).
  split; [exact Hn |]. split; [exact Ea |]. split; [reflexivity |].
  exists fuel. rewrite <- Es. unfold val.
  destruct (v_score fuel p (t_state t)); congruence.
Qed.

Lemma kid_done_frame (Q : qref -> Prop) (N : nref -> Prop) (h h' : Heap)
    (p : bool) (v : VState) (l : list nref) (actions : list Key) :
  Forall2 (kid_done h p v) l actions ->
  frame nothing Q N h h' -> (forall c, In c l -> ~ N c) ->
  Forall2 (kid_done h' p v) l actions.
Proof.
  intros Hk (_ & _ & Fn & _). induction Hk as [|c action l actions Hc _ IH];
    intros Hout; [constructor |].
  constructor.
  - destruct Hc as (cn & sc & Hn & Hrest). exists cn, sc.
    split; [| exact Hrest]. apply Fn; [| exact Hn]. apply Hout. now left.
  - apply IH. intros c' Hin. apply Hout. now right.
Qed.


Lemma jobs_defined (fuel : nat) (p : bool) (v : VState) (ts : list job)
    (actions : list Key) :
  Forall2 (fun t action => t_act t = label action /\
                           t_state t = v_child action v) ts actions ->
  Forall (fun action => v_score fuel p (v_child action v) <> None) actions ->
  Forall (fun t => v_score fuel p (t_state t) <> None) ts.
Proof.
  induction 1 as [|t action ts actions [_ Es] _ IH]; intros Hall;
    [constructor |].
  inversion Hall; subst. constructor; [now rewrite Es | now apply IH].
Qed.

Lemma jobs_values (fuel : nat) (p : bool) (v : VState) (ts : list job)
    (actions : list Key) :
  Forall2 (fun t action => t_act t = label action /\
                           t_state t = v_child action v) ts actions ->
  map (fun t => val fuel p (t_state t)) ts =
  map (fun action => val fuel p (v_child action v)) actions.
Proof.
  induction 1 as [|t action ts actions [_ Es] _ IH]; [reflexivity |].
  cbn [map]. now rewrite Es, IH.
Qed.

(** Working off one waiting node: the search below it ends when the value of
    its game is defined, changes the node and its queue only among the
    objects that existed, and leaves the node with that value. *)
Lemma run_job (fuel : nat) :
  forall (p : bool) (t : job) (s : Z) (h : Heap) (rest : list nref),
    v_score fuel p (t_state t) = Some s -> pending h p t ->
    exists h', runs [t_node t] rest h h' /\
               frame nothing (only (t_queue t)) (only (t_node t)) h h' /\
               finished h' p t s.
Proof.
  induction fuel as [|fuel IH]; intros p t s h rest E Hp; [discriminate |].
  destruct t as [n q a b act v]. destruct Hp as [Hn H].
  cbn [t_node t_queue t_a t_b t_act t_state] in *.
  rewrite v_score_S in E.
  pose proof (frame_put_clean h q a b v H) as F0.
  destruct (v_over v) eqn:Hover.
  - injection E as <-.
    exists (set_node_at (put h q a b (vclean v)) n
              (scored_node q (ref_of a b p) act (v_terminal p v) None)).
    split.
    { apply (runs_visit n rest [] h _ _
               (visit_over h n rest q a b v p act Hn H Hover)).
      apply runs_nil. }
    split.
    { apply (frame_seq nothing nothing nothing (only q) (only q) nothing
               (only n) nothing (only n) _ _ _ F0 (frame_set_node_at _ _ _));
        footprint. }
    exists None. cbn [t_node t_queue t_a t_b t_act t_state].
    split; [exact (lookup_set_node_at _ _ _ _ Hn) |].
    split; [apply rep_set_node_at; exact (rep_put_rep h q a b v _ H) |].
    intros Hf. congruence.
  - destruct (all_some (map (fun action => v_score fuel p (v_child action v))
                            (v_actions v))) as [ss|] eqn:Ess; [| discriminate].
    destruct (not_over_front v Hover) as (rest0 & k0 & ks & _ & Eacts).
    pose proof Ess as Ess'. rewrite Eacts in Ess'.
    destruct (all_some_cons _ _ _ _ Ess') as (x & l & ->). clear Ess'.
    injection E as <-.
    destruct (all_some_val fuel p v _ _ Ess) as [Ess_val Hall].
    destruct (visit_expand h n rest q a b v p act Hn H Hover)
      as (ts & h1 & Ev & Hn1 & H1 & Eact & Est & Hpend & Hfresh & Nn & Nq & F1).
    pose proof (zip_jobs v ts (v_actions v) Eact Est) as Hzip.
    pose proof (jobs_defined fuel p v ts _ Hzip Hall) as Hdef.
    assert (Ln : (n < length (nodes h))%nat) by (eapply lookup_lt_Some; eauto).
    destruct (rep_lengths _ _ _ _ _ H) as (_ & _ & Lq).
    assert (Hnew_n : forall r, In r (map t_node ts) -> (length (nodes h) <= r)%nat).
    { intros r Hin. apply in_map_iff in Hin. destruct Hin as (t & <- & Hin).
      rewrite List.Forall_forall in Hfresh. now destruct (Hfresh t Hin). }
    assert (Hnew_q : forall r, In r (map t_queue ts) -> (length (queues h) <= r)%nat).
    { intros r Hin. apply in_map_iff in Hin. destruct Hin as (t & <- & Hin).
      rewrite List.Forall_forall in Hfresh. now destruct (Hfresh t Hin). }
    destruct (run_jobs fuel p (IH p) (rev ts) h1 (n :: rest))
      as (h2 & R2 & F2 & Hdone).
    { now apply Forall_rev. }
    { now apply Forall_rev. }
    { rewrite map_rev. now apply List.NoDup_rev. }
    { rewrite map_rev. now apply List.NoDup_rev. }
    rewrite !map_rev in F2. rewrite map_rev in R2.
    apply Forall_rev in Hdone. rewrite rev_involutive in Hdone.
    assert (F2' : frame nothing (fun r => In r (map t_queue ts))
                        (fun r => In r (map t_node ts)) h1 h2).
    { eapply frame_weaken; [exact F2 | auto | |];
        intros r Hr; now apply in_rev in Hr. }
    clear F2.
    assert (Hn2 : nodes h2 !! n =
                  Some (mkNode q (Some (ref_of a b p)) act None
                               (Some (map t_node ts)))).
    { destruct F2' as (_ & _ & Fn & _). apply Fn; [| exact Hn1].
      intros Hin. apply Hnew_n in Hin. lia. }
    assert (H2 : rep h2 q a b (vclean v)).
    { eapply rep_frame; [exact H1 | exact F2' | | |]; auto.
      intros Hin. apply Hnew_q in Hin. lia. }
    destruct (vclean_like v) as (Lover & Lacts & Lwin & Lstage).
    assert (Hover' : v_over (vclean v) = false) by congruence.
    pose proof (kids_scores h2 fuel p ts Hdone) as Hscores.
    rewrite (jobs_values fuel p v ts _ Hzip), <- Ess_val in Hscores.
    destruct (map t_node ts) as [|k kids] eqn:Ekids;
      [inversion Hscores |].
    pose proof (visit_collect h2 n rest q a b (vclean v) p act k kids x l
                  Hn2 H2 Hover' Hscores) as Ev3.
    rewrite vclean_idem in Ev3.
    set (h3 := set_node_at (put h2 q a b (vclean v)) n
                 (scored_node q (ref_of a b p) act (max_list x l)
                              (Some (k :: kids)))) in *.
    assert (F3 : frame nothing (only q) (only n) h2 h3).
    { pose proof (frame_put_clean h2 q a b (vclean v) H2) as Fp.
      rewrite vclean_idem in Fp.
      apply (frame_seq nothing nothing nothing (only q) (only q) nothing
               (only n) nothing (only n) _ _ _ Fp (frame_set_node_at _ _ _));
        footprint. }
    exists h3. split.
    { assert (Ev' : visit n rest h =
                    Ret ((rev (k :: kids) ++ [n]) ++ rest) h1)
        by (rewrite <- app_assoc; exact Ev).
      apply (runs_visit n rest (rev (k :: kids) ++ [n]) h h1 h3 Ev').
      apply (runs_app (rev (k :: kids)) [n] rest h1 h2 h3 R2).
      apply (runs_visit n rest [] h2 h3 h3 Ev3). apply runs_nil. }
    split.
    { assert (F13 : frame nothing
                          (fun r => r = q \/ (length (queues h) <= r)%nat)
                          (fun r => r = n \/ (length (nodes h) <= r)%nat)
                          h1 h3).
      { apply (frame_seq nothing _ _ _ _ _ _ _ _ h1 h2 h3 F2' F3);
          footprint. }
      apply (frame_seq nothing _ _ (only q) _ _ (only n) _ _ h h1 h3 F1 F13);
        try footprint;
        intros r Lr [-> | Hr]; solve [reflexivity | lia]. }
    exists (Some (k :: kids)). cbn [t_node t_queue t_a t_b t_act t_state].
    split; [exact (lookup_set_node_at _ _ _ _ Hn2) |].
    split.
    { apply rep_set_node_at.
      pose proof (rep_put_rep h2 q a b _ (vclean v) H2) as Hr. exact Hr. }
    intros _. exists (k :: kids). split; [reflexivity |].
    rewrite <- Ekids.
    apply (kid_done_frame (only q) (only n) h2 h3 p v _ _
             (kids_done h2 fuel p v ts _ Hzip Hdone Hdef) F3).
    intros c Hin Hc. rewrite Ekids in Hin. apply Hnew_n in Hin.
    unfold only in Hc. lia.
Qed.


(** *** [select_attack] of the iterative playstyle *)

(** What follows the loop: the answer is read off the root. *)
Definition read_answer (root_node : nref) : M Key :=
  let! root := get_node root_node in
  match children root with
  | None => raise TypeError
  | Some l => first_best l (highest_score root) (action_taken root)
  end.

(** The store in which the loop starts, and the root on its stack. *)
Definition root_store (h : Heap) (q : qref) (a b : cref) (v : VState) : Heap :=
  with_node (grown (put h q a b (vclean v)) (v_stage v))
    (waiting (length (queues h))
       (ref_of (length (characters h)) (S (length (characters h)))
               (v_front (vclean v)))
       Key_X).

Definition root_job (h : Heap) (v : VState) : job :=
  mkJob (length (nodes h)) (length (queues h)) (length (characters h))
         (S (length (characters h))) Key_X (v_stage v).

Lemma put_lengths (h : Heap) (q : qref) (a b : cref) (v : VState) :
  length (characters (put h q a b v)) = length (characters h) /\
  length (queues (put h q a b v)) = length (queues h) /\
  length (nodes (put h q a b v)) = length (nodes h).
Proof. unfold put; simpl. now rewrite !length_insert. Qed.

Lemma iter_setup (fuel : nat) (h : Heap) (q : qref) (a b : cref) (v : VState)
    (k0 : Key) (ks : list Key) :
  rep h q a b v -> v_actions v = k0 :: ks ->
  MinimaxIterativePlaystyle_select_attack fuel q h =
    bind (search_loop fuel [length (nodes h)])
         (fun _ => read_answer (length (nodes h)))
         (root_store h q a b v).
Proof.
  intros H Eacts.
  pose proof (rep_put_rep h q a b v (vclean v) H) as H1.
  destruct (put_lengths h q a b (vclean v)) as (Lc & Lq & Ln).
  unfold MinimaxIterativePlaystyle_select_attack.
  erewrite bind_Ret by exact (peek_rep h q a b v H). cbn beta.
  simpl deref. rewrite bind_ret.
  erewrite bind_Ret
    by exact (get_available_actions_rep _ q a b _ (v_front (vclean v)) H1).
  cbn beta.
  change (available_actions (v_stats (vclean v) (v_front (vclean v)))
            (Some (v_stats (vclean v) (negb (v_front (vclean v))))))
    with (v_actions v).
  rewrite Eacts.
  erewrite bind_Ret by exact (copy_of_rep _ q a b _ H1). cbn beta.
  erewrite bind_Ret
    by exact (peek_rep _ _ _ _ _ (rep_grown _ (vcopy (vclean v)))).
  cbn beta. rewrite put_grown. fold (v_stage v). rewrite v_stage_front.
  unfold new_node at 1. unfold bind at 1.
  unfold root_store, with_node, GameStateNode_init, waiting. cbn [truthy].
  rewrite grown_nodes, put_nodes, Lc, Lq. reflexivity.
Qed.

Lemma root_pending (h : Heap) (q : qref) (a b : cref) (v : VState) :
  rep h q a b v ->
  pending (root_store h q a b v) (v_front (vclean v)) (root_job h v) /\
  frame nothing (only q) nothing h (root_store h q a b v).
Proof.
  intros H. destruct (put_lengths h q a b (vclean v)) as (Lc & Lq & Ln).
  pose proof (rep_grown (put h q a b (vclean v)) (v_stage v)) as Hg.
  rewrite Lc, Lq in Hg.
  split.
  - split.
    + unfold root_store, with_node, root_job; simpl.
      rewrite <- Ln at 1. apply lookup_snoc.
    + unfold root_store, root_job; simpl. now apply rep_with_node.
  - unfold root_store.
    apply (frame_seq nothing _ _ (only q) _ _ nothing _ _ _ _ _
             (frame_put_clean h q a b v H)
             (frame_seq nothing _ _ nothing _ _ nothing _ _ _ _ _
                (frame_grown _ (v_stage v)) (frame_with_node _ _)
                (fun _ x => x) (fun _ x => x) (fun _ x => x)
                (fun _ _ x => x) (fun _ _ x => x) (fun _ _ x => x)));
      footprint.
Qed.

(** Whatever the search does to the root and its queue, the game it was
    asked about is purged and nothing else that existed is changed. *)
Lemma root_done (h h2 : Heap) (q : qref) (a b : cref) (v : VState) :
  rep h q a b v ->
  frame nothing (only (length (queues h))) (only (length (nodes h)))
        (root_store h q a b v) h2 ->
  frame nothing (only q) nothing h h2 /\ rep h2 q a b (vclean v).
Proof.
  intros H F2. destruct (root_pending h q a b v H) as [_ F].
  destruct (rep_lengths _ _ _ _ _ H) as (_ & _ & Lq).
  split.
  - apply (frame_seq nothing _ _ (only q) _ _ nothing _ _ _ _ _ F F2);
      try footprint; intros r Lr ->; lia.
  - assert (Hr : rep (root_store h q a b v) q a b (vclean v)).
    { unfold root_store. apply rep_with_node, rep_grown_old.
      exact (rep_put_rep h q a b v _ H). }
    eapply rep_frame; [exact Hr | exact F2 | | |]; auto.
    unfold only. lia.
Qed.

Lemma v_stage_over (v : VState) : v_over (v_stage v) = v_over v.
Proof.
  rewrite (v_over_alike _ _ (v_stage_like v)).
  now destruct (vclean_like v) as (-> & _).
Qed.

(** On a game that is over the root gets no children, and reading the answer
    off it fails. *)
Lemma iter_over (fuel : nat) (h : Heap) (q : qref) (a b : cref) (v : VState)
    (k0 : Key) (ks : list Key) :
  rep h q a b v -> v_actions v = k0 :: ks -> v_over v = true ->
  exists h',
    MinimaxIterativePlaystyle_select_attack (S fuel) q h = Raise TypeError h' /\
    frame nothing (only q) nothing h h' /\ rep h' q a b (vclean v).
Proof.
  intros H Eacts Hover.
  destruct (root_pending h q a b v H) as [[Hn Hr] F].
  cbn [root_job t_node t_queue t_a t_b t_act t_state] in Hn, Hr.
  pose proof (visit_over _ _ [] _ _ _ _ _ _ Hn Hr
                (eq_trans (v_stage_over v) Hover)) as Ev.
  set (h' := set_node_at _ _ _) in Ev.
  exists h'. split.
  - rewrite (iter_setup _ h q a b v k0 ks H Eacts).
    erewrite bind_Ret
      by (rewrite search_loop_S; erewrite bind_Ret by exact Ev;
          apply search_loop_nil).
    cbn beta. unfold read_answer.
    erewrite bind_Ret
      by (apply get_node_eq; unfold h';
          exact (lookup_set_node_at _ _ _ _ Hn)).
    reflexivity.
  - apply (root_done h h' q a b v H). unfold h'.
    apply (frame_seq nothing _ _ _ _ _ _ _ _ _ _ _
             (frame_put_clean _ _ _ _ _ Hr) (frame_set_node_at _ _ _));
      footprint.
Qed.


(** The first child whose score is the score of the root. *)
Lemma first_best_spec (h : Heap) (p : bool) (v : VState) (hs : Z)
    (otherwise : Key) (l : list nref) (actions : list Key) :
  Forall2 (kid_done h p v) l actions ->
  (exists action, In action actions /\ value p (v_child action v) hs) ->
  exists action,
    In action actions /\ value p (v_child action v) hs /\
    first_best l (Some hs) otherwise h = Ret (label action) h.
Proof.
  induction 1 as [|c action l actions (cn & sc & Hn & Hlab & Hs & Hval) _ IH];
    intros (a' & Hin & Ha'); [destruct Hin |].
  cbn [first_best]. erewrite bind_Ret by exact (get_node_eq _ _ _ Hn).
  cbn beta. rewrite Hs. cbn [same_score].
  destruct (sc =? hs) eqn:E.
  - apply Z.eqb_eq in E. subst sc. exists action.
    split; [now left |]. split; [exact Hval |]. now rewrite Hlab.
  - destruct Hin as [<- | Hin].
    + apply Z.eqb_neq in E. elim E. exact (value_unique _ _ _ _ Hval Ha').
    + destruct IH as (x & Hx & Hvx & Ex); [now exists a' |].
      exists x. split; [now right |]. now split.
Qed.

Lemma first_best_heap (s : option Z) (otherwise : Key) (l : list nref)
    (h h' : Heap) :
  heap_of (first_best l s otherwise h) = Some h' -> h' = h.
Proof.
  induction l as [|c l IH]; cbn [first_best].
  - intros [= <-]. reflexivity.
  - unfold bind, get_node. destruct (nodes h !! c) as [cn|].
    + destruct (same_score _ _); [intros [= <-]; reflexivity | exact IH].
    + intros [= <-]. reflexivity.
Qed.

(** More fuel does not change what a search that ended has answered. *)
Lemma search_loop_mono (fuel : nat) :
  forall (st : list nref) (h : Heap) (d : nat),
    search_loop fuel st h <> OutOfFuel ->
    search_loop (fuel + d) st h = search_loop fuel st h.
Proof.
  induction fuel as [|fuel IH]; intros [|n st] h d Hne.
  - now rewrite !search_loop_nil.
  - now elim Hne.
  - now rewrite !search_loop_nil.
  - cbn [Nat.add]. rewrite !search_loop_S in *. unfold bind in *.
    destruct (visit n st h) as [st' h1|e h1|]; [| reflexivity | reflexivity].
    now apply IH.
Qed.

(** The iterative playstyle on a game that is on and whose value is defined:
    with enough fuel it answers a best move, with any fuel it answers that
    or runs out, and it purges the queue it is asked about and changes
    nothing else that existed. *)
Lemma iter_on (h : Heap) (q : qref) (a b : cref) (v : VState) (hs : Z) :
  rep h q a b v -> v_over v = false ->
  value (v_front (vclean v)) v hs ->
  exists k key h',
    best v key /\
    (forall extra,
       MinimaxIterativePlaystyle_select_attack (k + extra) q h = Ret key h') /\
    (forall fuel,
       MinimaxIterativePlaystyle_select_attack fuel q h = OutOfFuel \/
       MinimaxIterativePlaystyle_select_attack fuel q h = Ret key h') /\
    frame nothing (only q) nothing h h' /\ rep h' q a b (vclean v).
Proof.
  intros H Hover [fuel0 Ehs].
  destruct (not_over_front v Hover) as (rest0 & k0 & ks & _ & Eacts).
  destruct (root_pending h q a b v H) as [Hp F].
  assert (Ehs' : v_score fuel0 (v_front (vclean v)) (t_state (root_job h v))
                 = Some hs).
  { cbn [root_job t_state].
    now rewrite (v_score_alike _ _ _ _ (v_stage_like v)), v_score_clean. }
  destruct (run_job fuel0 _ _ _ _ [] Ehs' Hp) as (h2 & [k R] & F2 & Fin).
  cbn [root_job t_node t_queue t_a t_b t_act t_state] in R, F2, Fin.
  destruct Fin as (kids & Hn2 & _ & Hkids).
  destruct (Hkids (eq_trans (v_stage_over v) Hover)) as (l & -> & Hl).
  clear Hkids.
  destruct (v_score_moves fuel0 _ v hs Hover Ehs) as [_ (x0 & Hx0 & Ex0)].
  assert (Ekid : forall action, v_child action (v_stage v) = v_child action v).
  { intros action. rewrite (v_child_alike action _ _ (v_stage_like v)).
    unfold v_child. now destruct (vclean_like v) as (_ & _ & _ & ->). }
  assert (Eacts' : v_actions (v_stage v) = v_actions v).
  { rewrite (v_actions_alike _ _ (v_stage_like v)).
    now destruct (vclean_like v) as (_ & -> & _). }
  cbn [root_job t_state] in Hl. rewrite Eacts' in Hl.
  destruct (first_best_spec h2 _ (v_stage v) hs Key_X l (v_actions v) Hl)
    as (x & Hx & Hvx & Efirst).
  { exists x0. split; [exact Hx0 |]. rewrite Ekid. now exists fuel0. }
  rewrite Ekid in Hvx.
  assert (Eanswer : read_answer (length (nodes h)) h2 = Ret (label x) h2).
  { unfold read_answer. erewrite bind_Ret by exact (get_node_eq _ _ _ Hn2).
    exact Efirst. }
  assert (Eloop : forall extra,
            search_loop (k + extra) [length (nodes h)] (root_store h q a b v)
            = Ret tt h2).
  { intros extra. exact (eq_trans (R extra) (search_loop_nil _ _)). }
  exists k, (label x), h2. split.
  { exists x, hs. split; [exact Hx |]. split; [reflexivity |].
    split; [now exists fuel0 | exact Hvx]. }
  split.
  { intros extra. rewrite (iter_setup _ h q a b v k0 ks H Eacts).
    erewrite bind_Ret by exact (Eloop extra). exact Eanswer. }
  split.
  { intros fuel. rewrite (iter_setup _ h q a b v k0 ks H Eacts).
    destruct (search_loop fuel [length (nodes h)] (root_store h q a b v))
      as [[] h3|e h3|] eqn:Eo.
    - right. erewrite bind_Ret by exact Eo. cbn beta.
      pose proof (search_loop_mono fuel [length (nodes h)]
                    (root_store h q a b v) k) as Hm.
      rewrite Eo, Nat.add_comm, Eloop in Hm.
      assert (h2 = h3) as <- by (specialize (Hm ltac:(discriminate)); congruence).
      exact Eanswer.
    - exfalso.
      pose proof (search_loop_mono fuel [length (nodes h)]
                    (root_store h q a b v) k) as Hm.
      rewrite Eo, Nat.add_comm, Eloop in Hm.
      specialize (Hm ltac:(discriminate)). discriminate.
    - left. now erewrite bind_OutOfFuel by exact Eo. }
  exact (root_done h h2 q a b v H F2).
Qed.


(** With no move open to the player at the front, both playstyles answer
    ['X'] once they have purged the queue. *)
Lemma select_no_action (h : Heap) (q : qref) (a b : cref) (v : VState)
    (fuel : nat) :
  rep h q a b v -> v_actions v = [] ->
  MinimaxRecursivePlaystyle_select_attack fuel q h =
    Ret Key_X (put h q a b (vclean v)) /\
  MinimaxIterativePlaystyle_select_attack fuel q h =
    Ret Key_X (put h q a b (vclean v)).
Proof.
  intros H Eacts.
  pose proof (rep_put_rep h q a b v (vclean v) H) as H1.
  split;
    [unfold MinimaxRecursivePlaystyle_select_attack
    | unfold MinimaxIterativePlaystyle_select_attack];
    (erewrite bind_Ret by exact (peek_rep h q a b v H)); cbn beta;
    simpl deref; rewrite bind_ret;
    (erewrite bind_Ret
       by exact (get_available_actions_rep _ q a b _ (v_front (vclean v)) H1));
    cbn beta;
    change (available_actions (v_stats (vclean v) (v_front (vclean v)))
              (Some (v_stats (vclean v) (negb (v_front (vclean v))))))
      with (v_actions v);
    rewrite Eacts; reflexivity.
Qed.

(** *** A search that ends has a value to find *)

Lemma all_some_defined {X : Type} (f : Key -> option X) (l : list Key) :
  (forall a, In a l -> f a <> None) -> all_some (map f l) <> None.
Proof.
  induction l as [|a l IH]; intros Hf; [discriminate |].
  cbn [map all_some].
  destruct (f a) as [x|] eqn:Ea; [| now elim (Hf a (or_introl eq_refl))].
  destruct (all_some (map f l)) as [xs|] eqn:El; [discriminate |].
  elim IH; [| reflexivity]. intros a' Ha'. apply Hf. now right.
Qed.

(** Moves that each have a value have them with one and the same fuel. *)
Lemma common_fuel (p : bool) (v : VState) (l : list Key) :
  Forall (fun a => exists f0, v_score f0 p (v_child a v) <> None) l ->
  exists fuel, forall a, In a l -> v_score fuel p (v_child a v) <> None.
Proof.
  induction 1 as [|a l [fa Ha] _ [fl Hl]].
  - exists 0%nat. intros a [].
  - exists (fl + fa)%nat. intros a' [<- | Hin].
    + destruct (v_score fa p (v_child a v)) as [s|] eqn:Es; [| congruence].
      now rewrite (v_score_more fl fa p _ s Es).
    + specialize (Hl a' Hin).
      destruct (v_score fl p (v_child a' v)) as [s|] eqn:Es; [| congruence].
      rewrite Nat.add_comm. now rewrite (v_score_more fa fl p _ s Es).
Qed.

(** Waiting nodes on top of the stack of a search that ends: the game of
    each has a value, given that this holds of one node. *)
Lemma kids_defined (fuel : nat) (p : bool) :
  (forall (t : job) (h : Heap) (rest : list nref),
     pending h p t ->
     search_loop fuel (t_node t :: rest) h <> OutOfFuel ->
     exists f0, v_score f0 p (t_state t) <> None) ->
  forall (ts : list job) (h : Heap) (rest : list nref),
    Forall (pending h p) ts ->
    List.NoDup (map t_node ts) -> List.NoDup (map t_queue ts) ->
    search_loop fuel (map t_node ts ++ rest) h <> OutOfFuel ->
    Forall (fun t => exists f0, v_score f0 p (t_state t) <> None) ts.
Proof.
  intros One. induction ts as [|t ts IH]; intros h rest Hpend Nn Nq Hne;
    [constructor |].
  inversion Hpend as [|? ? Hp Hpend']; subst.
  cbn [map app] in Nn, Nq, Hne.
  apply List.NoDup_cons_iff in Nn. destruct Nn as [Hnin Nn].
  apply List.NoDup_cons_iff in Nq. destruct Nq as [Hqin Nq].
  destruct (One t h _ Hp Hne) as [f0 Hf0].
  constructor; [now exists f0 |].
  destruct (v_score f0 p (t_state t)) as [s|] eqn:Es; [| congruence].
  destruct (run_job f0 p t s h (map t_node ts ++ rest) Es Hp)
    as (h1 & [k R] & F1 & _).
  apply (IH h1 rest); [| exact Nn | exact Nq |].
  - rewrite List.Forall_forall in Hpend' |- *. intros t' Hin.
    eapply pending_frame; [now apply Hpend' | exact F1 | |].
    + intros E. apply Hqin. rewrite <- E. now apply in_map.
    + intros E. apply Hnin. rewrite <- E. now apply in_map.
  - rewrite <- (R fuel). cbn [app]. rewrite Nat.add_comm.
    now rewrite (search_loop_mono fuel _ h k Hne).
Qed.

(** When the search over a waiting node ends, whatever is below it on the
    stack, the game of the node has a value. *)
Lemma search_ends_value (fuel : nat) :
  forall (p : bool) (t : job) (h : Heap) (rest : list nref),
    pending h p t ->
    search_loop fuel (t_node t :: rest) h <> OutOfFuel ->
    exists f0, v_score f0 p (t_state t) <> None.
Proof.
  induction fuel as [|fuel IH]; intros p t h rest Hp Hne;
    [now elim Hne |].
  destruct t as [n q a b act v]. destruct Hp as [Hn H].
  cbn [t_node t_queue t_a t_b t_act t_state] in *.
  destruct (v_over v) eqn:Hover.
  - exists 1%nat. rewrite v_score_S, Hover. discriminate.
  - destruct (visit_expand h n rest q a b v p act Hn H Hover)
      as (ts & h1 & Ev & _ & _ & Eact & Est & Hpend & _ & Nn & Nq & _).
    rewrite search_loop_S in Hne.
    erewrite bind_Ret in Hne by exact Ev.
    rewrite <- map_rev in Hne.
    assert (Hkids : Forall (fun t => exists f0, v_score f0 p (t_state t) <> None)
                           (rev ts)).
    { apply (kids_defined fuel p (IH p) (rev ts) h1 (n :: rest)).
      - now apply Forall_rev.
      - rewrite map_rev. now apply List.NoDup_rev.
      - rewrite map_rev. now apply List.NoDup_rev.
      - exact Hne. }
    apply Forall_rev in Hkids. rewrite rev_involutive in Hkids.
    pose proof (zip_jobs v ts (v_actions v) Eact Est) as Hzip.
    assert (Hmoves : Forall (fun action =>
                               exists f0, v_score f0 p (v_child action v) <> None)
                            (v_actions v)).
    { clear -Hzip Hkids. induction Hzip as [|t action ts actions [_ Es] _ IHz];
        [constructor |].
      inversion Hkids as [|? ? Ht Hkids']; subst.
      constructor; [now rewrite <- Es | now apply IHz]. }
    destruct (common_fuel p v _ Hmoves) as [f1 Hf1].
    exists (S f1). rewrite v_score_S, Hover.
    pose proof (all_some_defined
                  (fun action => v_score f1 p (v_child action v)) _ Hf1) as Hall.
    destruct (all_some _) as [[|x l]|]; [discriminate | discriminate |].
    now elim Hall.
Qed.

(** The iterative playstyle, however it ends, purges the queue it is asked
    about and changes nothing else that existed. *)
Lemma iter_select_frame (fuel : nat) (h h' : Heap) (q : qref) (a b : cref)
    (v : VState) :
  rep h q a b v ->
  heap_of (MinimaxIterativePlaystyle_select_attack fuel q h) = Some h' ->
  frame nothing (only q) nothing h h' /\ rep h' q a b (vclean v).
Proof.
  intros H Hh.
  destruct (v_actions v) as [|k0 ks] eqn:Eacts.
  - destruct (select_no_action h q a b v fuel H Eacts) as [_ E].
    rewrite E in Hh. injection Hh as <-.
    split; [now apply frame_put_clean | exact (rep_put_rep h q a b v _ H)].
  - destruct (v_over v) eqn:Hover.
    + destruct fuel as [|fuel].
      * rewrite (iter_setup _ h q a b v k0 ks H Eacts) in Hh. discriminate.
      * destruct (iter_over fuel h q a b v k0 ks H Eacts Hover)
          as (h1 & E & F & Hr).
        rewrite E in Hh. injection Hh as <-. now split.
    + (* the search ended, so the game has a value *)
      assert (Hends : search_loop fuel [length (nodes h)] (root_store h q a b v)
                      <> OutOfFuel).
      { intros Eout. rewrite (iter_setup _ h q a b v k0 ks H Eacts) in Hh.
        unfold bind in Hh. rewrite Eout in Hh. discriminate. }
      destruct (root_pending h q a b v H) as [Hp _].
      destruct (search_ends_value fuel (v_front (vclean v)) (root_job h v)
                  (root_store h q a b v) [] Hp Hends) as [f0 Hf0].
      cbn [root_job t_state] in Hf0.
      rewrite (v_score_alike _ _ _ _ (v_stage_like v)), v_score_clean in Hf0.
      destruct (v_score f0 (v_front (vclean v)) v) as [hs|] eqn:Ehs;
        [| congruence].
      destruct (iter_on h q a b v hs H Hover (ex_intro _ f0 Ehs))
        as (k & key & h1 & _ & _ & Hany & F & Hr).
      destruct (Hany fuel) as [E | E]; rewrite E in Hh; [discriminate |].
      injection Hh as <-. now split.
Qed.

(** ** Part XVII: what the two playstyles answer and what they leave alone *)

(** C7, as the code has it: [get_state_score] changes no object that
    existed, and returns whenever the value of the game is defined; a
    [select_attack] of either playstyle, whether it returns or raises,
    changes no character, no node and no queue but the one it was asked
    about, and of that one it removes the leading tickets of players that
    cannot act, as [peek] does. *)
Theorem search_purges_only (h : Heap) (q : qref) (a b : cref) (v : VState) :
  rep h q a b v ->
  (forall fuel h',
     heap_of (get_state_score fuel q h) = Some h' ->
     frame nothing nothing nothing h h') /\
  (forall hs, value (v_front (vclean v)) v hs ->
     exists fuel h', get_state_score fuel q h = Ret hs h') /\
  (forall fuel h',
     heap_of (MinimaxRecursivePlaystyle_select_attack fuel q h) = Some h' ->
     frame nothing (only q) nothing h h' /\
     queues h' !! q = Some (qrec a b (vclean v))) /\
  (forall fuel h',
     heap_of (MinimaxIterativePlaystyle_select_attack fuel q h) = Some h' ->
     frame nothing (only q) nothing h h' /\
     queues h' !! q = Some (qrec a b (vclean v))).
Proof.
  intros H. split; [| split; [| split]].
  - intros fuel h' Hh. pose proof (get_state_score_rep fuel h q a b v H) as Hs.
    destruct (v_score fuel (v_front (vclean v)) v) as [s|].
    + destruct Hs as (h1 & E & F). rewrite E in Hh. now injection Hh as <-.
    + rewrite Hs in Hh. discriminate.
  - intros hs [fuel E]. exists fuel.
    pose proof (get_state_score_rep fuel h q a b v H) as Hs. rewrite E in Hs.
    destruct Hs as (h1 & E1 & _). now exists h1.
  - intros fuel h' Hh.
    destruct (rec_select_frame fuel h h' q a b v H Hh) as [F Hr].
    split; [exact F | apply Hr].
  - intros fuel h' Hh.
    destruct (iter_select_frame fuel h h' q a b v H Hh) as [F Hr].
    split; [exact F | apply Hr].
Qed.

(** C8, as the code has it: when the game is over and a move is still open
    to the player at the front, the iterative [select_attack] answers
    nothing: it raises [TypeError], since the root has no children to go
    through. *)
Theorem iterative_select_attack_game_over (h : Heap) (q : qref) (a b : cref)
    (v : VState) (fuel : nat) :
  rep h q a b v -> v_over v = true -> v_actions v <> [] ->
  (exists h',
     MinimaxIterativePlaystyle_select_attack (S fuel) q h = Raise TypeError h') /\
  (forall key h',
     MinimaxIterativePlaystyle_select_attack fuel q h <> Ret key h').
Proof.
  intros H Hover Hacts.
  destruct (v_actions v) as [|k0 ks] eqn:Eacts; [now elim Hacts |].
  split.
  - destruct (iter_over fuel h q a b v k0 ks H Eacts Hover) as (h' & E & _).
    now exists h'.
  - intros key h' E. destruct fuel as [|fuel].
    + rewrite (iter_setup _ h q a b v k0 ks H Eacts) in E. discriminate.
    + destruct (iter_over fuel h q a b v k0 ks H Eacts Hover) as (h1 & E1 & _).
      congruence.
Qed.

(** X22: on a game that is on, whose value is defined and is not the
    number [- sys.maxsize] the recursive search starts from, both playstyles
    return once they have enough fuel, [get_state_score] returns the value of
    the game, and each playstyle answers a move of the player at the front
    whose value is that value; so when one answer only is best, they answer
    the same. *)
Theorem select_attack_agree (h : Heap) (q : qref) (a b : cref) (v : VState)
    (hs : Z) :
  rep h q a b v -> v_over v = false ->
  value (v_front (vclean v)) v hs -> hs <> - sys_maxsize ->
  exists enough : nat,
    forall fuel, (enough <= fuel)%nat ->
      exists (kr ki : Key) (hg hr hi : Heap),
        get_state_score fuel q h = Ret hs hg /\
        MinimaxRecursivePlaystyle_select_attack fuel q h = Ret kr hr /\
        MinimaxIterativePlaystyle_select_attack fuel q h = Ret ki hi /\
        best v kr /\ best v ki /\
        ((forall k1 k2, best v k1 -> best v k2 -> k1 = k2) -> kr = ki).
Proof.
  intros H Hover Hval Hsent. pose proof Hval as [fuel0 E0].
  destruct (iter_on h q a b v hs H Hover Hval)
    as (k & ki & hi & Hbi & Hiter & _).
  exists (fuel0 + k)%nat. intros fuel Hle.
  assert (E : v_score fuel (v_front (vclean v)) v = Some hs).
  { replace fuel with ((fuel - fuel0) + fuel0)%nat by lia.
    now apply v_score_more. }
  destruct (rec_select_value fuel h q a b v hs H Hover E Hsent)
    as (kr & hr & Hrec & Hbr).
  pose proof (get_state_score_rep fuel h q a b v H) as Hs. rewrite E in Hs.
  destruct Hs as (hg & Hg & _).
  exists kr, ki, hg, hr, hi.
  split; [exact Hg |]. split; [exact Hrec |].
  split.
  { replace fuel with (k + (fuel - k))%nat by lia. apply Hiter. }
  split; [exact Hbr |]. split; [exact Hbi |].
  intros Huniq. now apply Huniq.
Qed.

(** ** Part XVIII: what a client of the queues can rely on *)

Lemma actions_read (h : Heap) (c : cref) (l : list Key) :
  get_available_actions c h = Ret l h ->
  char_actions (characters h) c = Some l.
Proof.
  rewrite get_available_actions_eq.
  destruct (char_actions (characters h) c); [| discriminate].
  now intros [= ->].
Qed.

Lemma drop_dead_all {A : Type} (cs : A -> option (list Key)) (dead : list A) :
  Forall (fun d => cs d = Some []) dead -> drop_dead cs dead = ([], true).
Proof.
  induction 1 as [|d dead Hd _ IH]; [reflexivity |].
  cbn [drop_dead]. now rewrite Hd.
Qed.

Lemma drop_dead_split {A : Type} (cs : A -> option (list Key))
    (dead : list A) (c : A) (rest : list A) (k : Key) (ks : list Key) :
  Forall (fun d => cs d = Some []) dead -> cs c = Some (k :: ks) ->
  drop_dead cs (dead ++ c :: rest) = (c :: rest, true).
Proof.
  intros Hdead Hc. induction Hdead as [|d dead Hd _ IH].
  - cbn [app drop_dead]. now rewrite Hc.
  - cbn [app drop_dead]. now rewrite Hd.
Qed.

Lemma no_move_read (h : Heap) (l : list cref) :
  Forall (fun d => get_available_actions d h = Ret [] h) l ->
  Forall (fun d => char_actions (characters h) d = Some []) l.
Proof.
  intros H. eapply Forall_impl; [exact H |]. intros d. apply actions_read.
Qed.

Lemma actions_with_queue (h : Heap) (self : qref) (x : BattleQueue) (c : cref)
    (l : list Key) :
  get_available_actions c h = Ret l h ->
  get_available_actions c (with_queue h self x) = Ret l (with_queue h self x).
Proof.
  intros H. apply actions_read in H. rewrite get_available_actions_eq.
  cbn [with_queue characters]. now rewrite H.
Qed.

Lemma drop_cons_next {X : Type} (n : nat) (l : list X) :
  (n < length l)%nat -> exists x, drop n l = x :: drop (S n) l.
Proof.
  intros L. destruct (lookup_lt_is_Some_2 l n L) as [x Hx].
  exists x. now apply drop_S.
Qed.

(** The queue of the store after the purge found the first ticket whose
    holder can act. *)
Lemma cleaned_first_live (h : Heap) (q : BattleQueue) (dead : list cref)
    (c : cref) (rest : list cref) (k : Key) (ks : list Key) :
  _content q = dead ++ c :: rest ->
  Forall (fun d => get_available_actions d h = Ret [] h) dead ->
  get_available_actions c h = Ret (k :: ks) h ->
  aligned q ->
  snd (drop_dead (acts h) (_content q)) = true /\
  cleaned (acts h) q =
    mkQueue (c :: rest) (_p1 q) (_p2 q)
            (option_map (drop (length dead)) (_add_status q)).
Proof.
  intros Ec Hdead Hc Hal.
  pose proof (drop_dead_split (acts h) dead c rest k ks
                (no_move_read h dead Hdead) (actions_read h c _ Hc)) as Ed.
  unfold cleaned. rewrite Ec, Ed. split; [reflexivity |].
  cbn [fst]. f_equal. unfold realign, aligned in *.
  destruct (_add_status q) as [st|]; [| reflexivity].
  cbn [option_map]. f_equal. unfold last_n. f_equal.
  rewrite Hal, Ec, length_app. cbn [length]. lia.
Qed.

Lemma remove_live_eq (self : qref) (h : Heap) (q : BattleQueue)
    (dead : list cref) (c : cref) (rest : list cref) (k : Key) (ks : list Key) :
  queues h !! self = Some q ->
  _content q = dead ++ c :: rest ->
  Forall (fun d => get_available_actions d h = Ret [] h) dead ->
  get_available_actions c h = Ret (k :: ks) h ->
  aligned q ->
  remove self h =
    Ret c (with_queue h self
             (mkQueue rest (_p1 q) (_p2 q)
                      (option_map (drop (S (length dead))) (_add_status q)))).
Proof.
  intros Hq Ec Hdead Hc Hal.
  destruct (cleaned_first_live h q dead c rest k ks Ec Hdead Hc Hal) as [Hok Ecl].
  rewrite (remove_eq _ _ _ Hq Hok), Ecl. unfold pop_front.
  cbn [_add_status _content _p1 _p2].
  destruct (_add_status q) as [st|] eqn:Est; [| reflexivity].
  cbn [option_map].
  assert (L : (length dead < length st)%nat).
  { unfold aligned in Hal. rewrite Est in Hal. rewrite Hal, Ec, length_app.
    cbn [length]. lia. }
  destruct (drop_cons_next (length dead) st L) as (x & ->). reflexivity.
Qed.

(** X3: [remove] hands out the first ticket whose holder can act: the
    tickets before it, whose holders have no move, are dropped with it, the
    tickets after it stay in their order, and a restricted queue drops the
    permission bits of the tickets that went. *)
Theorem remove_first_live (self : qref) (h : Heap) (q : BattleQueue)
    (dead : list cref) (c : cref) (rest : list cref) (k : Key) (ks : list Key) :
  queues h !! self = Some q ->
  _content q = dead ++ c :: rest ->
  Forall (fun d => get_available_actions d h = Ret [] h) dead ->
  get_available_actions c h = Ret (k :: ks) h ->
  aligned q ->
  remove self h =
    Ret c (with_queue h self
             (mkQueue rest (_p1 q) (_p2 q)
                      (option_map (drop (S (length dead))) (_add_status q)))).
Proof.
  intros Hq Ec Hdead Hc Hal.
  destruct (cleaned_first_live h q dead c rest k ks Ec Hdead Hc Hal) as [Hok Ecl].
  rewrite (remove_eq _ _ _ Hq Hok), Ecl. unfold pop_front.
  cbn [_add_status _content _p1 _p2].
  destruct (_add_status q) as [st|] eqn:Est; [| reflexivity].
  cbn [option_map].
  assert (L : (length dead < length st)%nat).
  { unfold aligned in Hal. rewrite Est in Hal. rewrite Hal, Ec, length_app.
    cbn [length]. lia. }
  destruct (drop_cons_next (length dead) st L) as (x & ->). reflexivity.
Qed.

(** X4: when no ticket is left whose holder can act, [is_empty] answers
    [True] and [remove] raises [IndexError]; either call leaves the queue with
    no ticket at all. *)
Theorem remove_nothing_live (self : qref) (h : Heap) (q : BattleQueue) :
  queues h !! self = Some q ->
  Forall (fun d => get_available_actions d h = Ret [] h) (_content q) ->
  is_empty self h =
    Ret true (with_queue h self
                (mkQueue [] (_p1 q) (_p2 q)
                         (option_map (fun _ => []) (_add_status q)))) /\
  remove self h =
    Raise IndexError
          (with_queue h self
             (mkQueue [] (_p1 q) (_p2 q)
                      (option_map (fun _ => []) (_add_status q)))).
Proof.
  intros Hq Hdead.
  pose proof (drop_dead_all (acts h) _ (no_move_read h _ Hdead)) as Ed.
  assert (Hok : snd (drop_dead (acts h) (_content q)) = true) by now rewrite Ed.
  assert (Ecl : cleaned (acts h) q =
                mkQueue [] (_p1 q) (_p2 q)
                        (option_map (fun _ => []) (_add_status q))).
  { unfold cleaned. rewrite Ed. cbn [fst]. unfold realign.
    destruct (_add_status q); reflexivity. }
  split.
  - rewrite (is_empty_eq _ _ _ Hq Hok), Ecl. reflexivity.
  - rewrite (remove_eq _ _ _ Hq Hok), Ecl. unfold pop_front.
    cbn [_add_status _content _p1 _p2].
    destruct (_add_status q); reflexivity.
Qed.

(** X5: looking before taking changes nothing: [peek] answers the character
    that [remove] then hands out, and the store after both calls is the store
    after [remove] alone. *)
Theorem peek_then_remove (self : qref) (h : Heap) (q : BattleQueue)
    (dead : list cref) (c : cref) (rest : list cref) (k : Key) (ks : list Key) :
  queues h !! self = Some q ->
  _content q = dead ++ c :: rest ->
  Forall (fun d => get_available_actions d h = Ret [] h) dead ->
  get_available_actions c h = Ret (k :: ks) h ->
  aligned q ->
  exists h1 h2,
    peek self h = Ret (Some c) h1 /\
    remove self h1 = Ret c h2 /\
    remove self h = Ret c h2.
Proof.
  intros Hq Ec Hdead Hc Hal.
  destruct (cleaned_first_live h q dead c rest k ks Ec Hdead Hc Hal) as [Hok Ecl].
  set (q1 := mkQueue (c :: rest) (_p1 q) (_p2 q)
                     (option_map (drop (length dead)) (_add_status q))) in *.
  exists (with_queue h self q1). eexists.
  split; [| split].
  - rewrite (peek_eq _ _ _ Hq Hok), Ecl. reflexivity.
  - assert (Hq1 : queues (with_queue h self q1) !! self = Some q1)
      by (eapply with_queue_lookup; eauto).
    assert (Hal1 : aligned q1).
    { unfold aligned, q1 in *. cbn [_add_status _content].
      destruct (_add_status q) as [st|]; [| exact I]. cbn [option_map].
      rewrite length_drop, Hal, Ec, length_app. cbn [length]. lia. }
    rewrite (remove_live_eq self _ q1 [] c rest k ks Hq1 eq_refl
               (Forall_nil_2 _) (actions_with_queue h self q1 c _ Hc) Hal1).
    rewrite with_queue_twice. reflexivity.
  - rewrite (remove_live_eq self h q dead c rest k ks Hq Ec Hdead Hc Hal).
    unfold q1. cbn [_p1 _p2 _add_status length].
    destruct (_add_status q) as [st|]; [| reflexivity].
    cbn [option_map]. rewrite drop_drop.
    replace (length dead + 1)%nat with (S (length dead)) by lia. reflexivity.
Qed.

(** What it takes for the purge to go through. *)
Lemma purge_cases (self : qref) (h : Heap) :
  (exists q, queues h !! self = Some q /\
             snd (drop_dead (acts h) (_content q)) = true) \/
  (exists h', _clean_queue self h = Raise BadReference h' /\
              forall q, queues h !! self = Some q ->
                exists q', h' = with_queue h self q' /\
                           _p1 q' = _p1 q /\ _p2 q' = _p2 q).
Proof.
  destruct (queues h !! self) as [q|] eqn:Hq.
  - destruct (snd (drop_dead (acts h) (_content q))) eqn:Hok.
    + left. now exists q.
    + right. eexists. split.
      * rewrite (_clean_queue_eq _ _ _ Hq), Hok. reflexivity.
      * intros q0 [= <-]. eexists. split; [reflexivity |]. split; reflexivity.
  - right. exists h. split; [now apply _clean_queue_missing | discriminate].
Qed.

Lemma peek_returned (self : qref) (h h1 : Heap) (r : option cref) :
  peek self h = Ret r h1 ->
  exists q,
    queues h !! self = Some q /\
    snd (drop_dead (acts h) (_content q)) = true /\
    r = front_or_p1 (cleaned (acts h) q) /\
    h1 = with_queue h self (cleaned (acts h) q).
Proof.
  intros H. destruct (purge_cases self h) as [(q & Hq & Hok) | (h' & E & _)].
  - exists q. rewrite (peek_eq _ _ _ Hq Hok) in H. injection H as <- <-. auto.
  - unfold peek in H. erewrite bind_Raise in H by exact E. discriminate.
Qed.

Lemma is_empty_returned (self : qref) (h h1 : Heap) (e : bool) :
  is_empty self h = Ret e h1 ->
  exists q,
    queues h !! self = Some q /\
    snd (drop_dead (acts h) (_content q)) = true /\
    e = no_ticket (cleaned (acts h) q) /\
    h1 = with_queue h self (cleaned (acts h) q).
Proof.
  intros H. destruct (purge_cases self h) as [(q & Hq & Hok) | (h' & E & _)].
  - exists q. rewrite (is_empty_eq _ _ _ Hq Hok) in H. injection H as <- <-. auto.
  - unfold is_empty in H. erewrite bind_Raise in H by exact E. discriminate.
Qed.

(** X6: the purge settles: once [peek] or [is_empty] has returned, calling
    either of them again changes nothing more, [peek] repeats its answer and
    so does [is_empty]. *)
Theorem purge_settles (self : qref) (h h1 : Heap) :
  (forall r, peek self h = Ret r h1 ->
             peek self h1 = Ret r h1 /\
             exists e, is_empty self h1 = Ret e h1) /\
  (forall e, is_empty self h = Ret e h1 ->
             is_empty self h1 = Ret e h1 /\
             exists r, peek self h1 = Ret r h1).
Proof.
  assert (Again : forall q,
            queues h !! self = Some q ->
            snd (drop_dead (acts h) (_content q)) = true ->
            peek self (with_queue h self (cleaned (acts h) q)) =
              Ret (front_or_p1 (cleaned (acts h) q))
                  (with_queue h self (cleaned (acts h) q)) /\
            is_empty self (with_queue h self (cleaned (acts h) q)) =
              Ret (no_ticket (cleaned (acts h) q))
                  (with_queue h self (cleaned (acts h) q))).
  { intros q Hq Hok.
    destruct (cleaned_idem (acts h) q Hok) as [Eidem Hok'].
    pose proof (with_queue_lookup h self q (cleaned (acts h) q) Hq) as Hq'.
    split.
    - rewrite (peek_eq _ _ _ Hq' Hok'). cbn [with_queue characters].
      now rewrite Eidem, with_queue_twice.
    - rewrite (is_empty_eq _ _ _ Hq' Hok'). cbn [with_queue characters].
      now rewrite Eidem, with_queue_twice. }
  split.
  - intros r H. destruct (peek_returned _ _ _ _ H) as (q & Hq & Hok & -> & ->).
    destruct (Again q Hq Hok) as [E1 E2]. split; [exact E1 | eauto].
  - intros e H. destruct (is_empty_returned _ _ _ _ H) as (q & Hq & Hok & -> & ->).
    destruct (Again q Hq Hok) as [E1 E2]. split; [exact E2 | eauto].
Qed.

(** The calls a client makes on a queue of either class. *)
Inductive queue_call : Type :=
| Q_add (character : cref)
| Q_remove
| Q_peek
| Q_is_empty
| Q_is_over
| Q_get_winner.

Definition run_queue_call (self : qref) (call : queue_call) : M unit :=
  match call with
  | Q_add character => add self character
  | Q_remove => bind (remove self) (fun _ => ret tt)
  | Q_peek => bind (peek self) (fun _ => ret tt)
  | Q_is_empty => bind (is_empty self) (fun _ => ret tt)
  | Q_is_over => bind (is_over self) (fun _ => ret tt)
  | Q_get_winner => bind (get_winner self) (fun _ => ret tt)
  end.

Lemma heap_of_answer {A : Type} (r : Exn + A) (h : Heap) :
  heap_of (answer r h) = Some h.
Proof. destruct r; reflexivity. Qed.

Lemma heap_of_bind_unit {A : Type} (m : M A) (h : Heap) :
  heap_of (bind m (fun _ => ret tt) h) = heap_of (m h).
Proof. unfold bind. destruct (m h); reflexivity. Qed.

Lemma pop_front_players {A : Type} (q : Queue A) :
  _p1 (snd (pop_front q)) = _p1 q /\ _p2 (snd (pop_front q)) = _p2 q.
Proof.
  unfold pop_front. destruct (_add_status q) as [[|b st]|];
    destruct (_content q); split; reflexivity.
Qed.

Lemma ticket_players {A : Type} (eqb : A -> A -> bool) (q q2 : Queue A) (c : A) :
  ticket_by eqb q c = inr q2 -> _p1 q2 = _p1 q /\ _p2 q2 = _p2 q.
Proof.
  unfold ticket_by. destruct (_add_status q) as [st|].
  - destruct (permission_by eqb (_content q) st c) as [[b|]|];
      intros [= <-]; split; reflexivity.
  - intros [= <-]. split; reflexivity.
Qed.

(** What the purge raises, every method that starts with it raises. *)
Lemma purge_raises (self : qref) (h h' : Heap) (e : Exn) (call : queue_call) :
  _clean_queue self h = Raise e h' ->
  (forall c, call <> Q_add c) ->
  is_Some (queues h !! self) ->
  run_queue_call self call h = Raise e h'.
Proof.
  intros E Hcall [q Hq].
  assert (Eempty : is_empty self h = Raise e h')
    by (unfold is_empty; now erewrite bind_Raise by exact E).
  assert (Eover : is_over self h = Raise e h')
    by (unfold is_over; now erewrite bind_Raise by exact Eempty).
  destruct call as [c| | | | |]; cbn [run_queue_call].
  - now elim (Hcall c).
  - apply bind_Raise. unfold remove.
    erewrite bind_Ret by exact (get_queue_eq _ _ _ Hq). cbn beta.
    destruct (_add_status q).
    + unfold RestrictedBattleQueue_remove. now apply bind_Raise.
    + unfold BattleQueue_remove. now apply bind_Raise.
  - apply bind_Raise. unfold peek. now apply bind_Raise.
  - now apply bind_Raise.
  - now apply bind_Raise.
  - apply bind_Raise. unfold get_winner. now apply bind_Raise.
Qed.

(** X7: the two players a queue records are set by the first [add], to
    the character added and its enemy, and no later call changes them, whether
    it returns or raises. *)
Theorem players_recorded_once (self : qref) (h : Heap) (q : BattleQueue) :
  queues h !! self = Some q ->
  (forall character x h',
     _p1 q = None -> characters h !! character = Some x ->
     heap_of (add self character h) = Some h' ->
     exists q', queues h' !! self = Some q' /\
                _p1 q' = Some character /\ _p2 q' = enemy x) /\
  (forall call p1 h',
     _p1 q = Some p1 ->
     heap_of (run_queue_call self call h) = Some h' ->
     exists q', queues h' !! self = Some q' /\
                _p1 q' = Some p1 /\ _p2 q' = _p2 q).
Proof.
  intros Hq.
  assert (Added : forall character q1 h',
            enrol (characters h) q character = Some q1 ->
            heap_of (add self character h) = Some h' ->
            exists q', queues h' !! self = Some q' /\
                       _p1 q' = _p1 q1 /\ _p2 q' = _p2 q1).
  { intros character q1 h' He Hh.
    rewrite (add_eq _ _ _ _ _ Hq He) in Hh.
    destruct (ticket_by same q1 character) as [e|q2] eqn:Et;
      injection Hh as <-.
    - exists q1. split; [eapply with_queue_lookup; eauto | auto].
    - exists q2. split; [eapply with_queue_lookup; eauto |].
      exact (ticket_players same q1 q2 character Et). }
  split.
  - intros character x h' Hnone Hx Hh.
    apply (Added character
             (mkQueue (_content q) (Some character) (enemy x) (_add_status q)));
      [| exact Hh].
    unfold enrol. now rewrite Hnone, Hx.
  - intros call p1 h' Hp1 Hh.
    assert (Kept : forall y, _p1 y = _p1 q -> _p2 y = _p2 q ->
              h' = with_queue h self y ->
              exists q', queues h' !! self = Some q' /\
                         _p1 q' = Some p1 /\ _p2 q' = _p2 q).
    { intros y E1 E2 ->. exists y.
      split; [eapply with_queue_lookup; eauto |]. split; congruence. }
    destruct call as [c| | | | |].
    + cbn [run_queue_call] in Hh.
      destruct (Added c q h') as (q' & Hq' & E1 & E2); [| exact Hh |].
      * unfold enrol. now rewrite Hp1.
      * exists q'. split; [exact Hq' |]. split; congruence.
    + destruct (purge_cases self h) as [(q0 & Hq0 & Hok) | (h0 & E & Hpl)].
      * assert (Some q0 = Some q) as [= ->]
          by (etransitivity; [symmetry; exact Hq0 | exact Hq]).
        cbn [run_queue_call] in Hh.
        rewrite heap_of_bind_unit, (remove_eq _ _ _ Hq Hok), heap_of_answer in Hh.
        injection Hh as <-.
        destruct (pop_front_players (cleaned (acts h) q)) as [E1 E2].
        eapply Kept; [exact E1 | exact E2 | reflexivity].
      * rewrite (purge_raises self h h0 _ Q_remove E) in Hh;
          [| discriminate | eauto].
        injection Hh as <-. destruct (Hpl q Hq) as (y & -> & E1 & E2).
        eapply Kept; eauto.
    + destruct (purge_cases self h) as [(q0 & Hq0 & Hok) | (h0 & E & Hpl)].
      * assert (Some q0 = Some q) as [= ->]
          by (etransitivity; [symmetry; exact Hq0 | exact Hq]).
        cbn [run_queue_call] in Hh.
        rewrite heap_of_bind_unit, (peek_eq _ _ _ Hq Hok) in Hh.
        injection Hh as <-. apply (Kept (cleaned (acts h) q)); reflexivity.
      * rewrite (purge_raises self h h0 _ Q_peek E) in Hh;
          [| discriminate | eauto].
        injection Hh as <-. destruct (Hpl q Hq) as (y & -> & E1 & E2).
        eapply Kept; eauto.
    + destruct (purge_cases self h) as [(q0 & Hq0 & Hok) | (h0 & E & Hpl)].
      * assert (Some q0 = Some q) as [= ->]
          by (etransitivity; [symmetry; exact Hq0 | exact Hq]).
        cbn [run_queue_call] in Hh.
        rewrite heap_of_bind_unit, (is_empty_eq _ _ _ Hq Hok) in Hh.
        injection Hh as <-. apply (Kept (cleaned (acts h) q)); reflexivity.
      * rewrite (purge_raises self h h0 _ Q_is_empty E) in Hh;
          [| discriminate | eauto].
        injection Hh as <-. destruct (Hpl q Hq) as (y & -> & E1 & E2).
        eapply Kept; eauto.
    + destruct (purge_cases self h) as [(q0 & Hq0 & Hok) | (h0 & E & Hpl)].
      * assert (Some q0 = Some q) as [= ->]
          by (etransitivity; [symmetry; exact Hq0 | exact Hq]).
        cbn [run_queue_call] in Hh.
        rewrite heap_of_bind_unit, (is_over_eq _ _ _ Hq Hok), heap_of_answer in Hh.
        injection Hh as <-. apply (Kept (cleaned (acts h) q)); reflexivity.
      * rewrite (purge_raises self h h0 _ Q_is_over E) in Hh;
          [| discriminate | eauto].
        injection Hh as <-. destruct (Hpl q Hq) as (y & -> & E1 & E2).
        eapply Kept; eauto.
    + destruct (purge_cases self h) as [(q0 & Hq0 & Hok) | (h0 & E & Hpl)].
      * assert (Some q0 = Some q) as [= ->]
          by (etransitivity; [symmetry; exact Hq0 | exact Hq]).
        cbn [run_queue_call] in Hh.
        rewrite heap_of_bind_unit, (get_winner_eq _ _ _ Hq Hok), heap_of_answer in Hh.
        injection Hh as <-. apply (Kept (cleaned (acts h) q)); reflexivity.
      * rewrite (purge_raises self h h0 _ Q_get_winner E) in Hh;
          [| discriminate | eauto].
        injection Hh as <-. destruct (Hpl q Hq) as (y & -> & E1 & E2).
        eapply Kept; eauto.
Qed.

(** *** Restricted queues: permission bits *)

(** X8: on every restricted queue a program can build there is exactly one
    permission bit per ticket, so [get_add_ability_count] never raises: it
    returns a count no larger than the number of tickets of the character
    and leaves the store as it was. *)
Theorem restricted_bits_per_ticket (h : Heap) (self : qref) :
  reachable h self ->
  exists (q : BattleQueue) (st : list bool),
    queues h !! self = Some q /\
    _add_status q = Some st /\
    length st = length (_content q) /\
    forall character : cref,
      exists n : nat,
        get_add_ability_count self character h = Ret n h /\
        (n <= exist_count (_content q) character)%nat.
Proof.
  intros Hreach.
  destruct (reachable_within_cap _ _ Hreach) as (q & Hq & [Hal Hcap] & Hr).
  unfold aligned in Hal.
  destruct (_add_status q) as [st|] eqn:Est; [| congruence].
  exists q, st. split; [exact Hq |]. split; [exact Est |].
  split; [exact Hal |]. intros character.
  destruct (count_some same (_content q) st character Hal) as (n & Hn & Hle).
  exists n. split; [| exact Hle].
  unfold get_add_ability_count.
  erewrite bind_Ret by (apply get_queue_eq; eauto). cbn beta.
  rewrite Est. simpl. unfold bind, ret, add_ability_count. now rewrite Hn.
Qed.

Lemma exist_count_in (l : list cref) (c : cref) :
  In c l -> exist_count l c <> O.
Proof.
  unfold exist_count. induction l as [|x l IH]; intros Hin; [destruct Hin |].
  simpl. destruct (same x c) eqn:E; [discriminate |].
  destruct Hin as [-> | Hin]; [| now apply IH].
  unfold same in E. now rewrite Nat.eqb_refl in E.
Qed.

(** X9: [RestrictedBattleQueue.add] drops the request, without an error and
    without any change of the store, when the character already holds a ticket
    and the ticket at the front may not add. *)
Theorem restricted_add_dropped (self : qref) (h : Heap) (q : BattleQueue)
    (p : cref) (front : cref) (rest : list cref) (st : list bool)
    (character : cref) :
  queues h !! self = Some q ->
  _p1 q = Some p ->
  _content q = front :: rest ->
  _add_status q = Some (false :: st) ->
  In character (front :: rest) ->
  add self character h = Ret tt h.
Proof.
  intros Hq Hp Hc Hs Hin.
  assert (He : enrol (characters h) q character = Some q)
    by (unfold enrol; now rewrite Hp).
  rewrite (add_eq _ _ _ _ _ Hq He).
  unfold ticket_by, permission_by. rewrite Hs, Hc.
  fold (exist_count (front :: rest) character).
  destruct (Nat.eqb (exist_count (front :: rest) character) 0) eqn:E.
  - apply Nat.eqb_eq in E. now apply exist_count_in in E.
  - now rewrite (with_queue_same _ _ _ Hq).
Qed.


(** *** Copies *)

Lemma fold_vadd_front (l : list bool) :
  forall v, v_valid v -> front_may_add v -> front_may_add (fold_left vadd l v).
Proof.
  induction l as [|t l IH]; intros v Hv Hf; [exact Hf |].
  simpl. destruct (vadd_appends v t Hv Hf) as (_ & Hf' & _).
  apply IH; [now apply vadd_valid | exact Hf'].
Qed.

Lemma vcopy_front (v : VState) : front_may_add (vcopy v).
Proof.
  unfold vcopy. apply fold_vadd_front.
  - unfold v_valid, aligned, v_blank, vq; simpl.
    destruct (v_status v); reflexivity.
  - unfold front_may_add, v_blank; simpl. destruct (v_status v); auto.
Qed.

(** X10: [copy] of a queue that holds a game answers a new queue with two new
    players, bound to it and enemies of each other, that have the stats of
    the old ones; the new queue is of the same class and holds the same
    tickets in the same order, each for the player of the same side. *)
Theorem copy_same_game (h : Heap) (q : qref) (a b : cref) (v : VState) :
  rep h q a b v ->
  exists w : VState,
    copy q h = Ret (length (queues h)) (grown h w) /\
    rep (grown h w) (length (queues h)) (length (characters h))
        (S (length (characters h))) w /\
    rep (grown h w) q a b v /\
    v_s1 w = v_s1 v /\ v_s2 w = v_s2 v /\ v_tags w = v_tags v /\
    is_None (v_status w) = is_None (v_status v).
Proof.
  intros H. exists (vcopy v).
  split; [exact (copy_of_rep h q a b v H) |].
  split; [apply rep_grown |].
  split; [exact (rep_grown_old h q a b v (vcopy v) H) |].
  exact (vcopy_like v).
Qed.

(** X11: the permission bits are not copied: [copy] of a restricted queue
    replays its tickets through [add], and the queue it answers is restricted,
    with one bit per ticket, and its front ticket may add, whatever the bit
    of the front ticket of the source was; the copy of a plain queue is
    plain. *)
Theorem copy_front_may_add (h h' : Heap) (q new_bq : qref) (a b : cref)
    (v : VState) (q0 q' : BattleQueue) :
  rep h q a b v ->
  queues h !! q = Some q0 ->
  copy q h = Ret new_bq h' ->
  queues h' !! new_bq = Some q' ->
  match _add_status q0 with
  | None => _add_status q' = None
  | Some _ =>
      exists st,
        _add_status q' = Some st /\
        length st = length (_content q') /\
        (st = [] \/ exists st', st = true :: st')
  end.
Proof.
  intros H Hq0 Hc Hq'.
  pose proof H as (_ & _ & _ & Hsrc).
  assert (Some q0 = Some (qrec a b v)) as [= ->]
    by (etransitivity; [symmetry; exact Hq0 | exact Hsrc]).
  rewrite (copy_of_rep h q a b v H) in Hc. injection Hc as <- <-.
  destruct (rep_grown h (vcopy v)) as (_ & _ & _ & Hq).
  assert (Some q' = Some (qrec (length (characters h))
                               (S (length (characters h))) (vcopy v))) as [= ->]
    by (etransitivity; [symmetry; exact Hq' | exact Hq]).
  pose proof (vcopy_valid v) as Hv. pose proof (vcopy_front v) as Hf.
  destruct (vcopy_like v) as (_ & _ & _ & Hn).
  unfold v_valid, aligned, vq in Hv. unfold front_may_add in Hf.
  unfold qrec, map_queue, vq. simpl in *.
  destruct (v_status v) as [st0|]; destruct (v_status (vcopy v)) as [st|] eqn:Es;
    try discriminate Hn; [| reflexivity].
  exists st. split; [reflexivity |].
  rewrite length_map. split; [exact Hv |].
  destruct Hf as [Hnil | Hf]; [| right; exact Hf].
  left. rewrite Hnil in Hv. now destruct st.
Qed.

(** *** The playstyles *)

(** [RandomPlaystyle.select_attack].  [random.choice(actions)] is
    [actions[randbelow(len(actions))]]; the draw [randbelow] is an argument. *)
Definition RandomPlaystyle_select_attack (randbelow : nat -> nat)
    (battle_queue : qref) : M Key :=
  let! front := peek battle_queue in
  let! front_c := deref front in
  let! actions := get_available_actions front_c in
  match actions with
  | [] => ret Key_X
  | _ :: _ =>
      match actions !! randbelow (length actions) with
      | Some action => ret action
      | None => raise IndexError
      end
  end.

(** X12: with a draw that is in range, the random playstyle answers one of the
    moves of the first ticket holder that can act, and purges the tickets
    before it. *)
Theorem random_select_attack_member (randbelow : nat -> nat) (self : qref)
    (h : Heap) (q : BattleQueue) (dead : list cref) (c : cref)
    (rest : list cref) (k : Key) (ks : list Key) :
  (forall n : nat, (0 < n)%nat -> (randbelow n < n)%nat) ->
  queues h !! self = Some q ->
  _content q = dead ++ c :: rest ->
  Forall (fun d => get_available_actions d h = Ret [] h) dead ->
  get_available_actions c h = Ret (k :: ks) h ->
  aligned q ->
  exists action : Key,
    RandomPlaystyle_select_attack randbelow self h =
      Ret action
          (with_queue h self
             (mkQueue (c :: rest) (_p1 q) (_p2 q)
                      (option_map (drop (length dead)) (_add_status q)))) /\
    In action (k :: ks).
Proof.
  intros Hdraw Hq Ec Hdead Hc Hal.
  destruct (cleaned_first_live h q dead c rest k ks Ec Hdead Hc Hal) as [Hok Ecl].
  unfold RandomPlaystyle_select_attack.
  erewrite bind_Ret
    by (rewrite (peek_eq _ _ _ Hq Hok), Ecl; reflexivity).
  cbn beta. unfold front_or_p1. cbn [_content deref]. rewrite bind_ret.
  erewrite bind_Ret by (apply actions_with_queue; exact Hc).
  cbn beta iota.
  assert (Hlt : (randbelow (length (k :: ks)) < length (k :: ks))%nat)
    by (apply Hdraw; simpl; lia).
  destruct (lookup_lt_is_Some_2 (k :: ks) _ Hlt) as [action Ha].
  rewrite Ha. exists action. split; [reflexivity |].
  apply list_elem_of_In. eapply list_elem_of_lookup_2; exact Ha.
Qed.

(** X13: when no ticket is left whose holder can act, every playstyle looks at
    the first player ever added instead: [select_attack] raises
    [AttributeError] when there never was one, and answers ['X'] when that
    player has no move. *)
Theorem select_attack_no_ticket (randbelow : nat -> nat) (fuel : nat)
    (self : qref) (h : Heap) (q : BattleQueue) :
  queues h !! self = Some q ->
  Forall (fun d => get_available_actions d h = Ret [] h) (_content q) ->
  let h1 := with_queue h self
              (mkQueue [] (_p1 q) (_p2 q)
                       (option_map (fun _ => []) (_add_status q))) in
  (_p1 q = None ->
     RandomPlaystyle_select_attack randbelow self h = Raise AttributeError h1 /\
     MinimaxRecursivePlaystyle_select_attack fuel self h =
       Raise AttributeError h1 /\
     MinimaxIterativePlaystyle_select_attack fuel self h =
       Raise AttributeError h1) /\
  (forall p : cref,
     _p1 q = Some p -> get_available_actions p h = Ret [] h ->
     RandomPlaystyle_select_attack randbelow self h = Ret Key_X h1 /\
     MinimaxRecursivePlaystyle_select_attack fuel self h = Ret Key_X h1 /\
     MinimaxIterativePlaystyle_select_attack fuel self h = Ret Key_X h1).
Proof.
  intros Hq Hdead h1.
  pose proof (drop_dead_all (acts h) _ (no_move_read h _ Hdead)) as Ed.
  assert (Hok : snd (drop_dead (acts h) (_content q)) = true) by now rewrite Ed.
  assert (Ecl : cleaned (acts h) q =
                mkQueue [] (_p1 q) (_p2 q)
                        (option_map (fun _ => []) (_add_status q))).
  { unfold cleaned. rewrite Ed. cbn [fst]. unfold realign.
    destruct (_add_status q); reflexivity. }
  assert (Hpeek : peek self h = Ret (_p1 q) h1).
  { rewrite (peek_eq _ _ _ Hq Hok), Ecl. reflexivity. }
  split.
  - intros Hp. rewrite Hp in Hpeek.
    unfold RandomPlaystyle_select_attack,
      MinimaxRecursivePlaystyle_select_attack,
      MinimaxIterativePlaystyle_select_attack.
    rewrite !(bind_Ret _ _ _ _ _ Hpeek). repeat split.
  - intros p Hp Hnone. rewrite Hp in Hpeek.
    pose proof (actions_with_queue h self
                  (mkQueue [] (_p1 q) (_p2 q)
                           (option_map (fun _ => []) (_add_status q)))
                  p [] Hnone) as Hnone1.
    fold h1 in Hnone1.
    unfold RandomPlaystyle_select_attack,
      MinimaxRecursivePlaystyle_select_attack,
      MinimaxIterativePlaystyle_select_attack.
    rewrite !(bind_Ret _ _ _ _ _ Hpeek). cbn beta. cbn [deref].
    rewrite !bind_ret, !(bind_Ret _ _ _ _ _ Hnone1). repeat split.
Qed.

(** X14: [get_state_score_player] takes the greatest score at every level,
    also when the player at the front is the opponent: the score of a game
    that is on is at least the score, for the same player, of the game after
    each move of the player at the front, and one of these moves attains
    it. *)
Theorem score_player_takes_max (fuel : nat) (p : bool) (h h' : Heap) (q : qref)
    (a b : cref) (v : VState) (s : Z) :
  rep h q a b v -> v_over v = false ->
  get_state_score_player fuel (Some (ref_of a b p)) q h = Ret s h' ->
  (forall action : Key, In action (v_actions v) ->
     forall (h2 : Heap) (q2 : qref) (a2 b2 : cref),
       rep h2 q2 a2 b2 (v_child action v) ->
       exists (sc : Z) (h2' : Heap),
         get_state_score_player fuel (Some (ref_of a2 b2 p)) q2 h2 = Ret sc h2' /\
         sc <= s) /\
  (exists action : Key, In action (v_actions v) /\
     forall (h2 : Heap) (q2 : qref) (a2 b2 : cref),
       rep h2 q2 a2 b2 (v_child action v) ->
       exists h2' : Heap,
         get_state_score_player fuel (Some (ref_of a2 b2 p)) q2 h2 = Ret s h2').
Proof.
  intros H Hover Hrun.
  assert (Es : v_score fuel p v = Some s).
  { pose proof (gssp_rep fuel p h q a b v H) as G.
    destruct (v_score fuel p v) as [s0|].
    - destruct G as (h0 & E & _).
      assert (Ret s0 h0 = Ret s h') as [= -> _]
        by (etransitivity; [symmetry; exact E | exact Hrun]).
      reflexivity.
    - assert (OutOfFuel = Ret s h') as Habs
        by (etransitivity; [symmetry; exact G | exact Hrun]).
      discriminate Habs. }
  destruct (v_score_moves fuel p v s Hover Es) as [Hall (action & Hin & Ea)].
  split.
  - intros act Hact h2 q2 a2 b2 H2.
    destruct (Hall act Hact) as (sc & Esc & Hle).
    pose proof (gssp_rep fuel p h2 q2 a2 b2 _ H2) as G. rewrite Esc in G.
    destruct G as (h2' & E & _). now exists sc, h2'.
  - exists action. split; [exact Hin |]. intros h2 q2 a2 b2 H2.
    pose proof (gssp_rep fuel p h2 q2 a2 b2 _ H2) as G. rewrite Ea in G.
    destruct G as (h2' & E & _). now exists h2'.
Qed.

(** X15: on a node whose game is purged and still on, [get_children_nodes]
    answers one new node for each move of the player at the front, in the
    order of the moves.  Each node waits (no score, no children), is labelled
    with its move, holds a new queue with the game after that move, and its
    [current_player] is the player of the side of the parent's
    [current_player]; nothing that existed before is changed. *)
Theorem get_children_nodes_one_per_move (h : Heap) (n : nref)
    (nd : GameStateNode) (a b : cref) (v : VState) (p : bool) :
  nodes h !! n = Some nd ->
  current_player nd = Some (ref_of a b p) ->
  rep h (node_battle_queue nd) a b v -> vclean v = v -> v_over v = false ->
  exists (kids : list nref) (h' : Heap),
    get_children_nodes n h = Ret kids h' /\
    length kids = length (v_actions v) /\
    List.NoDup kids /\
    frame nothing nothing nothing h h' /\
    forall (i : nat) (kid : nref) (action : Key),
      kids !! i = Some kid -> v_actions v !! i = Some action ->
      (length (nodes h) <= kid)%nat /\
      exists (q' : qref) (a' b' : cref),
        (length (queues h) <= q')%nat /\
        nodes h' !! kid =
          Some (mkNode q' (Some (ref_of a' b' p)) (label action) None None) /\
        rep h' q' a' b' (v_child action v).
Proof.
  intros Hn Hp H Hclean Hover.
  destruct (get_children_nodes_rep h n nd _ a b v p Hn eq_refl Hp H Hclean Hover)
    as (ts & h' & Hrun & Hact & Hst & Hpend & Hfresh & Hnd & _ & F).
  exists (map t_node ts), h'. split; [exact Hrun |].
  split.
  { rewrite length_map.
    transitivity (length (map t_act ts)); [now rewrite length_map |].
    now rewrite Hact, length_map. }
  split; [exact Hnd |]. split; [exact F |].
  intros i kid action Hk Ha.
  rewrite list_lookup_fmap in Hk.
  destruct (ts !! i) as [t|] eqn:Et; [| discriminate Hk].
  injection Hk as <-.
  assert (Ea : t_act t = label action).
  { assert (E : map t_act ts !! i = Some (t_act t))
      by (rewrite list_lookup_fmap, Et; reflexivity).
    rewrite Hact, list_lookup_fmap, Ha in E. now injection E as <-. }
  assert (Es : t_state t = v_child action v).
  { assert (E : map t_state ts !! i = Some (t_state t))
      by (rewrite list_lookup_fmap, Et; reflexivity).
    rewrite Hst, list_lookup_fmap, Ha in E. now injection E as <-. }
  assert (Hin : In t ts)
    by (apply list_elem_of_In; eapply list_elem_of_lookup_2; exact Et).
  destruct (proj1 (List.Forall_forall _ _) Hpend t Hin) as [Pn Pr].
  destruct (proj1 (List.Forall_forall _ _) Hfresh t Hin) as [Fn Fq].
  split; [exact Fn |].
  exists (t_queue t), (t_a t), (t_b t). split; [exact Fq |].
  split.
  - rewrite Pn. unfold waiting. now rewrite Ea.
  - now rewrite <- Es.
Qed.

(** *** Adding *)

Lemma exist_count_notin (l : list cref) (c : cref) :
  ~ In c l -> exist_count l c = O.
Proof.
  unfold exist_count. induction l as [|x l IH]; intros Hn; [reflexivity |].
  simpl. destruct (same x c) eqn:E.
  - apply same_eq in E. elim Hn. now left.
  - apply IH. intros Hin. apply Hn. now right.
Qed.

(** X16: a character that holds no ticket can always join a restricted queue:
    its ticket goes to the back and may add, whoever is at the front. *)
Theorem restricted_add_newcomer (self : qref) (h : Heap) (q : BattleQueue)
    (p : cref) (st : list bool) (character : cref) :
  queues h !! self = Some q ->
  _p1 q = Some p ->
  _add_status q = Some st ->
  ~ In character (_content q) ->
  add self character h =
    Ret tt (with_queue h self
              (mkQueue (_content q ++ [character]) (_p1 q) (_p2 q)
                       (Some (st ++ [true])))).
Proof.
  intros Hq Hp Hs Hnew.
  assert (He : enrol (characters h) q character = Some q)
    by (unfold enrol; now rewrite Hp).
  rewrite (add_eq _ _ _ _ _ Hq He).
  unfold ticket_by, permission_by. rewrite Hs.
  fold (exist_count (_content q) character).
  now rewrite (exist_count_notin _ _ Hnew).
Qed.

(** X21: on a restricted queue with one permission bit per ticket whose front
    ticket may add, [add] of a character that already holds a ticket always
    appends one more: for the holder of the front ticket it may add in turn
    exactly when [get_add_ability_count] finds fewer than two tickets of that
    holder that may add, and for any other character it may not add. *)
Theorem restricted_add_by_front (self : qref) (h : Heap) (q : BattleQueue)
    (p : cref) (front : cref) (rest : list cref) (st : list bool)
    (character : cref) :
  queues h !! self = Some q ->
  _p1 q = Some p ->
  _content q = front :: rest ->
  _add_status q = Some (true :: st) ->
  length st = length rest ->
  In character (front :: rest) ->
  exists n : nat,
    get_add_ability_count self front h = Ret n h /\
    add self character h =
      Ret tt (with_queue h self
                (mkQueue (_content q ++ [character]) (_p1 q) (_p2 q)
                         (Some ((true :: st) ++
                                [if same front character
                                 then negb (2 <=? n)%nat else false])))).
Proof.
  intros Hq Hp Hc Hs Hlen Hin.
  assert (Hal : length (true :: st) = length (front :: rest))
    by (cbn [length]; now rewrite Hlen).
  destruct (count_some same (front :: rest) (true :: st) front Hal)
    as (n & Hn & _).
  exists n. split.
  - unfold get_add_ability_count.
    erewrite bind_Ret by (apply get_queue_eq; exact Hq). cbn beta.
    rewrite Hs, Hc. cbn [deref]. rewrite bind_ret.
    unfold add_ability_count. now rewrite Hn.
  - assert (He : enrol (characters h) q character = Some q)
      by (unfold enrol; now rewrite Hp).
    rewrite (add_eq _ _ _ _ _ Hq He).
    unfold ticket_by, permission_by. rewrite Hs, Hc.
    fold (exist_count (front :: rest) character).
    destruct (Nat.eqb (exist_count (front :: rest) character) 0) eqn:E.
    + apply Nat.eqb_eq in E. now apply exist_count_in in E.
    + destruct (same front character); [rewrite Hn |]; reflexivity.
Qed.

(** X17: on a restricted queue a program can build, [add] of a character of
    the store never raises, and the queue it leaves is again one a program
    can build. *)
Theorem restricted_add_never_raises (h : Heap) (self : qref)
    (character : cref) (x : Character) :
  reachable h self ->
  characters h !! character = Some x ->
  exists h' : Heap,
    add self character h = Ret tt h' /\ reachable h' self.
Proof.
  intros Hreach Hx.
  destruct (reachable_within_cap _ _ Hreach) as (q & Hq & Hin & _).
  assert (He : exists q1, enrol (characters h) q character = Some q1).
  { unfold enrol. destruct (_p1 q); [eauto |]. rewrite Hx. eauto. }
  destruct He as [q1 He].
  pose proof (enrol_within_cap _ _ _ _ He Hin) as [Hal1 _].
  destruct (ticket_aligned same q1 character Hal1) as (q2 & Ht & _).
  assert (E : add self character h = Ret tt (with_queue h self q2))
    by (rewrite (add_eq _ _ _ _ _ Hq He), Ht; reflexivity).
  exists (with_queue h self q2). split; [exact E |].
  apply (reach_call h _ self (Call_add character) Hreach).
  - cbn [run_call]. now rewrite E.
  - intros h'' Hbad. cbn [run_call] in Hbad. rewrite E in Hbad.
    discriminate Hbad.
Qed.

(** X18: a plain queue is first in, first out: when the holder of the front
    ticket can act, [add] followed by [remove] hands out that holder and
    leaves the new ticket at the back; on a queue without tickets it hands
    the new ticket straight back, if its holder can act. *)
Theorem add_then_remove_fifo (self : qref) (h : Heap) (q : BattleQueue)
    (p : cref) (character : cref) :
  queues h !! self = Some q ->
  _add_status q = None ->
  _p1 q = Some p ->
  (forall (front : cref) (rest : list cref) (k : Key) (ks : list Key),
     _content q = front :: rest ->
     get_available_actions front h = Ret (k :: ks) h ->
     bind (add self character) (fun _ => remove self) h =
       Ret front (with_queue h self
                    (mkQueue (rest ++ [character]) (_p1 q) (_p2 q) None))) /\
  (forall (k : Key) (ks : list Key),
     _content q = [] ->
     get_available_actions character h = Ret (k :: ks) h ->
     bind (add self character) (fun _ => remove self) h =
       Ret character (with_queue h self (mkQueue [] (_p1 q) (_p2 q) None))).
Proof.
  intros Hq Hplain Hp.
  assert (He : enrol (characters h) q character = Some q)
    by (unfold enrol; now rewrite Hp).
  set (q1 := mkQueue (_content q ++ [character]) (_p1 q) (_p2 q) None).
  assert (Hadd : add self character h = Ret tt (with_queue h self q1)).
  { rewrite (add_eq _ _ _ _ _ Hq He). unfold ticket_by. now rewrite Hplain. }
  assert (Hq1 : queues (with_queue h self q1) !! self = Some q1)
    by (eapply with_queue_lookup; exact Hq).
  split.
  - intros front rest k ks Ec Hfront.
    erewrite bind_Ret by exact Hadd. cbn beta.
    rewrite (remove_live_eq self _ q1 [] front (rest ++ [character]) k ks Hq1);
      [| unfold q1; cbn [_content]; now rewrite Ec | apply Forall_nil_2
       | now apply actions_with_queue | exact I].
    rewrite with_queue_twice. reflexivity.
  - intros k ks Ec Hnew.
    erewrite bind_Ret by exact Hadd. cbn beta.
    rewrite (remove_live_eq self _ q1 [] character [] k ks Hq1);
      [| unfold q1; cbn [_content]; now rewrite Ec | apply Forall_nil_2
       | now apply actions_with_queue | exact I].
    rewrite with_queue_twice. reflexivity.
Qed.


(** ** Part XIX: the skills ([a2_skills.py]) *)

Section Skills.

(** Modelled from the spec: [Character.reduce_sp], [Character.apply_damage]
    and [Character.set_hp] change the attributes of the character they are
    called on and nothing else; what they do to the attributes is left
    open. *)
Variable reduce_sp_of : Z -> Stats -> Stats.
Variable apply_damage_of : Z -> Stats -> Stats.
Variable set_hp_of : Z -> Stats -> Stats.

Definition Character_reduce_sp (c : cref) (cost : Z) : M unit :=
  let! x := get_character c in
  set_stats c (reduce_sp_of cost (stats x)).

Definition Character_apply_damage (c : cref) (damage : Z) : M unit :=
  let! x := get_character c in
  set_stats c (apply_damage_of damage (stats x)).

Definition Character_set_hp (c : cref) (new_hp : Z) : M unit :=
  let! x := get_character c in
  set_stats c (set_hp_of new_hp (stats x)).

(** The arguments each class hands to [Skill.__init__]. *)
Definition _cost (self : SkillClass) : Z :=
  match self with
  | MageAttack => 5
  | MageSpecial => 30
  | RogueAttack => 3
  | RogueSpecial => 10
  | VampireAttack => 15
  | VampireSpecial => 20
  | SorcererSpecial => 20
  end.

Definition _damage (self : SkillClass) : Z :=
  match self with
  | MageAttack => 20
  | MageSpecial => 40
  | RogueAttack => 15
  | RogueSpecial => 20
  | VampireAttack => 20
  | VampireSpecial => 30
  | SorcererSpecial => 25
  end.

(** [Skill.get_sp_cost]. *)
Definition get_sp_cost (self : SkillClass) : Z := _cost self.

(** [Skill._deal_damage]. *)
Definition _deal_damage (self : SkillClass) (caster target : cref) : M unit :=
  let! _ := Character_reduce_sp caster (_cost self) in
  Character_apply_damage target (_damage self).

(** [caster.battle_queue.add(character)]. *)
Definition enqueue (caster character : cref) : M unit :=
  let! x := get_character caster in
  add (battle_queue x) character.

(** [NormalAttack.use]. *)
Definition NormalAttack_use (self : SkillClass) (caster target : cref) : M unit :=
  let! _ := _deal_damage self caster target in
  enqueue caster caster.

(** [MageSpecial.use]. *)
Definition MageSpecial_use (self : SkillClass) (caster target : cref) : M unit :=
  let! _ := _deal_damage self caster target in
  let! _ := enqueue caster target in
  enqueue caster caster.

(** [RogueSpecial.use]. *)
Definition RogueSpecial_use (self : SkillClass) (caster target : cref) : M unit :=
  let! _ := _deal_damage self caster target in
  let! _ := enqueue caster caster in
  enqueue caster caster.

(** [VampireAttack.use]. *)
Definition VampireAttack_use (self : SkillClass) (caster target : cref) : M unit :=
  let! target_hp := get_hp target in
  let! _ := _deal_damage self caster target in
  let! target_new_hp := get_hp target in
  let! caster_hp := get_hp caster in
  let! _ := Character_set_hp caster (caster_hp + target_hp - target_new_hp) in
  enqueue caster caster.

(** [VampireSpecial.use]. *)
Definition VampireSpecial_use (self : SkillClass) (caster target : cref) : M unit :=
  let! target_hp := get_hp target in
  let! _ := _deal_damage self caster target in
  let! target_new_hp := get_hp target in
  let! caster_hp := get_hp caster in
  let! _ := Character_set_hp caster (caster_hp + target_hp - target_new_hp) in
  let! _ := enqueue caster caster in
  let! _ := enqueue caster caster in
  enqueue caster target.

(** The first loop of [SorcererSpecial.use]: empty the queue, keeping each
    character once, in the order of first appearance. *)
Fixpoint drain (fuel : nat) (caster : cref) (temp_list : list cref) :
    M (list cref) :=
  match fuel with
  | O => out_of_fuel
  | S fuel' =>
      let! x := get_character caster in
      let! empty := is_empty (battle_queue x) in
      if empty : bool then ret temp_list
      else
        let! x' := get_character caster in
        let! c := remove (battle_queue x') in
        drain fuel' caster
              (if existsb (same c) temp_list then temp_list
               else temp_list ++ [c])
  end.

(** [SorcererSpecial.use]; its second loop pops [temp_list] from the front
    until it is empty. *)
Definition SorcererSpecial_use (fuel : nat) (self : SkillClass)
    (caster target : cref) : M unit :=
  let! temp_list := drain fuel caster [] in
  let! _ := for_do temp_list (enqueue caster) in
  let! _ := enqueue caster caster in
  _deal_damage self caster target.

(** Method lookup on the class of the skill. *)
Definition use (fuel : nat) (self : SkillClass) (caster target : cref) : M unit :=
  match self with
  | MageAttack | RogueAttack => NormalAttack_use self caster target
  | MageSpecial => MageSpecial_use self caster target
  | RogueSpecial => RogueSpecial_use self caster target
  | VampireAttack => VampireAttack_use self caster target
  | VampireSpecial => VampireSpecial_use self caster target
  | SorcererSpecial => SorcererSpecial_use fuel self caster target
  end.

(** *** What a skill does on a plain queue *)

(** A character with new attributes. *)
Definition restat (x : Character) (s : Stats) : Character :=
  mkCharacter s (enemy x) (battle_queue x).

(** The tickets a skill adds, in order. *)
Definition tickets_of (self : SkillClass) (caster target : cref) : list cref :=
  match self with
  | MageAttack | RogueAttack | VampireAttack => [caster]
  | MageSpecial => [target; caster]
  | RogueSpecial => [caster; caster]
  | VampireSpecial => [caster; caster; target]
  | SorcererSpecial => [caster]
  end.

(** The attributes of the caster after the skill: the cost is paid, and a
    Vampire gains the hit points the target lost. *)
Definition caster_after (self : SkillClass) (sc st : Stats) : Stats :=
  let paid := reduce_sp_of (_cost self) sc in
  match self with
  | VampireAttack | VampireSpecial =>
      set_hp_of (get_hp_of paid + get_hp_of st
                 - get_hp_of (apply_damage_of (_damage self) st)) paid
  | _ => paid
  end.

(** The characters whose tickets survive a purge, by the moves they have. *)
Definition can_act (h : Heap) (c : cref) : bool :=
  match acts h c with
  | Some (_ :: _) => true
  | _ => false
  end.

(** [temp_list] after the tickets [l] went through the first loop. *)
Definition first_seen (l : list cref) (temp_list : list cref) : list cref :=
  fold_left (fun acc c => if existsb (same c) acc then acc else acc ++ [c])
            l temp_list.

Lemma deal_damage_eq (self : SkillClass) (caster target : cref) (h : Heap)
    (x y : Character) :
  characters h !! caster = Some x -> characters h !! target = Some y ->
  caster <> target ->
  _deal_damage self caster target h =
    Ret tt (mkHeap (<[target := restat y (apply_damage_of (_damage self) (stats y))]>
                      (<[caster := restat x (reduce_sp_of (_cost self) (stats x))]>
                         (characters h)))
                   (queues h) (nodes h)).
Proof.
  intros Hx Hy Hne. unfold _deal_damage, Character_reduce_sp,
    Character_apply_damage.
  erewrite bind_Ret.
  2:{ erewrite bind_Ret by (apply get_character_eq; exact Hx).
      apply set_stats_eq. exact Hx. }
  cbn beta.
  assert (Hy' : characters
                  (mkHeap (<[caster := mkCharacter
                                         (reduce_sp_of (_cost self) (stats x))
                                         (enemy x) (battle_queue x)]>
                             (characters h)) (queues h) (nodes h))
                !! target = Some y).
  { cbn [characters]. rewrite list_lookup_insert_ne by exact Hne. exact Hy. }
  erewrite bind_Ret by (apply get_character_eq; exact Hy').
  rewrite (set_stats_eq _ _ _ _ Hy'). reflexivity.
Qed.

Lemma enqueue_plain (caster character : cref) (h : Heap) (x : Character)
    (q : BattleQueue) (p1 : cref) :
  characters h !! caster = Some x ->
  queues h !! battle_queue x = Some q ->
  _add_status q = None -> _p1 q = Some p1 ->
  enqueue caster character h =
    Ret tt (with_queue h (battle_queue x)
              (mkQueue (_content q ++ [character]) (_p1 q) (_p2 q) None)).
Proof.
  intros Hx Hq Hplain Hp. unfold enqueue.
  erewrite bind_Ret by (apply get_character_eq; exact Hx). cbn beta.
  assert (He : enrol (characters h) q character = Some q)
    by (unfold enrol; now rewrite Hp).
  rewrite (add_eq _ _ _ _ _ Hq He). unfold ticket_by. now rewrite Hplain.
Qed.

(** Adding a list of tickets to a plain queue whose players are recorded. *)
Lemma enqueue_all_plain (caster : cref) (x : Character) (l : list cref) :
  forall (h : Heap) (q : BattleQueue) (p1 : cref),
    characters h !! caster = Some x ->
    queues h !! battle_queue x = Some q ->
    _add_status q = None -> _p1 q = Some p1 ->
    for_do l (enqueue caster) h =
      Ret tt (with_queue h (battle_queue x)
                (mkQueue (_content q ++ l) (_p1 q) (_p2 q) None)).
Proof.
  induction l as [|c l IH]; intros h q p1 Hx Hq Hplain Hp.
  - cbn [for_do]. unfold ret. rewrite app_nil_r.
    replace (mkQueue (_content q) (_p1 q) (_p2 q) None) with q
      by (destruct q; cbn in *; now subst).
    now rewrite (with_queue_same _ _ _ Hq).
  - cbn [for_do].
    erewrite bind_Ret by exact (enqueue_plain caster c h x q p1 Hx Hq Hplain Hp).
    cbn beta.
    rewrite (IH _ (mkQueue (_content q ++ [c]) (_p1 q) (_p2 q) None) p1);
      [| exact Hx | eapply with_queue_lookup; exact Hq | reflexivity | exact Hp].
    rewrite with_queue_twice. cbn [_content _p1 _p2].
    now rewrite <- app_assoc.
Qed.

(** One, two and three calls in a row, as a loop. *)
Lemma for_do_one {A : Type} (f : A -> M unit) (a : A) (h : Heap) :
  f a h = for_do [a] f h.
Proof.
  cbn [for_do]. unfold bind, ret. destruct (f a h) as [[] h1| |]; reflexivity.
Qed.

Lemma for_do_two {A : Type} (f : A -> M unit) (a b : A) (h : Heap) :
  bind (f a) (fun _ => f b) h = for_do [a; b] f h.
Proof.
  cbn [for_do]. unfold bind, ret. destruct (f a h) as [[] h1| |]; [| reflexivity ..].
  destruct (f b h1) as [[] h2| |]; reflexivity.
Qed.

Lemma for_do_three {A : Type} (f : A -> M unit) (a b c : A) (h : Heap) :
  bind (f a) (fun _ => bind (f b) (fun _ => f c)) h = for_do [a; b; c] f h.
Proof.
  cbn [for_do]. unfold bind, ret. destruct (f a h) as [[] h1| |]; [| reflexivity ..].
  destruct (f b h1) as [[] h2| |]; [| reflexivity ..].
  destruct (f c h2) as [[] h3| |]; reflexivity.
Qed.

(** X19: on a plain queue whose players are recorded, each skill but the
    Sorcerer's special makes the caster pay its cost, deals its damage to the
    target, lets a Vampire gain the hit points the target lost, and then adds
    its tickets at the back of the caster's queue: the caster once for a
    normal attack and [VampireAttack], the target and then the caster for
    [MageSpecial], the caster twice for [RogueSpecial], and the caster twice
    and then the target for [VampireSpecial]. *)
Theorem use_on_plain_queue (fuel : nat) (self : SkillClass)
    (caster target : cref) (h : Heap) (x y : Character) (q : BattleQueue)
    (p1 : cref) :
  self <> SorcererSpecial ->
  characters h !! caster = Some x -> characters h !! target = Some y ->
  caster <> target ->
  queues h !! battle_queue x = Some q ->
  _add_status q = None -> _p1 q = Some p1 ->
  use fuel self caster target h =
    Ret tt
        (mkHeap
           (<[caster := restat x (caster_after self (stats x) (stats y))]>
              (<[target := restat y (apply_damage_of (_damage self) (stats y))]>
                 (characters h)))
           (<[battle_queue x :=
                mkQueue (_content q ++ tickets_of self caster target)
                        (_p1 q) (_p2 q) None]> (queues h))
           (nodes h)).
Proof.
  intros Hself Hx Hy Hne Hq Hplain Hp.
  pose proof (lookup_lt_Some _ _ _ Hx) as Lx.
  pose proof (lookup_lt_Some _ _ _ Hy) as Ly.
  set (paid := reduce_sp_of (_cost self) (stats x)).
  set (hurt := apply_damage_of (_damage self) (stats y)).
  set (h1 := mkHeap (<[caster := restat x paid]>
                       (<[target := restat y hurt]> (characters h)))
                    (queues h) (nodes h)).
  assert (Hswap : <[target := restat y hurt]>
                    (<[caster := restat x paid]> (characters h)) =
                  <[caster := restat x paid]>
                    (<[target := restat y hurt]> (characters h)))
    by (apply list_insert_insert_ne; congruence).
  assert (Hdeal : _deal_damage self caster target h = Ret tt h1).
  { rewrite (deal_damage_eq self caster target h x y Hx Hy Hne).
    unfold h1. fold paid. fold hurt. now rewrite Hswap. }
  assert (Hx1 : characters h1 !! caster = Some (restat x paid)).
  { cbn [h1 characters]. apply list_lookup_insert_eq.
    now rewrite length_insert. }
  assert (Hy1 : characters h1 !! target = Some (restat y hurt)).
  { cbn [h1 characters]. rewrite list_lookup_insert_ne by exact Hne.
    now apply list_lookup_insert_eq. }
  (* a Vampire's gain *)
  set (healed := set_hp_of (get_hp_of paid + get_hp_of (stats y)
                            - get_hp_of hurt) paid).
  set (h2 := mkHeap (<[caster := restat x healed]>
                       (<[target := restat y hurt]> (characters h)))
                    (queues h) (nodes h)).
  assert (Hx2 : characters h2 !! caster = Some (restat x healed)).
  { cbn [h2 characters]. apply list_lookup_insert_eq.
    now rewrite length_insert. }
  assert (Hdrain : forall k : unit -> M unit,
            bind (get_hp target)
              (fun target_hp =>
                 bind (_deal_damage self caster target)
                   (fun _ =>
                      bind (get_hp target)
                        (fun target_new_hp =>
                           bind (get_hp caster)
                             (fun caster_hp =>
                                bind (Character_set_hp caster
                                        (caster_hp + target_hp - target_new_hp))
                                     k)))) h = k tt h2).
  { intros k.
    erewrite bind_Ret by (rewrite get_hp_eq, Hy; reflexivity). cbn beta.
    erewrite bind_Ret by exact Hdeal. cbn beta.
    erewrite bind_Ret by (rewrite get_hp_eq, Hy1; reflexivity). cbn beta.
    erewrite bind_Ret by (rewrite get_hp_eq, Hx1; reflexivity). cbn beta.
    erewrite bind_Ret.
    2:{ unfold Character_set_hp.
        erewrite bind_Ret by (apply get_character_eq; exact Hx1).
        apply set_stats_eq. exact Hx1. }
    cbn [restat stats enemy battle_queue h1 characters queues nodes].
    rewrite list_insert_insert_eq. reflexivity. }
  (* the tickets, on the store after the hit *)
  assert (Htickets : forall (h' : Heap) (x' : Character) (l : list cref),
            characters h' !! caster = Some x' ->
            battle_queue x' = battle_queue x ->
            queues h' = queues h ->
            for_do l (enqueue caster) h' =
              Ret tt (mkHeap (characters h')
                             (<[battle_queue x :=
                                  mkQueue (_content q ++ l) (_p1 q) (_p2 q)
                                          None]> (queues h))
                             (nodes h'))).
  { intros h' x' l Hx' Eb Eq'.
    assert (Hq' : queues h' !! battle_queue x' = Some q)
      by (rewrite Eb, Eq'; exact Hq).
    rewrite (enqueue_all_plain caster x' l h' q p1 Hx' Hq' Hplain Hp).
    unfold with_queue. now rewrite Eb, Eq'. }
  destruct self; try (now elim Hself); unfold use, caster_after, tickets_of;
    fold paid; fold hurt; fold healed.
  - (* MageAttack *)
    unfold NormalAttack_use.
    erewrite bind_Ret by exact Hdeal. cbn beta.
    rewrite (for_do_one (enqueue caster)).
    exact (Htickets h1 _ [caster] Hx1 eq_refl eq_refl).
  - (* MageSpecial *)
    unfold MageSpecial_use.
    erewrite bind_Ret by exact Hdeal. cbn beta.
    rewrite (for_do_two (enqueue caster)).
    exact (Htickets h1 _ [target; caster] Hx1 eq_refl eq_refl).
  - (* RogueAttack *)
    unfold NormalAttack_use.
    erewrite bind_Ret by exact Hdeal. cbn beta.
    rewrite (for_do_one (enqueue caster)).
    exact (Htickets h1 _ [caster] Hx1 eq_refl eq_refl).
  - (* RogueSpecial *)
    unfold RogueSpecial_use.
    erewrite bind_Ret by exact Hdeal. cbn beta.
    rewrite (for_do_two (enqueue caster)).
    exact (Htickets h1 _ [caster; caster] Hx1 eq_refl eq_refl).
  - (* VampireAttack *)
    unfold VampireAttack_use. rewrite Hdrain.
    rewrite (for_do_one (enqueue caster)).
    exact (Htickets h2 _ [caster] Hx2 eq_refl eq_refl).
  - (* VampireSpecial *)
    unfold VampireSpecial_use. rewrite Hdrain.
    rewrite (for_do_three (enqueue caster)).
    exact (Htickets h2 _ [caster; caster; target] Hx2 eq_refl eq_refl).
Qed.

(** *** The Sorcerer's special *)

(** The purge of a list of tickets whose holders can all be asked for their
    moves: it runs to its end, and stops at the first holder that can act. *)
Lemma drop_dead_live (h : Heap) (content : list cref) :
  Forall (fun c => exists l, get_available_actions c h = Ret l h) content ->
  snd (drop_dead (acts h) content) = true /\
  ((fst (drop_dead (acts h) content) = [] /\
    List.filter (can_act h) content = []) \/
   (exists c rest k ks,
      fst (drop_dead (acts h) content) = c :: rest /\
      get_available_actions c h = Ret (k :: ks) h /\
      List.filter (can_act h) content = c :: List.filter (can_act h) rest /\
      (length rest < length content)%nat /\
      Forall (fun c => exists l, get_available_actions c h = Ret l h) rest)).
Proof.
  induction 1 as [|c content [l Hc] Hrest IH].
  - split; [reflexivity |]. left. split; reflexivity.
  - pose proof (actions_read h c l Hc) as Ec.
    assert (Hcan : can_act h c = match l with [] => false | _ :: _ => true end)
      by (unfold can_act; now rewrite Ec).
    cbn [drop_dead List.filter]. rewrite Ec, Hcan.
    destruct l as [|k ks].
    + destruct IH as [Hok [[E1 E2] | (c' & rest & k & ks & E1 & E2 & E3 & E4 & E5)]].
      * split; [exact Hok |]. left. split; assumption.
      * split; [exact Hok |]. right. exists c', rest, k, ks.
        repeat split; try assumption. cbn [length]. lia.
    + split; [reflexivity |]. right. exists c, content, k, ks.
      repeat split; try assumption. cbn [length]. lia.
Qed.

(** The first loop empties the queue and collects, once each and in the
    order of their first tickets, the characters that can act. *)
Lemma drain_eq (caster : cref) (x : Character) (fuel : nat) :
  forall (content temp_list : list cref) (h : Heap) (q : BattleQueue),
    characters h !! caster = Some x ->
    queues h !! battle_queue x = Some q ->
    _add_status q = None -> _content q = content ->
    Forall (fun c => exists l, get_available_actions c h = Ret l h) content ->
    (length content < fuel)%nat ->
    drain fuel caster temp_list h =
      Ret (first_seen (List.filter (can_act h) content) temp_list)
          (with_queue h (battle_queue x) (mkQueue [] (_p1 q) (_p2 q) None)).
Proof.
  induction fuel as [|fuel IH]; intros content temp_list h q Hx Hq Hplain Ec Hall Hlen;
    [lia |].
  destruct (drop_dead_live h content Hall) as [Hok Hcases].
  rewrite <- Ec in Hok.
  assert (Ecl : cleaned (acts h) q =
                mkQueue (fst (drop_dead (acts h) content)) (_p1 q) (_p2 q) None).
  { unfold cleaned. rewrite Hplain, Ec. reflexivity. }
  cbn [drain].
  erewrite bind_Ret by (apply get_character_eq; exact Hx). cbn beta.
  erewrite bind_Ret by exact (is_empty_eq _ _ _ Hq Hok). cbn beta.
  rewrite Ecl. unfold no_ticket. cbn [_content].
  destruct Hcases as [[E1 E2] | (c & rest & k & ks & E1 & E2 & E3 & E4 & E5)].
  - rewrite E1, E2. reflexivity.
  - rewrite E1, E3.
    set (h1 := with_queue h (battle_queue x)
                 (mkQueue (c :: rest) (_p1 q) (_p2 q) None)).
    assert (Hx1 : characters h1 !! caster = Some x) by exact Hx.
    erewrite bind_Ret by (apply get_character_eq; exact Hx1). cbn beta.
    assert (Hq1 : queues h1 !! battle_queue x =
                  Some (mkQueue (c :: rest) (_p1 q) (_p2 q) None))
      by (eapply with_queue_lookup; exact Hq).
    erewrite bind_Ret
      by exact (remove_live_eq (battle_queue x) h1 _ [] c rest k ks Hq1 eq_refl
                  (Forall_nil_2 _)
                  (actions_with_queue h (battle_queue x) _ c _ E2) I).
    cbn beta. cbn [_p1 _p2 _add_status option_map]. unfold h1.
    rewrite with_queue_twice.
    set (q2 := mkQueue rest (_p1 q) (_p2 q) None).
    rewrite (IH rest _ (with_queue h (battle_queue x) q2) q2);
      [| exact Hx | eapply with_queue_lookup; exact Hq | reflexivity
       | reflexivity | | lia].
    + rewrite with_queue_twice. reflexivity.
    + eapply Forall_impl; [exact E5 |]. intros d [l Hd]. exists l.
      now apply actions_with_queue.
Qed.

(** X20: on a plain queue whose players are recorded, the Sorcerer's special
    empties the caster's queue and gives one ticket back to each character
    that can act, in the order of their first tickets, then one more to the
    caster; only then the caster pays and the target is hit.  Fuel beyond the
    number of tickets is enough for it to return. *)
Theorem sorcerer_special_on_plain_queue (fuel : nat) (caster target : cref)
    (h : Heap) (x y : Character) (q : BattleQueue) (p1 : cref) :
  characters h !! caster = Some x -> characters h !! target = Some y ->
  caster <> target ->
  queues h !! battle_queue x = Some q ->
  _add_status q = None -> _p1 q = Some p1 ->
  Forall (fun c => exists l, get_available_actions c h = Ret l h) (_content q) ->
  (length (_content q) < fuel)%nat ->
  use fuel SorcererSpecial caster target h =
    Ret tt
        (mkHeap
           (<[caster := restat x (reduce_sp_of 20 (stats x))]>
              (<[target := restat y (apply_damage_of 25 (stats y))]>
                 (characters h)))
           (<[battle_queue x :=
                mkQueue (first_seen (List.filter (can_act h) (_content q)) []
                         ++ [caster])
                        (_p1 q) (_p2 q) None]> (queues h))
           (nodes h)).
Proof.
  intros Hx Hy Hne Hq Hplain Hp Hall Hlen.
  cbn [use]. unfold SorcererSpecial_use.
  erewrite bind_Ret
    by exact (drain_eq caster x fuel _ [] h q Hx Hq Hplain eq_refl Hall Hlen).
  cbn beta.
  set (temp_list := first_seen (List.filter (can_act h) (_content q)) []).
  set (q0 := mkQueue [] (_p1 q) (_p2 q) None).
  assert (Hq0 : queues (with_queue h (battle_queue x) q0) !! battle_queue x
                = Some q0) by (eapply with_queue_lookup; exact Hq).
  erewrite bind_Ret
    by exact (enqueue_all_plain caster x temp_list
                (with_queue h (battle_queue x) q0) q0 p1 Hx Hq0 eq_refl Hp).
  cbn beta. rewrite with_queue_twice. cbn [q0 _content _p1 _p2 app].
  set (q1 := mkQueue temp_list (_p1 q) (_p2 q) None).
  assert (Hq1 : queues (with_queue h (battle_queue x) q1) !! battle_queue x
                = Some q1) by (eapply with_queue_lookup; exact Hq).
  erewrite bind_Ret
    by exact (enqueue_plain caster caster (with_queue h (battle_queue x) q1)
                x q1 p1 Hx Hq1 eq_refl Hp).
  cbn beta. rewrite with_queue_twice. cbn [q1 _content _p1 _p2].
  rewrite (deal_damage_eq SorcererSpecial caster target
             (with_queue h (battle_queue x)
                (mkQueue (temp_list ++ [caster]) (_p1 q) (_p2 q) None))
             x y Hx Hy Hne).
  cbn [with_queue characters queues nodes _cost _damage].
  f_equal. f_equal. apply list_insert_insert_ne. congruence.
Qed.

End Skills.

End Game.

Arguments Ret {Stats A} a h.
Arguments Raise {Stats A} e h.
Arguments OutOfFuel {Stats A}.

(** * A duel of a Rogue and a Mage *)

Module Duel.

(** Modelled from the spec: the characters of the doctests, a Rogue and a
    Mage, with the costs and damages of their skills in [a2_skills.py] and the
    defences the doctests show (a Rogue struck by [RogueAttack] loses 5 hit
    points, a Mage 7). *)
Record Fighter : Type := mkFighter { hp : Z; sp : Z; is_rogue : bool }.

Definition attack_cost (f : Fighter) : Z := if is_rogue f then 3 else 5.
Definition special_cost (f : Fighter) : Z := if is_rogue f then 10 else 30.
Definition attack_damage (f : Fighter) : Z := if is_rogue f then 15 else 20.
Definition special_damage (f : Fighter) : Z := if is_rogue f then 20 else 40.
Definition defense (f : Fighter) : Z := if is_rogue f then 10 else 8.

(** Modelled from the spec: a move is open when its cost can be paid. *)
Definition fighter_actions (f : Fighter) (_ : option Fighter) : list Key :=
  (if attack_cost f <=? sp f then [Key_A] else []) ++
  (if special_cost f <=? sp f then [Key_S] else []).

Definition reduce_sp (cost : Z) (f : Fighter) : Fighter :=
  mkFighter (hp f) (sp f - cost) (is_rogue f).

Definition apply_damage (damage : Z) (f : Fighter) : Fighter :=
  mkFighter (Z.max 0 (hp f - Z.max 0 (damage - defense f))) (sp f) (is_rogue f).

(** [Skill.use] for the four skills of the two classes: [_deal_damage], then
    the tickets [NormalAttack.use], [RogueSpecial.use] and [MageSpecial.use]
    add. *)
Definition fighter_perform (is_attack : bool) (caster target : Fighter) :
    Fighter * Fighter * list bool :=
  if is_attack then
    (reduce_sp (attack_cost caster) caster,
     apply_damage (attack_damage caster) target, [true])
  else
    (reduce_sp (special_cost caster) caster,
     apply_damage (special_damage caster) target,
     if is_rogue caster then [true; true] else [false; true]).

Definition Game : Type := @VState Fighter.
Definition Store : Type := @Heap Fighter.

(** The store that holds nothing but the game [v]: player 1 is character 0,
    player 2 is character 1, and the queue is queue 0. *)
Definition duel (v : Game) : Store :=
  mkHeap [chr (v_s1 v) 1%nat 0%nat; chr (v_s2 v) 0%nat 0%nat]
         [qrec 0%nat 1%nat v] [].

Definition rogue : Fighter := mkFighter 100 100 true.
Definition mage : Fighter := mkFighter 100 100 false.

Definition select_recursive : nat -> qref -> M Key :=
  MinimaxRecursivePlaystyle_select_attack hp fighter_actions fighter_perform.
Definition select_iterative : nat -> qref -> M Key :=
  MinimaxIterativePlaystyle_select_attack hp fighter_actions fighter_perform.
Definition state_score : nat -> qref -> M Z :=
  get_state_score hp fighter_actions fighter_perform.
Definition tickets (h : Store) (q : qref) : option (list cref) :=
  option_map _content (queues h !! q).

(** [bq.add(r); bq.remove()]: no ticket is left, both players stand. *)
Definition emptied : Game := mkV rogue mage [] None.

(** The same with skill points for one last attack of the Rogue. *)
Definition spent : Game :=
  mkV (mkFighter 100 3 true) (mkFighter 100 0 false) [] None.

(** Both players are out of hit points. *)
Definition both_down : Game :=
  mkV (mkFighter 0 100 true) (mkFighter 0 100 false) [true; false] None.

(** The Mage is out of hit points. *)
Definition mage_down : Game :=
  mkV rogue (mkFighter 0 100 false) [true; false] None.

(** The Rogue is at the front and cannot pay for a move. *)
Definition stale : Game := mkV (mkFighter 5 2 true) mage [true; false] None.

(** The same once purged: the Mage is to move. *)
Definition last_blow : Game := mkV (mkFighter 5 2 true) mage [false] None.

(** The opening of the doctests. *)
Definition opening : Game := mkV rogue mage [true; false] None.

(** C1, at the failing input [spent]: the game is over and the Rogue, whom
    [peek] answers, still has her attack.  The recursive playstyle answers
    ['A']; the iterative one raises [TypeError], and answers no action
    whatever fuel it is given: there is no pair of answers to compare. *)
Lemma select_attack_disagree_game_over :
  is_over hp fighter_actions 0%nat (duel spent) = Ret true (duel spent) /\
  peek fighter_actions 0%nat (duel spent) = Ret (Some 0%nat) (duel spent) /\
  get_available_actions fighter_actions 0%nat (duel spent) =
    Ret [Key_A] (duel spent) /\
  (exists h1, select_recursive 3 0%nat (duel spent) = Ret Key_A h1) /\
  (exists h2, select_iterative 3 0%nat (duel spent) = Raise TypeError h2) /\
  (forall fuel key h', select_iterative fuel 0%nat (duel spent) <> Ret key h').
Proof.
  split; [vm_compute; reflexivity |].
  split; [vm_compute; reflexivity |].
  split; [vm_compute; reflexivity |].
  split; [eexists; vm_compute; reflexivity |].
  split; [eexists; vm_compute; reflexivity |].
  assert (H : rep (duel spent) 0%nat 0%nat 1%nat spent)
    by (unfold rep; repeat split; solve [discriminate | reflexivity]).
  assert (Eacts : v_actions fighter_actions spent = [Key_A])
    by (vm_compute; reflexivity).
  assert (Hover : v_over hp fighter_actions spent = true)
    by (vm_compute; reflexivity).
  intros fuel key h' E. unfold select_iterative in E. destruct fuel as [|fuel].
  - rewrite (iter_setup hp fighter_actions fighter_perform _ _ _ _ _ _ _ [] H Eacts)
      in E.
    discriminate E.
  - destruct (iter_over hp fighter_actions fighter_perform fuel _ _ _ _ _ _ []
                H Eacts Hover) as (h1 & E1 & _).
    rewrite E1 in E. discriminate E.
Qed.

(** With both players out of hit points [get_winner] answers player 2. *)
Lemma get_winner_both_down :
  get_hp hp 0%nat (duel both_down) = Ret 0 (duel both_down) /\
  get_hp hp 1%nat (duel both_down) = Ret 0 (duel both_down) /\
  get_winner hp fighter_actions 0%nat (duel both_down) =
    Ret (Some 1%nat) (duel both_down).
Proof. repeat split; vm_compute; reflexivity. Qed.

(** On [stale] either playstyle leaves the source queue without the
    ticket of the Rogue. *)
Lemma select_attack_purges_source :
  tickets (duel stale) 0%nat = Some [0%nat; 1%nat] /\
  (exists h', select_recursive 3 0%nat (duel stale) = Ret Key_A h' /\
              tickets h' 0%nat = Some [1%nat]) /\
  (exists h', select_iterative 5 0%nat (duel stale) = Ret Key_A h' /\
              tickets h' 0%nat = Some [1%nat]).
Proof.
  split; [reflexivity |].
  split; eexists; (split; [vm_compute; reflexivity | reflexivity]).
Qed.


(** *** The theorems at work on the duel *)

(** The store [duel v] holds the game [v]. *)
Ltac holds_rep := unfold rep; repeat split; solve [discriminate | reflexivity].

(** The Mage is to move, and only her special ends the game at once: after
    her attack the Rogue strikes back before she falls. *)
Definition decisive : Game :=
  mkV (mkFighter 15 3 true) mage [false; true] None.

(** On [decisive] the special is the one best move. *)
Lemma decisive_best (k : Key) :
  best hp fighter_actions fighter_perform decisive k -> k = Key_S.
Proof.
  intros (action & s & Hin & Hl & Hv & Hc).
  assert (V : value hp fighter_actions fighter_perform false decisive 100)
    by (exists 5%nat; vm_compute; reflexivity).
  assert (E : s = 100)
    by exact (value_unique hp fighter_actions fighter_perform _ _ _ _ Hv V).
  subst s.
  assert (Ha : v_actions fighter_actions decisive = [Key_A; Key_S])
    by (vm_compute; reflexivity).
  rewrite Ha in Hin. destruct Hin as [<- | [<- | []]].
  - assert (V' : value hp fighter_actions fighter_perform false
                   (v_child fighter_actions fighter_perform Key_A decisive) 93)
      by (exists 4%nat; vm_compute; reflexivity).
    pose proof (value_unique hp fighter_actions fighter_perform _ _ _ _ Hc V')
      as Habs.
    discriminate Habs.
  - now rewrite <- Hl.
Qed.

(** The two playstyles on [decisive]: both answer ['S']. *)
Lemma select_attack_agree_witness :
  rep (duel decisive) 0%nat 0%nat 1%nat decisive /\
  v_over hp fighter_actions decisive = false /\
  value hp fighter_actions fighter_perform
        (v_front (vclean fighter_actions decisive)) decisive 100 /\
  100 <> - sys_maxsize /\
  exists enough : nat,
    forall fuel, (enough <= fuel)%nat ->
      exists (hg hr hi : Store),
        state_score fuel 0%nat (duel decisive) = Ret 100 hg /\
        select_recursive fuel 0%nat (duel decisive) = Ret Key_S hr /\
        select_iterative fuel 0%nat (duel decisive) = Ret Key_S hi.
Proof.
  assert (H : rep (duel decisive) 0%nat 0%nat 1%nat decisive) by holds_rep.
  assert (Hover : v_over hp fighter_actions decisive = false)
    by (vm_compute; reflexivity).
  assert (Hval : value hp fighter_actions fighter_perform
                   (v_front (vclean fighter_actions decisive)) decisive 100)
    by (exists 5%nat; vm_compute; reflexivity).
  assert (Hsent : 100 <> - sys_maxsize) by (vm_compute; discriminate).
  split; [exact H |]. split; [exact Hover |]. split; [exact Hval |].
  split; [exact Hsent |].
  destruct (select_attack_agree hp fighter_actions fighter_perform
              (duel decisive) 0%nat 0%nat 1%nat decisive 100 H Hover Hval Hsent)
    as [enough Hall].
  exists enough. intros fuel Hle.
  destruct (Hall fuel Hle)
    as (kr & ki & hg & hr & hi & Hg & Hr & Hi & Bkr & Bki & _).
  pose proof (decisive_best kr Bkr) as Ekr.
  pose proof (decisive_best ki Bki) as Eki.
  subst kr ki. exists hg, hr, hi.
  exact (conj Hg (conj Hr Hi)).
Defined.

(** The Rogue scores her 100 hit points once the Mage is down. *)
Lemma terminal_score_witness :
  is_over hp fighter_actions 0%nat (duel mage_down) = Ret true (duel mage_down) /\
  exists s,
    get_state_score_player hp fighter_actions fighter_perform 1 (Some 0%nat)
      0%nat (duel mage_down) = Ret s (duel mage_down) /\
    s = 100.
Proof.
  assert (H : is_over hp fighter_actions 0%nat (duel mage_down)
              = Ret true (duel mage_down)) by (vm_compute; reflexivity).
  split; [exact H |].
  destruct (terminal_score hp fighter_actions fighter_perform 0
              (duel mage_down) (duel mage_down) 0%nat (qrec 0%nat 1%nat mage_down)
              0%nat 1%nat 0%nat (chr rogue 1%nat 0%nat)
              (chr (mkFighter 0 100 false) 0%nat 0%nat)
              H eq_refl eq_refl eq_refl eq_refl eq_refl (or_introl eq_refl))
    as (s & Hs & Hwin & _).
  exists s. split; [exact Hs |].
  apply Hwin; [discriminate | reflexivity].
Defined.

(** [get_winner] on [both_down], by its cases. *)
Lemma get_winner_cases_witness :
  is_over hp fighter_actions 0%nat (duel both_down) = Ret true (duel both_down) /\
  get_winner hp fighter_actions 0%nat (duel both_down) =
    Ret (Some 1%nat) (duel both_down).
Proof.
  assert (H : is_over hp fighter_actions 0%nat (duel both_down)
              = Ret true (duel both_down)) by (vm_compute; reflexivity).
  split; [exact H |].
  exact (proj2 (get_winner_cases hp fighter_actions (duel both_down)
                  (duel both_down) 0%nat true H)
           eq_refl (qrec 0%nat 1%nat both_down) 0%nat 1%nat
           (chr (mkFighter 0 100 true) 1%nat 0%nat)
           (chr (mkFighter 0 100 false) 0%nat 0%nat)
           eq_refl eq_refl eq_refl eq_refl eq_refl).
Defined.

(** A store with one queue, just created. *)
Definition blank : Store := mkHeap [] [BattleQueue_init] [].

(** [peek] on the queue of [blank]. *)
Lemma peek_never_populated_witness :
  queues blank !! 0%nat = Some BattleQueue_init /\
  exists h', peek fighter_actions 0%nat blank = Ret None h'.
Proof.
  split; [reflexivity |].
  apply (peek_never_populated fighter_actions blank 0%nat BattleQueue_init);
    reflexivity.
Defined.


(** What the searches leave of [stale]: all but the ticket of the Rogue. *)
Lemma search_purges_only_witness :
  rep (duel stale) 0%nat 0%nat 1%nat stale /\
  (exists h',
     heap_of (state_score 3 0%nat (duel stale)) = Some h' /\
     frame nothing nothing nothing (duel stale) h') /\
  (exists h',
     heap_of (select_recursive 3 0%nat (duel stale)) = Some h' /\
     frame nothing (only 0%nat) nothing (duel stale) h' /\
     queues h' !! 0%nat = Some (qrec 0%nat 1%nat last_blow)) /\
  (exists h',
     heap_of (select_iterative 5 0%nat (duel stale)) = Some h' /\
     frame nothing (only 0%nat) nothing (duel stale) h' /\
     queues h' !! 0%nat = Some (qrec 0%nat 1%nat last_blow)).
Proof.
  assert (H : rep (duel stale) 0%nat 0%nat 1%nat stale) by holds_rep.
  destruct (search_purges_only hp fighter_actions fighter_perform
              (duel stale) 0%nat 0%nat 1%nat stale H)
    as (Hscore & _ & Hrec & Hiter).
  assert (Es : exists h', heap_of (state_score 3 0%nat (duel stale)) = Some h')
    by (eexists; vm_compute; reflexivity).
  assert (Er : exists h', heap_of (select_recursive 3 0%nat (duel stale)) = Some h')
    by (eexists; vm_compute; reflexivity).
  assert (Ei : exists h', heap_of (select_iterative 5 0%nat (duel stale)) = Some h')
    by (eexists; vm_compute; reflexivity).
  destruct Es as [hs Es]. destruct Er as [hr Er]. destruct Ei as [hi Ei].
  split; [exact H |].
  split; [exists hs; split; [exact Es | exact (Hscore 3%nat hs Es)] |].
  split; [exists hr; split; [exact Er | exact (Hrec 3%nat hr Er)] |].
  exists hi. split; [exact Ei | exact (Hiter 5%nat hi Ei)].
Defined.

(** The iterative playstyle on [emptied]. *)
Lemma iterative_select_attack_game_over_witness :
  rep (duel emptied) 0%nat 0%nat 1%nat emptied /\
  v_over hp fighter_actions emptied = true /\
  v_actions fighter_actions emptied <> [] /\
  (exists h', select_iterative 1 0%nat (duel emptied) = Raise TypeError h') /\
  (forall key h', select_iterative 0 0%nat (duel emptied) <> Ret key h').
Proof.
  assert (H : rep (duel emptied) 0%nat 0%nat 1%nat emptied) by holds_rep.
  assert (Hover : v_over hp fighter_actions emptied = true) by reflexivity.
  assert (Hacts : v_actions fighter_actions emptied <> [])
    by (vm_compute; discriminate).
  split; [exact H |]. split; [exact Hover |]. split; [exact Hacts |].
  exact (iterative_select_attack_game_over hp fighter_actions fighter_perform
           (duel emptied) 0%nat 0%nat 1%nat emptied 0 H Hover Hacts).
Defined.


(** The two fighters and a restricted queue just created, and the store
    after [rbq.add(r)]. *)
Definition arena : Store :=
  mkHeap [chr rogue 1%nat 0%nat; chr mage 0%nat 0%nat] [] [].

Definition arena_queue : Store :=
  mkHeap (characters arena) (queues arena ++ [RestrictedBattleQueue_init])
         (nodes arena).

Definition arena_added : Store :=
  mkHeap (characters arena)
         [mkQueue [0%nat] (Some 0%nat) (Some 1%nat) (Some [true])] [].

(** The Rogue holds one eligible ticket after [rbq.add(r)]. *)
Lemma add_ability_count_at_most_two_witness :
  reachable fighter_actions arena_added 0%nat /\
  get_add_ability_count 0%nat 0%nat arena_added = Ret 1%nat arena_added /\
  (1 <= 2)%nat.
Proof.
  assert (H : reachable fighter_actions arena_added 0%nat).
  { apply (reach_call fighter_actions arena_queue arena_added 0%nat
             (Call_add 0%nat) (reach_new fighter_actions arena)).
    - vm_compute. reflexivity.
    - intros h'' E. vm_compute in E. discriminate. }
  assert (E : get_add_ability_count 0%nat 0%nat arena_added
              = Ret 1%nat arena_added) by (vm_compute; reflexivity).
  split; [exact H |]. split; [exact E |].
  exact (add_ability_count_at_most_two fighter_actions arena_added arena_added
           0%nat 0%nat 1%nat H E).
Defined.


(** *** The queue and the playstyles at work *)

(** Both players are at the end of their skill points. *)
Definition exhausted : Game :=
  mkV (mkFighter 5 2 true) (mkFighter 5 2 false) [true; false] None.

(** The two fighters and a plain queue just created. *)
Definition arena_plain : Store :=
  mkHeap (characters arena) [BattleQueue_init] [].

(** A restricted queue whose front ticket, of the Mage, may not add. *)
Definition arena_barred : Store :=
  mkHeap (characters arena)
         [mkQueue [1%nat; 0%nat] (Some 0%nat) (Some 1%nat) (Some [false; true])]
         [].

(** The same game, as a value. *)
Definition barred : Game := mkV rogue mage [false; true] (Some [false; true]).

(** The opening with a search node on it, for the Rogue. *)
Definition arena_node : Store :=
  mkHeap (characters (duel opening)) (queues (duel opening))
         [mkNode 0%nat (Some 0%nat) Key_X None None].

Lemma arena_added_reachable : reachable fighter_actions arena_added 0%nat.
Proof.
  apply (reach_call fighter_actions arena_queue arena_added 0%nat
           (Call_add 0%nat) (reach_new fighter_actions arena)).
  - vm_compute. reflexivity.
  - intros h'' E. vm_compute in E. discriminate.
Qed.

(** On [stale] the Rogue cannot move: [remove] hands out the Mage. *)
Lemma remove_first_live_witness :
  remove fighter_actions 0%nat (duel stale) =
    Ret 1%nat (with_queue (duel stale) 0%nat
                 (mkQueue [] (Some 0%nat) (Some 1%nat) None)).
Proof.
  exact (remove_first_live fighter_actions 0%nat (duel stale)
           (qrec 0%nat 1%nat stale) [0%nat] 1%nat [] Key_A [Key_S]
           eq_refl eq_refl ltac:(repeat constructor)
           eq_refl I).
Defined.

(** On [exhausted] nobody can move. *)
Lemma remove_nothing_live_witness :
  is_empty fighter_actions 0%nat (duel exhausted) =
    Ret true (with_queue (duel exhausted) 0%nat
                (mkQueue [] (Some 0%nat) (Some 1%nat) None)) /\
  remove fighter_actions 0%nat (duel exhausted) =
    Raise IndexError (with_queue (duel exhausted) 0%nat
                        (mkQueue [] (Some 0%nat) (Some 1%nat) None)).
Proof.
  apply (remove_nothing_live fighter_actions 0%nat (duel exhausted)
           (qrec 0%nat 1%nat exhausted)); [reflexivity |].
  repeat constructor.
Defined.

Lemma peek_then_remove_witness :
  exists h1 h2 : Store,
    peek fighter_actions 0%nat (duel stale) = Ret (Some 1%nat) h1 /\
    remove fighter_actions 0%nat h1 = Ret 1%nat h2 /\
    remove fighter_actions 0%nat (duel stale) = Ret 1%nat h2.
Proof.
  exact (peek_then_remove fighter_actions 0%nat (duel stale)
           (qrec 0%nat 1%nat stale) [0%nat] 1%nat [] Key_A [Key_S]
           eq_refl eq_refl ltac:(repeat constructor)
           eq_refl I).
Defined.

(** [peek] turns [stale] into [last_blow], and a second look changes
    nothing. *)
Lemma purge_settles_witness :
  peek fighter_actions 0%nat (duel stale) = Ret (Some 1%nat) (duel last_blow) /\
  peek fighter_actions 0%nat (duel last_blow) =
    Ret (Some 1%nat) (duel last_blow) /\
  exists e : bool,
    is_empty fighter_actions 0%nat (duel last_blow) = Ret e (duel last_blow).
Proof.
  assert (E : peek fighter_actions 0%nat (duel stale)
              = Ret (Some 1%nat) (duel last_blow)) by (vm_compute; reflexivity).
  split; [exact E |].
  exact (proj1 (purge_settles fighter_actions 0%nat (duel stale)
                  (duel last_blow)) (Some 1%nat) E).
Defined.

(** The first [add] records the Rogue and her enemy; a later [remove] of the
    last ticket leaves them recorded. *)
Lemma players_recorded_once_witness :
  (exists (h' : Store) (q' : BattleQueue),
     heap_of (add 0%nat 0%nat arena_plain) = Some h' /\
     queues h' !! 0%nat = Some q' /\
     _p1 q' = Some 0%nat /\ _p2 q' = Some 1%nat) /\
  (exists (h' : Store) (q' : BattleQueue),
     heap_of (run_queue_call hp fighter_actions 0%nat Q_remove (duel last_blow))
       = Some h' /\
     queues h' !! 0%nat = Some q' /\
     _p1 q' = Some 0%nat /\ _p2 q' = Some 1%nat).
Proof.
  split.
  - destruct (proj1 (players_recorded_once hp fighter_actions 0%nat arena_plain
                       BattleQueue_init eq_refl)
                0%nat (chr rogue 1%nat 0%nat)
                (mkHeap (characters arena)
                        [mkQueue [0%nat] (Some 0%nat) (Some 1%nat) None] [])
                eq_refl eq_refl eq_refl) as (q' & Hq' & H1 & H2).
    eexists. exists q'. split; [reflexivity |].
    split; [exact Hq' |]. split; [exact H1 | exact H2].
  - destruct (proj2 (players_recorded_once hp fighter_actions 0%nat
                       (duel last_blow) (qrec 0%nat 1%nat last_blow) eq_refl)
                Q_remove 0%nat
                (with_queue (duel last_blow) 0%nat
                   (mkQueue [] (Some 0%nat) (Some 1%nat) None))
                eq_refl eq_refl) as (q' & Hq' & H1 & H2).
    eexists. exists q'. split; [reflexivity |].
    split; [exact Hq' |]. split; [exact H1 | exact H2].
Defined.

(** The queue of [arena_added] has one bit for its one ticket. *)
Lemma restricted_bits_per_ticket_witness :
  reachable fighter_actions arena_added 0%nat /\
  exists (q : BattleQueue) (st : list bool),
    queues arena_added !! 0%nat = Some q /\
    _add_status q = Some st /\
    length st = length (_content q) /\
    forall character : cref,
      exists n : nat,
        get_add_ability_count 0%nat character arena_added = Ret n arena_added /\
        (n <= exist_count (_content q) character)%nat.
Proof.
  split; [exact arena_added_reachable |].
  exact (restricted_bits_per_ticket fighter_actions arena_added 0%nat
           arena_added_reachable).
Defined.

(** In [arena_barred] the Rogue is queued behind a ticket that may not add:
    her request is dropped. *)
Lemma restricted_add_dropped_witness :
  add 0%nat 0%nat arena_barred = Ret tt arena_barred.
Proof.
  exact (restricted_add_dropped 0%nat arena_barred
           (mkQueue [1%nat; 0%nat] (Some 0%nat) (Some 1%nat) (Some [false; true]))
           0%nat 1%nat [0%nat] [true] 0%nat
           eq_refl eq_refl eq_refl eq_refl (or_intror (or_introl eq_refl))).
Defined.

Lemma copy_same_game_witness :
  rep (duel opening) 0%nat 0%nat 1%nat opening /\
  exists w : Game,
    copy fighter_actions 0%nat (duel opening) = Ret 1%nat (grown (duel opening) w) /\
    rep (grown (duel opening) w) 1%nat 2%nat 3%nat w /\
    rep (grown (duel opening) w) 0%nat 0%nat 1%nat opening /\
    v_s1 w = rogue /\ v_s2 w = mage /\ v_tags w = [true; false] /\
    is_None (v_status w) = true.
Proof.
  assert (H : rep (duel opening) 0%nat 0%nat 1%nat opening) by holds_rep.
  split; [exact H |].
  exact (copy_same_game fighter_actions (duel opening) 0%nat 0%nat 1%nat
           opening H).
Defined.

(** The front ticket of [barred] may not add; the front ticket of its copy
    may.  The copy of the opening, a plain queue, is plain. *)
Lemma copy_front_may_add_witness :
  rep (duel barred) 0%nat 0%nat 1%nat barred /\
  _add_status (qrec 0%nat 1%nat barred) = Some [false; true] /\
  (exists (h' : Store) (q' : BattleQueue) (st : list bool),
     copy fighter_actions 0%nat (duel barred) = Ret 1%nat h' /\
     queues h' !! 1%nat = Some q' /\
     _add_status q' = Some st /\
     length st = length (_content q') /\
     (st = [] \/ exists st', st = true :: st')) /\
  (exists (h' : Store) (q' : BattleQueue),
     copy fighter_actions 0%nat (duel opening) = Ret 1%nat h' /\
     queues h' !! 1%nat = Some q' /\
     _add_status q' = None).
Proof.
  assert (H : rep (duel barred) 0%nat 0%nat 1%nat barred) by holds_rep.
  assert (Ho : rep (duel opening) 0%nat 0%nat 1%nat opening) by holds_rep.
  split; [exact H |]. split; [reflexivity |]. split.
  - pose proof (copy_of_rep fighter_actions (duel barred) 0%nat 0%nat 1%nat
                  barred H) as E.
    destruct (copy_front_may_add fighter_actions (duel barred)
                (grown (duel barred) (vcopy barred)) 0%nat 1%nat 0%nat 1%nat
                barred (qrec 0%nat 1%nat barred)
                (qrec 2%nat 3%nat (vcopy barred)) H eq_refl E eq_refl)
      as (st & Hst & Hlen & Hfront).
    exists (grown (duel barred) (vcopy barred)),
           (qrec 2%nat 3%nat (vcopy barred)), st.
    split; [exact E |]. split; [reflexivity |].
    split; [exact Hst |]. split; [exact Hlen | exact Hfront].
  - pose proof (copy_of_rep fighter_actions (duel opening) 0%nat 0%nat 1%nat
                  opening Ho) as E.
    exists (grown (duel opening) (vcopy opening)),
           (qrec 2%nat 3%nat (vcopy opening)).
    split; [exact E |]. split; [reflexivity |].
    exact (copy_front_may_add fighter_actions (duel opening)
             (grown (duel opening) (vcopy opening)) 0%nat 1%nat 0%nat 1%nat
             opening (qrec 0%nat 1%nat opening)
             (qrec 2%nat 3%nat (vcopy opening)) Ho eq_refl E eq_refl).
Defined.

(** The random playstyle on [stale], with a draw of 0. *)
Lemma random_select_attack_member_witness :
  exists action : Key,
    RandomPlaystyle_select_attack fighter_actions (fun _ => 0%nat) 0%nat
      (duel stale) =
      Ret action (with_queue (duel stale) 0%nat
                    (mkQueue [1%nat] (Some 0%nat) (Some 1%nat) None)) /\
    In action [Key_A; Key_S].
Proof.
  exact (random_select_attack_member fighter_actions (fun _ => 0%nat) 0%nat
           (duel stale) (qrec 0%nat 1%nat stale) [0%nat] 1%nat [] Key_A [Key_S]
           (fun n Hn => Hn) eq_refl eq_refl
           ltac:(repeat constructor) eq_refl I).
Defined.

(** On [exhausted] every playstyle answers ['X']; on a queue nobody was
    added to, every playstyle raises. *)
Lemma select_attack_no_ticket_witness :
  (RandomPlaystyle_select_attack fighter_actions (fun _ => 0%nat) 0%nat
     (duel exhausted) =
     Ret Key_X (with_queue (duel exhausted) 0%nat
                  (mkQueue [] (Some 0%nat) (Some 1%nat) None)) /\
   select_recursive 1 0%nat (duel exhausted) =
     Ret Key_X (with_queue (duel exhausted) 0%nat
                  (mkQueue [] (Some 0%nat) (Some 1%nat) None)) /\
   select_iterative 1 0%nat (duel exhausted) =
     Ret Key_X (with_queue (duel exhausted) 0%nat
                  (mkQueue [] (Some 0%nat) (Some 1%nat) None))) /\
  (RandomPlaystyle_select_attack fighter_actions (fun _ => 0%nat) 0%nat blank =
     Raise AttributeError blank /\
   select_recursive 1 0%nat blank = Raise AttributeError blank /\
   select_iterative 1 0%nat blank = Raise AttributeError blank).
Proof.
  split.
  - apply (proj2 (select_attack_no_ticket hp fighter_actions fighter_perform
                    (fun _ => 0%nat) 1 0%nat (duel exhausted)
                    (qrec 0%nat 1%nat exhausted) eq_refl
                    ltac:(repeat constructor)) 0%nat);
      reflexivity.
  - apply (proj1 (select_attack_no_ticket hp fighter_actions fighter_perform
                    (fun _ => 0%nat) 1 0%nat blank BattleQueue_init eq_refl
                    ltac:(constructor)));
      reflexivity.
Defined.

(** On [last_blow] the Mage is to move, and the score for the Rogue is the
    greatest of her scores after the two moves of the Mage. *)
Lemma score_player_takes_max_witness :
  rep (duel last_blow) 0%nat 0%nat 1%nat last_blow /\
  v_over hp fighter_actions last_blow = false /\
  exists (s : Z) (h' : Store),
    get_state_score_player hp fighter_actions fighter_perform 2 (Some 0%nat)
      0%nat (duel last_blow) = Ret s h' /\
    (forall action : Key, In action (v_actions fighter_actions last_blow) ->
       forall (h2 : Store) (q2 : qref) (a2 b2 : cref),
         rep h2 q2 a2 b2 (v_child fighter_actions fighter_perform action last_blow) ->
         exists (sc : Z) (h2' : Store),
           get_state_score_player hp fighter_actions fighter_perform 2
             (Some (ref_of a2 b2 true)) q2 h2 = Ret sc h2' /\
           sc <= s) /\
    (exists action : Key, In action (v_actions fighter_actions last_blow) /\
       forall (h2 : Store) (q2 : qref) (a2 b2 : cref),
         rep h2 q2 a2 b2 (v_child fighter_actions fighter_perform action last_blow) ->
         exists h2' : Store,
           get_state_score_player hp fighter_actions fighter_perform 2
             (Some (ref_of a2 b2 true)) q2 h2 = Ret s h2').
Proof.
  assert (H : rep (duel last_blow) 0%nat 0%nat 1%nat last_blow) by holds_rep.
  assert (Hover : v_over hp fighter_actions last_blow = false) by reflexivity.
  split; [exact H |]. split; [exact Hover |].
  assert (E : exists (s : Z) (h' : Store),
            get_state_score_player hp fighter_actions fighter_perform 2
              (Some 0%nat) 0%nat (duel last_blow) = Ret s h')
    by (eexists; eexists; vm_compute; reflexivity).
  destruct E as (s & h' & E). exists s, h'. split; [exact E |].
  exact (score_player_takes_max hp fighter_actions fighter_perform 2 true
           (duel last_blow) h' 0%nat 0%nat 1%nat last_blow s H Hover E).
Defined.

(** The children of the node on the opening: one for each move of the
    Rogue. *)
Lemma get_children_nodes_one_per_move_witness :
  rep arena_node 0%nat 0%nat 1%nat opening /\
  v_actions fighter_actions opening = [Key_A; Key_S] /\
  exists (kids : list nref) (h' : Store),
    get_children_nodes fighter_actions fighter_perform 0%nat arena_node =
      Ret kids h' /\
    length kids = length (v_actions fighter_actions opening) /\
    List.NoDup kids /\
    frame nothing nothing nothing arena_node h' /\
    forall (i : nat) (kid : nref) (action : Key),
      kids !! i = Some kid ->
      v_actions fighter_actions opening !! i = Some action ->
      (length (nodes arena_node) <= kid)%nat /\
      exists (q' : qref) (a' b' : cref),
        (length (queues arena_node) <= q')%nat /\
        nodes h' !! kid =
          Some (mkNode q' (Some (ref_of a' b' true)) (label action) None None) /\
        rep h' q' a' b' (v_child fighter_actions fighter_perform action opening).
Proof.
  assert (H : rep arena_node 0%nat 0%nat 1%nat opening) by holds_rep.
  split; [exact H |]. split; [reflexivity |].
  exact (get_children_nodes_one_per_move hp fighter_actions fighter_perform
           arena_node 0%nat (mkNode 0%nat (Some 0%nat) Key_X None None)
           0%nat 1%nat opening true eq_refl eq_refl H eq_refl eq_refl).
Defined.


(** *** The skills at work *)

(** Modelled from the spec: [Character.set_hp] on a fighter. *)
Definition set_hp (new_hp : Z) (f : Fighter) : Fighter :=
  mkFighter new_hp (sp f) (is_rogue f).

(** The queue of the doctest of [SorcererSpecial.use]: s, r, r, s, r. *)
Definition crowded : Game :=
  mkV rogue mage [true; false; false; true; false] None.

(** [RogueSpecial] on the opening: the Rogue is left with 90 skill points,
    the Mage with 88 hit points, and the Rogue is queued twice more. *)
Lemma use_on_plain_queue_witness :
  use hp fighter_actions reduce_sp apply_damage set_hp 0 RogueSpecial 0%nat 1%nat (duel opening) =
    Ret tt (mkHeap [chr (mkFighter 100 90 true) 1%nat 0%nat;
                    chr (mkFighter 88 100 false) 0%nat 0%nat]
                   [mkQueue [0%nat; 1%nat; 0%nat; 0%nat]
                            (Some 0%nat) (Some 1%nat) None]
                   []).
Proof.
  apply (use_on_plain_queue hp fighter_actions reduce_sp apply_damage set_hp 0
           RogueSpecial
           0%nat 1%nat (duel opening) (chr rogue 1%nat 0%nat)
           (chr mage 0%nat 0%nat) (qrec 0%nat 1%nat opening) 0%nat);
    solve [discriminate | reflexivity].
Defined.

(** The Sorcerer's special on [crowded], cast by player 1: the queue is left
    as s, r, s. *)
Lemma sorcerer_special_on_plain_queue_witness :
  use hp fighter_actions reduce_sp apply_damage set_hp 6 SorcererSpecial
      0%nat 1%nat (duel crowded) =
    Ret tt (mkHeap [chr (mkFighter 100 80 true) 1%nat 0%nat;
                    chr (mkFighter 83 100 false) 0%nat 0%nat]
                   [mkQueue [0%nat; 1%nat; 0%nat]
                            (Some 0%nat) (Some 1%nat) None]
                   []).
Proof.
  apply (sorcerer_special_on_plain_queue hp fighter_actions reduce_sp
           apply_damage set_hp 6 0%nat 1%nat (duel crowded)
           (chr rogue 1%nat 0%nat) (chr mage 0%nat 0%nat)
           (qrec 0%nat 1%nat crowded) 0%nat);
    try solve [discriminate | reflexivity].
  - repeat constructor; eexists; reflexivity.
  - simpl. lia.
Defined.


(** *** Adding, at work *)

(** The Mage joins the restricted queue of [arena_added]. *)
Lemma restricted_add_newcomer_witness :
  add 0%nat 1%nat arena_added =
    Ret tt (mkHeap (characters arena)
                   [mkQueue [0%nat; 1%nat] (Some 0%nat) (Some 1%nat)
                            (Some [true; true])] []).
Proof.
  apply (restricted_add_newcomer 0%nat arena_added
           (mkQueue [0%nat] (Some 0%nat) (Some 1%nat) (Some [true]))
           0%nat [true] 1%nat); try reflexivity.
  intros [E | []]. discriminate E.
Defined.

Lemma restricted_add_never_raises_witness :
  reachable fighter_actions arena_added 0%nat /\
  exists h' : Store,
    add 0%nat 0%nat arena_added = Ret tt h' /\
    reachable fighter_actions h' 0%nat.
Proof.
  split; [exact arena_added_reachable |].
  exact (restricted_add_never_raises fighter_actions arena_added 0%nat 0%nat
           (chr rogue 1%nat 0%nat) arena_added_reachable eq_refl).
Defined.

(** On the opening the Rogue is handed out and the new ticket waits behind
    the Mage; on [emptied] the new ticket comes straight back. *)
Lemma add_then_remove_fifo_witness :
  bind (add 0%nat 1%nat) (fun _ => remove fighter_actions 0%nat) (duel opening) =
    Ret 0%nat (with_queue (duel opening) 0%nat
                 (mkQueue [1%nat; 1%nat] (Some 0%nat) (Some 1%nat) None)) /\
  bind (add 0%nat 1%nat) (fun _ => remove fighter_actions 0%nat) (duel emptied) =
    Ret 1%nat (with_queue (duel emptied) 0%nat
                 (mkQueue [] (Some 0%nat) (Some 1%nat) None)).
Proof.
  split.
  - exact (proj1 (add_then_remove_fifo fighter_actions 0%nat (duel opening)
                    (qrec 0%nat 1%nat opening) 0%nat 1%nat
                    eq_refl eq_refl eq_refl)
             0%nat [1%nat] Key_A [Key_S] eq_refl eq_refl).
  - exact (proj2 (add_then_remove_fifo fighter_actions 0%nat (duel emptied)
                    (qrec 0%nat 1%nat emptied) 0%nat 1%nat
                    eq_refl eq_refl eq_refl)
             Key_A [Key_S] eq_refl eq_refl).
Defined.

(** The Rogue and the Mage in a restricted queue, both able to add. *)
Definition arena_pair : Store :=
  mkHeap (characters arena)
         [mkQueue [0%nat; 1%nat] (Some 0%nat) (Some 1%nat) (Some [true; true])]
         [].

(** At the front of [arena_pair] the Rogue adds herself, and her new ticket
    may add; she adds the Mage, and his new ticket may not. *)
Lemma restricted_add_by_front_witness :
  (exists n : nat,
     get_add_ability_count 0%nat 0%nat arena_pair = Ret n arena_pair /\
     add 0%nat 0%nat arena_pair =
       Ret tt (with_queue arena_pair 0%nat
                 (mkQueue [0%nat; 1%nat; 0%nat] (Some 0%nat) (Some 1%nat)
                          (Some [true; true; negb (2 <=? n)%nat])))) /\
  (exists n : nat,
     get_add_ability_count 0%nat 0%nat arena_pair = Ret n arena_pair /\
     add 0%nat 1%nat arena_pair =
       Ret tt (with_queue arena_pair 0%nat
                 (mkQueue [0%nat; 1%nat; 1%nat] (Some 0%nat) (Some 1%nat)
                          (Some [true; true; false])))).
Proof.
  split.
  - apply (restricted_add_by_front 0%nat arena_pair
             (mkQueue [0%nat; 1%nat] (Some 0%nat) (Some 1%nat)
                      (Some [true; true]))
             0%nat 0%nat [1%nat] [true] 0%nat);
      solve [reflexivity | left; reflexivity].
  - apply (restricted_add_by_front 0%nat arena_pair
             (mkQueue [0%nat; 1%nat] (Some 0%nat) (Some 1%nat)
                      (Some [true; true]))
             0%nat 0%nat [1%nat] [true] 1%nat);
      solve [reflexivity | right; left; reflexivity].
Defined.

End Duel.
